(** * cbor-gen: the code generator [gen.go] and the code it emits

    [gen.go] walks a record type and prints, per field, a fragment of Go
    source from a template.  The development follows the generator function
    by function: every [emitCbor...] function of the source becomes a Rocq
    function of the same name that maps a [Field] (or a [GenTypeInfo]) to
    either a generation error or the meaning of the emitted fragment, an
    encoder or a decoder over byte lists.

    Machine integers are [Z] with their wrap-around written out, bytes are
    [Z] in [0, 256), strings are [string] compared byte-wise, Go maps are
    association lists whose order stands for the order in which [range]
    happens to visit the entries. *)

From Stdlib Require Import ZArith List String Ascii Bool Lia Permutation Sorted.
From stdpp Require Import base list.
Import ListNotations.
Local Open Scope string_scope.
Local Open Scope Z_scope.
Local Open Scope list_scope.
Set Warnings "-register-all".

(** ** Errors *)

Inductive result (A : Type) : Type :=
| OK (a : A)
| Err (msg : string).
Arguments OK {A} a.
Arguments Err {A} msg.

Definition bind {A B : Type} (r : result A) (k : A -> result B) : result B :=
  match r with
  | OK a => k a
  | Err e => Err e
  end.

Notation "'do' x <- e ; k" := (bind e (fun x => k))
  (at level 10, x name, e at level 100, k at level 200).
Notation "'do' ' p <- e ; k" := (bind e (fun x => match x with p => k end))
  (at level 10, p pattern, e at level 100, k at level 200).

(** [xerrors.Errorf("...: %w", err)] *)
Definition wrap {A : Type} (ctx : string) (r : result A) : result A :=
  match r with
  | OK a => OK a
  | Err e => Err (ctx ++ ": " ++ e)
  end.

(** The code that generation produced; [d] stands in when it failed. *)
Definition generated {A : Type} (d : A) (r : result A) : A :=
  match r with
  | OK a => a
  | Err _ => d
  end.

Definition is_ok {A : Type} (r : result A) : bool :=
  match r with OK _ => true | Err _ => false end.

(** ** Machine integers *)

(** Go's conversion [uint64(x)]. *)
Definition uint64 (x : Z) : Z := x mod 2 ^ 64.

(** Go's conversion [int64(x)]: two's complement on 64 bits. *)
Definition int64 (x : Z) : Z := (x + 2 ^ 63) mod 2 ^ 64 - 2 ^ 63.

Definition is_uint64 (x : Z) : Prop := 0 <= x < 2 ^ 64.
Definition is_int64 (x : Z) : Prop := - 2 ^ 63 <= x < 2 ^ 63.

(** ** Strings as byte sequences *)

Definition byte_of_ascii (c : ascii) : Z := Z.of_N (N_of_ascii c).
Definition ascii_of_byte (b : Z) : ascii := ascii_of_N (Z.to_N b).

Definition bytes_of_string (s : string) : list Z :=
  List.map byte_of_ascii (list_ascii_of_string s).
Definition string_of_bytes (l : list Z) : string :=
  string_of_list_ascii (List.map ascii_of_byte l).

(** A Go string literal: the text between double quotes. *)
Definition quoted (s : string) : string :=
  String.String (ascii_of_N 34) (s ++ String.String (ascii_of_N 34) EmptyString).

(** [len(s)] of a Go string, as a machine integer. *)
Definition len_string (s : string) : Z := Z.of_nat (String.length s).

(** ** Constants of [gen.go] *)

Definition MaxLength : Z := 8192.
Definition ByteArrayMaxLen : Z := Z.shiftl 2 20.

(** ** The runtime support library

    The emitted code calls into the runtime half of the package (header
    codec, peekable reader, link scanner).  That half is not part of the
    generator source; it is modelled from section 4.3 of the specification. *)

(** Modelled from the spec: the eight major types of the glossary, whose
    declarations are in the runtime library. *)
Definition MajUnsignedInt : Z := 0.
Definition MajNegativeInt : Z := 1.
Definition MajByteString : Z := 2.
Definition MajTextString : Z := 3.
Definition MajArray : Z := 4.
Definition MajMap : Z := 5.
Definition MajTag : Z := 6.
Definition MajOther : Z := 7.

(** Modelled from the spec: the null sentinel [CborNull], declared in the
    runtime library, is the single byte 0xF6. *)
Definition CborNull : list Z := [246].

(** The [n] low-order bytes of [v], most significant first. *)
Fixpoint be_bytes (n : nat) (v : Z) : list Z :=
  match n with
  | O => []
  | S n' => Z.land (Z.shiftr v (8 * Z.of_nat n')) 255 :: be_bytes n' v
  end.

(** The unsigned value of a big-endian byte sequence. *)
Definition be_value (bs : list Z) : Z :=
  fold_left (fun acc b => Z.lor (Z.shiftl acc 8) b) bs 0.

(** Modelled from the spec: [CborEncodeMajorType], defined in the runtime
    library, gives the canonical header of a major type and a 64-bit value,
    with the shortest-form varint. *)
Definition CborEncodeMajorType (t : Z) (l : Z) : list Z :=
  if l <? 24 then [Z.lor (Z.shiftl t 5) l]
  else if l <? 2 ^ 8 then Z.lor (Z.shiftl t 5) 24 :: be_bytes 1 l
  else if l <? 2 ^ 16 then Z.lor (Z.shiftl t 5) 25 :: be_bytes 2 l
  else if l <? 2 ^ 32 then Z.lor (Z.shiftl t 5) 26 :: be_bytes 4 l
  else Z.lor (Z.shiftl t 5) 27 :: be_bytes 8 l.

(** Modelled from the spec: [WriteMajorTypeHeaderBuf] and [CborWriteHeader],
    defined in the runtime library, write that header to the sink.  The sink
    is the list of bytes written; it never fails. *)
Definition WriteMajorTypeHeaderBuf (t : Z) (l : Z) : result (list Z) :=
  OK (CborEncodeMajorType t l).
Definition CborWriteHeader (t : Z) (l : Z) : result (list Z) :=
  OK (CborEncodeMajorType t l).

(** Modelled from the spec: [WriteBool], defined in the runtime library,
    emits one byte, major type Other with value 20 (false) or 21 (true). *)
Definition WriteBool (b : bool) : result (list Z) :=
  OK (CborEncodeMajorType MajOther (if b then 21 else 20)).

(** *** Readers

    [io.Reader] is an interface; the emitted decoders read through two
    implementations of it, the caller's reader [r] and the peekable wrapper
    [br] returned by [GetPeeker]. *)

Class Reader (R : Type) := {
  (** [io.ReadFull]: exactly [n] bytes and the reader after them, or an
      error when fewer than [n] bytes are left. *)
  ReadFull : nat -> R -> option (list Z * R);
  (** The reader after a read that failed: a read that finds fewer bytes
      than it asks for has consumed the bytes that it found. *)
  Drained : R -> R;
  (** The number of bytes still to come. *)
  Len : R -> nat
}.

(** The caller's reader: the bytes not yet consumed. *)
Definition read_bytes (n : nat) (r : list Z) : option (list Z * list Z) :=
  if (length r <? n)%nat then None else Some (take n r, drop n r).

#[global] Instance bytes_Reader : Reader (list Z) :=
  {| ReadFull := read_bytes; Drained := fun _ => []; Len := @length Z |}.

(** Modelled from the spec: the peekable reader of [GetPeeker], defined in
    the runtime library, adapts a byte reader into one with one byte of
    look-ahead.  [reader] is the wrapped reader, [unread] the byte handed
    back by [UnreadByte] and not yet read again, [lastByte] the byte that
    [UnreadByte] would hand back. *)
Record peeker : Type := mkPeeker {
  reader : list Z;
  unread : option Z;
  lastByte : option Z
}.

(** The wrapper with nothing handed back, in front of [rest]. *)
Definition at_rest (rest : list Z) (lb : option Z) : peeker :=
  {| reader := rest; unread := None; lastByte := lb |}.

(** The bytes still to come when reading through the wrapper. *)
Definition pending (br : peeker) : list Z :=
  match unread br with
  | Some b => b :: reader br
  | None => reader br
  end.

(** Modelled from the spec: reading through the wrapper, defined in the
    runtime library, first gives the byte that was handed back, if any, then
    the bytes of the wrapped reader; the last byte read can be handed back. *)
Definition peeker_read (n : nat) (br : peeker) : option (list Z * peeker) :=
  match n with
  | O => Some ([], br)
  | S _ =>
      match read_bytes n (pending br) with
      | Some (bs, rest) =>
          Some (bs, {| reader := rest; unread := None; lastByte := last bs |})
      | None => None
      end
  end.

(** Modelled from the spec: a read through the wrapper that finds too few
    bytes has taken the byte that was handed back and the bytes of the
    wrapped reader; the last of them, if any, is the byte that can be handed
    back. *)
Definition peeker_drained (br : peeker) : peeker :=
  {| reader := [];
     unread := None;
     lastByte := match last (pending br) with
                 | Some b => Some b
                 | None => lastByte br
                 end |}.

#[global] Instance peeker_Reader : Reader peeker :=
  {| ReadFull := peeker_read; Drained := peeker_drained;
     Len := fun br => length (pending br) |}.

(** Modelled from the spec: [ReadByte] and [UnreadByte] of the peekable
    reader, defined in the runtime library: the one-byte look-ahead and its
    undoing.  A byte can be handed back once, after it was read. *)
Definition ReadByte (br : peeker) : result (Z * peeker) :=
  match peeker_read 1 br with
  | Some ([b], br') => OK (b, br')
  | _ => Err "EOF"
  end.

Definition UnreadByte (br : peeker) : result peeker :=
  match unread br, lastByte br with
  | None, Some b => OK {| reader := reader br; unread := Some b; lastByte := None |}
  | _, _ => Err "cannot unread"
  end.

(** [io.ReadFull] with its error. *)
Definition read_full {R : Type} `{Reader R} (n : nat) (r : R) : result (list Z * R) :=
  match ReadFull n r with
  | Some x => OK x
  | None => Err "unexpected EOF"
  end.

(** Modelled from the spec: [CborReadHeaderBuf], defined in the runtime
    library, reads a single canonical header and returns the 3-bit major
    type and the unsigned 64-bit value.  A header that is not in shortest
    form is not canonical and is refused. *)
Definition CborReadHeaderBuf {R : Type} `{Reader R} (r : R) : result (Z * Z * R) :=
  do '(first, r) <- read_full 1 r;
  let b := be_value first in
  let maj := Z.shiftr (Z.land b 224) 5 in
  let low := Z.land b 31 in
  if low <? 24 then OK (maj, low, r)
  else if low =? 24 then
    do '(next, r) <- read_full 1 r;
    if be_value next <? 24 then Err "cbor input was not canonical (lval 24 with value < 24)"
    else OK (maj, be_value next, r)
  else if low =? 25 then
    do '(next, r) <- read_full 2 r;
    if be_value next <? 2 ^ 8 then Err "cbor input was not canonical (lval 25 with value <= MaxUint8)"
    else OK (maj, be_value next, r)
  else if low =? 26 then
    do '(next, r) <- read_full 4 r;
    if be_value next <? 2 ^ 16 then Err "cbor input was not canonical (lval 26 with value <= MaxUint16)"
    else OK (maj, be_value next, r)
  else if low =? 27 then
    do '(next, r) <- read_full 8 r;
    if be_value next <? 2 ^ 32 then Err "cbor input was not canonical (lval 27 with value <= MaxUint32)"
    else OK (maj, be_value next, r)
  else Err "invalid header".

(** Modelled from the spec: [ReadStringBuf], defined in the runtime library,
    reads a header, checks that the major type is TextString and the length
    at most [MaxLength], then reads that many bytes. *)
Definition ReadStringBuf (br : peeker) : result (string * peeker) :=
  do '(maj, l, br) <- CborReadHeaderBuf br;
  if negb (maj =? MajTextString) then Err "got wrong major type while reading string value"
  else if l >? MaxLength then Err "string in input was too long"
  else
    do '(buf, br) <- read_full (Z.to_nat l) br;
    OK (string_of_bytes buf, br).

(** The reader that a read of [n] bytes leaves, whether it succeeds or
    fails. *)
Definition read_left {R : Type} `{Reader R} (n : nat) (r : R) : R :=
  match ReadFull n r with
  | Some (_, r') => r'
  | None => Drained r
  end.

(** Modelled from the spec: the reader that [CborReadHeaderBuf] leaves when
    it fails.  The bytes of the header that were read are consumed: the
    first byte, unless the input had ended, and the bytes of the value that
    the first byte announces, as far as they were there. *)
Definition header_left {R : Type} `{Reader R} (r : R) : R :=
  match ReadFull 1 r with
  | None => Drained r
  | Some (first, r1) =>
      let low := Z.land (be_value first) 31 in
      if low =? 24 then read_left 1 r1
      else if low =? 25 then read_left 2 r1
      else if low =? 26 then read_left 4 r1
      else if low =? 27 then read_left 8 r1
      else r1
  end.

(** Modelled from the spec: [ScanForLinks], defined in the runtime library,
    skips exactly one TLV value.  The visitor the emitted code passes does
    nothing, so the links found are not recorded.  [remaining] counts the
    items still to skip; every item consumes at least its header byte, hence
    the bound [fuel] on the number of items.  The result is the error, if
    any, and the reader where the scan stopped; a scan that fails has
    consumed what it read, the bytes of the read that failed included. *)
Fixpoint scan_items {R : Type} `{Reader R} (fuel : nat) (remaining : Z) (r : R)
  : option string * R :=
  if remaining <=? 0 then (None, r)
  else
    match fuel with
    | O => (Some "unexpected EOF", r)
    | S fuel' =>
        match CborReadHeaderBuf r with
        | Err e => (Some e, header_left r)
        | OK (maj, extra, r') =>
            if (maj =? MajByteString) || (maj =? MajTextString) then
              match read_full (Z.to_nat extra) r' with
              | Err e => (Some e, Drained r')
              | OK (_, r'') => scan_items fuel' (remaining - 1) r''
              end
            else if maj =? MajTag then scan_items fuel' remaining r'
            else if maj =? MajArray then scan_items fuel' (remaining - 1 + extra) r'
            else if maj =? MajMap then scan_items fuel' (remaining - 1 + extra * 2) r'
            else scan_items fuel' (remaining - 1) r'
        end
    end.

(** Modelled from the spec: [ScanForLinks] skips one value. *)
Definition ScanForLinks {R : Type} `{Reader R} (r : R) : option string * R :=
  scan_items (Len r) 1 r.

(** The reader [r] a decoder is called with: the caller's ordinary reader,
    or, when the caller is another emitted decoder, that decoder's peekable
    reader. *)
Inductive io_Reader : Type :=
| ordinary (r : list Z)
| peekable (br : peeker).

(** Modelled from the spec: [GetPeeker], defined in the runtime library,
    adapts an ordinary byte reader into a peekable one that wraps it; a
    reader that is peekable already needs no adapting. *)
Definition GetPeeker (r : io_Reader) : peeker :=
  match r with
  | ordinary r => {| reader := r; unread := None; lastByte := None |}
  | peekable br => br
  end.

(** [ScanForLinks(r, ...)] inside a decoder whose peekable reader is now
    [br].  An ordinary [r] is the reader that [br] wraps: the scan reads the
    wrapped bytes and does not see what the wrapper holds. *)
Definition ScanForLinks_r (r : io_Reader) (br : peeker) : option string * peeker :=
  match r with
  | ordinary _ =>
      let '(e, r') := ScanForLinks (reader br) in
      (e, {| reader := r'; unread := unread br; lastByte := lastByte br |})
  | peekable _ => ScanForLinks br
  end.

(** ** Types and values

    [reflect.Type], as far as the generator looks at it: the kind, the
    element and key types, the length of an array, and for a struct type its
    package path and name. *)

Module reflect.

Inductive Kind : Type :=
| String | Uint64 | Int64 | Uint8 | Bool | Float64
| Array | Slice | Map | Ptr | Struct.

Inductive type : Type :=
| TString | TUint64 | TInt64 | TUint8 | TBool | TFloat64
| ArrayOf (n : nat) (elem : type)
| SliceOf (elem : type)
| MapOf (key elem : type)
| PtrTo (elem : type)
| StructOf (pkgPath name : string).

Definition kind (t : type) : Kind :=
  match t with
  | TString => String | TUint64 => Uint64 | TInt64 => Int64
  | TUint8 => Uint8 | TBool => Bool | TFloat64 => Float64
  | ArrayOf _ _ => Array | SliceOf _ => Slice | MapOf _ _ => Map
  | PtrTo _ => Ptr | StructOf _ _ => Struct
  end.

End reflect.

Abbreviation GoType := reflect.type.

Definition cidType : GoType := reflect.StructOf "github.com/ipfs/go-cid" "Cid".
Definition bigIntType : GoType := reflect.StructOf "math/big" "Int".
Definition deferredType : GoType :=
  reflect.StructOf "github.com/whyrusleeping/cbor-gen" "Deferred".

(** [t == u] on the struct types the generator compares with. *)
Definition same_struct (t u : GoType) : bool :=
  match t, u with
  | reflect.StructOf p n, reflect.StructOf q m => String.eqb p q && String.eqb n m
  | _, _ => false
  end.

(** [e.PkgPath() + "." + e.Name()] *)
Definition qualified_name (t : GoType) : string :=
  match t with
  | reflect.StructOf p n => p ++ "." ++ n
  | _ => "."
  end.

(** Go values.  A record is the list of the fields that were assigned; a
    field that is not listed holds the zero value of its type, so [T{}] is
    the empty list.  The entries of a map come in the order in which
    [range] visits them, which Go leaves unspecified. *)
Inductive Value : Type :=
| VString (s : string)
| VUint (n : Z)
| VInt (n : Z)
| VBool (b : bool)
| VBytes (bs : list Z)
| VSlice (vs : list Value)
| VMap (m : list (string * Value))
| VPtr (p : option Value)
| VStruct (fs : list (string * Value))
| VCid (c : list Z)
| VBigInt (n : Z)
| VDeferred (raw : list Z).

Fixpoint zero_value (t : GoType) : Value :=
  match t with
  | reflect.TString => VString EmptyString
  | reflect.TUint64 | reflect.TUint8 => VUint 0
  | reflect.TInt64 => VInt 0
  | reflect.TBool => VBool false
  | reflect.TFloat64 => VUint 0
  | reflect.ArrayOf n reflect.TUint8 => VBytes (replicate n 0)
  | reflect.ArrayOf n e => VSlice (replicate n (zero_value e))
  | reflect.SliceOf reflect.TUint8 => VBytes []
  | reflect.SliceOf _ => VSlice []
  | reflect.MapOf _ _ => VMap []
  | reflect.PtrTo _ => VPtr None
  | reflect.StructOf _ _ =>
      if same_struct t cidType then VCid []
      else if same_struct t bigIntType then VBigInt 0
      else if same_struct t deferredType then VDeferred []
      else VStruct []
  end.

(** Lookup in an association list: a record field by name, a map entry by
    key. *)
Fixpoint assoc (k : string) (l : list (string * Value)) : option Value :=
  match l with
  | [] => None
  | (k', v) :: l' => if String.eqb k k' then Some v else assoc k l'
  end.

(** [m[k] = v]: overwrite the entry in place, or add one. *)
Fixpoint assoc_set (k : string) (v : Value) (l : list (string * Value))
  : list (string * Value) :=
  match l with
  | [] => [(k, v)]
  | (k', v') :: l' =>
      if String.eqb k k' then (k, v) :: l' else (k', v') :: assoc_set k v l'
  end.

(** The value a program sent the encoder does not have the Go type of the
    field: the Go compiler excludes it, the embedding reports it. *)
Definition ill_typed {A : Type} : result A := Err "value does not have the type of the field".

(** ** The schema: [Field], [GenTypeInfo], [ParseTypeInfo] *)

(** [IterLabel] only names a loop variable in the emitted text and is left
    out. *)
Record Field : Type := mkField {
  Name : string;
  MapKey : string;
  Pointer : bool;
  Typ : GoType;
  Pkg : string
}.

Record GenTypeInfo : Type := mkGenTypeInfo {
  GName : string;
  Fields : list Field
}.

(** [reflect.StructField]: name, type and the value of the [cborgen] key of
    the tag (empty when the field has none). *)
Record StructField : Type := mkStructField {
  SFName : string;
  SFType : GoType;
  SFTag : string
}.

(** [strings.ToUpper] on the one-byte string [name[0:1]]. *)
Definition to_upper (c : ascii) : ascii :=
  let n := N_of_ascii c in
  if ((97 <=? n) && (n <=? 122))%N then ascii_of_N (n - 32) else c.

Definition nameIsExported (name : string) : bool :=
  match name with
  | EmptyString => true
  | String.String c _ => Ascii.eqb (to_upper c) c
  end.

Definition parseField (pkg : string) (f : StructField) : Field :=
  let '(ft, pointer) :=
    match SFType f with
    | reflect.PtrTo e => (e, true)
    | t => (t, false)
    end in
  let mapk := if String.eqb (SFTag f) EmptyString then SFName f else SFTag f in
  {| Name := SFName f; MapKey := mapk; Pointer := pointer; Typ := ft; Pkg := pkg |}.

(** [reflect.TypeOf(i)] is given by its package path, its name and its
    fields. *)
Definition ParseTypeInfo (pkg name : string) (fields : list StructField) : GenTypeInfo :=
  {| GName := name;
     Fields := List.map (parseField pkg) (List.filter (fun f => nameIsExported (SFName f)) fields) |}.

Definition TupleHeader (gti : GenTypeInfo) : list Z :=
  CborEncodeMajorType MajArray (uint64 (Z.of_nat (length (Fields gti)))).

Definition MapHeader (gti : GenTypeInfo) : list Z :=
  CborEncodeMajorType MajMap (uint64 (Z.of_nat (length (Fields gti)))).

(** ** Go library functions the emitted code calls *)

(** [sort.Strings]: increasing order of [<] on strings, which compares byte
    by byte.  The sorted arrangement of a list is unique (see
    [sorted_unique] below), so the choice of algorithm does not show. *)
Fixpoint insert_sorted (k : string) (l : list string) : list string :=
  match l with
  | [] => [k]
  | k' :: l' => if String.leb k k' then k :: l else k' :: insert_sorted k l'
  end.

Definition sort_Strings (l : list string) : list string :=
  fold_right insert_sorted [] l.

(** [Bytes] of [big.Int]: the absolute value, big-endian, without leading
    zeros. *)
Definition big_Bytes (n : Z) : list Z :=
  let a := Z.abs n in
  if a =? 0 then [] else be_bytes (Z.to_nat (Z.log2 a / 8 + 1)) a.

(** [SetBytes] of [big.Int]: the unsigned big-endian value. *)
Definition big_SetBytes (bs : list Z) : Z := be_value bs.

(** Modelled from the spec: the codec of content identifiers ([WriteCidBuf],
    [ReadCid]) and the two methods of the deferred blob are defined in the
    runtime library; the specification leaves them opaque, and so they are
    parameters of the development. *)
Class External : Type := {
  WriteCidBuf : list Z -> result (list Z);
  ReadCid : peeker -> result (list Z * peeker);
  Deferred_MarshalCBOR : option (list Z) -> result (list Z);
  Deferred_UnmarshalCBOR : peeker -> result (list Z * peeker)
}.

(** The meaning of an emitted encoding fragment: from the value of the
    expression [{{ .Name }}] to the bytes written to [w]. *)
Definition Encoder : Type := Value -> result (list Z).

(** The meaning of an emitted decoding fragment: from the current value of
    [{{ .Name }}] and the reader [br] to the new value and the reader. *)
Definition Decoder : Type := Value -> peeker -> result (Value * peeker).

(** Statements in sequence, each writing to [w]. *)
Fixpoint write_all {A : Type} (enc : A -> result (list Z)) (l : list A) : result (list Z) :=
  match l with
  | [] => OK []
  | x :: l' =>
      do b <- enc x;
      do bs <- write_all enc l';
      OK (b ++ bs)
  end.

(** The Go type of the expression [t.Name] for a field of the schema. *)
Definition static_type (f : Field) : GoType :=
  if Pointer f then reflect.PtrTo (Typ f) else Typ f.

Definition field_value (fs : list (string * Value)) (f : Field) : Value :=
  default (zero_value (static_type f)) (assoc (Name f) fs).

Section Emit.

Context `{External}.

(** The [MarshalCBOR] and [UnmarshalCBOR] methods of the named types in
    scope when the emitted code is compiled, by receiver type [*T].  The
    receiver of [MarshalCBOR] may be nil. *)
Variable MarshalCBOR_of : GoType -> option Value -> result (list Z).
Variable UnmarshalCBOR_of : GoType -> Value -> peeker -> result (Value * peeker).

(** [x.MarshalCBOR(w)] for an expression [x] of Go type [static]. *)
Definition call_MarshalCBOR (static : GoType) (x : Value) : result (list Z) :=
  match static, x with
  | reflect.PtrTo t, VPtr p => MarshalCBOR_of t p
  | reflect.PtrTo _, _ => ill_typed
  | t, _ => MarshalCBOR_of t (Some x)
  end.

Definition emitCborMarshalStringField (f : Field) : result Encoder :=
  if Pointer f then Err "pointers to strings not supported"
  else OK (fun x =>
    match x with
    | VString s =>
        if len_string s >? MaxLength
        then Err ("Value in field " ++ Name f ++ " was too long")
        else
          do h <- WriteMajorTypeHeaderBuf MajTextString (uint64 (len_string s));
          OK (h ++ bytes_of_string s)
    | _ => ill_typed
    end).

Definition emitCborMarshalStructField (f : Field) : result Encoder :=
  if same_struct (Typ f) bigIntType then
    OK (fun x =>
      do h <- CborWriteHeader MajTag 2;
      do b <- match x with
              | VPtr None => OK []
              | VPtr (Some (VBigInt n)) => OK (big_Bytes n)
              | _ => ill_typed
              end;
      do h' <- CborWriteHeader MajByteString (uint64 (Z.of_nat (length b)));
      OK (h ++ h' ++ b))
  else if same_struct (Typ f) cidType then
    OK (fun x =>
      if Pointer f then
        match x with
        | VPtr None => OK CborNull
        | VPtr (Some (VCid c)) =>
            wrap ("failed to write cid field " ++ Name f) (WriteCidBuf c)
        | _ => ill_typed
        end
      else
        match x with
        | VCid c =>
            wrap ("failed to write cid field " ++ Name f) (WriteCidBuf c)
        | _ => ill_typed
        end)
  else OK (fun x => call_MarshalCBOR (static_type f) x).

Definition emitCborMarshalUint64Field (f : Field) : result Encoder :=
  OK (fun x =>
    if Pointer f then
      match x with
      | VPtr None => OK CborNull
      | VPtr (Some (VUint n)) => WriteMajorTypeHeaderBuf MajUnsignedInt (uint64 n)
      | _ => ill_typed
      end
    else
      match x with
      | VUint n => WriteMajorTypeHeaderBuf MajUnsignedInt (uint64 n)
      | _ => ill_typed
      end).

Definition emitCborMarshalUint8Field (f : Field) : result Encoder :=
  if Pointer f then Err "pointers to integers not supported"
  else OK (fun x =>
    match x with
    | VUint n => WriteMajorTypeHeaderBuf MajUnsignedInt (uint64 n)
    | _ => ill_typed
    end).

Definition emitCborMarshalInt64Field (f : Field) : result Encoder :=
  if Pointer f then Err "pointers to integers not supported"
  else OK (fun x =>
    match x with
    | VInt n =>
        if n >=? 0 then WriteMajorTypeHeaderBuf MajUnsignedInt (uint64 n)
        else WriteMajorTypeHeaderBuf MajNegativeInt (uint64 (int64 (int64 (- n) - 1)))
    | _ => ill_typed
    end).

Definition emitCborMarshalBoolField (f : Field) : result Encoder :=
  OK (fun x =>
    match x with
    | VBool b => WriteBool b
    | _ => ill_typed
    end).

Definition emitCborMarshalMapField (f : Field) : result Encoder :=
  match Typ f with
  | reflect.MapOf key elem =>
      do kenc <-
        match reflect.kind key with
        | reflect.String =>
            emitCborMarshalStringField
              {| Name := "k"; MapKey := EmptyString; Pointer := false; Typ := reflect.TString; Pkg := EmptyString |}
        | _ => Err "non-string map keys are not yet supported"
        end;
      do venc <-
        match elem with
        | reflect.PtrTo (reflect.StructOf _ _) | reflect.StructOf _ _ =>
            emitCborMarshalStructField
              {| Name := "v"; MapKey := EmptyString; Pointer := false; Typ := elem; Pkg := Pkg f |}
        | reflect.PtrTo _ => Err "unsupported map elem ptr type"
        | _ => Err "currently unsupported map elem type"
        end;
      OK (fun x =>
        match x with
        | VMap m =>
            if Z.of_nat (length m) >? 4096
            then Err ("cannot marshal " ++ Name f ++ " map too large")
            else
              do h <- WriteMajorTypeHeaderBuf MajMap (uint64 (Z.of_nat (length m)));
              let keys := sort_Strings (List.map fst m) in
              do body <- write_all (fun k =>
                  let v := default (zero_value elem) (assoc k m) in
                  do kb <- kenc (VString k);
                  do vb <- venc v;
                  OK (kb ++ vb)) keys;
              OK (h ++ body)
        | _ => ill_typed
        end)
  | _ => Err "not a map type"
  end.

(** [emitCborMarshalSliceField] recurses on the element type; the
    recursion is on [ty], the field's [Type]. *)
Fixpoint marshalSlice (name : string) (pkg : string) (pointer : bool) (ty : GoType)
  {struct ty} : result Encoder :=
  if pointer then Err "pointers to slices not supported"
  else
    match ty with
    | reflect.ArrayOf _ e0 | reflect.SliceOf e0 =>
        match e0 with
        | reflect.TUint8 =>
            OK (fun x =>
              match x with
              | VBytes bs =>
                  if Z.of_nat (length bs) >? ByteArrayMaxLen
                  then Err ("Byte array in field " ++ name ++ " was too long")
                  else
                    do h <- WriteMajorTypeHeaderBuf MajByteString (uint64 (Z.of_nat (length bs)));
                    OK (h ++ bs)
              | _ => ill_typed
              end)
        | _ =>
            let e := match e0 with reflect.PtrTo e' => e' | _ => e0 end in
            do eenc <-
              match e with
              | reflect.StructOf _ _ =>
                  if same_struct e cidType then
                    OK (fun v =>
                      match v with
                      | VCid c =>
                          wrap ("failed writing cid field " ++ name) (WriteCidBuf c)
                      | _ => ill_typed
                      end)
                  else OK (fun v => call_MarshalCBOR e0 v)
              | reflect.TUint64 | reflect.TUint8 =>
                  OK (fun v =>
                    match v with
                    | VUint n => CborWriteHeader MajUnsignedInt (uint64 n)
                    | _ => ill_typed
                    end)
              | reflect.TInt64 =>
                  emitCborMarshalInt64Field
                    {| Name := "v"; MapKey := EmptyString; Pointer := false; Typ := e; Pkg := pkg |}
              | reflect.SliceOf _ => marshalSlice "v" pkg false e
              | _ => Err "do not yet support slices of this kind yet"
              end;
            OK (fun x =>
              match x with
              | VSlice vs =>
                  if Z.of_nat (length vs) >? MaxLength
                  then Err ("Slice value in field " ++ name ++ " was too long")
                  else
                    do h <- WriteMajorTypeHeaderBuf MajArray (uint64 (Z.of_nat (length vs)));
                    do body <- write_all eenc vs;
                    OK (h ++ body)
              | _ => ill_typed
              end)
        end
    | _ => Err "not a slice type"
    end.

Definition emitCborMarshalSliceField (f : Field) : result Encoder :=
  marshalSlice (Name f) (Pkg f) (Pointer f) (Typ f).

Definition with_name (f : Field) (n : string) : Field :=
  {| Name := n; MapKey := MapKey f; Pointer := Pointer f; Typ := Typ f; Pkg := Pkg f |}.

(** The [switch f.Type.Kind()] of the two record encoders, after
    [f.Name = "t." + f.Name]. *)
Definition marshalField (gti : GenTypeInfo) (f : Field) : result Encoder :=
  let f := with_name f ("t." ++ Name f) in
  match reflect.kind (Typ f) with
  | reflect.String => emitCborMarshalStringField f
  | reflect.Struct => emitCborMarshalStructField f
  | reflect.Uint64 => emitCborMarshalUint64Field f
  | reflect.Uint8 => emitCborMarshalUint8Field f
  | reflect.Int64 => emitCborMarshalInt64Field f
  | reflect.Array | reflect.Slice => emitCborMarshalSliceField f
  | reflect.Bool => emitCborMarshalBoolField f
  | reflect.Map => emitCborMarshalMapField f
  | _ => Err ("field " ++ Name f ++ " of " ++ GName gti ++ " has unsupported kind")
  end.

(** [for _, f := range gti.Fields] at generation time: the fragments of
    all fields, or the first error. *)
Fixpoint emit_fields {A : Type} (emit : Field -> result A) (fields : list Field)
  : result (list (Field * A)) :=
  match fields with
  | [] => OK []
  | f :: fields' =>
      do a <- emit f;
      do rest <- emit_fields emit fields';
      OK ((f, a) :: rest)
  end.

Definition emitCborMarshalStructTuple (gti : GenTypeInfo)
  : result (option Value -> result (list Z)) :=
  let lengthBuf := TupleHeader gti in
  do encs <- emit_fields (marshalField gti) (Fields gti);
  OK (fun t =>
    match t with
    | None => OK CborNull
    | Some (VStruct fs) =>
        do body <- write_all (fun '(f, enc) => enc (field_value fs f)) encs;
        OK (lengthBuf ++ body)
    | Some _ => ill_typed
    end).

Definition emitCborMarshalStructMap (gti : GenTypeInfo)
  : result (option Value -> result (list Z)) :=
  do encs <- emit_fields (fun f =>
      do kenc <- emitCborMarshalStringField
        {| Name := quoted (MapKey f); MapKey := EmptyString; Pointer := false;
           Typ := reflect.TString; Pkg := EmptyString |};
      do venc <- marshalField gti f;
      OK (kenc, venc)) (Fields gti);
  OK (fun t =>
    match t with
    | None => OK CborNull
    | Some (VStruct fs) =>
        do body <- write_all (fun '(f, (kenc, venc)) =>
            do kb <- kenc (VString (MapKey f));
            do vb <- venc (field_value fs f);
            OK (kb ++ vb)) encs;
        OK (MapHeader gti ++ body)
    | Some _ => ill_typed
    end).

(** *** Decoders *)

(** [for i := from; i < from + n; i++] over a loop state. *)
Fixpoint for_range {St : Type} (from : nat) (n : nat) (body : nat -> St -> result St)
  (s : St) : result St :=
  match n with
  | O => OK s
  | S n' => do s' <- body from s; for_range (S from) n' body s'
  end.

Definition emitCborUnmarshalStringField (f : Field) : result Decoder :=
  if Pointer f then Err "pointers to strings not supported"
  else OK (fun _ br =>
    do '(sval, br) <- ReadStringBuf br;
    OK (VString sval, br)).

Definition emitCborUnmarshalStructField (f : Field) : result Decoder :=
  if same_struct (Typ f) bigIntType then
    OK (fun _ br =>
      do '(maj, extra, br) <- CborReadHeaderBuf br;
      if negb (maj =? MajTag) || negb (extra =? 2)
      then Err "big ints should be cbor bignums"
      else
        do '(maj, extra, br) <- CborReadHeaderBuf br;
        if negb (maj =? MajByteString)
        then Err "big ints should be tagged cbor byte strings"
        else if extra >? 256 then Err (Name f ++ ": cbor bignum was too large")
        else if extra >? 0 then
          do '(buf, br) <- read_full (Z.to_nat extra) br;
          OK (VPtr (Some (VBigInt (big_SetBytes buf))), br)
        else OK (VPtr (Some (VBigInt 0)), br))
  else if same_struct (Typ f) cidType then
    OK (fun cur br =>
      if Pointer f then
        do '(b, br) <- ReadByte br;
        if negb (b =? hd 0 CborNull) then
          do br <- UnreadByte br;
          do '(c, br) <- wrap ("failed to read cid field " ++ Name f) (ReadCid br);
          OK (VPtr (Some (VCid c)), br)
        else OK (cur, br)
      else
        do '(c, br) <- wrap ("failed to read cid field " ++ Name f) (ReadCid br);
        OK (VCid c, br))
  else if same_struct (Typ f) deferredType then
    OK (fun _ br =>
      do '(raw, br) <- wrap "failed to read deferred field" (Deferred_UnmarshalCBOR br);
      OK (if Pointer f then VPtr (Some (VDeferred raw)) else VDeferred raw, br))
  else
    OK (fun cur br =>
      if Pointer f then
        do '(b, br) <- ReadByte br;
        if negb (b =? hd 0 CborNull) then
          do br <- UnreadByte br;
          do '(v, br) <- wrap ("unmarshaling " ++ Name f ++ " pointer")
                           (UnmarshalCBOR_of (Typ f) (zero_value (Typ f)) br);
          OK (VPtr (Some v), br)
        else OK (cur, br)
      else
        wrap ("unmarshaling " ++ Name f) (UnmarshalCBOR_of (Typ f) cur br)).

Definition emitCborUnmarshalInt64Field (f : Field) : result Decoder :=
  OK (fun _ br =>
    do '(maj, extra, br) <- CborReadHeaderBuf br;
    if maj =? MajUnsignedInt then
      let extraI := int64 extra in
      if extraI <? 0 then Err "int64 positive overflow"
      else OK (VInt extraI, br)
    else if maj =? MajNegativeInt then
      let extraI := int64 extra in
      if extraI <? 0 then Err "int64 negative oveflow"
      else OK (VInt (int64 (-1 - extraI)), br)
    else Err "wrong type for int64 field").

Definition emitCborUnmarshalUint64Field (f : Field) : result Decoder :=
  OK (fun cur br =>
    if Pointer f then
      do '(b, br) <- ReadByte br;
      if negb (b =? hd 0 CborNull) then
        do br <- UnreadByte br;
        do '(maj, extra, br) <- CborReadHeaderBuf br;
        if negb (maj =? MajUnsignedInt) then Err "wrong type for uint64 field"
        else OK (VPtr (Some (VUint extra)), br)
      else OK (cur, br)
    else
      do '(maj, extra, br) <- CborReadHeaderBuf br;
      if negb (maj =? MajUnsignedInt) then Err "wrong type for uint64 field"
      else OK (VUint extra, br)).

Definition emitCborUnmarshalUint8Field (f : Field) : result Decoder :=
  OK (fun _ br =>
    do '(maj, extra, br) <- CborReadHeaderBuf br;
    if negb (maj =? MajUnsignedInt) then Err "wrong type for uint8 field"
    else if extra >? 255 then Err "integer in input was too large for uint8 field"
    else OK (VUint (extra mod 2 ^ 8), br)).

Definition emitCborUnmarshalBoolField (f : Field) : result Decoder :=
  OK (fun _ br =>
    do '(maj, extra, br) <- CborReadHeaderBuf br;
    if negb (maj =? MajOther) then Err "booleans must be major type 7"
    else if extra =? 20 then OK (VBool false, br)
    else if extra =? 21 then OK (VBool true, br)
    else Err "booleans are either major type 7, value 20 or 21").

Definition emitCborUnmarshalMapField (f : Field) : result Decoder :=
  match Typ f with
  | reflect.MapOf key elem =>
      do kdec <-
        match reflect.kind key with
        | reflect.String =>
            emitCborUnmarshalStringField
              {| Name := "k"; MapKey := EmptyString; Pointer := false; Typ := reflect.TString; Pkg := EmptyString |}
        | _ => Err "maps with non-string keys are not yet supported"
        end;
      do vdec <-
        match elem with
        | reflect.PtrTo (reflect.StructOf _ _ as t) =>
            emitCborUnmarshalStructField
              {| Name := "v"; MapKey := EmptyString; Pointer := true; Typ := t; Pkg := Pkg f |}
        | reflect.PtrTo _ => Err "unsupported map elem ptr type"
        | reflect.StructOf _ _ =>
            emitCborUnmarshalStructField
              {| Name := "v"; MapKey := EmptyString; Pointer := false; Typ := elem; Pkg := Pkg f |}
        | _ => Err "currently only support maps of structs"
        end;
      OK (fun _ br =>
        do '(maj, extra, br) <- CborReadHeaderBuf br;
        if negb (maj =? MajMap) then Err "expected a map (major type 5)"
        else if extra >? 4096 then Err (Name f ++ ": map too large")
        else
          do '(m, br) <- for_range 0 (Z.to_nat extra) (fun _ '(m, br) =>
              do '(k, br) <- kdec (VString EmptyString) br;
              do '(v, br) <- vdec (zero_value elem) br;
              match k with
              | VString k => OK (assoc_set k v m, br)
              | _ => ill_typed
              end) ([], br);
          OK (VMap m, br))
  | _ => Err "not a map type"
  end.

(** [emitCborUnmarshalSliceField] recurses on the element type, like the
    encoder.  [X[i] = v] is always in range: the slice was just made with
    [extra] elements, the array has [extra] elements. *)
Fixpoint unmarshalSlice (name : string) (pkg : string) (ty : GoType) {struct ty}
  : result Decoder :=
  match ty with
  | reflect.ArrayOf _ e0 | reflect.SliceOf e0 =>
      let IsArray := match ty with reflect.ArrayOf _ _ => true | _ => false end in
      let Len := match ty with reflect.ArrayOf n _ => Z.of_nat n | _ => 0 end in
      let pointer := match e0 with reflect.PtrTo _ => true | _ => false end in
      let e := match e0 with reflect.PtrTo e' => e' | _ => e0 end in
      let fresh (extra : Z) (cur : Value) (made : Value) : result Value :=
        if IsArray then
          if negb (extra =? Len) then Err "expected array to have Len elements"
          else OK (zero_value ty)
        else OK (if extra >? 0 then made else cur) in
      match e with
      | reflect.TUint8 =>
          OK (fun cur br =>
            do '(maj, extra, br) <- CborReadHeaderBuf br;
            if extra >? ByteArrayMaxLen then Err (name ++ ": byte array too large")
            else if negb (maj =? MajByteString) then Err "expected byte array"
            else
              do x <- fresh extra cur (VBytes (replicate (Z.to_nat extra) 0));
              match x with
              | VBytes bs =>
                  do '(buf, br) <- read_full (length bs) br;
                  OK (VBytes buf, br)
              | _ => ill_typed
              end)
      | _ =>
          do edec <-
            match e with
            | reflect.StructOf _ _ =>
                if String.eqb (qualified_name e) "github.com/ipfs/go-cid.Cid" then
                  OK (fun (_ : Value) br =>
                    do '(c, br) <- wrap ("reading cid field " ++ name ++ " failed") (ReadCid br);
                    OK (VCid c, br))
                else
                  OK (fun (_ : Value) br =>
                    do '(v, br) <- UnmarshalCBOR_of e (zero_value e) br;
                    OK (if pointer then VPtr (Some v) else v, br))
            | reflect.TUint64 =>
                OK (fun (_ : Value) br =>
                  do '(maj, val, br) <- wrap ("failed to read uint64 for " ++ name ++ " slice")
                                          (CborReadHeaderBuf br);
                  if negb (maj =? MajUnsignedInt)
                  then Err ("value read for array " ++ name ++ " was not a uint")
                  else OK (VUint val, br))
            | reflect.TInt64 =>
                emitCborUnmarshalInt64Field
                  {| Name := name ++ "[i]"; MapKey := EmptyString; Pointer := false; Typ := e; Pkg := pkg |}
            | reflect.ArrayOf _ _ | reflect.SliceOf _ => unmarshalSlice (name ++ "[i]") pkg e
            | _ => Err "do not yet support slices of this kind yet"
            end;
          OK (fun cur br =>
            do '(maj, extra, br) <- CborReadHeaderBuf br;
            if extra >? MaxLength then Err (name ++ ": array too large")
            else if negb (maj =? MajArray) then Err "expected cbor array"
            else
              do x <- fresh extra cur (VSlice (replicate (Z.to_nat extra) (zero_value e0)));
              match x with
              | VSlice vs =>
                  do '(vs, br) <- for_range 0 (Z.to_nat extra) (fun i '(vs, br) =>
                      do '(v, br) <- edec (default (zero_value e0) (vs !! i)) br;
                      OK (<[i := v]> vs, br)) (vs, br);
                  OK (VSlice vs, br)
              | _ => ill_typed
              end)
      end
  | _ => Err "not a slice type"
  end.

Definition emitCborUnmarshalSliceField (f : Field) : result Decoder :=
  unmarshalSlice (Name f) (Pkg f) (Typ f).

(** The [switch f.Type.Kind()] of the two record decoders. *)
Definition unmarshalField (gti : GenTypeInfo) (f : Field) : result Decoder :=
  let f := with_name f ("t." ++ Name f) in
  match reflect.kind (Typ f) with
  | reflect.String => emitCborUnmarshalStringField f
  | reflect.Struct => emitCborUnmarshalStructField f
  | reflect.Uint64 => emitCborUnmarshalUint64Field f
  | reflect.Uint8 => emitCborUnmarshalUint8Field f
  | reflect.Int64 => emitCborUnmarshalInt64Field f
  | reflect.Array | reflect.Slice => emitCborUnmarshalSliceField f
  | reflect.Bool => emitCborUnmarshalBoolField f
  | reflect.Map => emitCborUnmarshalMapField f
  | _ => Err ("field " ++ Name f ++ " of " ++ GName gti ++ " has unsupported kind")
  end.

(** [t.Name] is decoded in place: the fragment sees the field's current
    value and leaves its new one. *)
Definition decode_into (f : Field) (dec : Decoder) (fs : list (string * Value))
  (br : peeker) : result (list (string * Value) * peeker) :=
  do '(v, br) <- dec (field_value fs f) br;
  OK (assoc_set (Name f) v fs, br).

Fixpoint decode_fields (decs : list (Field * Decoder)) (fs : list (string * Value))
  (br : peeker) : result (list (string * Value) * peeker) :=
  match decs with
  | [] => OK (fs, br)
  | (f, dec) :: decs' =>
      do '(fs, br) <- decode_into f dec fs br;
      decode_fields decs' fs br
  end.

(** The meaning of an emitted [UnmarshalCBOR]: from the reader [r] and the
    record [*t] as the caller left it to the decoded record and the state
    of the peekable reader. *)
Definition Unmarshaler : Type := io_Reader -> Value -> result (Value * peeker).

Definition emitCborUnmarshalStructTuple (gti : GenTypeInfo) : result Unmarshaler :=
  do decs <- emit_fields (unmarshalField gti) (Fields gti);
  OK (fun r t =>
    let t := VStruct [] in
    let br := GetPeeker r in
    do '(maj, extra, br) <- CborReadHeaderBuf br;
    if negb (maj =? MajArray) then Err "cbor input should be of type array"
    else if negb (extra =? Z.of_nat (length (Fields gti)))
    then Err "cbor input had wrong number of fields"
    else
      match t with
      | VStruct fs =>
          do '(fs, br) <- decode_fields decs fs br;
          OK (VStruct fs, br)
      | _ => ill_typed
      end).

(** The [switch name] of the named-map decoder: the first field whose
    [MapKey] is [name], if any. *)
Fixpoint find_case (name : string) (decs : list (Field * Decoder)) : option (Field * Decoder) :=
  match decs with
  | [] => None
  | (f, dec) :: decs' =>
      if String.eqb name (MapKey f) then Some (f, dec) else find_case name decs'
  end.

(** One iteration of the loop of the named-map decoder. *)
Definition map_iteration (r : io_Reader) (kdec : Decoder) (decs : list (Field * Decoder))
  (st : string * list (string * Value) * peeker)
  : result (string * list (string * Value) * peeker) :=
  let '(name, fs, br) := st in
  do '(k, br) <- kdec (VString name) br;
  match k with
  | VString name =>
      match find_case name decs with
      | Some (f, dec) =>
          do '(fs, br) <- decode_into f dec fs br;
          OK (name, fs, br)
      | None =>
          (* Field doesn't exist on this type, so ignore it *)
          let '(_, br) := ScanForLinks_r r br in
          OK (name, fs, br)
      end
  | _ => ill_typed
  end.

Definition emitCborUnmarshalStructMap (gti : GenTypeInfo) : result Unmarshaler :=
  do kdec <- emitCborUnmarshalStringField
    {| Name := "name"; MapKey := EmptyString; Pointer := false; Typ := reflect.TString; Pkg := EmptyString |};
  do decs <- emit_fields (unmarshalField gti) (Fields gti);
  OK (fun r t =>
    let t := VStruct [] in
    let br := GetPeeker r in
    do '(maj, extra, br) <- CborReadHeaderBuf br;
    if negb (maj =? MajMap) then Err "cbor input should be of type map"
    else if extra >? MaxLength then Err (GName gti ++ ": map struct too large")
    else
      match t with
      | VStruct fs =>
          let name := EmptyString in
          let n := extra in
          do '(_, fs, br) <- for_range 0 (Z.to_nat n)
                               (fun _ => map_iteration r kdec decs) (name, fs, br);
          OK (VStruct fs, br)
      | _ => ill_typed
      end).

End Emit.

(** ** Linking: the methods of the generated types

    The emitted code of one record calls the [MarshalCBOR] and
    [UnmarshalCBOR] methods of the types of its fields, which are emitted
    code in turn.  [env] gives, by qualified name, the records for which
    code is generated and the representation chosen for each; [fuel] bounds
    the depth of the calls. *)

Inductive Repr : Type := Tuple | NamedMap.

Definition TypeEnv : Type := string -> option (Repr * GenTypeInfo).

Section Link.

Context `{External}.
Variable env : TypeEnv.

Fixpoint MarshalCBOR (fuel : nat) (t : GoType) (recv : option Value) : result (list Z) :=
  match fuel with
  | O => Err "out of fuel"
  | S fuel' =>
      if same_struct t deferredType then
        match recv with
        | None => Deferred_MarshalCBOR None
        | Some (VDeferred raw) => Deferred_MarshalCBOR (Some raw)
        | Some _ => ill_typed
        end
      else
        match env (qualified_name t) with
        | Some (Tuple, gti) =>
            do m <- emitCborMarshalStructTuple (MarshalCBOR fuel') gti; m recv
        | Some (NamedMap, gti) =>
            do m <- emitCborMarshalStructMap (MarshalCBOR fuel') gti; m recv
        | None => Err "type has no method MarshalCBOR"
        end
  end.

Definition emitCborUnmarshalStruct (repr : Repr) := 
  match repr with
  | Tuple => emitCborUnmarshalStructTuple
  | NamedMap => emitCborUnmarshalStructMap
  end.

Fixpoint UnmarshalCBOR (fuel : nat) (t : GoType) (cur : Value) (br : peeker)
  : result (Value * peeker) :=
  match fuel with
  | O => Err "out of fuel"
  | S fuel' =>
      if same_struct t deferredType then
        do '(raw, br) <- Deferred_UnmarshalCBOR br;
        OK (VDeferred raw, br)
      else
        match env (qualified_name t) with
        | Some (repr, gti) =>
            do u <- emitCborUnmarshalStruct repr (UnmarshalCBOR fuel') gti;
            u (peekable br) cur
        | None => Err "type has no method UnmarshalCBOR"
        end
  end.

(** The two entry points of a generated record, called by a program with
    a record value and with an ordinary reader over [input]. *)
Definition Marshal (fuel : nat) (repr : Repr) (gti : GenTypeInfo) (t : Value)
  : result (list Z) :=
  match repr with
  | Tuple => do m <- emitCborMarshalStructTuple (MarshalCBOR fuel) gti; m (Some t)
  | NamedMap => do m <- emitCborMarshalStructMap (MarshalCBOR fuel) gti; m (Some t)
  end.

Definition Unmarshal (fuel : nat) (repr : Repr) (gti : GenTypeInfo) (t : Value)
  (input : list Z) : result (Value * peeker) :=
  do u <- emitCborUnmarshalStruct repr (UnmarshalCBOR fuel) gti;
  u (ordinary input) t.

End Link.

(** ** Schemas used in the examples

    The records of [testing/types.go] that the examples need and the
    records of the scenarios of the specification. *)

(** The examples contain neither content identifiers nor deferred blobs. *)
Definition no_External : External := {|
  WriteCidBuf := fun _ => Err "not used";
  ReadCid := fun _ => Err "not used";
  Deferred_MarshalCBOR := fun _ => Err "not used";
  Deferred_UnmarshalCBOR := fun _ => Err "not used"
|}.

Definition no_Encoder : Encoder := fun _ => Err "no code was generated".
Definition no_Decoder : Decoder := fun _ _ => Err "no code was generated".

Definition no_methods_M : GoType -> option Value -> result (list Z) :=
  fun _ _ => Err "type has no method MarshalCBOR".
Definition no_methods_U : GoType -> Value -> peeker -> result (Value * peeker) :=
  fun _ _ _ => Err "type has no method UnmarshalCBOR".

(** The package of [testing/types.go]. *)
Definition testing : string := "github.com/whyrusleeping/cbor-gen/testing".

(** The record of scenario 1 of the specification, without fields. *)
Definition Empty : GenTypeInfo := ParseTypeInfo testing "Empty" [].

(** The record of scenario 2: [type Single struct { Foo string }]. *)
Definition Single : GenTypeInfo :=
  ParseTypeInfo testing "Single" [mkStructField "Foo" reflect.TString EmptyString].

(** The record of scenario 4: [type Signed struct { S int64 }], and its
    field as the record encoder passes it on. *)
Definition Signed : GenTypeInfo :=
  ParseTypeInfo testing "Signed" [mkStructField "S" reflect.TInt64 EmptyString].

Definition Signed_S : Field :=
  {| Name := "t.S"; MapKey := "S"; Pointer := false; Typ := reflect.TInt64; Pkg := testing |}.

(** [type SimpleTypeOne struct { Foo string; Value uint64; Binary []byte;
    Signed int64; NString NamedString }] *)
Definition SimpleTypeOne : GenTypeInfo :=
  ParseTypeInfo testing "SimpleTypeOne"
    [mkStructField "Foo" reflect.TString EmptyString;
     mkStructField "Value" reflect.TUint64 EmptyString;
     mkStructField "Binary" (reflect.SliceOf reflect.TUint8) EmptyString;
     mkStructField "Signed" reflect.TInt64 EmptyString;
     mkStructField "NString" reflect.TString EmptyString].

(** [type SimpleTypeTwo struct { Stuff *SimpleTypeTwo; Others []uint64;
    SignedOthers []int64; Test [][]byte; Dog string; Numbers []NamedNumber;
    Pizza *uint64; PointyPizza *NamedNumber; Arrrrrghay [3]SimpleTypeOne }],
    a record that refers to itself. *)
Definition SimpleTypeTwo : GenTypeInfo :=
  ParseTypeInfo testing "SimpleTypeTwo"
    [mkStructField "Stuff" (reflect.PtrTo (reflect.StructOf testing "SimpleTypeTwo")) EmptyString;
     mkStructField "Others" (reflect.SliceOf reflect.TUint64) EmptyString;
     mkStructField "SignedOthers" (reflect.SliceOf reflect.TInt64) EmptyString;
     mkStructField "Test" (reflect.SliceOf (reflect.SliceOf reflect.TUint8)) EmptyString;
     mkStructField "Dog" reflect.TString EmptyString;
     mkStructField "Numbers" (reflect.SliceOf reflect.TUint64) EmptyString;
     mkStructField "Pizza" (reflect.PtrTo reflect.TUint64) EmptyString;
     mkStructField "PointyPizza" (reflect.PtrTo reflect.TUint64) EmptyString;
     mkStructField "Arrrrrghay"
       (reflect.ArrayOf 3 (reflect.StructOf testing "SimpleTypeOne")) EmptyString].

(** The records for which code is generated in the examples, all in tuple
    form. *)
Definition testing_env : TypeEnv :=
  fun name =>
    if String.eqb name (testing ++ ".SimpleTypeOne") then Some (Tuple, SimpleTypeOne)
    else if String.eqb name (testing ++ ".SimpleTypeTwo") then Some (Tuple, SimpleTypeTwo)
    else None.

(** A [SimpleTypeTwo] whose [Stuff] points to another one, and its bytes. *)
Definition two : Value :=
  VStruct [("Stuff", VPtr (Some (VStruct [("Dog", VString "inner")])));
           ("Others", VSlice [VUint 1; VUint 300]);
           ("SignedOthers", VSlice [VInt (-5)]);
           ("Test", VSlice [VBytes [1; 2]; VBytes []]);
           ("Dog", VString "rex");
           ("PointyPizza", VPtr (Some (VUint 70000)))].

Definition two_bytes : list Z :=
  [137; 137; 246; 128; 128; 128; 101; 105; 110; 110; 101; 114; 128;
   246; 246; 131; 133; 96; 0; 64; 0; 96; 133; 96; 0; 64; 0; 96; 133;
   96; 0; 64; 0; 96; 130; 1; 25; 1; 44; 129; 36; 130; 66; 1; 2; 64;
   99; 114; 101; 120; 128; 246; 26; 0; 1; 17; 112; 131; 133; 96; 0;
   64; 0; 96; 133; 96; 0; 64; 0; 96; 133; 96; 0; 64; 0; 96].

(** The field [OldMap map[string]SimpleTypeOne] of [SimpleStructV1]. *)
Definition OldMap : Field :=
  {| Name := "t.OldMap"; MapKey := "OldMap"; Pointer := false;
     Typ := reflect.MapOf reflect.TString (reflect.StructOf testing "SimpleTypeOne");
     Pkg := testing |}.

(** [type RenamedFields struct { Foo int64 `cborgen:"foo"`;
    Bar string `cborgen:"beep"` }] *)
Definition RenamedFields : GenTypeInfo :=
  ParseTypeInfo testing "RenamedFields"
    [mkStructField "Foo" reflect.TInt64 "foo";
     mkStructField "Bar" reflect.TString "beep"].

(** [type BigField struct { LargeBytes []byte `cborgen:"maxlen=10000000"` }] *)
Definition BigField : GenTypeInfo :=
  ParseTypeInfo testing "BigField"
    [mkStructField "LargeBytes" (reflect.SliceOf reflect.TUint8) "maxlen=10000000"].

(** [Pizza *uint64] of [SimpleTypeTwo]. *)
Definition Pizza : Field :=
  {| Name := "t.Pizza"; MapKey := "Pizza"; Pointer := true; Typ := reflect.TUint64;
     Pkg := testing |}.

(** The record [S0] of scenario 6 of the specification:
    [type S0 struct { A uint64 }]. *)
Definition S0 : GenTypeInfo :=
  ParseTypeInfo testing "S0" [mkStructField "A" reflect.TUint64 EmptyString].

(** The field that the named-map decoder reads a key into. *)
Definition name_field : Field :=
  {| Name := "name"; MapKey := EmptyString; Pointer := false; Typ := reflect.TString;
     Pkg := EmptyString |}.

(** [type S1 struct { A uint64; B uint64 }]: [S0] with one more field. *)
Definition S1 : GenTypeInfo :=
  ParseTypeInfo testing "S1"
    [mkStructField "A" reflect.TUint64 EmptyString;
     mkStructField "B" reflect.TUint64 EmptyString].

(** The record of scenario 3 of the specification:
    [type OptionalPizza struct { Pizza *uint64 }]. *)
Definition OptionalPizza : GenTypeInfo :=
  ParseTypeInfo testing "OptionalPizza"
    [mkStructField "Pizza" (reflect.PtrTo reflect.TUint64) EmptyString].

(** [type SimpleStructV1 struct { OldStr string; OldBytes []byte;
    OldNum uint64; OldPtr *cid.Cid; OldMap map[string]SimpleTypeOne;
    OldArray []SimpleTypeOne; OldStruct SimpleTypeOne }] *)
Definition SimpleStructV1 : GenTypeInfo :=
  ParseTypeInfo testing "SimpleStructV1"
    [mkStructField "OldStr" reflect.TString EmptyString;
     mkStructField "OldBytes" (reflect.SliceOf reflect.TUint8) EmptyString;
     mkStructField "OldNum" reflect.TUint64 EmptyString;
     mkStructField "OldPtr" (reflect.PtrTo cidType) EmptyString;
     mkStructField "OldMap"
       (reflect.MapOf reflect.TString (reflect.StructOf testing "SimpleTypeOne")) EmptyString;
     mkStructField "OldArray"
       (reflect.SliceOf (reflect.StructOf testing "SimpleTypeOne")) EmptyString;
     mkStructField "OldStruct" (reflect.StructOf testing "SimpleTypeOne") EmptyString].

(** ** The same value in two runs

    Two representations stand for the same Go value when they differ only
    in the order in which the entries of their maps are visited (and in the
    order in which the fields of a record are listed): every key is bound
    to the same value in both. *)
Inductive same_value : Value -> Value -> Prop :=
| same_refl (v : Value) : same_value v v
| same_slice (vs1 vs2 : list Value) :
    Forall2 same_value vs1 vs2 -> same_value (VSlice vs1) (VSlice vs2)
| same_map (m1 m2 : list (string * Value)) :
    NoDup (List.map fst m1) ->
    NoDup (List.map fst m2) ->
    (forall k, option_Forall2 same_value (assoc k m1) (assoc k m2)) ->
    same_value (VMap m1) (VMap m2)
| same_ptr (v1 v2 : Value) :
    same_value v1 v2 -> same_value (VPtr (Some v1)) (VPtr (Some v2))
| same_record (fs1 fs2 : list (string * Value)) :
    (forall x, option_Forall2 same_value (assoc x fs1) (assoc x fs2)) ->
    same_value (VStruct fs1) (VStruct fs2).

(** An encoder whose output is the same for the same value. *)
Definition respects (enc : Encoder) : Prop :=
  forall v1 v2, same_value v1 v2 -> enc v1 = enc v2.

Definition methods_respect (M : GoType -> option Value -> result (list Z)) : Prop :=
  forall t p1 p2, option_Forall2 same_value p1 p2 -> M t p1 = M t p2.

(** ** Statements about the run of a record decoder *)

(** The wrapper after the byte [b] was read and handed back: [b] is to come
    again, in front of [rest]. *)
Definition handed_back (b : Z) (rest : list Z) : peeker :=
  {| reader := rest; unread := Some b; lastByte := None |}.

(** The same field, declared without the pointer. *)
Definition required (f : Field) : Field :=
  {| Name := Name f; MapKey := MapKey f; Pointer := false; Typ := Typ f; Pkg := Pkg f |}.

(** The same field, with element type [t]. *)
Definition of_type (f : Field) (t : GoType) : Field :=
  {| Name := Name f; MapKey := MapKey f; Pointer := Pointer f; Typ := t; Pkg := Pkg f |}.

(** The states that the iterations of [for_range] leave, as long as they
    succeed. *)
Fixpoint for_range_trace {St : Type} (from : nat) (n : nat) (body : nat -> St -> result St)
  (s : St) : list St :=
  match n with
  | O => []
  | S n' =>
      match body from s with
      | OK s' => s' :: for_range_trace (S from) n' body s'
      | Err _ => []
      end
  end.

(** The keys that the named-map decoder of [gti] reads from [r], in order:
    the successive values of its variable [name]. *)
Definition keys_read `{External}
    (U : GoType -> Value -> peeker -> result (Value * peeker))
    (gti : GenTypeInfo) (r : io_Reader) : list string :=
  match emitCborUnmarshalStringField name_field,
        emit_fields (unmarshalField U gti) (Fields gti),
        CborReadHeaderBuf (GetPeeker r) with
  | OK kdec, OK decs, OK (_, extra, br) =>
      List.map (fun st => fst (fst st))
        (for_range_trace 0 (Z.to_nat extra) (fun _ => map_iteration r kdec decs)
           (EmptyString, [], br))
  | _, _, _ => []
  end.

(** The reader of the tuple decoder of [gti] when it comes to the field
    after the fields [pre], if it gets there. *)
Definition reader_after `{External}
    (U : GoType -> Value -> peeker -> result (Value * peeker))
    (gti : GenTypeInfo) (pre : list Field) (r : io_Reader) : option peeker :=
  match emit_fields (unmarshalField U gti) pre, CborReadHeaderBuf (GetPeeker r) with
  | OK decs, OK (_, _, br) =>
      match decode_fields decs [] br with
      | OK (_, br) => Some br
      | Err _ => None
      end
  | _, _ => None
  end.

(** The fields whose decoder looks for the null byte first: pointers to
    uint64, to content identifiers and to records. *)
Definition admits_null (f : Field) : bool :=
  Pointer f &&
  match reflect.kind (Typ f) with
  | reflect.Uint64 => true
  | reflect.Struct =>
      negb (same_struct (Typ f) bigIntType) && negb (same_struct (Typ f) deferredType)
  | _ => false
  end.

(** ** Statements about the output of a record encoder *)

(** The bytes of a text item: header and characters. *)
Definition text_item (s : string) : list Z :=
  CborEncodeMajorType MajTextString (len_string s) ++ bytes_of_string s.

(** [out] is the map header of [gti] followed by one key-value pair per
    field of [order], in that order: the wire key as a text item, then the
    field's value as its emitted fragment writes it. *)
Definition pairs_in_order `{External}
    (M : GoType -> option Value -> result (list Z))
    (gti : GenTypeInfo) (order : list Field) (fs : list (string * Value))
    (out : list Z) : Prop :=
  exists chunks,
    out = MapHeader gti ++ concat chunks /\
    Forall2 (fun f chunk =>
      exists venc vb,
        marshalField M gti f = OK venc /\
        venc (field_value fs f) = OK vb /\
        chunk = text_item (MapKey f) ++ vb) order chunks.

(** The order of Go's [<=] on strings: lexicographic on the bytes. *)
Definition str_le (a b : string) : Prop := String.leb a b = true.

(** Fields in ascending order of the raw bytes of their wire keys. *)
Definition sorted_by_key (order : list Field) : Prop :=
  StronglySorted (fun f g => str_le (MapKey f) (MapKey g)) order.

(** ** Generating both methods of a record *)

(** [GenTupleEncodersForType] and [GenMapEncodersForType]: the encoder is
    emitted first, then the decoder; the first error stops the generation. *)
Definition GenTupleEncodersForType `{External}
    (M : GoType -> option Value -> result (list Z))
    (U : GoType -> Value -> peeker -> result (Value * peeker))
    (gti : GenTypeInfo) : result ((option Value -> result (list Z)) * Unmarshaler) :=
  do m <- emitCborMarshalStructTuple M gti;
  do u <- emitCborUnmarshalStructTuple U gti;
  OK (m, u).

Definition GenMapEncodersForType `{External}
    (M : GoType -> option Value -> result (list Z))
    (U : GoType -> Value -> peeker -> result (Value * peeker))
    (gti : GenTypeInfo) : result ((option Value -> result (list Z)) * Unmarshaler) :=
  do m <- emitCborMarshalStructMap M gti;
  do u <- emitCborUnmarshalStructMap U gti;
  OK (m, u).

(** ** Statements about what is written and read back *)

(** The fragment [dec], run on a field that holds [cur], reads the bytes
    [bs] and no more, and leaves [v] in the field. *)
Definition reads_back (dec : Decoder) (cur : Value) (bs : list Z) (v : Value) : Prop :=
  forall br rest, pending br = bs ++ rest ->
    exists br', dec cur br = OK (v, br') /\ pending br' = rest.

(** The wire form of a byte string. *)
Definition bytes_item (bs : list Z) : list Z :=
  CborEncodeMajorType MajByteString (Z.of_nat (length bs)) ++ bs.

(** The wire form of a big integer: tag 2, then the bytes of the absolute
    value as a byte string. *)
Definition bignum_item (n : Z) : list Z :=
  CborEncodeMajorType MajTag 2 ++ bytes_item (big_Bytes n).

(** One key-value pair of the record [fs] in named-map form, as the
    encoder of [gti] writes it for the field [f]. *)
Definition pair_written `{External}
    (M : GoType -> option Value -> result (list Z))
    (gti : GenTypeInfo) (fs : list (string * Value)) (f : Field) (c : list Z) : Prop :=
  len_string (MapKey f) <= MaxLength /\
  exists venc vb,
    marshalField M gti f = OK venc /\
    venc (field_value fs f) = OK vb /\
    c = text_item (MapKey f) ++ vb.

(** ** Values that are written and read back

    The values of a Go type in the representation that the decoders build:
    the fields of a record listed in the order of the schema, the entries
    of a map in ascending order of their keys.  The types are the ones for
    which the emitted encoder and decoder agree on the wire form; content
    identifiers and deferred blobs, whose codec is outside the generator,
    are left out. *)

(** A record type with methods of its own: not one of the three types the
    generator treats specially, under either of the two tests the generator
    makes, on the type and on its qualified name. *)
Definition regular (t : GoType) : bool :=
  match t with
  | reflect.StructOf _ _ =>
      negb (same_struct t bigIntType) && negb (same_struct t cidType)
      && negb (same_struct t deferredType)
      && negb (String.eqb (qualified_name t) "github.com/ipfs/go-cid.Cid")
  | _ => false
  end.

(** Strictly ascending, byte-wise. *)
Fixpoint ascending (l : list string) : bool :=
  match l with
  | [] => true
  | k :: l' =>
      match l' with
      | [] => true
      | k' :: _ => String.ltb k k' && ascending l'
      end
  end.

Definition in_uint64 (n : Z) : bool := (0 <=? n) && (n <? 2 ^ 64).
Definition in_int64 (n : Z) : bool := (- 2 ^ 63 <=? n) && (n <? 2 ^ 63).
Definition in_uint8 (n : Z) : bool := (0 <=? n) && (n <? 2 ^ 8).

(** [len(v)] is what the type asks for: anything for a slice, [n] for an
    array [[n]T]. *)
Definition length_fits {A : Type} (t : GoType) (l : list A) : bool :=
  match t with
  | reflect.ArrayOf n _ => Nat.eqb (length l) n
  | _ => true
  end.

Section WellFormed.

(** The well-formed values of the record types. *)
Variable good : GoType -> Value -> bool.

(** The well-formed values of a field, slice element or map value of type
    [t].  An element of a slice of pointers is not nil. *)
Fixpoint well_formed (t : GoType) (v : Value) {struct t} : bool :=
  match t with
  | reflect.TString => match v with VString _ => true | _ => false end
  | reflect.TUint64 => match v with VUint n => in_uint64 n | _ => false end
  | reflect.TUint8 => match v with VUint n => in_uint8 n | _ => false end
  | reflect.TInt64 => match v with VInt n => in_int64 n | _ => false end
  | reflect.TBool => match v with VBool _ => true | _ => false end
  | reflect.TFloat64 => false
  | reflect.ArrayOf _ e | reflect.SliceOf e =>
      match e with
      | reflect.TUint8 =>
          match v with VBytes bs => length_fits t bs | _ => false end
      | reflect.TUint64 | reflect.TInt64 | reflect.SliceOf _ =>
          match v with
          | VSlice vs => length_fits t vs && forallb (well_formed e) vs
          | _ => false
          end
      | reflect.StructOf _ _ =>
          regular e &&
          match v with
          | VSlice vs => length_fits t vs && forallb (good e) vs
          | _ => false
          end
      | reflect.PtrTo (reflect.StructOf _ _ as s) =>
          regular s &&
          match v with
          | VSlice vs =>
              length_fits t vs &&
              forallb (fun x => match x with VPtr (Some y) => good s y | _ => false end) vs
          | _ => false
          end
      | _ => false
      end
  | reflect.MapOf reflect.TString (reflect.StructOf _ _ as s) =>
      regular s &&
      match v with
      | VMap m => ascending (List.map fst m) && forallb (fun kv => good s (snd kv)) m
      | _ => false
      end
  | reflect.MapOf reflect.TString (reflect.PtrTo (reflect.StructOf _ _ as s)) =>
      regular s &&
      match v with
      | VMap m =>
          ascending (List.map fst m) &&
          forallb (fun kv =>
            match snd kv with
            | VPtr None => true
            | VPtr (Some y) => good s y
            | _ => false
            end) m
      | _ => false
      end
  | reflect.MapOf _ _ => false
  | reflect.PtrTo reflect.TUint64 =>
      match v with
      | VPtr None => true
      | VPtr (Some (VUint n)) => in_uint64 n
      | _ => false
      end
  | reflect.PtrTo (reflect.StructOf _ _ as s) =>
      if same_struct s bigIntType then
        match v with
        | VPtr (Some (VBigInt n)) => (0 <=? n) && (n <? 2 ^ 2048)
        | _ => false
        end
      else
        regular s &&
        match v with
        | VPtr None => true
        | VPtr (Some y) => good s y
        | _ => false
        end
  | reflect.PtrTo _ => false
  | reflect.StructOf _ _ => regular t && good t v
  end.

End WellFormed.

(** Equality of lists of strings. *)
Fixpoint same_names (l1 l2 : list string) : bool :=
  match l1, l2 with
  | [], [] => true
  | a :: l1', b :: l2' => String.eqb a b && same_names l1' l2'
  | _, _ => false
  end.

Fixpoint distinct (l : list string) : bool :=
  match l with
  | [] => true
  | a :: l' => negb (existsb (String.eqb a) l') && distinct l'
  end.

(** A schema whose emitted code compiles and can read what it writes: the
    names of the fields are distinct; in named-map form so are the wire
    keys, which are the cases of a [switch], and there are no more fields
    than the decoder takes pairs. *)
Definition sound_schema (repr : Repr) (gti : GenTypeInfo) : bool :=
  distinct (List.map Name (Fields gti)) &&
  match repr with
  | Tuple => Z.of_nat (length (Fields gti)) <? 2 ^ 64
  | NamedMap =>
      distinct (List.map MapKey (Fields gti)) &&
      (Z.of_nat (length (Fields gti)) <=? MaxLength)
  end.

(** The well-formed values of the records of [env], nested at most [depth]
    deep: every field of the schema is listed, in order, with a well-formed
    value. *)
Fixpoint good_record (env : TypeEnv) (depth : nat) (t : GoType) (v : Value) : bool :=
  match depth with
  | O => false
  | S depth' =>
      match env (qualified_name t), v with
      | Some (repr, gti), VStruct fs =>
          regular t &&
          sound_schema repr gti &&
          same_names (List.map fst fs) (List.map Name (Fields gti)) &&
          forallb (fun f => well_formed (good_record env depth') (static_type f) (field_value fs f))
            (Fields gti)
      | _, _ => false
      end
  end.

(** The methods [M] and [U] of the record types agree on the well-formed
    values: a nil receiver is written as the null byte; a value is written
    as bytes that do not start with the null byte, and is read back from
    them, whatever the receiver held before. *)
Definition methods_roundtrip
    (M : GoType -> option Value -> result (list Z))
    (U : GoType -> Value -> peeker -> result (Value * peeker))
    (good : GoType -> Value -> bool) : Prop :=
  (forall t bs, regular t = true -> M t None = OK bs -> bs = CborNull) /\
  (forall t v bs, regular t = true -> good t v = true -> M t (Some v) = OK bs ->
     (exists b tl, bs = b :: tl /\ b <> 246) /\
     forall cur, reads_back (U t) cur bs v).

(** ** Statements about the headers that a decoder takes *)

(** The element type of a slice or array type, under its pointer if it is
    one: what [emitCborUnmarshalSliceField] calls [e]. *)
Definition slice_elem (t : GoType) : GoType :=
  match t with
  | reflect.ArrayOf _ e | reflect.SliceOf e =>
      match e with reflect.PtrTo e' => e' | _ => e end
  | _ => t
  end.

Definition of_bytes (t : GoType) : bool :=
  match slice_elem t with reflect.TUint8 => true | _ => false end.

(** The largest length that the decoder of a slice or array field takes
    from a header, and the major type it asks for. *)
Definition slice_ceiling (t : GoType) : Z :=
  if of_bytes t then ByteArrayMaxLen else MaxLength.

Definition slice_major (t : GoType) : Z :=
  if of_bytes t then MajByteString else MajArray.

(** The major types that the decoder of a field accepts in the header of
    the value: the one of its kind, two for a signed integer.  A record
    field reads its header in the method of the record. *)
Definition accepted_majors (f : Field) : list Z :=
  match reflect.kind (Typ f) with
  | reflect.String => [MajTextString]
  | reflect.Uint64 | reflect.Uint8 => [MajUnsignedInt]
  | reflect.Int64 => [MajUnsignedInt; MajNegativeInt]
  | reflect.Bool => [MajOther]
  | reflect.Array | reflect.Slice => [slice_major (Typ f)]
  | reflect.Map => [MajMap]
  | _ => []
  end.

(** ** More schemas and values for the examples *)

(** [type PointerToInt struct { N *int64 }] *)
Definition PointerToInt : GenTypeInfo :=
  ParseTypeInfo testing "PointerToInt"
    [mkStructField "N" (reflect.PtrTo reflect.TInt64) EmptyString].

(** [type PointerToPointer struct { P **uint64 }] *)
Definition PointerToPointer : list StructField :=
  [mkStructField "P" (reflect.PtrTo (reflect.PtrTo reflect.TUint64)) EmptyString].

(** The zero [SimpleTypeOne], every field listed. *)
Definition one_zero : Value :=
  VStruct [("Foo", VString EmptyString); ("Value", VUint 0); ("Binary", VBytes []);
           ("Signed", VInt 0); ("NString", VString EmptyString)].

(** The value [two], every field listed, as the decoder builds it. *)
Definition two_listed : Value :=
  VStruct [("Stuff", VPtr (Some (VStruct
              [("Stuff", VPtr None); ("Others", VSlice []); ("SignedOthers", VSlice []);
               ("Test", VSlice []); ("Dog", VString "inner"); ("Numbers", VSlice []);
               ("Pizza", VPtr None); ("PointyPizza", VPtr None);
               ("Arrrrrghay", VSlice [one_zero; one_zero; one_zero])])));
           ("Others", VSlice [VUint 1; VUint 300]);
           ("SignedOthers", VSlice [VInt (-5)]);
           ("Test", VSlice [VBytes [1; 2]; VBytes []]);
           ("Dog", VString "rex");
           ("Numbers", VSlice []);
           ("Pizza", VPtr None);
           ("PointyPizza", VPtr (Some (VUint 70000)));
           ("Arrrrrghay", VSlice [one_zero; one_zero; one_zero])].

(** [Binary []byte] of [SimpleTypeOne]. *)
Definition Binary : Field :=
  {| Name := "t.Binary"; MapKey := "Binary"; Pointer := false;
     Typ := reflect.SliceOf reflect.TUint8; Pkg := testing |}.

(** [Bytes [20]byte] of [FixedArrays], with room for three bytes. *)
Definition Bytes3 : Field :=
  {| Name := "t.Bytes"; MapKey := "Bytes"; Pointer := false;
     Typ := reflect.ArrayOf 3 reflect.TUint8; Pkg := testing |}.

(** [Uint64 [20]uint64] of [FixedArrays], with room for two numbers. *)
Definition Uint64s : Field :=
  {| Name := "t.Uint64"; MapKey := "Uint64"; Pointer := false;
     Typ := reflect.ArrayOf 2 reflect.TUint64; Pkg := testing |}.

(** [Test [][]byte] of [SimpleTypeTwo]. *)
Definition TestField : Field :=
  {| Name := "t.Test"; MapKey := "Test"; Pointer := false;
     Typ := reflect.SliceOf (reflect.SliceOf reflect.TUint8); Pkg := testing |}.

(** A field [Int *big.Int]. *)
Definition BigIntField : Field :=
  {| Name := "t.Int"; MapKey := "Int"; Pointer := true; Typ := bigIntType; Pkg := testing |}.

(** A field [Ones []*SimpleTypeOne]. *)
Definition Ones : Field :=
  {| Name := "t.Ones"; MapKey := "Ones"; Pointer := false;
     Typ := reflect.SliceOf (reflect.PtrTo (reflect.StructOf testing "SimpleTypeOne"));
     Pkg := testing |}.

(** [Thing bool] of [NeedScratchForMap]. *)
Definition Thing : Field :=
  {| Name := "t.Thing"; MapKey := "Thing"; Pointer := false; Typ := reflect.TBool;
     Pkg := testing |}.

(** [Uint8 [20]uint8] of [FixedArrays] has elements of this kind; a field
    [B uint8] of its own. *)
Definition B8 : Field :=
  {| Name := "t.B"; MapKey := "B"; Pointer := false; Typ := reflect.TUint8; Pkg := testing |}.

(** [Foo string] of [SimpleTypeOne]. *)
Definition Foo : Field :=
  {| Name := "t.Foo"; MapKey := "Foo"; Pointer := false; Typ := reflect.TString;
     Pkg := testing |}.

(** The field [A uint64] of [S0], as [ParseTypeInfo] gives it. *)
Definition S0_A : Field :=
  {| Name := "A"; MapKey := "A"; Pointer := false; Typ := reflect.TUint64; Pkg := testing |}.

(** ** Complete items

    [cbor_items n bs]: the bytes [bs] are [n] complete data items, one after
    the other, each with the items it contains: the payload of a string, the
    item under a tag, the elements of an array, the keys and values of a
    map. *)
Inductive cbor_items : nat -> list Z -> Prop :=
| items_done : cbor_items 0 []
| items_plain (t v : Z) (n : nat) (bs : list Z) :
    t = MajUnsignedInt \/ t = MajNegativeInt \/ t = MajOther ->
    0 <= v < 2 ^ 64 ->
    cbor_items n bs ->
    cbor_items (S n) (CborEncodeMajorType t v ++ bs)
| items_string (t : Z) (payload : list Z) (n : nat) (bs : list Z) :
    t = MajByteString \/ t = MajTextString ->
    Z.of_nat (length payload) < 2 ^ 64 ->
    cbor_items n bs ->
    cbor_items (S n) (CborEncodeMajorType t (Z.of_nat (length payload)) ++ payload ++ bs)
| items_tag (v : Z) (n : nat) (bs : list Z) :
    0 <= v < 2 ^ 64 ->
    cbor_items (S n) bs ->
    cbor_items (S n) (CborEncodeMajorType MajTag v ++ bs)
| items_array (k n : nat) (bs : list Z) :
    Z.of_nat k < 2 ^ 64 ->
    cbor_items (k + n) bs ->
    cbor_items (S n) (CborEncodeMajorType MajArray (Z.of_nat k) ++ bs)
| items_map (k n : nat) (bs : list Z) :
    Z.of_nat k < 2 ^ 64 ->
    cbor_items (2 * k + n) bs ->
    cbor_items (S n) (CborEncodeMajorType MajMap (Z.of_nat k) ++ bs).

(** The methods [M] of the record types write one complete item for a
    well-formed value, and the null byte for a nil receiver. *)
Definition methods_items (M : GoType -> option Value -> result (list Z))
    (good : GoType -> Value -> bool) : Prop :=
  (forall t bs, regular t = true -> M t None = OK bs -> bs = CborNull) /\
  (forall t v bs, regular t = true -> good t v = true -> M t (Some v) = OK bs ->
     cbor_items 1 bs).

(** The wire key of the field [f] is one of the cases of the [switch] in
    the decoder of [gti]. *)
Definition known_key (gti : GenTypeInfo) (f : Field) : bool :=
  existsb (String.eqb (MapKey f)) (List.map MapKey (Fields gti)).

(** ** A record that grew *)

(** [S0] after two fields were added to it:
    [type S0 struct { A uint64; Others []uint64; One *SimpleTypeOne }]. *)
Definition S0_grown : GenTypeInfo :=
  ParseTypeInfo testing "S0"
    [mkStructField "A" reflect.TUint64 EmptyString;
     mkStructField "Others" (reflect.SliceOf reflect.TUint64) EmptyString;
     mkStructField "One" (reflect.PtrTo (reflect.StructOf testing "SimpleTypeOne")) EmptyString].

(** A value of the grown [S0]. *)
Definition grown : list (string * Value) :=
  [("A", VUint 1); ("Others", VSlice [VUint 2; VUint 300]); ("One", VPtr (Some one_zero))].

(** ** Names that [ParseTypeInfo] drops *)

(** The name begins with one of the letters a to z. *)
Definition lower_initial (name : string) : bool :=
  match name with
  | EmptyString => false
  | String.String c _ => ((97 <=? N_of_ascii c) && (N_of_ascii c <=? 122))%N
  end.

(** The name begins with an ASCII character: [name[0:1]] is that
    character. *)
Definition ascii_initial (name : string) : bool :=
  match name with
  | EmptyString => false
  | String.String c _ => (N_of_ascii c <? 128)%N
  end.

(** [type Padded struct { _pad uint64; hidden string; A uint64 }] *)
Definition Padded : list StructField :=
  [mkStructField "_pad" reflect.TUint64 EmptyString;
   mkStructField "hidden" reflect.TString EmptyString;
   mkStructField "A" reflect.TUint64 EmptyString].

(** ** Pairs in front of a named-map decoder *)

(** A key-value pair in the input of the decoder of [gti]: the pair of a
    field [f] of the schema, which is the wire key of [f] followed by the
    value of [f] in the record [fs] as the encoder writes it, or a key that
    the schema does not have, followed by one complete item. *)
Inductive incoming_pair `{External}
    (M : GoType -> option Value -> result (list Z))
    (good : GoType -> Value -> bool)
    (gti : GenTypeInfo) (fs : list (string * Value)) : option Field -> list Z -> Prop :=
| pair_known (f : Field) (c : list Z) :
    In f (Fields gti) ->
    well_formed good (static_type f) (field_value fs f) = true ->
    pair_written M gti fs f c ->
    incoming_pair M good gti fs (Some f) c
| pair_unknown (k : string) (vb : list Z) :
    ~ In k (List.map MapKey (Fields gti)) ->
    len_string k <= MaxLength ->
    cbor_items 1 vb ->
    incoming_pair M good gti fs None (text_item k ++ vb).

(** The fields among the pairs, in the order of the pairs. *)
Definition fields_read (pairs : list (option Field)) : list Field :=
  flat_map (fun o => match o with Some f => [f] | None => [] end) pairs.

(** * Properties *)

(** ** The scenarios of the specification, run on the emitted code *)

Example scenario_empty_record :
  Marshal (H := no_External) testing_env 1 Tuple Empty (VStruct []) = OK [128] /\
  Unmarshal (H := no_External) testing_env 1 Tuple Empty (VStruct []) [128]
  = OK (VStruct [], at_rest [] (Some 128)).
Proof. split; reflexivity. Qed.

Example scenario_single_text :
  Marshal (H := no_External) testing_env 1 Tuple Single (VStruct [("Foo", VString "cat")])
  = OK [129; 99; 99; 97; 116] /\
  Unmarshal (H := no_External) testing_env 1 Tuple Single (VStruct []) [129; 99; 99; 97; 116]
  = OK (VStruct [("Foo", VString "cat")], at_rest [] (Some 116)).
Proof. split; reflexivity. Qed.

Example scenario_optional_uint :
  Marshal (H := no_External) testing_env 1 Tuple OptionalPizza (VStruct []) = OK [129; 246] /\
  Marshal (H := no_External) testing_env 1 Tuple OptionalPizza
    (VStruct [("Pizza", VPtr (Some (VUint 7)))]) = OK [129; 7].
Proof. split; reflexivity. Qed.

Example scenario_signed_boundary :
  Marshal (H := no_External) testing_env 1 Tuple Signed (VStruct [("S", VInt (-1))])
  = OK [129; 32].
Proof. reflexivity. Qed.

Example scenario_named_map :
  Marshal (H := no_External) testing_env 1 NamedMap S0 (VStruct [("A", VUint 1)])
  = OK [161; 97; 65; 1] /\
  Unmarshal (H := no_External) testing_env 1 NamedMap S0 (VStruct []) [162; 97; 65; 1; 97; 66; 2]
  = OK (VStruct [("A", VUint 1)], at_rest [] (Some 66)).
Proof. split; reflexivity. Qed.

(** A record that points to a record of its own type, with nested slices,
    an absent and a present optional number and a fixed array: the bytes
    decode to a value with the same fields, which encodes to the same
    bytes. *)
Example scenario_nested_record :
  Marshal (H := no_External) testing_env 3 Tuple SimpleTypeTwo two = OK two_bytes /\
  exists fs br,
    Unmarshal (H := no_External) testing_env 3 Tuple SimpleTypeTwo (VStruct []) two_bytes
    = OK (VStruct fs, br) /\
    pending br = [] /\
    assoc "Dog" fs = Some (VString "rex") /\
    assoc "Pizza" fs = Some (VPtr None) /\
    assoc "PointyPizza" fs = Some (VPtr (Some (VUint 70000))) /\
    Marshal (H := no_External) testing_env 3 Tuple SimpleTypeTwo (VStruct fs) = OK two_bytes.
Proof.
  split; [vm_compute; reflexivity |].
  eexists. eexists.
  split; [vm_compute; reflexivity |].
  repeat split; vm_compute; reflexivity.
Qed.

(** ** Headers: what is written is read back *)

Lemma lor_shiftl (k acc b : Z) :
  0 <= k -> 0 <= b < 2 ^ k -> Z.lor (Z.shiftl acc k) b = acc * 2 ^ k + b.
Proof.
  intros Hk Hb.
  rewrite Z.shiftl_mul_pow2 by lia.
  assert (Hland : Z.land (acc * 2 ^ k) b = 0).
  { apply Z.bits_inj'. intros i Hi.
    rewrite Z.land_spec, Z.bits_0.
    destruct (Z_lt_ge_dec i k) as [Hlt | Hge].
    - rewrite Z.mul_pow2_bits_low by lia. reflexivity.
    - assert (Z.testbit b i = false) as ->.
      { destruct (Z.eq_dec b 0) as [-> | Hnz]; [apply Z.bits_0 |].
        apply Z.bits_above_log2; [lia |].
        assert (Z.log2 b < k) by (apply Z.log2_lt_pow2; lia). lia. }
      apply andb_false_r. }
  rewrite <- Z.lxor_lor by exact Hland.
  symmetry. apply Z.add_nocarry_lxor. exact Hland.
Qed.

Lemma be_byte_range (v k : Z) : 0 <= Z.land (Z.shiftr v k) 255 < 256.
Proof.
  change 255 with (Z.ones 8). rewrite Z.land_ones by lia.
  apply Z.mod_pos_bound. lia.
Qed.

Lemma be_bytes_length (n : nat) (v : Z) : length (be_bytes n v) = n.
Proof. induction n; simpl; congruence. Qed.

Lemma be_value_bytes_acc (n : nat) (v acc : Z) :
  fold_left (fun a b => Z.lor (Z.shiftl a 8) b) (be_bytes n v) acc
  = acc * 2 ^ (8 * Z.of_nat n) + v mod 2 ^ (8 * Z.of_nat n).
Proof.
  revert acc. induction n as [| n IH]; intros acc.
  - simpl. change (2 ^ (8 * Z.of_nat 0)) with 1. rewrite Z.mod_1_r. lia.
  - cbn [be_bytes fold_left]. rewrite IH.
    rewrite (lor_shiftl 8) by (first [lia | apply be_byte_range]).
    change 255 with (Z.ones 8). rewrite Z.land_ones by lia.
    rewrite Z.shiftr_div_pow2 by lia.
    replace (8 * Z.of_nat (S n)) with (8 * Z.of_nat n + 8) by lia.
    rewrite Z.pow_add_r by lia.
    rewrite (Z.rem_mul_r v (2 ^ (8 * Z.of_nat n)) (2 ^ 8)) by lia.
    lia.
Qed.

Lemma be_value_bytes (n : nat) (v : Z) :
  0 <= v < 2 ^ (8 * Z.of_nat n) -> be_value (be_bytes n v) = v.
Proof.
  intros Hv. unfold be_value. rewrite be_value_bytes_acc.
  rewrite Z.mod_small by exact Hv. lia.
Qed.

Lemma first_byte_value (t low : Z) :
  0 <= low < 32 -> Z.lor (Z.shiftl t 5) low = t * 32 + low.
Proof. intros. rewrite lor_shiftl; [reflexivity | lia | simpl; lia]. Qed.

Lemma first_byte_major (t low : Z) :
  0 <= t < 8 -> 0 <= low < 32 ->
  Z.shiftr (Z.land (Z.lor (Z.shiftl t 5) low) 224) 5 = t.
Proof.
  intros Ht Hl. rewrite first_byte_value by lia.
  rewrite Z.shiftr_land. change (Z.shiftr 224 5) with (Z.ones 3).
  rewrite Z.land_ones by lia. rewrite Z.shiftr_div_pow2 by lia.
  change (2 ^ 5) with 32. change (2 ^ 3) with 8.
  replace ((t * 32 + low) / 32) with t by (apply Z.div_unique with low; lia).
  apply Z.mod_small. lia.
Qed.

Lemma first_byte_low (t low : Z) :
  0 <= t < 8 -> 0 <= low < 32 ->
  Z.land (Z.lor (Z.shiftl t 5) low) 31 = low.
Proof.
  intros Ht Hl. rewrite first_byte_value by lia.
  change 31 with (Z.ones 5). rewrite Z.land_ones by lia.
  change (2 ^ 5) with 32.
  symmetry. apply Z.mod_unique with t; lia.
Qed.

Lemma be_value_single (b : Z) : be_value [b] = b.
Proof. unfold be_value. simpl. rewrite Z.shiftl_0_l. apply Z.lor_0_l. Qed.

Lemma peeker_read_full (br : peeker) (bs rest : list Z) :
  pending br = bs ++ rest -> bs <> [] ->
  read_full (length bs) br = OK (bs, at_rest rest (last bs)).
Proof.
  intros Hp Hne. unfold read_full. cbn [ReadFull peeker_Reader].
  unfold peeker_read. destruct (length bs) as [| n] eqn:Hlen.
  - destruct bs; [congruence | discriminate].
  - unfold read_bytes. rewrite Hp, <- Hlen.
    assert ((length (bs ++ rest) <? length bs)%nat = false) as ->.
    { apply Nat.ltb_ge. rewrite length_app. lia. }
    rewrite take_app_length, drop_app_length. reflexivity.
Qed.

Lemma peeker_read_full_0 (br : peeker) : read_full 0 br = OK ([], br).
Proof. reflexivity. Qed.

Lemma peeker_read_1 (br : peeker) (b : Z) (rest : list Z) :
  pending br = b :: rest -> read_full 1 br = OK ([b], at_rest rest (Some b)).
Proof. intros Hp. apply (peeker_read_full br [b] rest); [exact Hp | discriminate]. Qed.

Lemma peeker_read_be (n : nat) (v : Z) (rest : list Z) (lb : option Z) :
  n <> O ->
  read_full n (at_rest (be_bytes n v ++ rest) lb)
  = OK (be_bytes n v, at_rest rest (last (be_bytes n v))).
Proof.
  intros Hn. rewrite <- (be_bytes_length n v) at 1.
  apply peeker_read_full; [reflexivity |]. destruct n; [congruence | discriminate].
Qed.

Lemma peeker_read_first (br : peeker) (b : Z) (n : nat) (v : Z) (rest : list Z) :
  pending br = (b :: be_bytes n v) ++ rest ->
  read_full 1 br = OK ([b], at_rest (be_bytes n v ++ rest) (Some b)).
Proof. intros Hp. apply peeker_read_1. exact Hp. Qed.

Lemma read_header_peeker (br : peeker) (t v : Z) (rest : list Z) :
  0 <= t < 8 -> 0 <= v < 2 ^ 64 ->
  pending br = CborEncodeMajorType t v ++ rest ->
  exists lb, CborReadHeaderBuf br = OK (t, v, at_rest rest lb).
Proof.
  intros Ht Hv Hp. unfold CborEncodeMajorType in Hp. unfold CborReadHeaderBuf.
  destruct (v <? 24) eqn:E1.
  - rewrite (peeker_read_1 br _ rest Hp). cbn [bind].
    apply Z.ltb_lt in E1.
    rewrite be_value_single, first_byte_major, first_byte_low by lia.
    apply Z.ltb_lt in E1. rewrite E1. eauto.
  - destruct (v <? 2 ^ 8) eqn:E2; [| destruct (v <? 2 ^ 16) eqn:E3; [| destruct (v <? 2 ^ 32) eqn:E4]];
      rewrite (peeker_read_first br _ _ _ _ Hp); cbn [bind];
      rewrite be_value_single, first_byte_major, first_byte_low by lia;
      cbn [Z.ltb Z.eqb Z.compare Pos.compare Pos.compare_cont Pos.eqb];
      rewrite peeker_read_be by discriminate; cbn [bind];
      rewrite ?Z.ltb_lt, ?Z.ltb_ge in *;
      (rewrite be_value_bytes by (simpl; lia)).
    + destruct (v <? 24) eqn:E; [apply Z.ltb_lt in E; lia | eauto].
    + destruct (v <? 2 ^ 8) eqn:E; [apply Z.ltb_lt in E; lia | eauto].
    + destruct (v <? 2 ^ 16) eqn:E; [apply Z.ltb_lt in E; lia | eauto].
    + destruct (v <? 2 ^ 32) eqn:E; [apply Z.ltb_lt in E; lia | eauto].
Qed.

(** ** Machine integers *)

Lemma uint64_small (x : Z) : 0 <= x < 2 ^ 64 -> uint64 x = x.
Proof. intros. unfold uint64. apply Z.mod_small. assumption. Qed.

Lemma int64_small (x : Z) : is_int64 x -> int64 x = x.
Proof.
  unfold is_int64, int64. intros Hx.
  rewrite Z.mod_small by lia. lia.
Qed.

Lemma int64_above (x : Z) : 2 ^ 63 <= x < 2 ^ 63 + 2 ^ 64 -> int64 x = x - 2 ^ 64.
Proof.
  unfold int64. intros Hx.
  replace (x + 2 ^ 63) with (x - 2 ^ 63 + 1 * 2 ^ 64) by lia.
  rewrite Z.mod_add by lia. rewrite Z.mod_small by lia. lia.
Qed.

Lemma int64_below (x : Z) : - 2 ^ 63 - 2 ^ 64 <= x < - 2 ^ 63 -> int64 x = x + 2 ^ 64.
Proof.
  unfold int64. intros Hx.
  replace (x + 2 ^ 63) with (x + 2 ^ 63 + 2 ^ 64 + (-1) * 2 ^ 64) by lia.
  rewrite Z.mod_add by lia. rewrite Z.mod_small by lia. lia.
Qed.

(** Go's [-v-1] on an [int64], read as [uint64]: no value of [v < 0] is
    lost, the smallest one included. *)
Lemma neg_minus_one (v : Z) :
  is_int64 v -> v < 0 -> uint64 (int64 (int64 (- v) - 1)) = - v - 1.
Proof.
  unfold is_int64. intros Hv Hneg.
  destruct (Z.eq_dec v (- 2 ^ 63)) as [-> | Hne].
  - reflexivity.
  - rewrite (int64_small (- v)) by (unfold is_int64; lia).
    rewrite int64_small by (unfold is_int64; lia).
    apply uint64_small. lia.
Qed.

(** ** Signed integers *)

(** C2: an int64 field is written as (UnsignedInt, v) when v >= 0 and as
    (NegativeInt, -v-1) when v < 0; the decoder accepts both major types,
    turns NegativeInt(extra) into -1-extra, and refuses as overflow a header
    value of 2^63 or more under either major type; so every int64 value is
    read back as it was written, and -1 is written as the byte 0x20. *)
Theorem int64_field_roundtrip (f : Field) (v : Z) (maj extra : Z) (cur : Value)
    (br : peeker) (rest : list Z) :
  Pointer f = false ->
  is_int64 v ->
  maj = MajUnsignedInt \/ maj = MajNegativeInt ->
  is_uint64 extra ->
  pending br = CborEncodeMajorType maj extra ++ rest ->
  exists enc dec,
    emitCborMarshalInt64Field f = OK enc /\
    emitCborUnmarshalInt64Field f = OK dec /\
    enc (VInt v) =
      OK (if v >=? 0 then CborEncodeMajorType MajUnsignedInt v
          else CborEncodeMajorType MajNegativeInt (- v - 1)) /\
    (exists lb,
      dec cur br =
        if extra <? 2 ^ 63 then
          OK (VInt (if maj =? MajUnsignedInt then extra else -1 - extra), at_rest rest lb)
        else if maj =? MajUnsignedInt then Err "int64 positive overflow"
        else Err "int64 negative oveflow") /\
    (exists bs lb,
      enc (VInt v) = OK bs /\
      dec cur (GetPeeker (ordinary (bs ++ rest))) = OK (VInt v, at_rest rest lb)) /\
    enc (VInt (-1)) = OK [32].
Proof.
  intros Hptr Hv Hmaj Hextra Hpend.
  unfold emitCborMarshalInt64Field, emitCborUnmarshalInt64Field. rewrite Hptr.
  eexists _, _. split; [reflexivity |]. split; [reflexivity |].
  assert (Henc : (if v >=? 0 then WriteMajorTypeHeaderBuf MajUnsignedInt (uint64 v)
                  else WriteMajorTypeHeaderBuf MajNegativeInt (uint64 (int64 (int64 (- v) - 1))))
                 = OK (if v >=? 0 then CborEncodeMajorType MajUnsignedInt v
                       else CborEncodeMajorType MajNegativeInt (- v - 1))).
  { unfold WriteMajorTypeHeaderBuf. destruct (v >=? 0) eqn:E.
    - apply Z.geb_le in E. rewrite uint64_small by (unfold is_int64 in Hv; lia). reflexivity.
    - rewrite Z.geb_leb in E. apply Z.leb_gt in E.
      rewrite neg_minus_one by assumption. reflexivity. }
  split; [exact Henc |]. split; [| split].
  - assert (Hm : 0 <= maj < 8) by (unfold MajUnsignedInt, MajNegativeInt in Hmaj; lia).
    destruct (read_header_peeker br maj extra rest Hm Hextra Hpend) as [lb Hr].
    exists lb. rewrite Hr. cbn [bind].
    unfold is_uint64 in Hextra.
    destruct (extra <? 2 ^ 63) eqn:E.
    + apply Z.ltb_lt in E.
      rewrite (int64_small extra) by (unfold is_int64; lia).
      assert ((extra <? 0) = false) as -> by (apply Z.ltb_ge; lia).
      destruct Hmaj as [-> | ->]; cbn [Z.eqb MajUnsignedInt MajNegativeInt].
      * reflexivity.
      * rewrite int64_small by (unfold is_int64; lia). reflexivity.
    + apply Z.ltb_ge in E.
      rewrite (int64_above extra) by lia.
      assert ((extra - 2 ^ 64 <? 0) = true) as -> by (apply Z.ltb_lt; lia).
      destruct Hmaj as [-> | ->]; reflexivity.
  - rewrite Henc. unfold is_int64 in Hv.
    destruct (v >=? 0) eqn:E.
    + apply Z.geb_le in E.
      destruct (read_header_peeker (GetPeeker (ordinary (CborEncodeMajorType MajUnsignedInt v ++ rest)))
                  MajUnsignedInt v rest) as [lb Hr];
        [unfold MajUnsignedInt; lia | lia | reflexivity |].
      eexists _, lb. split; [reflexivity |]. rewrite Hr. cbn [bind].
      cbn [Z.eqb MajUnsignedInt].
      rewrite int64_small by (unfold is_int64; lia).
      assert ((v <? 0) = false) as -> by (apply Z.ltb_ge; lia). reflexivity.
    + rewrite Z.geb_leb in E. apply Z.leb_gt in E.
      destruct (read_header_peeker (GetPeeker (ordinary (CborEncodeMajorType MajNegativeInt (- v - 1) ++ rest)))
                  MajNegativeInt (- v - 1) rest) as [lb Hr];
        [unfold MajNegativeInt; lia | lia | reflexivity |].
      eexists _, lb. split; [reflexivity |]. rewrite Hr. cbn [bind].
      cbn [Z.eqb MajUnsignedInt MajNegativeInt].
      rewrite (int64_small (- v - 1)) by (unfold is_int64; lia).
      assert ((- v - 1 <? 0) = false) as -> by (apply Z.ltb_ge; lia).
      rewrite int64_small by (unfold is_int64; lia).
      do 2 f_equal. f_equal. lia.
  - reflexivity.
Qed.

Lemma int64_field_roundtrip_witness :
  exists enc dec,
    emitCborMarshalInt64Field Signed_S = OK enc /\
    emitCborUnmarshalInt64Field Signed_S = OK dec /\
    enc (VInt (- 2 ^ 63)) = OK [59; 127; 255; 255; 255; 255; 255; 255; 255] /\
    exists lb,
      dec (VInt 0) (GetPeeker (ordinary [59; 127; 255; 255; 255; 255; 255; 255; 255]))
      = OK (VInt (- 2 ^ 63), at_rest [] lb).
Proof.
  destruct (int64_field_roundtrip Signed_S (- 2 ^ 63) MajNegativeInt (2 ^ 63 - 1) (VInt 0)
              (GetPeeker (ordinary [59; 127; 255; 255; 255; 255; 255; 255; 255])) [])
    as (enc & dec & He & Hd & Henc & [lb Hdec] & _).
  - reflexivity.
  - unfold is_int64. lia.
  - right. reflexivity.
  - unfold is_uint64. lia.
  - reflexivity.
  - exists enc, dec. split; [exact He |]. split; [exact Hd |].
    split; [exact Henc |]. exists lb. exact Hdec.
Defined.

(** ** The frame of a record in tuple form *)

(** From [do x <- e; k = OK y] to [e = OK x] and [k x = OK y]. *)
Ltac inv_bind H :=
  match type of H with
  | bind ?e _ = OK _ => destruct e eqn:?; cbn [bind] in H; [| discriminate H]
  end.

Tactic Notation "inv_bind_as" hyp(H) simple_intropattern(x) ident(E) :=
  match type of H with
  | bind ?e _ = OK _ => destruct e as [x |] eqn:E; cbn [bind] in H; [| discriminate H]
  end.

Lemma header_first_byte (t l : Z) :
  0 <= t < 8 -> 0 <= l ->
  exists b rest, CborEncodeMajorType t l = b :: rest /\ b / 32 = t.
Proof.
  intros Ht Hl. unfold CborEncodeMajorType.
  assert (Hdiv : forall low, 0 <= low < 32 -> Z.lor (Z.shiftl t 5) low / 32 = t).
  { intros low Hlow. rewrite first_byte_value by lia.
    symmetry. apply Z.div_unique with low; lia. }
  destruct (l <? 24) eqn:E1; [apply Z.ltb_lt in E1 |];
    [| destruct (l <? 2 ^ 8); [| destruct (l <? 2 ^ 16); [| destruct (l <? 2 ^ 32)]]];
    eexists _, _; (split; [reflexivity | apply Hdiv; lia]).
Qed.

(** C1: the encoder of a record in tuple form starts its output with the
    array header whose length is the number of fields of the schema,
    computed when the code is generated; the decoder refuses an array header
    with any other length; a record without fields is written as the single
    byte 0x80, 0x80 decodes to the empty record, and 0x81 0xF6 is refused
    under that schema. *)
Theorem tuple_frame_length `{External}
    (M : GoType -> option Value -> result (list Z))
    (U : GoType -> Value -> peeker -> result (Value * peeker))
    (gti : GenTypeInfo) (enc : option Value -> result (list Z)) (dec : Unmarshaler)
    (fs : list (string * Value)) (out : list Z)
    (r : io_Reader) (t0 : Value) (extra : Z) (br : peeker) :
  emitCborMarshalStructTuple M gti = OK enc ->
  emitCborUnmarshalStructTuple U gti = OK dec ->
  enc (Some (VStruct fs)) = OK out ->
  CborReadHeaderBuf (GetPeeker r) = OK (MajArray, extra, br) ->
  extra <> Z.of_nat (length (Fields gti)) ->
  (exists body,
     out = CborEncodeMajorType MajArray (uint64 (Z.of_nat (length (Fields gti)))) ++ body) /\
  dec r t0 = Err "cbor input had wrong number of fields" /\
  (exists enc0 dec0,
     emitCborMarshalStructTuple M Empty = OK enc0 /\
     emitCborUnmarshalStructTuple U Empty = OK dec0 /\
     enc0 (Some (VStruct [])) = OK [128] /\
     dec0 (ordinary [128]) t0 = OK (VStruct [], at_rest [] (Some 128)) /\
     dec0 (ordinary [129; 246]) t0 = Err "cbor input had wrong number of fields").
Proof.
  intros Henc Hdec Hout Hhdr Hlen.
  unfold emitCborMarshalStructTuple in Henc. inv_bind Henc.
  injection Henc as <-. cbn beta iota in Hout. inv_bind Hout. injection Hout as <-.
  unfold emitCborUnmarshalStructTuple in Hdec. inv_bind Hdec. injection Hdec as <-.
  split; [eexists; reflexivity |]. split.
  - cbn beta zeta. rewrite Hhdr. cbn [bind].
    cbn [Z.eqb MajArray Pos.eqb negb].
    destruct (extra =? Z.of_nat (length (Fields gti))) eqn:E; [| reflexivity].
    apply Z.eqb_eq in E. contradiction.
  - eexists _, _. repeat split; reflexivity.
Qed.

Lemma tuple_frame_length_witness :
  exists dec,
    emitCborUnmarshalStructTuple (H := no_External) no_methods_U Signed = OK dec /\
    dec (ordinary [130; 0; 0]) (VStruct []) = Err "cbor input had wrong number of fields".
Proof.
  eexists. split; [reflexivity |].
  refine (proj1 (proj2 (@tuple_frame_length no_External no_methods_M no_methods_U Signed
            _ _ [("S", VInt (-1))] [129; 32] (ordinary [130; 0; 0]) (VStruct []) 2
            (at_rest [0; 0] (Some 130)) _ _ _ _ _))).
  - reflexivity.
  - reflexivity.
  - reflexivity.
  - reflexivity.
  - discriminate.
Defined.

(** ** Sorting strings *)

Lemma str_le_trans (a b c : string) : str_le a b -> str_le b c -> str_le a c.
Proof.
  unfold str_le, String.leb. revert b c.
  induction a as [| x a IH]; intros [| y b] [| z c]; cbn [String.compare]; try easy.
  unfold Ascii.compare.
  destruct (N.compare_spec (N_of_ascii x) (N_of_ascii y)) as [Hxy | Hxy | Hxy];
    destruct (N.compare_spec (N_of_ascii y) (N_of_ascii z)) as [Hyz | Hyz | Hyz];
    destruct (N.compare_spec (N_of_ascii x) (N_of_ascii z)) as [Hxz | Hxz | Hxz];
    try easy; try lia.
  apply IH.
Qed.

Lemma str_le_total (a b : string) : str_le a b \/ str_le b a.
Proof. apply String.leb_total. Qed.

Lemma str_le_refl (a : string) : str_le a a.
Proof. destruct (str_le_total a a); assumption. Qed.

Lemma str_le_antisym (a b : string) : str_le a b -> str_le b a -> a = b.
Proof. apply String.leb_antisym. Qed.

Lemma insert_sorted_perm (k : string) (l : list string) :
  Permutation (insert_sorted k l) (k :: l).
Proof.
  induction l as [| x l IH]; cbn [insert_sorted]; [reflexivity |].
  destruct (String.leb k x); [reflexivity |].
  rewrite IH. apply perm_swap.
Qed.

Lemma sort_Strings_perm (l : list string) : Permutation (sort_Strings l) l.
Proof.
  induction l as [| x l IH]; cbn [sort_Strings fold_right]; [reflexivity |].
  rewrite insert_sorted_perm. apply perm_skip. exact IH.
Qed.

Lemma insert_sorted_sorted (k : string) (l : list string) :
  StronglySorted str_le l -> StronglySorted str_le (insert_sorted k l).
Proof.
  induction 1 as [| x l Hs IH Hall]; cbn [insert_sorted].
  - repeat constructor.
  - destruct (String.leb k x) eqn:E.
    + constructor; [constructor; assumption |].
      constructor; [exact E |].
      eapply Forall_impl; [exact Hall |].
      intros y Hy. eapply str_le_trans; [exact E | exact Hy].
    + constructor; [exact IH |].
      assert (Hxk : str_le x k).
      { destruct (str_le_total k x) as [Hc | Hc]; [unfold str_le in Hc; congruence | exact Hc]. }
      eapply Permutation_Forall; [symmetry; apply insert_sorted_perm |].
      constructor; assumption.
Qed.

Lemma sort_Strings_sorted (l : list string) : StronglySorted str_le (sort_Strings l).
Proof.
  induction l as [| x l IH]; cbn [sort_Strings fold_right]; [constructor |].
  apply insert_sorted_sorted. exact IH.
Qed.

(** A list has one sorted arrangement, whatever algorithm finds it. *)
Lemma sorted_unique (l1 l2 : list string) :
  StronglySorted str_le l1 -> StronglySorted str_le l2 -> Permutation l1 l2 -> l1 = l2.
Proof.
  intros H1. revert l2. induction H1 as [| x l1 Hs1 IH Hall1]; intros l2 H2 Hp.
  - apply Permutation_nil in Hp. congruence.
  - destruct H2 as [| y l2 Hs2 Hall2].
    + symmetry in Hp. apply Permutation_nil in Hp. discriminate.
    + assert (Hxy : x = y).
      { apply str_le_antisym.
        - assert (Hin : In y (x :: l1)) by (eapply Permutation_in; [symmetry; exact Hp | left; reflexivity]).
          destruct Hin as [-> | Hin]; [apply str_le_refl |].
          rewrite List.Forall_forall in Hall1. apply Hall1. exact Hin.
        - assert (Hin : In x (y :: l2)) by (eapply Permutation_in; [exact Hp | left; reflexivity]).
          destruct Hin as [-> | Hin]; [apply str_le_refl |].
          rewrite List.Forall_forall in Hall2. apply Hall2. exact Hin. }
      subst y. f_equal. apply IH; [exact Hs2 |].
      eapply Permutation_cons_inv. exact Hp.
Qed.

Lemma sort_Strings_Permutation (l1 l2 : list string) :
  Permutation l1 l2 -> sort_Strings l1 = sort_Strings l2.
Proof.
  intros Hp. apply sorted_unique; try apply sort_Strings_sorted.
  rewrite !sort_Strings_perm. exact Hp.
Qed.

(** ** Map fields *)

Lemma write_all_ext {A : Type} (f g : A -> result (list Z)) (l : list A) :
  (forall x, f x = g x) -> write_all f l = write_all g l.
Proof.
  intros Hfg. induction l as [| x l IH]; cbn [write_all]; [reflexivity |].
  rewrite Hfg, IH. reflexivity.
Qed.

Lemma write_all_inv {A : Type} (enc : A -> result (list Z)) (l : list A) (out : list Z) :
  write_all enc l = OK out ->
  exists chunks, out = concat chunks /\ Forall2 (fun x c => enc x = OK c) l chunks.
Proof.
  revert out. induction l as [| x l IH]; cbn [write_all]; intros out Hw.
  - injection Hw as <-. exists []. split; [reflexivity | constructor].
  - inv_bind Hw. inv_bind Hw. injection Hw as <-.
    destruct (IH _ eq_refl) as (chunks & -> & Hall).
    eexists (_ :: chunks). split; [reflexivity |]. constructor; assumption.
Qed.

Lemma assoc_not_in (k : string) (m : list (string * Value)) :
  ~ In k (List.map fst m) -> assoc k m = None.
Proof.
  induction m as [| [k' v] m IH]; cbn [assoc List.map fst In]; [reflexivity |].
  intros Hn. destruct (String.eqb_spec k k') as [-> | Hne]; [tauto |].
  apply IH. tauto.
Qed.

Lemma assoc_in (k : string) (m : list (string * Value)) :
  In k (List.map fst m) -> exists v, assoc k m = Some v.
Proof.
  induction m as [| [k' v] m IH]; cbn [assoc List.map fst In]; [tauto |].
  intros Hin. destruct (String.eqb_spec k k') as [-> | Hne]; [eauto |].
  apply IH. destruct Hin; [congruence | assumption].
Qed.

(** A Go map has one entry per key; the order of the entries does not
    change what a key is bound to. *)
Lemma assoc_Permutation (m1 m2 : list (string * Value)) (k : string) :
  NoDup (List.map fst m1) -> Permutation m1 m2 -> assoc k m1 = assoc k m2.
Proof.
  intros Hnd Hp. revert Hnd.
  induction Hp as [| [k' v] m1 m2 Hp IH | [k1 v1] [k2 v2] m | m1 m2 m3 Hp1 IH1 Hp2 IH2];
    intros Hnd.
  - reflexivity.
  - cbn [assoc]. destruct (String.eqb k k'); [reflexivity |].
    apply IH. cbn [List.map fst] in Hnd. apply NoDup_cons_1_2 in Hnd. exact Hnd.
  - cbn [assoc]. cbn [List.map fst] in Hnd.
    destruct (String.eqb_spec k k1) as [E1 | H1], (String.eqb_spec k k2) as [E2 | H2];
      try reflexivity.
    subst k1 k2. apply NoDup_cons_1_1 in Hnd. exfalso. apply Hnd. left.
  - rewrite IH1 by exact Hnd. apply IH2.
    assert (Hm : Permutation (List.map fst m1) (List.map fst m2))
      by (apply Permutation_map; exact Hp1).
    rewrite <- Hm. exact Hnd.
Qed.

(** C5: the encoder of a map field refuses a map of more than 4096 entries;
    otherwise it writes the header (Map, len), then the entries in
    ascending order of the raw bytes of their keys, each key as Text and
    each value by the rule of the element type; two orders of the same
    entries give the same bytes; the decoder refuses a map header whose
    length exceeds 4096. *)
Theorem map_field_canonical `{External}
    (M : GoType -> option Value -> result (list Z))
    (U : GoType -> Value -> peeker -> result (Value * peeker))
    (f : Field) (elem : GoType) (enc : Encoder) (dec : Decoder)
    (m1 m2 big : list (string * Value)) (out : list Z)
    (cur : Value) (br br' : peeker) (extra : Z) :
  Typ f = reflect.MapOf reflect.TString elem ->
  emitCborMarshalMapField M f = OK enc ->
  emitCborUnmarshalMapField U f = OK dec ->
  NoDup (List.map fst m1) ->
  Permutation m1 m2 ->
  enc (VMap m1) = OK out ->
  Z.of_nat (length big) > 4096 ->
  CborReadHeaderBuf br = OK (MajMap, extra, br') ->
  extra > 4096 ->
  enc (VMap big) = Err ("cannot marshal " ++ Name f ++ " map too large") /\
  (exists keys chunks,
     Permutation keys (List.map fst m1) /\
     StronglySorted str_le keys /\
     out = CborEncodeMajorType MajMap (Z.of_nat (length m1)) ++ concat chunks /\
     Forall2 (fun k chunk =>
       exists v venc vb,
         assoc k m1 = Some v /\
         emitCborMarshalStructField M
           {| Name := "v"; MapKey := EmptyString; Pointer := false; Typ := elem; Pkg := Pkg f |}
           = OK venc /\
         venc v = OK vb /\
         chunk = CborEncodeMajorType MajTextString (len_string k) ++ bytes_of_string k ++ vb)
       keys chunks) /\
  enc (VMap m2) = OK out /\
  dec cur br = Err (Name f ++ ": map too large").
Proof.
  intros Hty Henc Hdec Hnd Hperm Hout Hbig Hhdr Hextra.
  unfold emitCborMarshalMapField in Henc. rewrite Hty in Henc.
  cbn [reflect.kind] in Henc. inv_bind Henc. inv_bind Henc. injection Henc as <-.
  unfold emitCborMarshalStringField in Heqr. cbn [Pointer] in Heqr. injection Heqr as <-.
  assert (Hvenc : emitCborMarshalStructField M
            {| Name := "v"; MapKey := EmptyString; Pointer := false; Typ := elem; Pkg := Pkg f |}
            = OK a0).
  { destruct elem as [| | | | | | ? ? | ? | ? ? | e | ? ?]; try discriminate Heqr0.
    - destruct e; try discriminate Heqr0. exact Heqr0.
    - exact Heqr0. }
  clear Heqr0.
  split; [| split; [| split]].
  - cbn beta iota.
    destruct (Z.of_nat (length big) >? 4096) eqn:E; [reflexivity |].
    rewrite Z.gtb_ltb in E. apply Z.ltb_ge in E. lia.
  - cbn beta iota in Hout.
    destruct (Z.of_nat (length m1) >? 4096) eqn:E; [discriminate Hout |].
    rewrite Z.gtb_ltb in E. apply Z.ltb_ge in E.
    cbn [bind WriteMajorTypeHeaderBuf] in Hout. inv_bind Hout. injection Hout as <-.
    rewrite uint64_small by lia.
    apply write_all_inv in Heqr. destruct Heqr as (chunks & -> & Hall).
    exists (sort_Strings (List.map fst m1)), chunks.
    split; [apply sort_Strings_perm |]. split; [apply sort_Strings_sorted |].
    split; [reflexivity |].
    assert (Hkeys : Forall (fun k => In k (List.map fst m1)) (sort_Strings (List.map fst m1))).
    { apply List.Forall_forall. intros k Hk.
      eapply Permutation_in; [apply sort_Strings_perm | exact Hk]. }
    revert Hkeys. induction Hall as [| k c ks cs Hk Hall IH]; intros Hkeys; constructor.
    + apply Forall_cons_1 in Hkeys. destruct Hkeys as [Hin _].
      destruct (assoc_in _ _ Hin) as [v Hv]. rewrite Hv in Hk. cbn [default] in Hk.
      destruct (len_string k >? MaxLength) eqn:E'; cbn [bind] in Hk; [discriminate Hk |].
      unfold id in Hk. inv_bind Hk. injection Hk as <-.
      rewrite Z.gtb_ltb in E'. apply Z.ltb_ge in E'.
      exists v, a0, a. repeat split; try assumption.
      rewrite uint64_small; [rewrite <- app_assoc; reflexivity |].
      unfold len_string, MaxLength in *. lia.
    + apply IH. apply Forall_cons_1 in Hkeys. tauto.
  - rewrite <- Hout. cbn beta iota.
    rewrite <- (Permutation_length Hperm).
    rewrite <- (sort_Strings_Permutation (List.map fst m1) (List.map fst m2))
      by (apply Permutation_map; exact Hperm).
    destruct (Z.of_nat (length m1) >? 4096); [reflexivity |].
    cbn [bind WriteMajorTypeHeaderBuf].
    erewrite write_all_ext; [reflexivity |].
    intros k. cbn beta. rewrite (assoc_Permutation m1 m2 k Hnd Hperm). reflexivity.
  - unfold emitCborUnmarshalMapField in Hdec. rewrite Hty in Hdec.
    inv_bind Hdec. inv_bind Hdec. injection Hdec as <-.
    rewrite Hhdr. cbn [bind]. cbn [Z.eqb MajMap Pos.eqb negb].
    destruct (extra >? 4096) eqn:E; [reflexivity |].
    rewrite Z.gtb_ltb in E. apply Z.ltb_ge in E. lia.
Qed.

Lemma map_field_canonical_witness :
  let enc := generated no_Encoder (emitCborMarshalMapField (H := no_External)
                          (MarshalCBOR (H := no_External) testing_env 1) OldMap) in
  enc (VMap [("b", VStruct [("Value", VUint 2)]); ("a", VStruct [("Value", VUint 1)])])
  = OK [162; 97; 97; 133; 96; 1; 64; 0; 96; 97; 98; 133; 96; 2; 64; 0; 96] /\
  enc (VMap [("a", VStruct [("Value", VUint 1)]); ("b", VStruct [("Value", VUint 2)])])
  = OK [162; 97; 97; 133; 96; 1; 64; 0; 96; 97; 98; 133; 96; 2; 64; 0; 96].
Proof.
  intros enc. split; [reflexivity |].
  refine (proj1 (proj2 (proj2 (@map_field_canonical no_External
            (MarshalCBOR (H := no_External) testing_env 1) no_methods_U
            OldMap (reflect.StructOf testing "SimpleTypeOne") enc
            (generated no_Decoder (emitCborUnmarshalMapField (H := no_External) no_methods_U OldMap))
            [("b", VStruct [("Value", VUint 2)]); ("a", VStruct [("Value", VUint 1)])]
            [("a", VStruct [("Value", VUint 1)]); ("b", VStruct [("Value", VUint 2)])]
            (replicate 4097 ("k", VStruct [])) _
            (VMap []) (GetPeeker (ordinary [185; 16; 1])) (at_rest [] (Some 1)) 4097
            _ _ _ _ _ _ _ _ _)))).
  - reflexivity.
  - reflexivity.
  - reflexivity.
  - cbn [List.map fst]. apply NoDup_cons_2; [| apply NoDup_singleton].
    intros Hin. apply list_elem_of_singleton in Hin. discriminate Hin.
  - apply perm_swap.
  - reflexivity.
  - reflexivity.
  - reflexivity.
  - reflexivity.
Defined.

Lemma emit_fields_inv `{External} {A : Type} (emit : Field -> result A)
    (fields : list Field) (l : list (Field * A)) :
  emit_fields emit fields = OK l ->
  Forall2 (fun f p => fst p = f /\ emit f = OK (snd p)) fields l.
Proof.
  revert l. induction fields as [| f fields IH]; cbn [emit_fields]; intros l Hl.
  - injection Hl as <-. constructor.
  - destruct (emit f) as [a |] eqn:Ha; cbn [bind] in Hl; [| discriminate Hl].
    destruct (emit_fields emit fields) as [rest |] eqn:Hrest; cbn [bind] in Hl;
      [| discriminate Hl].
    injection Hl as <-. constructor; [split; [reflexivity | exact Ha] |].
    apply IH. reflexivity.
Qed.

(** ** The order of the pairs of a record in named-map form *)

(** C3, as the code has it: the encoder of a record in named-map form
    writes the map header and then one pair per field in the order in which
    the schema declares the fields, the wire key as text followed by the
    value; it does not sort the pairs. *)
Theorem named_map_pairs_in_declaration_order `{External}
    (M : GoType -> option Value -> result (list Z))
    (gti : GenTypeInfo) (enc : option Value -> result (list Z))
    (fs : list (string * Value)) (out : list Z) :
  emitCborMarshalStructMap M gti = OK enc ->
  enc (Some (VStruct fs)) = OK out ->
  pairs_in_order M gti (Fields gti) fs out.
Proof.
  intros Henc Hout. unfold emitCborMarshalStructMap in Henc.
  inv_bind_as Henc encs Hemit. injection Henc as <-. cbn beta iota in Hout.
  inv_bind_as Hout body Hbody. injection Hout as <-.
  apply write_all_inv in Hbody. destruct Hbody as (chunks & -> & Hall).
  exists chunks. split; [reflexivity |].
  apply emit_fields_inv in Hemit.
  clear -Hemit Hall. revert chunks Hall.
  induction Hemit as [| f [f' [kenc venc]] fields encs [Hf Hfe] _ IH]; intros chunks Hall.
  - inversion Hall. constructor.
  - cbn [fst snd] in Hf, Hfe. subst f'.
    inversion Hall as [| ? c ? cs Hc Hcs]; subst.
    constructor; [| apply IH; exact Hcs].
    inv_bind_as Hfe kenc' Hk. inv_bind_as Hfe venc' Hv. injection Hfe as -> ->.
    unfold emitCborMarshalStringField in Hk. cbn [Pointer] in Hk. injection Hk as <-.
    cbn beta iota in Hc.
    destruct (len_string (MapKey f) >? MaxLength) eqn:E; cbn [bind] in Hc; [discriminate Hc |].
    inv_bind_as Hc vb Hvb. injection Hc as <-.
    rewrite Z.gtb_ltb in E. apply Z.ltb_ge in E.
    exists venc, vb. split; [first [assumption | reflexivity] |]. split; [assumption |].
    unfold text_item. rewrite uint64_small; [reflexivity |].
    unfold len_string, MaxLength in *. lia.
Qed.

Lemma named_map_pairs_in_declaration_order_witness :
  pairs_in_order (H := no_External) no_methods_M RenamedFields (Fields RenamedFields)
    [("Foo", VInt (-1)); ("Bar", VString "x")]
    [162; 99; 102; 111; 111; 32; 100; 98; 101; 101; 112; 97; 120].
Proof.
  apply (@named_map_pairs_in_declaration_order no_External no_methods_M RenamedFields
           (generated (fun _ => Err "no code was generated")
              (emitCborMarshalStructMap (H := no_External) no_methods_M RenamedFields))).
  - reflexivity.
  - reflexivity.
Defined.

(** C3, as the specification words it, fails: for [RenamedFields], declared
    with the keys "foo" then "beep", the pair of "foo" is written first,
    and no ascending arrangement of the fields accounts for the output. *)
Lemma named_map_pairs_not_sorted :
  generated (fun _ => Err "no code was generated")
    (emitCborMarshalStructMap (H := no_External) no_methods_M RenamedFields)
    (Some (VStruct [("Foo", VInt (-1)); ("Bar", VString "x")]))
  = OK [162; 99; 102; 111; 111; 32; 100; 98; 101; 101; 112; 97; 120] /\
  ~ exists order,
      Permutation order (Fields RenamedFields) /\
      sorted_by_key order /\
      pairs_in_order (H := no_External) no_methods_M RenamedFields order
        [("Foo", VInt (-1)); ("Bar", VString "x")]
        [162; 99; 102; 111; 111; 32; 100; 98; 101; 101; 112; 97; 120].
Proof.
  split; [reflexivity |].
  intros (order & Hperm & Hsorted & chunks & Hout & Hall).
  symmetry in Hperm. apply Permutation_length_2_inv in Hperm.
  destruct Hperm as [-> | ->].
  - inversion Hsorted as [| ? ? _ Hhd]; subst.
    inversion Hhd as [| ? ? Hle _]; subst. discriminate Hle.
  - inversion Hall as [| ? c1 ? cs1 (venc1 & vb1 & _ & _ & Hc1) Hall1]; subst.
    vm_compute in Hout. discriminate Hout.
Qed.

(** ** The [maxlen] annotation *)

(** C4 at [BigField], whose only field carries [cborgen:"maxlen=10000000"]:
    the analyzer takes the whole annotation for the wire key; the emitted
    encoder still refuses every byte string longer than [ByteArrayMaxLen],
    also one within the annotated ceiling; the emitted decoder refuses the
    header of a byte string of 2097153 bytes; and the named-map form writes
    the annotation as the key. *)
Theorem maxlen_annotation_not_applied (bs : list Z) :
  ByteArrayMaxLen < Z.of_nat (length bs) <= 10000000 ->
  Fields BigField =
    [{| Name := "LargeBytes"; MapKey := "maxlen=10000000"; Pointer := false;
        Typ := reflect.SliceOf reflect.TUint8; Pkg := testing |}] /\
  (exists enc,
     emitCborMarshalStructTuple (H := no_External) no_methods_M BigField = OK enc /\
     enc (Some (VStruct [("LargeBytes", VBytes bs)]))
     = Err "Byte array in field t.LargeBytes was too long") /\
  (exists dec,
     emitCborUnmarshalStructTuple (H := no_External) no_methods_U BigField = OK dec /\
     forall rest,
       dec (ordinary ([129] ++ CborEncodeMajorType MajByteString 2097153 ++ rest)) (VStruct [])
       = Err "t.LargeBytes: byte array too large") /\
  (exists enc,
     emitCborMarshalStructMap (H := no_External) no_methods_M BigField = OK enc /\
     enc (Some (VStruct [("LargeBytes", VBytes [1])]))
     = OK (MapHeader BigField ++ text_item "maxlen=10000000" ++ [65; 1])).
Proof.
  intros Hlen. split; [reflexivity |]. split; [| split].
  - eexists. split; [reflexivity |].
    simpl.
    destruct (Z.of_nat (length bs) >? ByteArrayMaxLen) eqn:E; [reflexivity |].
    rewrite Z.gtb_ltb in E. apply Z.ltb_ge in E. change ByteArrayMaxLen with 2097152 in *. lia.
  - eexists. split; [reflexivity |]. intros rest. reflexivity.
  - eexists. split; reflexivity.
Qed.

Lemma maxlen_annotation_not_applied_witness :
  exists enc,
    emitCborMarshalStructTuple (H := no_External) no_methods_M BigField = OK enc /\
    enc (Some (VStruct [("LargeBytes", VBytes (replicate (Z.to_nat 2097153) 0))]))
    = Err "Byte array in field t.LargeBytes was too long".
Proof.
  refine (proj1 (proj2 (maxlen_annotation_not_applied (replicate (Z.to_nat 2097153) 0) _))).
  rewrite length_replicate, Z2Nat.id by lia. change ByteArrayMaxLen with 2097152. lia.
Defined.

(** ** Optional fields *)

Lemma ReadByte_pending (br : peeker) (b : Z) (rest : list Z) :
  pending br = b :: rest -> ReadByte br = OK (b, at_rest rest (Some b)).
Proof.
  intros Hp. unfold ReadByte, peeker_read, read_bytes. rewrite Hp.
  destruct rest; reflexivity.
Qed.

Lemma UnreadByte_at_rest (b : Z) (rest : list Z) :
  UnreadByte (at_rest rest (Some b)) = OK (handed_back b rest).
Proof. reflexivity. Qed.

(** The first byte of a header carries the major type and is never the
    null byte unless the major type is 7. *)
Lemma header_not_null (t l : Z) :
  0 <= t < 7 -> 0 <= l ->
  exists b rest, CborEncodeMajorType t l = b :: rest /\ (b =? 246) = false.
Proof.
  intros Ht Hl. destruct (header_first_byte t l) as (b & rest & Heq & Hdiv); [lia | lia |].
  exists b, rest. split; [exact Heq |].
  apply Z.eqb_neq. intros ->. change (246 / 32) with 7 in Hdiv. lia.
Qed.

Lemma uint64_nonneg (x : Z) : 0 <= uint64 x.
Proof. unfold uint64. apply Z.mod_pos_bound. lia. Qed.

(** C6: for an optional field (pointer to uint64, to a record, to a content
    identifier) the absent value is written as the single byte 0xF6; the
    decoder reads one byte, leaves the field as it is when the byte is 0xF6,
    and otherwise hands the byte back and decodes as usual; a generated
    encoder writes 0xF6 for a nil record and never starts a record with
    0xF6; absent and present uint64 values are read back as written.  A
    present record is written by the [MarshalCBOR] of its type and a
    present content identifier by [WriteCidBuf]; each is read back as
    present, with the value written, whenever the codec underneath, the
    methods of the record type or the codec of content identifiers, reads
    back what it writes and does not start it with 0xF6. *)
Theorem optional_field_null `{External}
    (M : GoType -> option Value -> result (list Z))
    (U : GoType -> Value -> peeker -> result (Value * peeker))
    (f : Field) (T : GoType) (n b : Z) (cur : Value) (br : peeker) (rest tail : list Z)
    (repr : Repr) (gti : GenTypeInfo) (m : option Value -> result (list Z))
    (v : Value) (out : list Z) :
  Pointer f = true ->
  pending br = b :: rest ->
  is_uint64 n ->
  same_struct T bigIntType = false ->
  same_struct T cidType = false ->
  same_struct T deferredType = false ->
  match repr with
  | Tuple => emitCborMarshalStructTuple M gti
  | NamedMap => emitCborMarshalStructMap M gti
  end = OK m ->
  m (Some v) = OK out ->
  (exists enc dec plain,
     emitCborMarshalUint64Field f = OK enc /\
     emitCborUnmarshalUint64Field f = OK dec /\
     emitCborUnmarshalUint64Field (required f) = OK plain /\
     enc (VPtr None) = OK [246] /\
     dec cur br =
       (if b =? 246 then OK (cur, at_rest rest (Some b))
        else do '(x, br') <- plain cur (handed_back b rest); OK (VPtr (Some x), br')) /\
     (exists lb, dec (VPtr None) (GetPeeker (ordinary (246 :: tail)))
                 = OK (VPtr None, at_rest tail lb)) /\
     (exists bs lb,
        enc (VPtr (Some (VUint n))) = OK bs /\
        dec cur (GetPeeker (ordinary (bs ++ tail)))
        = OK (VPtr (Some (VUint n)), at_rest tail lb))) /\
  (exists enc dec,
     emitCborMarshalStructField M (of_type f T) = OK enc /\
     emitCborUnmarshalStructField U (of_type f T) = OK dec /\
     enc (VPtr None) = M T None /\
     m None = OK [246] /\
     (exists b0 out0, out = b0 :: out0 /\ b0 <> 246) /\
     dec cur br =
       (if b =? 246 then OK (cur, at_rest rest (Some b))
        else
          do '(x, br') <- wrap ("unmarshaling " ++ Name f ++ " pointer")
                            (U T (zero_value T) (handed_back b rest));
          OK (VPtr (Some x), br')) /\
     (forall p, enc (VPtr p) = M T p) /\
     (forall good x bs cur0,
        methods_roundtrip M U good ->
        regular T = true -> good T x = true ->
        enc (VPtr (Some x)) = OK bs ->
        reads_back dec cur0 bs (VPtr (Some x)))) /\
  (exists enc dec,
     emitCborMarshalStructField M (of_type f cidType) = OK enc /\
     emitCborUnmarshalStructField U (of_type f cidType) = OK dec /\
     enc (VPtr None) = OK [246] /\
     dec cur br =
       (if b =? 246 then OK (cur, at_rest rest (Some b))
        else
          do '(c, br') <- wrap ("failed to read cid field " ++ Name f)
                            (ReadCid (handed_back b rest));
          OK (VPtr (Some (VCid c)), br')) /\
     (forall c, enc (VPtr (Some (VCid c)))
                = wrap ("failed to write cid field " ++ Name f) (WriteCidBuf c)) /\
     (forall c bs cur0,
        WriteCidBuf c = OK bs ->
        (exists b0 tl, bs = b0 :: tl /\ b0 <> 246) ->
        (forall br0 rest0, pending br0 = bs ++ rest0 ->
           exists br', ReadCid br0 = OK (c, br') /\ pending br' = rest0) ->
        enc (VPtr (Some (VCid c))) = OK bs /\
        reads_back dec cur0 bs (VPtr (Some (VCid c))))).
Proof.
  intros Hptr Hpend Hn HnotBig HnotCid HnotDef Hm Hout.
  split; [| split].
  - unfold emitCborMarshalUint64Field, emitCborUnmarshalUint64Field.
    cbn [required Pointer]. rewrite Hptr.
    eexists _, _, _. do 3 (split; [reflexivity |]).
    split; [reflexivity |]. split; [| split].
    + rewrite (ReadByte_pending br b rest Hpend). cbn [bind hd CborNull].
      destruct (b =? 246); [reflexivity |]. cbn [negb].
      rewrite UnreadByte_at_rest. cbn [bind].
      destruct (CborReadHeaderBuf (handed_back b rest)) as [[[maj extra] br'] | e];
        cbn [bind]; [| reflexivity].
      destruct (negb (maj =? MajUnsignedInt)); reflexivity.
    + eexists. rewrite (ReadByte_pending _ 246 tail) by reflexivity. reflexivity.
    + destruct (header_not_null MajUnsignedInt (uint64 n)) as (b0 & r0 & Hhdr & Hb0);
        [unfold MajUnsignedInt; lia | apply uint64_nonneg |].
      destruct (read_header_peeker (handed_back b0 (r0 ++ tail)) MajUnsignedInt (uint64 n) tail)
        as [lb Hr].
      { unfold MajUnsignedInt; lia. }
      { unfold uint64. apply Z.mod_pos_bound. lia. }
      { unfold pending, handed_back. cbn [unread reader]. rewrite Hhdr. reflexivity. }
      eexists _, lb. split; [reflexivity |].
      unfold WriteMajorTypeHeaderBuf. rewrite Hhdr.
      rewrite (ReadByte_pending _ b0 (r0 ++ tail)) by reflexivity.
      cbn [bind hd CborNull]. rewrite Hb0. cbn [negb].
      rewrite UnreadByte_at_rest. cbn [bind]. rewrite Hr. cbn [bind].
      cbn [Z.eqb MajUnsignedInt negb]. rewrite uint64_small by exact Hn. reflexivity.
  - unfold emitCborMarshalStructField, emitCborUnmarshalStructField.
    cbn [of_type Typ Pointer Name]. rewrite HnotBig, HnotCid, HnotDef, Hptr.
    eexists _, _. do 2 (split; [reflexivity |]).
    split; [unfold static_type; cbn [of_type Pointer Typ]; rewrite Hptr; reflexivity |].
    split; [| split].
    + destruct repr; [unfold emitCborMarshalStructTuple in Hm
                     | unfold emitCborMarshalStructMap in Hm];
        inv_bind_as Hm encs Hemit; injection Hm as <-; reflexivity.
    + destruct repr; [unfold emitCborMarshalStructTuple in Hm
                     | unfold emitCborMarshalStructMap in Hm];
        inv_bind_as Hm encs Hemit; injection Hm as <-; cbn beta iota in Hout;
        (destruct v; try discriminate Hout);
        inv_bind_as Hout body Hbody; injection Hout as <-.
      * destruct (header_not_null MajArray (uint64 (Z.of_nat (length (Fields gti)))))
          as (b0 & r0 & Hhdr & Hb0); [unfold MajArray; lia | apply uint64_nonneg |].
        unfold TupleHeader. rewrite Hhdr. eexists _, _. split; [reflexivity |].
        apply Z.eqb_neq. exact Hb0.
      * destruct (header_not_null MajMap (uint64 (Z.of_nat (length (Fields gti)))))
          as (b0 & r0 & Hhdr & Hb0); [unfold MajMap; lia | apply uint64_nonneg |].
        unfold MapHeader. rewrite Hhdr. eexists _, _. split; [reflexivity |].
        apply Z.eqb_neq. exact Hb0.
    + split; [| split].
      * rewrite (ReadByte_pending br b rest Hpend). cbn [bind hd CborNull].
        destruct (b =? 246); reflexivity.
      * intros p. unfold static_type. cbn [of_type Pointer Typ]. rewrite Hptr. reflexivity.
      * intros good x bs cur0 HMU Hreg Hgood Hbs br0 rest0 Hp0.
        unfold static_type in Hbs. cbn [of_type Pointer Typ] in Hbs. rewrite Hptr in Hbs.
        cbn [call_MarshalCBOR] in Hbs.
        destruct (proj2 HMU T x bs Hreg Hgood Hbs) as [(b1 & tl & -> & Hb1) Hrb].
        rewrite (ReadByte_pending br0 b1 (tl ++ rest0) Hp0). cbn [bind hd CborNull].
        assert ((b1 =? 246) = false) as -> by (apply Z.eqb_neq; exact Hb1). cbn [negb].
        rewrite UnreadByte_at_rest. cbn [bind].
        destruct (Hrb (zero_value T) (handed_back b1 (tl ++ rest0)) rest0 eq_refl)
          as (br' & Hr & Hp').
        rewrite Hr. cbn [wrap bind]. eauto.
  - unfold emitCborMarshalStructField, emitCborUnmarshalStructField.
    cbn [of_type Typ Pointer Name]. rewrite Hptr.
    change (same_struct cidType bigIntType) with false.
    change (same_struct cidType cidType) with true. cbn iota.
    eexists _, _. do 2 (split; [reflexivity |]).
    split; [reflexivity |]. split; [| split].
    + rewrite (ReadByte_pending br b rest Hpend). cbn [bind hd CborNull].
      destruct (b =? 246); reflexivity.
    + reflexivity.
    + intros c bs cur0 Hbs (b1 & tl & -> & Hb1) Hrb.
      split; [rewrite Hbs; reflexivity |].
      intros br0 rest0 Hp0.
      rewrite (ReadByte_pending br0 b1 (tl ++ rest0) Hp0). cbn [bind hd CborNull].
      assert ((b1 =? 246) = false) as -> by (apply Z.eqb_neq; exact Hb1). cbn [negb].
      rewrite UnreadByte_at_rest. cbn [bind].
      destruct (Hrb (handed_back b1 (tl ++ rest0)) rest0 eq_refl) as (br' & Hr & Hp').
      rewrite Hr. cbn [wrap bind]. eauto.
Qed.

Lemma optional_field_null_witness :
  let enc := generated no_Encoder (emitCborMarshalUint64Field Pizza) in
  let dec := generated no_Decoder (emitCborUnmarshalUint64Field Pizza) in
  let One := reflect.StructOf testing "SimpleTypeOne" in
  let renc := generated no_Encoder
                (emitCborMarshalStructField (H := no_External)
                   (MarshalCBOR (H := no_External) testing_env 1) (of_type Pizza One)) in
  let rdec := generated no_Decoder
                (emitCborUnmarshalStructField (H := no_External)
                   (UnmarshalCBOR (H := no_External) testing_env 1) (of_type Pizza One)) in
  enc (VPtr None) = OK [246] /\
  (exists lb, dec (VPtr None) (GetPeeker (ordinary [246])) = OK (VPtr None, at_rest [] lb)) /\
  (exists bs lb,
     enc (VPtr (Some (VUint 7))) = OK bs /\
     dec (VPtr None) (GetPeeker (ordinary (bs ++ []))) = OK (VPtr (Some (VUint 7)), at_rest [] lb)) /\
  renc (VPtr None) = OK [246] /\
  renc (VPtr (Some one_zero)) = OK [133; 96; 0; 64; 0; 96] /\
  rdec (VPtr None) (GetPeeker (ordinary [133; 96; 0; 64; 0; 96; 255]))
  = OK (VPtr (Some one_zero), at_rest [255] (Some 96)).
Proof.
  intros enc dec One renc rdec.
  destruct (@optional_field_null no_External
              (MarshalCBOR (H := no_External) testing_env 1)
              (UnmarshalCBOR (H := no_External) testing_env 1) Pizza
              (reflect.StructOf testing "SimpleTypeOne") 7 133 (VPtr None)
              (GetPeeker (ordinary [133; 96; 0; 64; 0; 96; 255])) [96; 0; 64; 0; 96; 255] []
              Tuple SimpleTypeOne
              (generated (fun _ => Err "no code was generated")
                 (emitCborMarshalStructTuple (H := no_External)
                    (MarshalCBOR (H := no_External) testing_env 1) SimpleTypeOne))
              (VStruct []) [133; 96; 0; 64; 0; 96])
    as [(enc' & dec' & plain & He & Hd & _ & Hnull & _ & Habsent & Hpresent)
        [(renc' & rdec' & Hre & Hrd & _ & _ & _ & Hrdec & Hrenc & _) _]].
  - reflexivity.
  - reflexivity.
  - unfold is_uint64. lia.
  - reflexivity.
  - reflexivity.
  - reflexivity.
  - reflexivity.
  - reflexivity.
  - unfold emitCborMarshalUint64Field in He. injection He as <-.
    unfold emitCborUnmarshalUint64Field in Hd. injection Hd as <-.
    split; [exact Hnull |]. split; [exact Habsent |]. split; [exact Hpresent |].
    subst renc rdec One. rewrite Hre, Hrd. cbn [generated].
    split; [rewrite Hrenc; reflexivity |].
    split; [rewrite Hrenc; vm_compute; reflexivity |].
    rewrite Hrdec. vm_compute. reflexivity.
Defined.

(** ** Unknown keys in named-map form *)

Lemma emit_fields_keys `{External} {A : Type} (emit : Field -> result A)
    (fields : list Field) (l : list (Field * A)) :
  emit_fields emit fields = OK l -> List.map fst l = fields.
Proof.
  intros Hl. apply emit_fields_inv in Hl.
  induction Hl as [| f p fields l [Hf _] _ IH]; [reflexivity |].
  cbn [List.map]. rewrite Hf, IH. reflexivity.
Qed.

Lemma find_case_None (name : string) (decs : list (Field * Decoder)) :
  ~ In name (List.map MapKey (List.map fst decs)) -> find_case name decs = None.
Proof.
  intros Hnot. induction decs as [| [f d] decs IH]; [reflexivity |].
  cbn [find_case]. cbn [List.map fst In] in Hnot.
  destruct (String.eqb_spec name (MapKey f)) as [-> | Hne]; [tauto |].
  apply IH. tauto.
Qed.

(** C10: at the skip site the result of the link scanner is discarded and
    the scanner runs on the reader [r] the decoder was called with, not on
    the peekable wrapper: whatever the scanner reports, the iteration
    succeeds, and the loop reads on where the scanner stopped.  Under [S0]
    the truncated value 0x19 0x01 under the unknown key "B" makes the
    scanner fail after it has consumed both bytes, and the decoder returns
    without error; after the invalid header 0x1C under "B", which the
    scanner consumes, the pair A=1 is read; a byte string that announces
    more bytes than the input has makes the scanner consume the pair that
    follows, and it is the read of the next key that reports the end of the
    input. *)
Theorem skip_site_never_fails `{External}
    (U : GoType -> Value -> peeker -> result (Value * peeker))
    (kdec : Decoder) (decs : list (Field * Decoder))
    (r : io_Reader) (r0 : list Z) (name0 name : string) (fs : list (string * Value))
    (br br1 : peeker) (e : option string) (r' : list Z) (t0 : Value) :
  kdec (VString name0) br = OK (VString name, br1) ->
  find_case name decs = None ->
  ScanForLinks (reader br1) = (e, r') ->
  map_iteration r kdec decs (name0, fs, br)
  = OK (name, fs, snd (ScanForLinks_r r br1)) /\
  map_iteration (ordinary r0) kdec decs (name0, fs, br)
  = OK (name, fs, {| reader := r'; unread := unread br1; lastByte := lastByte br1 |}) /\
  ScanForLinks [25; 1] = (Some "unexpected EOF", []) /\
  exists dec,
    emitCborUnmarshalStructMap U S0 = OK dec /\
    dec (ordinary [161; 97; 66; 25; 1]) t0 = OK (VStruct [], at_rest [] (Some 66)) /\
    dec (ordinary [162; 97; 66; 28; 97; 65; 1]) t0
    = OK (VStruct [("A", VUint 1)], at_rest [] (Some 1)) /\
    dec (ordinary [162; 97; 66; 88; 100; 97; 65; 1]) t0 = Err "unexpected EOF".
Proof.
  intros Hkey Hfind Hscan. split; [| split; [| split]].
  - unfold map_iteration. rewrite Hkey. cbn [bind]. rewrite Hfind.
    destruct (ScanForLinks_r r br1) as [e' br2]. reflexivity.
  - unfold map_iteration. rewrite Hkey. cbn [bind]. rewrite Hfind.
    unfold ScanForLinks_r. rewrite Hscan. reflexivity.
  - reflexivity.
  - eexists. split; [reflexivity |]. split; [reflexivity |]. split; reflexivity.
Qed.

Lemma skip_site_never_fails_witness :
  map_iteration (ordinary [161; 97; 66; 25; 1])
    (generated no_Decoder (emitCborUnmarshalStringField name_field))
    (generated [] (emit_fields (unmarshalField (H := no_External) no_methods_U S0) (Fields S0)))
    (EmptyString, [], at_rest [97; 66; 25; 1] (Some 161))
  = OK ("B", [], at_rest [] (Some 66)).
Proof.
  refine (proj1 (proj2 (@skip_site_never_fails no_External no_methods_U _ _
            (ordinary [161; 97; 66; 25; 1])
            [161; 97; 66; 25; 1] EmptyString "B" []
            (at_rest [97; 66; 25; 1] (Some 161)) (at_rest [25; 1] (Some 66))
            (Some "unexpected EOF") [] (VStruct []) _ _ _))).
  - reflexivity.
  - reflexivity.
  - reflexivity.
Defined.

(** ** Decoders start from the zero record *)

Lemma assoc_set_lookup (x y : string) (v : Value) (fs : list (string * Value)) :
  assoc x (assoc_set y v fs) = if String.eqb x y then Some v else assoc x fs.
Proof.
  induction fs as [| [k w] fs IH]; cbn [assoc_set assoc].
  - destruct (String.eqb x y); reflexivity.
  - destruct (String.eqb_spec y k) as [-> | Hyk]; cbn [assoc].
    + destruct (String.eqb x k); reflexivity.
    + rewrite IH. destruct (String.eqb_spec x k) as [-> | Hxk]; [| reflexivity].
      destruct (String.eqb_spec k y) as [-> | _]; [congruence | reflexivity].
Qed.

Lemma decode_into_other `{External} (f : Field) (d : Decoder)
    (fs fs' : list (string * Value)) (br br' : peeker) (x : string) :
  decode_into f d fs br = OK (fs', br') -> x <> Name f -> assoc x fs' = assoc x fs.
Proof.
  unfold decode_into. intros Hd Hx. inv_bind_as Hd vb Hv. destruct vb as [v b].
  injection Hd as <- <-. rewrite assoc_set_lookup.
  destruct (String.eqb_spec x (Name f)); [contradiction | reflexivity].
Qed.

Lemma decode_fields_other `{External} (decs : list (Field * Decoder))
    (fs fs' : list (string * Value)) (br br' : peeker) (x : string) :
  decode_fields decs fs br = OK (fs', br') ->
  ~ In x (List.map Name (List.map fst decs)) ->
  assoc x fs' = assoc x fs.
Proof.
  revert fs br. induction decs as [| [f d] decs IH]; cbn [decode_fields]; intros fs br Hd Hx.
  - injection Hd as <- <-. reflexivity.
  - inv_bind_as Hd s1 H1. destruct s1 as [fs1 br1].
    cbn [List.map fst In] in Hx.
    rewrite (IH _ _ Hd) by tauto.
    eapply decode_into_other; [exact H1 |]. intros ->. tauto.
Qed.

Lemma decode_fields_app `{External} (a b : list (Field * Decoder))
    (fs : list (string * Value)) (br : peeker) :
  decode_fields (a ++ b) fs br =
  (do '(fs', br') <- decode_fields a fs br; decode_fields b fs' br').
Proof.
  revert fs br. induction a as [| [f d] a IH]; intros fs br; cbn [app decode_fields bind].
  - reflexivity.
  - destruct (decode_into f d fs br) as [[fs1 br1] |]; cbn [bind]; [apply IH | reflexivity].
Qed.

Lemma emit_fields_app `{External} {A : Type} (emit : Field -> result A)
    (pre post : list Field) (l : list (Field * A)) :
  emit_fields emit (pre ++ post) = OK l ->
  exists lpre lpost,
    emit_fields emit pre = OK lpre /\ emit_fields emit post = OK lpost /\ l = lpre ++ lpost.
Proof.
  revert l. induction pre as [| f pre IH]; cbn [app emit_fields]; intros l Hl.
  - exists [], l. repeat split. exact Hl.
  - inv_bind_as Hl a Ha. inv_bind_as Hl rest Hrest. injection Hl as <-.
    destruct (IH _ eq_refl) as (lpre & lpost & -> & Hpost & ->).
    exists ((f, a) :: lpre), lpost. cbn [bind]. repeat split. exact Hpost.
Qed.

Lemma find_case_Some (name : string) (decs : list (Field * Decoder)) (g : Field) (d : Decoder) :
  find_case name decs = Some (g, d) -> In (g, d) decs /\ MapKey g = name.
Proof.
  induction decs as [| [f e] decs IH]; cbn [find_case]; [discriminate |].
  destruct (String.eqb_spec name (MapKey f)) as [-> | Hne].
  - intros [= <- <-]. split; [left; reflexivity | reflexivity].
  - intros Hf. destruct (IH Hf) as [Hin Hk]. split; [right; exact Hin | exact Hk].
Qed.

(** A field is bound in the record only by an iteration that read its key. *)
Lemma map_loop_bound `{External} (r : io_Reader) (kdec : Decoder)
    (decs : list (Field * Decoder)) (n from : nat)
    (st st' : string * list (string * Value) * peeker) (x : string) :
  for_range from n (fun _ => map_iteration r kdec decs) st = OK st' ->
  assoc x (snd (fst st')) <> None ->
  assoc x (snd (fst st)) <> None \/
  exists g d,
    In (g, d) decs /\ Name g = x /\
    In (MapKey g)
       (List.map (fun s => fst (fst s))
          (for_range_trace from n (fun _ => map_iteration r kdec decs) st)).
Proof.
  revert from st. induction n as [| n IH]; intros from st Hrun Hx.
  - cbn [for_range] in Hrun. injection Hrun as <-. left. exact Hx.
  - cbn [for_range for_range_trace] in *. inv_bind_as Hrun s1 Hbody.
    destruct (IH _ _ Hrun Hx) as [Hs1 | (g & d & Hin & Hname & Hkey)].
    + destruct st as [[name fs] br]. unfold map_iteration in Hbody.
      inv_bind_as Hbody kb Hk. destruct kb as [k br1].
      destruct k; try discriminate Hbody.
      destruct (find_case s decs) as [[g d] |] eqn:Hfind.
      * inv_bind_as Hbody fb Hdec. destruct fb as [fs1 br2]. injection Hbody as <-.
        cbn [fst snd] in *.
        destruct (String.eqb_spec x (Name g)) as [-> | Hne].
        -- right. destruct (find_case_Some _ _ _ _ Hfind) as [Hin Hkey].
           exists g, d. split; [exact Hin |]. split; [reflexivity |].
           cbn [List.map fst]. left. symmetry. exact Hkey.
        -- left. rewrite <- (decode_into_other _ _ _ _ _ _ x Hdec Hne). exact Hs1.
      * destruct (ScanForLinks_r r br1) as [e br2]. injection Hbody as <-.
        left. exact Hs1.
    + right. exists g, d. split; [exact Hin |]. split; [exact Hname |].
      cbn [List.map]. right. exact Hkey.
Qed.

Lemma NoDup_Name_inj (fields : list Field) (f g : Field) :
  NoDup (List.map Name fields) -> In f fields -> In g fields -> Name f = Name g -> f = g.
Proof.
  induction fields as [| h fields IH]; cbn [List.map In]; [tauto |].
  intros Hnd Hf Hg Hname. apply NoDup_cons in Hnd. destruct Hnd as [Hnot Hnd].
  assert (Hin : forall a, In a fields -> Name a ∈ List.map Name fields).
  { intros a Ha. apply list_elem_of_In. apply in_map. exact Ha. }
  destruct Hf as [-> | Hf], Hg as [-> | Hg].
  - reflexivity.
  - exfalso. apply Hnot. rewrite Hname. apply Hin. exact Hg.
  - exfalso. apply Hnot. rewrite <- Hname. apply Hin. exact Hf.
  - apply IH; assumption.
Qed.

Lemma unmarshalField_null `{External}
    (U : GoType -> Value -> peeker -> result (Value * peeker))
    (gti : GenTypeInfo) (f : Field) (d : Decoder) (cur : Value) (br : peeker)
    (rest : list Z) :
  unmarshalField U gti f = OK d ->
  admits_null f = true ->
  pending br = 246 :: rest ->
  d cur br = OK (cur, at_rest rest (Some 246)).
Proof.
  unfold admits_null. intros Hd Hnull Hpend.
  unfold unmarshalField, with_name in Hd. cbn [Typ Pointer Name] in Hd.
  apply andb_prop in Hnull. destruct Hnull as [Hptr Hkind].
  destruct (reflect.kind (Typ f)); try discriminate Hkind.
  - unfold emitCborUnmarshalUint64Field in Hd. injection Hd as <-.
    cbn [Pointer]. rewrite Hptr, (ReadByte_pending br 246 rest Hpend). reflexivity.
  - apply andb_prop in Hkind. destruct Hkind as [Hbig Hdef].
    apply negb_true_iff in Hbig, Hdef.
    unfold emitCborUnmarshalStructField in Hd. cbn [Typ Pointer Name] in Hd.
    rewrite Hbig, Hdef, Hptr in Hd.
    destruct (same_struct (Typ f) cidType); injection Hd as <-;
      rewrite (ReadByte_pending br 246 rest Hpend); reflexivity.
Qed.

Lemma NoDup_Name_middle (pre post : list Field) (f : Field) :
  NoDup (List.map Name (pre ++ f :: post)) ->
  ~ In (Name f) (List.map Name pre) /\ ~ In (Name f) (List.map Name post).
Proof.
  rewrite map_app. cbn [List.map]. intros Hnd.
  apply NoDup_app in Hnd. destruct Hnd as (_ & Hdisj & Hnd).
  apply NoDup_cons in Hnd. destruct Hnd as [Hnot _]. split.
  - intros Hin. apply (Hdisj (Name f)); [apply list_elem_of_In; exact Hin | left].
  - intros Hin. apply Hnot. apply list_elem_of_In. exact Hin.
Qed.

(** C8: both decoders set the record to its zero value before they read:
    the result does not depend on what the record held; in named-map form a
    field whose key the decoder did not read holds the zero value of its
    type; in tuple form an optional field for which the decoder found the
    null byte is absent. *)
Theorem decoders_zero_initialize `{External}
    (U : GoType -> Value -> peeker -> result (Value * peeker)) :
  (forall repr gti dec r t0 t0',
     emitCborUnmarshalStruct repr U gti = OK dec ->
     dec r t0 = dec r t0') /\
  (forall gti dec r t0 fs br f,
     emitCborUnmarshalStructMap U gti = OK dec ->
     NoDup (List.map Name (Fields gti)) ->
     dec r t0 = OK (VStruct fs, br) ->
     In f (Fields gti) ->
     ~ In (MapKey f) (keys_read U gti r) ->
     field_value fs f = zero_value (static_type f)) /\
  (forall gti dec r t0 fs br pre f post br1 rest,
     emitCborUnmarshalStructTuple U gti = OK dec ->
     NoDup (List.map Name (Fields gti)) ->
     Fields gti = pre ++ f :: post ->
     admits_null f = true ->
     reader_after U gti pre r = Some br1 ->
     pending br1 = 246 :: rest ->
     dec r t0 = OK (VStruct fs, br) ->
     field_value fs f = VPtr None).
Proof.
  split; [| split].
  - intros repr gti dec r t0 t0' Hdec.
    destruct repr; cbn [emitCborUnmarshalStruct] in Hdec;
      [unfold emitCborUnmarshalStructTuple in Hdec
      | unfold emitCborUnmarshalStructMap in Hdec; inv_bind_as Hdec kdec Hk];
      inv_bind_as Hdec decs Hemit; injection Hdec as <-; reflexivity.
  - intros gti dec r t0 fs br f Hdec Hnd Hrun Hf Hkey.
    unfold keys_read in Hkey.
    unfold emitCborUnmarshalStructMap in Hdec.
    change (emitCborUnmarshalStringField
              {| Name := "name"; MapKey := EmptyString; Pointer := false;
                 Typ := reflect.TString; Pkg := EmptyString |})
      with (emitCborUnmarshalStringField name_field) in Hdec.
    inv_bind_as Hdec kdec Hk. inv_bind_as Hdec decs Hemit. injection Hdec as <-.
    cbn beta zeta in Hrun. inv_bind_as Hrun hdr Hhdr. destruct hdr as [[maj extra] br0].
    destruct (negb (maj =? MajMap)); [discriminate Hrun |].
    destruct (extra >? MaxLength); [discriminate Hrun |].
    inv_bind_as Hrun st' Hloop. destruct st' as [[name' fs'] br'].
    injection Hrun as <- <-.
    unfold field_value.
    destruct (assoc (Name f) fs') as [v |] eqn:Hv; [exfalso | reflexivity].
    destruct (map_loop_bound r kdec decs _ _ _ _ (Name f) Hloop) as [Habs | (g & d & Hin & Hname & Hread)].
    + cbn [fst snd]. rewrite Hv. discriminate.
    + apply Habs. reflexivity.
    + apply Hkey. 
      assert (Hg : In g (Fields gti)).
      { rewrite <- (emit_fields_keys _ _ _ Hemit). apply (in_map fst) in Hin. exact Hin. }
      rewrite (NoDup_Name_inj (Fields gti) f g Hnd Hf Hg) by (symmetry; exact Hname).
      exact Hread.
  - intros gti dec r t0 fs br pre f post br1 rest Hdec Hnd Hfields Hnull Hafter Hpend Hrun.
    unfold emitCborUnmarshalStructTuple in Hdec.
    inv_bind_as Hdec decs Hemit. injection Hdec as <-.
    cbn beta zeta in Hrun. inv_bind_as Hrun hdr Hhdr. destruct hdr as [[maj extra] br0].
    destruct (negb (maj =? MajArray)); [discriminate Hrun |].
    destruct (negb (extra =? Z.of_nat (length (Fields gti)))); [discriminate Hrun |].
    inv_bind_as Hrun res Hfs. destruct res as [fs' br']. injection Hrun as <- <-.
    rewrite Hfields in Hemit, Hnd.
    destruct (emit_fields_app _ _ _ _ Hemit) as (dpre & dpost' & Hpre & Hpost & ->).
    cbn [emit_fields] in Hpost. inv_bind_as Hpost d Hd. inv_bind_as Hpost dpost Hdpost.
    injection Hpost as <-.
    unfold reader_after in Hafter. rewrite Hpre, Hhdr in Hafter.
    destruct (decode_fields dpre [] br0) as [[fs1 br1'] |] eqn:Hrun1; [| discriminate Hafter].
    injection Hafter as ->.
    rewrite decode_fields_app, Hrun1 in Hfs. cbn [bind decode_fields] in Hfs.
    destruct (NoDup_Name_middle pre post f Hnd) as [Hnpre Hnpost].
    assert (Hzero : field_value fs1 f = VPtr None).
    { unfold field_value.
      rewrite (decode_fields_other dpre [] fs1 br0 br1 (Name f) Hrun1)
        by (rewrite (emit_fields_keys _ _ _ Hpre); exact Hnpre).
      cbn [assoc default]. unfold static_type.
      unfold admits_null in Hnull. apply andb_prop in Hnull. destruct Hnull as [-> _].
      reflexivity. }
    unfold decode_into in Hfs.
    rewrite (unmarshalField_null U gti f d _ br1 rest Hd Hnull Hpend) in Hfs.
    cbn [bind] in Hfs.
    unfold field_value.
    rewrite (decode_fields_other dpost _ fs' _ br' (Name f) Hfs)
      by (rewrite (emit_fields_keys _ _ _ Hdpost); exact Hnpost).
    rewrite assoc_set_lookup, String.eqb_refl. cbn [default]. exact Hzero.
Qed.

Lemma decoders_zero_initialize_witness :
  (generated (fun _ _ => Err "no code was generated")
     (emitCborUnmarshalStructTuple (H := no_External) no_methods_U OptionalPizza)
     (ordinary [129; 246]) (VStruct [("Pizza", VPtr (Some (VUint 7)))])
   = OK (VStruct [("Pizza", VPtr None)], at_rest [] (Some 246))) /\
  field_value [("A", VUint 1)]
    {| Name := "B"; MapKey := "B"; Pointer := false; Typ := reflect.TUint64; Pkg := testing |}
  = VUint 0 /\
  field_value [("Pizza", VPtr None)]
    {| Name := "Pizza"; MapKey := "Pizza"; Pointer := true; Typ := reflect.TUint64;
       Pkg := testing |}
  = VPtr None.
Proof.
  destruct (@decoders_zero_initialize no_External no_methods_U) as (Hindep & Hmap & Htuple).
  pose (decT := generated (fun _ _ => Err "no code was generated")
                  (emitCborUnmarshalStructTuple (H := no_External) no_methods_U OptionalPizza)).
  pose (decM := generated (fun _ _ => Err "no code was generated")
                  (emitCborUnmarshalStructMap (H := no_External) no_methods_U S1)).
  split; [| split].
  - transitivity (decT (ordinary [129; 246]) (VStruct [])); [| reflexivity].
    apply (Hindep Tuple OptionalPizza decT). reflexivity.
  - apply (Hmap S1 decM (ordinary [161; 97; 65; 1]) (VStruct [])
             [("A", VUint 1)] (at_rest [] (Some 1))).
    + reflexivity.
    + cbn. apply NoDup_cons_2; [| apply NoDup_singleton].
      intros Hin. apply list_elem_of_singleton in Hin. discriminate Hin.
    + reflexivity.
    + right. left. reflexivity.
    + cbn. intros [Habs | []]. discriminate Habs.
  - apply (Htuple OptionalPizza decT (ordinary [129; 246])
             (VStruct [("Pizza", VPtr (Some (VUint 7)))])
             [("Pizza", VPtr None)] (at_rest [] (Some 246)) [] _ []
             (at_rest [246] (Some 129)) []).
    + reflexivity.
    + cbn. apply NoDup_singleton.
    + reflexivity.
    + reflexivity.
    + reflexivity.
    + reflexivity.
    + reflexivity.
Defined.

(** ** Encoders are deterministic *)

Lemma write_all_Forall {A : Type} (f g : A -> result (list Z)) (l : list A) :
  Forall (fun x => f x = g x) l -> write_all f l = write_all g l.
Proof.
  induction 1 as [| x l Hx _ IH]; cbn [write_all]; [reflexivity |].
  rewrite Hx, IH. reflexivity.
Qed.

Lemma write_all_Forall2 (enc : Encoder) (vs1 vs2 : list Value) :
  respects enc -> Forall2 same_value vs1 vs2 -> write_all enc vs1 = write_all enc vs2.
Proof.
  intros Henc. induction 1 as [| v1 v2 vs1 vs2 Hv _ IH]; cbn [write_all]; [reflexivity |].
  rewrite (Henc _ _ Hv), IH. reflexivity.
Qed.

Lemma same_value_default (d : Value) (o1 o2 : option Value) :
  option_Forall2 same_value o1 o2 -> same_value (default d o1) (default d o2).
Proof. intros [v1 v2 Hv |]; cbn [default]; [exact Hv | apply same_refl]. Qed.

Lemma same_map_keys (m1 m2 : list (string * Value)) :
  NoDup (List.map fst m1) -> NoDup (List.map fst m2) ->
  (forall k, option_Forall2 same_value (assoc k m1) (assoc k m2)) ->
  Permutation (List.map fst m1) (List.map fst m2).
Proof.
  intros Hn1 Hn2 Hrel. apply NoDup_Permutation; [exact Hn1 | exact Hn2 |].
  intros k. rewrite !list_elem_of_In. specialize (Hrel k). split; intros Hin.
  - destruct (assoc_in k _ Hin) as [v Hv]. rewrite Hv in Hrel.
    destruct (in_dec string_dec k (List.map fst m2)) as [Hyes | Hno]; [exact Hyes |].
    rewrite (assoc_not_in k m2 Hno) in Hrel. inversion Hrel.
  - destruct (assoc_in k _ Hin) as [v Hv]. rewrite Hv in Hrel.
    destruct (in_dec string_dec k (List.map fst m1)) as [Hyes | Hno]; [exact Hyes |].
    rewrite (assoc_not_in k m1 Hno) in Hrel. inversion Hrel.
Qed.

Lemma respects_String `{External} (f : Field) (enc : Encoder) :
  emitCborMarshalStringField f = OK enc -> respects enc.
Proof.
  unfold emitCborMarshalStringField. destruct (Pointer f); [discriminate |].
  intros [= <-] v1 v2 Hs. inversion Hs; subst; reflexivity.
Qed.

Lemma respects_Uint8 (f : Field) (enc : Encoder) :
  emitCborMarshalUint8Field f = OK enc -> respects enc.
Proof.
  unfold emitCborMarshalUint8Field. destruct (Pointer f); [discriminate |].
  intros [= <-] v1 v2 Hs. inversion Hs; subst; reflexivity.
Qed.

Lemma respects_Int64 (f : Field) (enc : Encoder) :
  emitCborMarshalInt64Field f = OK enc -> respects enc.
Proof.
  unfold emitCborMarshalInt64Field. destruct (Pointer f); [discriminate |].
  intros [= <-] v1 v2 Hs. inversion Hs; subst; reflexivity.
Qed.

Lemma respects_Bool (f : Field) (enc : Encoder) :
  emitCborMarshalBoolField f = OK enc -> respects enc.
Proof.
  unfold emitCborMarshalBoolField.
  intros [= <-] v1 v2 Hs. inversion Hs; subst; reflexivity.
Qed.

Lemma respects_Uint64 (f : Field) (enc : Encoder) :
  emitCborMarshalUint64Field f = OK enc -> respects enc.
Proof.
  unfold emitCborMarshalUint64Field.
  intros [= <-] v1 v2 Hs. destruct (Pointer f).
  - inversion Hs as [| | | a b Hab |]; subst; try reflexivity.
    inversion Hab; subst; reflexivity.
  - inversion Hs; subst; reflexivity.
Qed.

Lemma respects_call (M : GoType -> option Value -> result (list Z)) (static : GoType) :
  methods_respect M -> respects (call_MarshalCBOR M static).
Proof.
  intros HM v1 v2 Hs. unfold call_MarshalCBOR.
  assert (Hsome : forall t, M t (Some v1) = M t (Some v2)).
  { intros t. apply HM. constructor. exact Hs. }
  destruct static; try apply Hsome.
  inversion Hs as [| | | a b Hab |]; subst; try reflexivity.
  apply HM. constructor. exact Hab.
Qed.

Lemma respects_Struct `{External} (M : GoType -> option Value -> result (list Z))
    (f : Field) (enc : Encoder) :
  methods_respect M -> emitCborMarshalStructField M f = OK enc -> respects enc.
Proof.
  intros HM. unfold emitCborMarshalStructField.
  destruct (same_struct (Typ f) bigIntType); [| destruct (same_struct (Typ f) cidType)];
    intros [= <-].
  - intros v1 v2 Hs.
    inversion Hs as [| | | a b Hab |]; subst; try reflexivity.
    inversion Hab; subst; reflexivity.
  - intros v1 v2 Hs. destruct (Pointer f).
    + inversion Hs as [| | | a b Hab |]; subst; try reflexivity.
      inversion Hab; subst; reflexivity.
    + inversion Hs; subst; reflexivity.
  - apply respects_call. exact HM.
Qed.

Lemma respects_Map `{External} (M : GoType -> option Value -> result (list Z))
    (f : Field) (enc : Encoder) :
  methods_respect M -> emitCborMarshalMapField M f = OK enc -> respects enc.
Proof.
  intros HM Henc. unfold emitCborMarshalMapField in Henc.
  destruct (Typ f) as [| | | | | | ? ? | ? | key elem | ? | ? ?]; try discriminate Henc.
  inv_bind_as Henc kenc Hk. inv_bind_as Henc venc Hv. injection Henc as <-.
  assert (Hvenc : respects venc).
  { destruct elem as [| | | | | | ? ? | ? | ? ? | e | ? ?]; try discriminate Hv.
    - destruct e; try discriminate Hv. eapply respects_Struct; eassumption.
    - eapply respects_Struct; eassumption. }
  intros v1 v2 Hs.
  inversion Hs as [| | m1 m2 Hn1 Hn2 Hrel | |]; subst; try reflexivity.
  pose proof (same_map_keys m1 m2 Hn1 Hn2 Hrel) as Hperm.
  assert (Hlen : length m1 = length m2).
  { rewrite <- (length_map fst m1), <- (length_map fst m2).
    apply Permutation_length. exact Hperm. }
  rewrite Hlen, (sort_Strings_Permutation _ _ Hperm).
  destruct (Z.of_nat (length m2) >? 4096); [reflexivity |].
  unfold WriteMajorTypeHeaderBuf. cbn [bind].
  erewrite write_all_ext; [reflexivity |].
  intros k. cbn beta.
  rewrite (Hvenc _ _ (same_value_default (zero_value elem) _ _ (Hrel k))). reflexivity.
Qed.

Lemma respects_slice_loop (name : string) (eenc : Encoder) :
  respects eenc ->
  respects (fun x =>
    match x with
    | VSlice vs =>
        if Z.of_nat (length vs) >? MaxLength
        then Err ("Slice value in field " ++ name ++ " was too long")
        else
          do h <- WriteMajorTypeHeaderBuf MajArray (uint64 (Z.of_nat (length vs)));
          do body <- write_all eenc vs;
          OK (h ++ body)
    | _ => ill_typed
    end).
Proof.
  intros He v1 v2 Hs.
  inversion Hs as [| vs1 vs2 Hall | | |]; subst; try reflexivity.
  rewrite (Forall2_length _ _ _ Hall), (write_all_Forall2 eenc vs1 vs2 He Hall).
  reflexivity.
Qed.

Lemma respects_atoms (enc : Encoder) :
  (forall v, match v with
             | VSlice _ | VMap _ | VStruct _ | VPtr (Some _) => enc v = ill_typed
             | _ => True
             end) ->
  respects enc.
Proof.
  intros Hill v1 v2 Hs. inversion Hs; subst; try reflexivity.
  - rewrite (Hill (VSlice vs1)), (Hill (VSlice vs2)). reflexivity.
  - rewrite (Hill (VMap m1)), (Hill (VMap m2)). reflexivity.
  - rewrite (Hill (VPtr (Some v0))), (Hill (VPtr (Some v3))). reflexivity.
  - rewrite (Hill (VStruct fs1)), (Hill (VStruct fs2)). reflexivity.
Qed.

(** The element fragment of a slice encoder, for an element type [e0] that
    is not a byte and with [e] the type under its pointer, if any. *)
Lemma respects_slice_elem `{External} (M : GoType -> option Value -> result (list Z))
    (name pkg : string) (e0 e : GoType) (eenc : Encoder) :
  methods_respect M ->
  (forall enc, marshalSlice M "v" pkg false e = OK enc -> respects enc) ->
  match e with
  | reflect.StructOf _ _ =>
      if same_struct e cidType then
        OK (fun v =>
          match v with
          | VCid c => wrap ("failed writing cid field " ++ name) (WriteCidBuf c)
          | _ => ill_typed
          end)
      else OK (fun v => call_MarshalCBOR M e0 v)
  | reflect.TUint64 | reflect.TUint8 =>
      OK (fun v =>
        match v with
        | VUint n => CborWriteHeader MajUnsignedInt (uint64 n)
        | _ => ill_typed
        end)
  | reflect.TInt64 =>
      emitCborMarshalInt64Field
        {| Name := "v"; MapKey := EmptyString; Pointer := false; Typ := e; Pkg := pkg |}
  | reflect.SliceOf _ => marshalSlice M "v" pkg false e
  | _ => Err "do not yet support slices of this kind yet"
  end = OK eenc ->
  respects eenc.
Proof.
  intros HM Hrec He.
  destruct e; try discriminate He.
  - injection He as <-. apply respects_atoms.
    intros [s | n | n | b | bs | vs | m | [p |] | fs | c | n | raw];
      first [exact I | reflexivity].
  - eapply respects_Int64. exact He.
  - injection He as <-. apply respects_atoms.
    intros [s | n | n | b | bs | vs | m | [p |] | fs | c | n | raw];
      first [exact I | reflexivity].
  - apply Hrec. exact He.
  - destruct (same_struct _ cidType); injection He as <-.
    + apply respects_atoms.
    intros [s | n | n | b | bs | vs | m | [p |] | fs | c | n | raw];
      first [exact I | reflexivity].
    + apply respects_call. exact HM.
Qed.

Lemma respects_Slice_aux `{External} (M : GoType -> option Value -> result (list Z))
    (ty : GoType) :
  methods_respect M ->
  (forall name pkg pointer enc,
     marshalSlice M name pkg pointer ty = OK enc -> respects enc) /\
  match ty with
  | reflect.PtrTo e' =>
      forall name pkg pointer enc,
        marshalSlice M name pkg pointer e' = OK enc -> respects enc
  | _ => True
  end.
Proof.
  intros HM.
  assert (Hslice : forall e0,
    (forall name pkg pointer enc,
       marshalSlice M name pkg pointer e0 = OK enc -> respects enc) /\
    match e0 with
    | reflect.PtrTo e' =>
        forall name pkg pointer enc,
          marshalSlice M name pkg pointer e' = OK enc -> respects enc
    | _ => True
    end ->
    forall name pkg enc,
      match e0 with
      | reflect.TUint8 =>
          OK (fun x =>
            match x with
            | VBytes bs =>
                if Z.of_nat (length bs) >? ByteArrayMaxLen
                then Err ("Byte array in field " ++ name ++ " was too long")
                else
                  do h <- WriteMajorTypeHeaderBuf MajByteString (uint64 (Z.of_nat (length bs)));
                  OK (h ++ bs)
            | _ => ill_typed
            end)
      | _ =>
          let e := match e0 with reflect.PtrTo e' => e' | _ => e0 end in
          do eenc <-
            match e with
            | reflect.StructOf _ _ =>
                if same_struct e cidType then
                  OK (fun v =>
                    match v with
                    | VCid c => wrap ("failed writing cid field " ++ name) (WriteCidBuf c)
                    | _ => ill_typed
                    end)
                else OK (fun v => call_MarshalCBOR M e0 v)
            | reflect.TUint64 | reflect.TUint8 =>
                OK (fun v =>
                  match v with
                  | VUint n => CborWriteHeader MajUnsignedInt (uint64 n)
                  | _ => ill_typed
                  end)
            | reflect.TInt64 =>
                emitCborMarshalInt64Field
                  {| Name := "v"; MapKey := EmptyString; Pointer := false; Typ := e; Pkg := pkg |}
            | reflect.SliceOf _ => marshalSlice M "v" pkg false e
            | _ => Err "do not yet support slices of this kind yet"
            end;
          OK (fun x =>
            match x with
            | VSlice vs =>
                if Z.of_nat (length vs) >? MaxLength
                then Err ("Slice value in field " ++ name ++ " was too long")
                else
                  do h <- WriteMajorTypeHeaderBuf MajArray (uint64 (Z.of_nat (length vs)));
                  do body <- write_all eenc vs;
                  OK (h ++ body)
            | _ => ill_typed
            end)
      end = OK enc ->
      respects enc).
  { intros e0 [IHP IHQ] name pkg enc Henc.
    assert (Hrec : forall enc',
              marshalSlice M "v" pkg false
                (match e0 with reflect.PtrTo e' => e' | _ => e0 end) = OK enc' ->
              respects enc').
    { intros enc' Henc'. destruct e0; try (eapply IHP; exact Henc'). eapply IHQ. exact Henc'. }
    destruct e0 as [| | | | | | n a | a | k a | a | p nm];
      try (cbn zeta in Henc; inv_bind_as Henc eenc He; injection Henc as <-;
           apply respects_slice_loop).
    - exact (respects_slice_elem M name pkg reflect.TString reflect.TString eenc HM Hrec He).
    - exact (respects_slice_elem M name pkg reflect.TUint64 reflect.TUint64 eenc HM Hrec He).
    - exact (respects_slice_elem M name pkg reflect.TInt64 reflect.TInt64 eenc HM Hrec He).
    - injection Henc as <-. apply respects_atoms.
      intros [s | n | n | b | bs | vs | m | [p |] | fs | c | n | raw];
        first [exact I | reflexivity].
    - exact (respects_slice_elem M name pkg reflect.TBool reflect.TBool eenc HM Hrec He).
    - exact (respects_slice_elem M name pkg reflect.TFloat64 reflect.TFloat64 eenc HM Hrec He).
    - exact (respects_slice_elem M name pkg (reflect.ArrayOf n a) (reflect.ArrayOf n a)
               eenc HM Hrec He).
    - exact (Hrec eenc eq_refl).
    - exact (respects_slice_elem M name pkg (reflect.MapOf k a) (reflect.MapOf k a)
               eenc HM Hrec He).
    - exact (respects_slice_elem M name pkg (reflect.PtrTo a) a eenc HM Hrec He).
    - exact (respects_slice_elem M name pkg (reflect.StructOf p nm) (reflect.StructOf p nm)
               eenc HM Hrec He). }
  induction ty as [| | | | | | n e0 IH | e0 IH | k IHk e IHe | e IH | p nm];
    (split; [intros name pkg pointer enc Henc | try exact I]);
    try (cbn in Henc; destruct pointer; discriminate Henc).
  - cbn [marshalSlice] in Henc. destruct pointer; [discriminate Henc |].
    eapply (Hslice e0 IH name pkg). exact Henc.
  - cbn [marshalSlice] in Henc. destruct pointer; [discriminate Henc |].
    eapply (Hslice e0 IH name pkg). exact Henc.
  - exact (proj1 IH).
Qed.

Lemma respects_Slice `{External} (M : GoType -> option Value -> result (list Z))
    (f : Field) (enc : Encoder) :
  methods_respect M -> emitCborMarshalSliceField M f = OK enc -> respects enc.
Proof.
  intros HM Henc. unfold emitCborMarshalSliceField in Henc.
  eapply (proj1 (respects_Slice_aux M (Typ f) HM)). exact Henc.
Qed.

Lemma respects_marshalField `{External} (M : GoType -> option Value -> result (list Z))
    (gti : GenTypeInfo) (f : Field) (enc : Encoder) :
  methods_respect M -> marshalField M gti f = OK enc -> respects enc.
Proof.
  intros HM Henc. unfold marshalField in Henc. cbn zeta in Henc.
  destruct (reflect.kind (Typ (with_name f ("t." ++ Name f)))); try discriminate Henc.
  - eapply respects_String; exact Henc.
  - eapply respects_Uint64; exact Henc.
  - eapply respects_Int64; exact Henc.
  - eapply respects_Uint8; exact Henc.
  - eapply respects_Bool; exact Henc.
  - eapply respects_Slice; [exact HM | exact Henc].
  - eapply respects_Slice; [exact HM | exact Henc].
  - eapply respects_Map; [exact HM | exact Henc].
  - eapply respects_Struct; [exact HM | exact Henc].
Qed.

Lemma same_value_field (fs1 fs2 : list (string * Value)) (f : Field) :
  (forall x, option_Forall2 same_value (assoc x fs1) (assoc x fs2)) ->
  same_value (field_value fs1 f) (field_value fs2 f).
Proof. intros Hrel. unfold field_value. apply same_value_default. apply Hrel. Qed.

Lemma respects_Tuple `{External} (M : GoType -> option Value -> result (list Z))
    (gti : GenTypeInfo) (m : option Value -> result (list Z)) :
  methods_respect M ->
  emitCborMarshalStructTuple M gti = OK m ->
  forall p1 p2, option_Forall2 same_value p1 p2 -> m p1 = m p2.
Proof.
  intros HM Hm p1 p2 Hp. unfold emitCborMarshalStructTuple in Hm.
  inv_bind_as Hm encs Hemit. injection Hm as <-.
  destruct Hp as [v1 v2 Hv |]; [| reflexivity].
  inversion Hv as [| | | | fs1 fs2 Hrel]; subst; try reflexivity.
  erewrite write_all_Forall; [reflexivity |].
  apply emit_fields_inv in Hemit. clear -HM Hemit Hrel.
  induction Hemit as [| f [f' enc] fields encs [Hf Henc] _ IH]; constructor; [| exact IH].
  cbn [fst snd] in Hf, Henc. subst f'.
  apply (respects_marshalField M gti f enc HM Henc). apply same_value_field. exact Hrel.
Qed.

Lemma respects_NamedMap `{External} (M : GoType -> option Value -> result (list Z))
    (gti : GenTypeInfo) (m : option Value -> result (list Z)) :
  methods_respect M ->
  emitCborMarshalStructMap M gti = OK m ->
  forall p1 p2, option_Forall2 same_value p1 p2 -> m p1 = m p2.
Proof.
  intros HM Hm p1 p2 Hp. unfold emitCborMarshalStructMap in Hm.
  inv_bind_as Hm encs Hemit. injection Hm as <-.
  destruct Hp as [v1 v2 Hv |]; [| reflexivity].
  inversion Hv as [| | | | fs1 fs2 Hrel]; subst; try reflexivity.
  erewrite write_all_Forall; [reflexivity |].
  apply emit_fields_inv in Hemit. clear -HM Hemit Hrel.
  induction Hemit as [| f [f' [kenc venc]] fields encs [Hf Henc] _ IH]; constructor;
    [| exact IH].
  cbn [fst snd] in Hf, Henc. subst f'.
  inv_bind_as Henc kenc' Hk. inv_bind_as Henc venc' Hv. injection Henc as -> ->.
  rewrite (respects_marshalField M gti f venc HM Hv _ _ (same_value_field fs1 fs2 f Hrel)).
  reflexivity.
Qed.

Lemma MarshalCBOR_respects `{External} (env : TypeEnv) (fuel : nat) :
  methods_respect (MarshalCBOR env fuel).
Proof.
  induction fuel as [| fuel IH]; intros t p1 p2 Hp; cbn [MarshalCBOR]; [reflexivity |].
  destruct (same_struct t deferredType).
  - destruct Hp as [v1 v2 Hv |]; [| reflexivity].
    inversion Hv; subst; reflexivity.
  - destruct (env (qualified_name t)) as [[[|] gti] |]; [| | reflexivity].
    + destruct (emitCborMarshalStructTuple (MarshalCBOR env fuel) gti) as [m |] eqn:Hm;
        cbn [bind]; [| reflexivity].
      exact (respects_Tuple _ gti m IH Hm p1 p2 Hp).
    + destruct (emitCborMarshalStructMap (MarshalCBOR env fuel) gti) as [m |] eqn:Hm;
        cbn [bind]; [| reflexivity].
      exact (respects_NamedMap _ gti m IH Hm p1 p2 Hp).
Qed.

(** C9: two runs of a generated encoder on the same record value write the
    same bytes: whatever the order in which the runs visit the entries of
    the maps inside the value, the output is a function of the value and
    of the schema. *)
Theorem encoder_deterministic `{External} (env : TypeEnv) (fuel : nat) (repr : Repr)
    (gti : GenTypeInfo) (r1 r2 : Value) :
  same_value r1 r2 ->
  Marshal env fuel repr gti r1 = Marshal env fuel repr gti r2.
Proof.
  intros Hr. unfold Marshal. destruct repr.
  - destruct (emitCborMarshalStructTuple (MarshalCBOR env fuel) gti) as [m |] eqn:Hm;
      cbn [bind]; [| reflexivity].
    apply (respects_Tuple _ gti m (MarshalCBOR_respects env fuel) Hm).
    constructor. exact Hr.
  - destruct (emitCborMarshalStructMap (MarshalCBOR env fuel) gti) as [m |] eqn:Hm;
      cbn [bind]; [| reflexivity].
    apply (respects_NamedMap _ gti m (MarshalCBOR_respects env fuel) Hm).
    constructor. exact Hr.
Qed.

Lemma encoder_deterministic_witness :
  Marshal (H := no_External) testing_env 2 Tuple SimpleStructV1
    (VStruct [("OldMap", VMap [("b", VStruct [("Value", VUint 2)]);
                               ("a", VStruct [("Value", VUint 1)])])])
  = Marshal (H := no_External) testing_env 2 Tuple SimpleStructV1
      (VStruct [("OldMap", VMap [("a", VStruct [("Value", VUint 1)]);
                                 ("b", VStruct [("Value", VUint 2)])])]) /\
  is_ok (Marshal (H := no_External) testing_env 2 Tuple SimpleStructV1
           (VStruct [("OldMap", VMap [("b", VStruct [("Value", VUint 2)]);
                                      ("a", VStruct [("Value", VUint 1)])])])) = true.
Proof.
  split; [| reflexivity].
  apply (@encoder_deterministic no_External). apply same_record. intros x.
  cbn [assoc]. destruct (String.eqb x "OldMap"); constructor.
  apply same_map.
  - cbn [List.map fst]. apply NoDup_cons_2; [| apply NoDup_singleton].
    intros Hin. apply list_elem_of_singleton in Hin. discriminate Hin.
  - cbn [List.map fst]. apply NoDup_cons_2; [| apply NoDup_singleton].
    intros Hin. apply list_elem_of_singleton in Hin. discriminate Hin.
  - intros k. cbn [assoc].
    destruct (String.eqb_spec k "b") as [Hb | Hb], (String.eqb_spec k "a") as [Ha | Ha];
      try (constructor; apply same_refl); try constructor.
    subst k. discriminate Ha.
Defined.

(** * Further properties *)

Lemma ascii_byte_roundtrip (c : ascii) : ascii_of_byte (byte_of_ascii c) = c.
Proof.
  unfold ascii_of_byte, byte_of_ascii. rewrite N2Z.id. apply ascii_N_embedding.
Qed.

Lemma string_bytes_roundtrip (s : string) : string_of_bytes (bytes_of_string s) = s.
Proof.
  unfold string_of_bytes, bytes_of_string. rewrite List.map_map.
  rewrite (List.map_ext _ (fun c => c)) by apply ascii_byte_roundtrip.
  rewrite List.map_id. apply string_of_list_ascii_of_string.
Qed.

Lemma bytes_of_string_length (s : string) :
  length (bytes_of_string s) = String.length s.
Proof.
  unfold bytes_of_string. rewrite length_map.
  induction s as [| c s IH]; simpl; congruence.
Qed.

(** Reading [n] bytes that are there. *)
Lemma read_full_pending (br : peeker) (bs rest : list Z) :
  pending br = bs ++ rest ->
  exists br', read_full (length bs) br = OK (bs, br') /\ pending br' = rest.
Proof.
  intros Hp. destruct bs as [| b bs].
  - exists br. split; [reflexivity | exact Hp].
  - eexists. split; [apply (peeker_read_full br (b :: bs) rest Hp); discriminate | reflexivity].
Qed.

Lemma read_header_pending (br : peeker) (t v : Z) (rest : list Z) :
  0 <= t < 8 -> 0 <= v < 2 ^ 64 ->
  pending br = CborEncodeMajorType t v ++ rest ->
  exists br', CborReadHeaderBuf br = OK (t, v, br') /\ pending br' = rest.
Proof.
  intros Ht Hv Hp. destruct (read_header_peeker br t v rest Ht Hv Hp) as [lb Hr].
  eexists. split; [exact Hr | reflexivity].
Qed.

Lemma ReadStringBuf_text_item (br : peeker) (s : string) (rest : list Z) :
  len_string s <= MaxLength ->
  pending br = text_item s ++ rest ->
  exists br', ReadStringBuf br = OK (s, br') /\ pending br' = rest.
Proof.
  intros Hlen Hp. unfold text_item in Hp. rewrite <- app_assoc in Hp.
  destruct (read_header_pending br MajTextString (len_string s) _ ltac:(unfold MajTextString; lia)
              ltac:(unfold len_string, MaxLength in *; lia) Hp) as (br1 & Hr & Hp1).
  unfold ReadStringBuf. rewrite Hr. cbn [bind].
  change (MajTextString =? MajTextString) with true. cbn [negb].
  assert ((len_string s >? MaxLength) = false) as -> by (rewrite Z.gtb_ltb; apply Z.ltb_ge; lia).
  unfold len_string. rewrite Nat2Z.id, <- bytes_of_string_length.
  destruct (read_full_pending br1 _ _ Hp1) as (br2 & Hr2 & Hp2).
  rewrite Hr2. cbn [bind]. rewrite string_bytes_roundtrip. eauto.
Qed.

Lemma OK_inj {A : Type} (a b : A) : OK a = OK b -> a = b.
Proof. intros [= ->]. reflexivity. Qed.

Section GenerationTotal.
Context `{External}.
Variable M : GoType -> option Value -> result (list Z).
Variable U : GoType -> Value -> peeker -> result (Value * peeker).

Lemma unmarshalSlice_total_aux (ty : GoType) :
  (forall name name' pkg enc,
     marshalSlice M name pkg false ty = OK enc ->
     exists dec, unmarshalSlice U name' pkg ty = OK dec) /\
  match ty with
  | reflect.PtrTo e' =>
      forall name name' pkg enc,
        marshalSlice M name pkg false e' = OK enc ->
        exists dec, unmarshalSlice U name' pkg e' = OK dec
  | _ => True
  end.
Proof.
  assert (Hslice : forall e0 a,
    (a = reflect.SliceOf e0 \/ exists n, a = reflect.ArrayOf n e0) ->
    (forall name name' pkg enc,
       marshalSlice M name pkg false e0 = OK enc ->
       exists dec, unmarshalSlice U name' pkg e0 = OK dec) /\
    match e0 with
    | reflect.PtrTo e' =>
        forall name name' pkg enc,
          marshalSlice M name pkg false e' = OK enc ->
          exists dec, unmarshalSlice U name' pkg e' = OK dec
    | _ => True
    end ->
    forall name name' pkg enc,
      marshalSlice M name pkg false a = OK enc ->
      exists dec, unmarshalSlice U name' pkg a = OK dec).
  { intros e0 a Ha [IHP IHQ] name name' pkg enc Henc.
    assert (Hrec : forall enc',
              marshalSlice M "v" pkg false
                (match e0 with reflect.PtrTo e' => e' | _ => e0 end) = OK enc' ->
              exists dec, unmarshalSlice U (name' ++ "[i]") pkg
                (match e0 with reflect.PtrTo e' => e' | _ => e0 end) = OK dec).
    { intros enc' Henc'. destruct e0; try (eapply IHP; exact Henc'). eapply IHQ. exact Henc'. }
    clear IHP IHQ.
    destruct e0 as [| | | | | | n a0 | a0 | k a0 | a0 | p nm];
      destruct Ha as [-> | [n0 ->]]; cbn [marshalSlice] in Henc;
      try (inv_bind_as Henc eenc He); try discriminate He;
      try (destruct (Hrec eenc He) as [d Hd]; cbn [unmarshalSlice] in Hd |- *; rewrite Hd);
      cbn [unmarshalSlice];
      try (eexists; reflexivity).
    all: try (destruct (String.eqb _ _); eexists; reflexivity).
    all: destruct a0 as [| | | | | | n1 a1 | a1 | k1 a1 | a1 | p1 nm1];
      try discriminate He; try (eexists; reflexivity).
    all: try (destruct (Hrec eenc He) as [d Hd]; cbn [unmarshalSlice] in Hd |- *; rewrite Hd;
              eexists; reflexivity).
    all: try (destruct (String.eqb _ _); eexists; reflexivity).
  }
  induction ty as [| | | | | | n e0 IH | e0 IH | k IHk e IHe | e IH | p nm];
    (split; [intros name name' pkg enc Henc | try exact I]);
    try (cbn in Henc; discriminate Henc).
  - eapply (Hslice e0 _ (or_intror (ex_intro _ n eq_refl)) IH). exact Henc.
  - eapply (Hslice e0 _ (or_introl eq_refl) IH). exact Henc.
  - exact (proj1 IH).
Qed.

Lemma unmarshalField_total (gti : GenTypeInfo) (f : Field) (enc : Encoder) :
  marshalField M gti f = OK enc -> exists dec, unmarshalField U gti f = OK dec.
Proof.
  unfold marshalField, unmarshalField, with_name. cbn zeta. cbn [Typ Name Pointer Pkg].
  destruct (Typ f) as [| | | | | | n e0 | e0 | k e | e | p nm] eqn:Ety;
    cbn [reflect.kind]; try discriminate.
  - unfold emitCborMarshalStringField, emitCborUnmarshalStringField. cbn [Pointer].
    destruct (Pointer f); [intros He; discriminate He | eauto].
  - unfold emitCborUnmarshalUint64Field. eauto.
  - unfold emitCborUnmarshalInt64Field. eauto.
  - unfold emitCborUnmarshalUint8Field. eauto.
  - unfold emitCborUnmarshalBoolField. eauto.
  - unfold emitCborMarshalSliceField, emitCborUnmarshalSliceField. cbn [Name Pkg Pointer Typ].
    try rewrite Ety. destruct (Pointer f); [intros He; cbn in He; discriminate He |].
    apply (proj1 (unmarshalSlice_total_aux _)).
  - unfold emitCborMarshalSliceField, emitCborUnmarshalSliceField. cbn [Name Pkg Pointer Typ].
    try rewrite Ety. destruct (Pointer f); [intros He; cbn in He; discriminate He |].
    apply (proj1 (unmarshalSlice_total_aux _)).
  - unfold emitCborMarshalMapField, emitCborUnmarshalMapField. cbn [Name Pkg Pointer Typ].
    try rewrite Ety. intros Henc.
    inv_bind_as Henc kenc Hk. inv_bind_as Henc venc Hv.
    destruct (reflect.kind k); try discriminate Hk.
    unfold emitCborUnmarshalStringField. cbn [Pointer bind].
    destruct e as [| | | | | | n1 a1 | a1 | k1 a1 | a1 | p1 nm1]; try discriminate Hv.
    + destruct a1; try discriminate Hv.
      unfold emitCborUnmarshalStructField. cbn [Typ Pointer].
      repeat match goal with |- context [if ?c then _ else _] => destruct c end;
        cbn [bind]; eauto.
    + unfold emitCborUnmarshalStructField. cbn [Typ Pointer].
      repeat match goal with |- context [if ?c then _ else _] => destruct c end;
        cbn [bind]; eauto.
  - unfold emitCborUnmarshalStructField. cbn [Typ Pointer]. try rewrite Ety. intros _.
    repeat match goal with |- context [if ?c then _ else _] => destruct c end; eauto.
Qed.

Lemma emit_fields_total {A B : Type} (ea : Field -> result A) (eb : Field -> result B)
    (fields : list Field) (la : list (Field * A)) :
  (forall f a, ea f = OK a -> exists b, eb f = OK b) ->
  emit_fields ea fields = OK la -> exists lb, emit_fields eb fields = OK lb.
Proof.
  intros Hab. revert la. induction fields as [| f fields IH]; intros la Hla.
  - eexists. reflexivity.
  - cbn [emit_fields] in Hla |- *. inv_bind_as Hla a Ha. inv_bind_as Hla rest Hrest.
    destruct (Hab f a Ha) as [b ->]. destruct (IH rest eq_refl) as [lb ->].
    eexists. reflexivity.
Qed.

Lemma emit_fields_map_keys (gti : GenTypeInfo) (fields : list Field) :
  is_ok (emit_fields (fun f =>
      do kenc <- emitCborMarshalStringField
        {| Name := quoted (MapKey f); MapKey := EmptyString; Pointer := false;
           Typ := reflect.TString; Pkg := EmptyString |};
      do venc <- marshalField M gti f;
      OK (kenc, venc)) fields)
  = is_ok (emit_fields (marshalField M gti) fields).
Proof.
  induction fields as [| f fields IH]; [reflexivity |].
  cbn [emit_fields]. unfold emitCborMarshalStringField at 1. cbn [Pointer bind].
  destruct (marshalField M gti f) as [venc | e]; cbn [bind]; [| reflexivity].
  destruct (emit_fields _ fields), (emit_fields (marshalField M gti) fields);
    cbn [bind is_ok] in IH |- *; congruence.
Qed.

Lemma tuple_decoder_emitted (gti : GenTypeInfo) (m : option Value -> result (list Z)) :
  emitCborMarshalStructTuple M gti = OK m ->
  exists u, emitCborUnmarshalStructTuple U gti = OK u.
Proof.
  intros Em. unfold emitCborMarshalStructTuple in Em. inv_bind_as Em encs Hencs.
  destruct (emit_fields_total _ (unmarshalField U gti) _ _ (unmarshalField_total gti) Hencs)
    as [decs Hdecs].
  unfold emitCborUnmarshalStructTuple. rewrite Hdecs. cbn [bind]. eauto.
Qed.

Lemma map_decoder_emitted (gti : GenTypeInfo) (m : option Value -> result (list Z)) :
  emitCborMarshalStructMap M gti = OK m ->
  exists u, emitCborUnmarshalStructMap U gti = OK u.
Proof.
  intros Em. unfold emitCborMarshalStructMap in Em. inv_bind_as Em encs Hencs.
  assert (Hok : is_ok (emit_fields (marshalField M gti) (Fields gti)) = true).
  { rewrite <- emit_fields_map_keys. rewrite Hencs. reflexivity. }
  destruct (emit_fields (marshalField M gti) (Fields gti)) as [encs' |] eqn:Hencs';
    [| discriminate Hok].
  destruct (emit_fields_total _ (unmarshalField U gti) _ _ (unmarshalField_total gti) Hencs')
    as [decs Hdecs].
  unfold emitCborUnmarshalStructMap, emitCborUnmarshalStringField. cbn [Pointer bind].
  rewrite Hdecs. cbn [bind]. eauto.
Qed.

End GenerationTotal.

(** X3: code generation for a record fails exactly when the emitter of the
    encoder fails, with that emitter's error: whenever the encoder of a
    record can be emitted, so can its decoder.  The two representations
    accept the same records.  The emitter of the decoder alone accepts more:
    a field that is a pointer to an int64, which the emitter of the encoder
    refuses. *)
Theorem generation_fails_with_the_encoder `{External}
    (M : GoType -> option Value -> result (list Z))
    (U : GoType -> Value -> peeker -> result (Value * peeker))
    (gti : GenTypeInfo) :
  match emitCborMarshalStructTuple M gti with
  | OK m => exists u, GenTupleEncodersForType M U gti = OK (m, u)
  | Err e => GenTupleEncodersForType M U gti = Err e
  end /\
  match emitCborMarshalStructMap M gti with
  | OK m => exists u, GenMapEncodersForType M U gti = OK (m, u)
  | Err e => GenMapEncodersForType M U gti = Err e
  end /\
  is_ok (GenTupleEncodersForType M U gti) = is_ok (GenMapEncodersForType M U gti) /\
  is_ok (emitCborUnmarshalStructTuple U PointerToInt) = true /\
  GenTupleEncodersForType M U PointerToInt = Err "pointers to integers not supported".
Proof.
  assert (Htuple : match emitCborMarshalStructTuple M gti with
    | OK m => exists u, GenTupleEncodersForType M U gti = OK (m, u)
    | Err e => GenTupleEncodersForType M U gti = Err e
    end).
  { unfold GenTupleEncodersForType.
    destruct (emitCborMarshalStructTuple M gti) as [m | e] eqn:Em; cbn [bind]; [| reflexivity].
    destruct (tuple_decoder_emitted M U gti m Em) as [u ->]. cbn [bind]. eauto. }
  assert (Hmap : match emitCborMarshalStructMap M gti with
    | OK m => exists u, GenMapEncodersForType M U gti = OK (m, u)
    | Err e => GenMapEncodersForType M U gti = Err e
    end).
  { unfold GenMapEncodersForType.
    destruct (emitCborMarshalStructMap M gti) as [m | e] eqn:Em; cbn [bind]; [| reflexivity].
    destruct (map_decoder_emitted M U gti m Em) as [u ->]. cbn [bind]. eauto. }
  split; [exact Htuple |]. split; [exact Hmap |]. split; [| split; reflexivity].
  assert (Hsame : is_ok (emitCborMarshalStructTuple M gti) = is_ok (emitCborMarshalStructMap M gti)).
  { unfold emitCborMarshalStructTuple, emitCborMarshalStructMap.
    pose proof (emit_fields_map_keys M gti (Fields gti)) as Hk.
    destruct (emit_fields _ (Fields gti)), (emit_fields (marshalField M gti) (Fields gti));
      cbn [bind is_ok] in Hk |- *; congruence. }
  destruct (emitCborMarshalStructTuple M gti), (emitCborMarshalStructMap M gti);
    cbn [is_ok] in Hsame; try discriminate Hsame.
  - destruct Htuple as [u ->], Hmap as [u' ->]. reflexivity.
  - rewrite Htuple, Hmap. reflexivity.
Qed.

Lemma in_uint64_spec (n : Z) : in_uint64 n = true -> 0 <= n < 2 ^ 64.
Proof. unfold in_uint64. intros Hn. apply andb_prop in Hn as [H1 H2]. lia. Qed.

Lemma in_int64_spec (n : Z) : in_int64 n = true -> is_int64 n.
Proof. unfold in_int64, is_int64. intros Hn. apply andb_prop in Hn as [H1 H2]. lia. Qed.

Lemma in_uint8_spec (n : Z) : in_uint8 n = true -> 0 <= n < 2 ^ 8.
Proof. unfold in_uint8. intros Hn. apply andb_prop in Hn as [H1 H2]. lia. Qed.

(** The one-byte look-ahead of the decoder of an optional field, on a byte
    that is not the null byte: the byte is read, handed back, and still to
    come. *)
Lemma peek_not_null (br : peeker) (b : Z) (tl : list Z) :
  pending br = b :: tl -> b <> 246 ->
  exists br1 br2,
    ReadByte br = OK (b, br1) /\ UnreadByte br1 = OK br2 /\ pending br2 = b :: tl.
Proof.
  intros Hp Hb. rewrite (ReadByte_pending br b tl Hp).
  eexists _, _. split; [reflexivity |]. split; [apply UnreadByte_at_rest | reflexivity].
Qed.

Lemma string_reads_back (f : Field) (enc : Encoder) (dec : Decoder)
    (s : string) (vb : list Z) (cur : Value) :
  emitCborMarshalStringField f = OK enc ->
  emitCborUnmarshalStringField f = OK dec ->
  enc (VString s) = OK vb ->
  vb = text_item s /\ len_string s <= MaxLength /\ reads_back dec cur vb (VString s).
Proof.
  unfold emitCborMarshalStringField, emitCborUnmarshalStringField.
  destruct (Pointer f); [discriminate |]. intros [= <-] [= <-] Hvb.
  destruct (len_string s >? MaxLength) eqn:E; [discriminate Hvb |].
  rewrite Z.gtb_ltb in E. apply Z.ltb_ge in E.
  unfold WriteMajorTypeHeaderBuf in Hvb. cbn [bind] in Hvb. injection Hvb as <-.
  rewrite uint64_small by (unfold len_string, MaxLength in *; lia).
  split; [reflexivity |]. split; [exact E |].
  intros br rest Hp.
  destruct (ReadStringBuf_text_item br s rest E Hp) as (br' & Hr & Hp').
  rewrite Hr. cbn [bind]. eauto.
Qed.

Lemma uint64_reads_back (f : Field) (enc : Encoder) (dec : Decoder)
    (n : Z) (vb : list Z) (cur : Value) :
  Pointer f = false ->
  emitCborMarshalUint64Field f = OK enc ->
  emitCborUnmarshalUint64Field f = OK dec ->
  0 <= n < 2 ^ 64 ->
  enc (VUint n) = OK vb ->
  vb = CborEncodeMajorType MajUnsignedInt n /\ reads_back dec cur vb (VUint n).
Proof.
  unfold emitCborMarshalUint64Field, emitCborUnmarshalUint64Field.
  intros -> [= <-] [= <-] Hn Hvb.
  unfold WriteMajorTypeHeaderBuf in Hvb. rewrite uint64_small in Hvb by exact Hn.
  injection Hvb as <-. split; [reflexivity |].
  intros br rest Hp.
  destruct (read_header_pending br MajUnsignedInt n rest ltac:(unfold MajUnsignedInt; lia) Hn Hp)
    as (br' & Hr & Hp').
  rewrite Hr. cbn [bind]. eauto.
Qed.

Lemma optional_uint64_reads_back (f : Field) (enc : Encoder) (dec : Decoder)
    (p : option Value) (vb : list Z) :
  Pointer f = true ->
  emitCborMarshalUint64Field f = OK enc ->
  emitCborUnmarshalUint64Field f = OK dec ->
  match p with Some (VUint n) => 0 <= n < 2 ^ 64 | Some _ => False | None => True end ->
  enc (VPtr p) = OK vb ->
  reads_back dec (VPtr None) vb (VPtr p).
Proof.
  unfold emitCborMarshalUint64Field, emitCborUnmarshalUint64Field.
  intros -> [= <-] [= <-] Hn Hvb br rest Hp.
  destruct p as [[| n | | | | | | | | | |] |]; try contradiction.
  - unfold WriteMajorTypeHeaderBuf in Hvb. rewrite uint64_small in Hvb by exact Hn.
    injection Hvb as <-.
    destruct (header_not_null MajUnsignedInt n) as (b & tl & Hhdr & Hb);
      [unfold MajUnsignedInt; lia | lia |].
    rewrite Hhdr in Hp.
    destruct (peek_not_null br b (tl ++ rest) Hp) as (br1 & br2 & Hr1 & Hr2 & Hp2);
      [apply Z.eqb_neq; exact Hb |].
    rewrite Hr1. cbn [bind hd CborNull]. rewrite Hb. cbn [negb]. rewrite Hr2. cbn [bind].
    change (b :: tl ++ rest) with ((b :: tl) ++ rest) in Hp2. rewrite <- Hhdr in Hp2.
    destruct (read_header_pending br2 MajUnsignedInt n rest ltac:(unfold MajUnsignedInt; lia) Hn Hp2)
      as (br' & Hr & Hp').
    rewrite Hr. cbn [bind]. eauto.
  - injection Hvb as <-.
    rewrite (ReadByte_pending br 246 rest Hp). cbn [bind]. eauto.
Qed.

Lemma uint8_reads_back (f : Field) (enc : Encoder) (dec : Decoder)
    (n : Z) (vb : list Z) (cur : Value) :
  emitCborMarshalUint8Field f = OK enc ->
  emitCborUnmarshalUint8Field f = OK dec ->
  0 <= n < 2 ^ 8 ->
  enc (VUint n) = OK vb ->
  vb = CborEncodeMajorType MajUnsignedInt n /\ reads_back dec cur vb (VUint n).
Proof.
  unfold emitCborMarshalUint8Field, emitCborUnmarshalUint8Field.
  destruct (Pointer f); [discriminate |]. intros [= <-] [= <-] Hn Hvb.
  unfold WriteMajorTypeHeaderBuf in Hvb. rewrite uint64_small in Hvb by lia.
  injection Hvb as <-. split; [reflexivity |].
  intros br rest Hp.
  destruct (read_header_pending br MajUnsignedInt n rest ltac:(unfold MajUnsignedInt; lia)
              ltac:(lia) Hp) as (br' & Hr & Hp').
  rewrite Hr. cbn [bind].
  change (negb (MajUnsignedInt =? MajUnsignedInt)) with false. cbn iota.
  assert ((n >? 255) = false) as -> by (rewrite Z.gtb_ltb; apply Z.ltb_ge; lia).
  rewrite Z.mod_small by lia. eauto.
Qed.

Lemma int64_reads_back (f : Field) (enc : Encoder) (dec : Decoder)
    (n : Z) (vb : list Z) (cur : Value) :
  emitCborMarshalInt64Field f = OK enc ->
  emitCborUnmarshalInt64Field f = OK dec ->
  is_int64 n ->
  enc (VInt n) = OK vb ->
  reads_back dec cur vb (VInt n).
Proof.
  unfold emitCborMarshalInt64Field, emitCborUnmarshalInt64Field.
  destruct (Pointer f); [discriminate |]. intros [= <-] [= <-] Hn Hvb br rest Hp.
  unfold is_int64 in Hn. unfold WriteMajorTypeHeaderBuf in Hvb.
  destruct (n >=? 0) eqn:E.
  - apply Z.geb_le in E. rewrite uint64_small in Hvb by lia. injection Hvb as <-.
    destruct (read_header_pending br MajUnsignedInt n rest ltac:(unfold MajUnsignedInt; lia)
                ltac:(lia) Hp) as (br' & Hr & Hp').
    rewrite Hr. cbn [bind]. cbn [Z.eqb MajUnsignedInt].
    rewrite int64_small by (unfold is_int64; lia).
    assert ((n <? 0) = false) as -> by (apply Z.ltb_ge; lia). eauto.
  - rewrite Z.geb_leb in E. apply Z.leb_gt in E.
    rewrite neg_minus_one in Hvb by (unfold is_int64; lia). injection Hvb as <-.
    destruct (read_header_pending br MajNegativeInt (- n - 1) rest
                ltac:(unfold MajNegativeInt; lia) ltac:(lia) Hp) as (br' & Hr & Hp').
    rewrite Hr. cbn [bind]. cbn [Z.eqb MajUnsignedInt MajNegativeInt].
    rewrite (int64_small (- n - 1)) by (unfold is_int64; lia).
    assert ((- n - 1 <? 0) = false) as -> by (apply Z.ltb_ge; lia).
    rewrite int64_small by (unfold is_int64; lia).
    replace (-1 - (- n - 1)) with n by lia. eauto.
Qed.

Lemma bool_reads_back (f : Field) (enc : Encoder) (dec : Decoder)
    (b : bool) (vb : list Z) (cur : Value) :
  emitCborMarshalBoolField f = OK enc ->
  emitCborUnmarshalBoolField f = OK dec ->
  enc (VBool b) = OK vb ->
  vb = [if b then 245 else 244] /\ reads_back dec cur vb (VBool b).
Proof.
  unfold emitCborMarshalBoolField, emitCborUnmarshalBoolField.
  intros [= <-] [= <-] Hvb. unfold WriteBool in Hvb. injection Hvb as <-.
  split; [destruct b; reflexivity |].
  intros br rest Hp.
  destruct (read_header_pending br MajOther (if b then 21 else 20) rest
              ltac:(unfold MajOther; lia) ltac:(destruct b; lia) Hp) as (br' & Hr & Hp').
  rewrite Hr. cbn [bind]. destruct b; cbn; eauto.
Qed.

(** ** Big integers *)

Lemma big_Bytes_length (n : Z) :
  0 <= n < 2 ^ 2048 -> Z.of_nat (length (big_Bytes n)) <= 256.
Proof.
  intros Hn. unfold big_Bytes. rewrite Z.abs_eq by lia.
  destruct (n =? 0) eqn:E; [simpl; lia |]. apply Z.eqb_neq in E.
  rewrite be_bytes_length.
  assert (Hlog : Z.log2 n < 2048) by (apply Z.log2_lt_pow2; lia).
  pose proof (Z.log2_nonneg n) as Hnn.
  rewrite Z2Nat.id by (apply Z.add_nonneg_nonneg; [apply Z.div_pos |]; lia).
  assert (Z.log2 n / 8 < 256) by (apply Z.div_lt_upper_bound; lia). lia.
Qed.

Lemma big_Bytes_value (n : Z) : 0 <= n -> big_SetBytes (big_Bytes n) = n.
Proof.
  intros Hn. unfold big_SetBytes, big_Bytes. rewrite Z.abs_eq by lia.
  destruct (n =? 0) eqn:E; [apply Z.eqb_eq in E; subst; reflexivity |].
  apply Z.eqb_neq in E. apply be_value_bytes.
  pose proof (Z.log2_nonneg n) as Hnn.
  rewrite Z2Nat.id by (apply Z.add_nonneg_nonneg; [apply Z.div_pos |]; lia).
  split; [lia |].
  assert (Hlt : n < 2 ^ (Z.log2 n + 1)).
  { pose proof (Z.log2_spec n ltac:(lia)) as Hs. replace (Z.log2 n + 1) with (Z.succ (Z.log2 n)) by lia. lia. }
  eapply Z.lt_le_trans; [exact Hlt |].
  apply Z.pow_le_mono_r; [lia |].
  pose proof (Z.mul_div_le (Z.log2 n) 8 ltac:(lia)).
  pose proof (Z.mod_pos_bound (Z.log2 n) 8 ltac:(lia)).
  pose proof (Z.div_mod (Z.log2 n) 8 ltac:(lia)). lia.
Qed.

Lemma big_Bytes_zero (n : Z) : 0 <= n -> length (big_Bytes n) = O -> n = 0.
Proof.
  intros Hn. unfold big_Bytes. rewrite Z.abs_eq by lia.
  destruct (n =? 0) eqn:E; [apply Z.eqb_eq in E; auto |].
  rewrite be_bytes_length. pose proof (Z.log2_nonneg n).
  assert (0 <= Z.log2 n / 8) by (apply Z.div_pos; lia). lia.
Qed.

Lemma bigint_reads_back `{External}
    (M : GoType -> option Value -> result (list Z))
    (U : GoType -> Value -> peeker -> result (Value * peeker))
    (f g : Field) (enc : Encoder) (dec : Decoder)
    (n : Z) (vb : list Z) (cur : Value) :
  same_struct (Typ f) bigIntType = true ->
  same_struct (Typ g) bigIntType = true ->
  emitCborMarshalStructField M f = OK enc ->
  emitCborUnmarshalStructField U g = OK dec ->
  0 <= n < 2 ^ 2048 ->
  enc (VPtr (Some (VBigInt n))) = OK vb ->
  reads_back dec cur vb (VPtr (Some (VBigInt n))).
Proof.
  unfold emitCborMarshalStructField, emitCborUnmarshalStructField.
  intros -> -> Henc Hdec Hn Hvb br rest Hp.
  apply OK_inj in Henc, Hdec. subst enc dec. cbn beta in Hvb.
  unfold CborWriteHeader in Hvb. cbn [bind] in Hvb. apply OK_inj in Hvb. subst vb.
  pose proof (big_Bytes_length n Hn) as Hlen.
  rewrite uint64_small in Hp by lia.
  rewrite <- app_assoc in Hp.
  destruct (read_header_pending br MajTag 2 _ ltac:(unfold MajTag; lia) ltac:(lia) Hp)
    as (br1 & Hr1 & Hp1).
  rewrite Hr1. cbn [bind]. change (negb (MajTag =? MajTag) || negb (2 =? 2)) with false.
  cbn iota. rewrite <- app_assoc in Hp1.
  destruct (read_header_pending br1 MajByteString (Z.of_nat (length (big_Bytes n)))
              (big_Bytes n ++ rest) ltac:(unfold MajByteString; lia)
              ltac:(lia) Hp1) as (br2 & Hr2 & Hp2).
  rewrite Hr2. cbn [bind]. change (negb (MajByteString =? MajByteString)) with false.
  cbn iota.
  assert ((Z.of_nat (length (big_Bytes n)) >? 256) = false) as ->
    by (rewrite Z.gtb_ltb; apply Z.ltb_ge; lia).
  destruct (Z.of_nat (length (big_Bytes n)) >? 0) eqn:E.
  - rewrite Nat2Z.id.
    destruct (read_full_pending br2 _ _ Hp2) as (br3 & Hr3 & Hp3).
    rewrite Hr3. cbn [bind]. rewrite big_Bytes_value by lia. eauto.
  - rewrite Z.gtb_ltb in E. apply Z.ltb_ge in E.
    assert (Hz : length (big_Bytes n) = O) by lia.
    rewrite (big_Bytes_zero n) by (first [lia | exact Hz]).
    exists br2. split; [reflexivity |].
    destruct (big_Bytes n); [exact Hp2 | discriminate Hz].
Qed.

(** ** Nested records *)

Lemma regular_inv (t : GoType) :
  regular t = true ->
  same_struct t bigIntType = false /\ same_struct t cidType = false /\
  same_struct t deferredType = false /\
  String.eqb (qualified_name t) "github.com/ipfs/go-cid.Cid" = false /\
  exists p n, t = reflect.StructOf p n.
Proof.
  unfold regular. destruct t; try discriminate. intros Hr.
  repeat (apply andb_prop in Hr as [Hr ?]).
  repeat match goal with H : negb _ = true |- _ => apply negb_true_iff in H end.
  repeat split; try assumption. eauto.
Qed.

Section RecordFields.
Context `{External}.
Variable M : GoType -> option Value -> result (list Z).
Variable U : GoType -> Value -> peeker -> result (Value * peeker).
Variable good : GoType -> Value -> bool.
Hypothesis HMU : methods_roundtrip M U good.

(** A record held by value. *)
Lemma record_reads_back (f g : Field) (enc : Encoder) (dec : Decoder)
    (v : Value) (vb : list Z) (cur : Value) :
  regular (Typ f) = true ->
  Typ g = Typ f -> Pointer f = false -> Pointer g = false ->
  good (Typ f) v = true ->
  emitCborMarshalStructField M f = OK enc ->
  emitCborUnmarshalStructField U g = OK dec ->
  enc v = OK vb ->
  reads_back dec cur vb v.
Proof.
  intros Hreg Hty Hpf Hpg Hgood Henc Hdec Hvb.
  destruct (regular_inv _ Hreg) as (Hb & Hc & Hd & _ & p & nm & Et).
  unfold emitCborMarshalStructField in Henc. rewrite Hb, Hc in Henc. injection Henc as <-.
  unfold emitCborUnmarshalStructField in Hdec. rewrite Hty, Hb, Hc, Hd, Hpg in Hdec.
  injection Hdec as <-.
  unfold static_type in Hvb. rewrite Hpf, Et in Hvb. cbn [call_MarshalCBOR] in Hvb.
  rewrite <- Et in Hvb.
  destruct (proj2 HMU _ _ _ Hreg Hgood Hvb) as [_ Hrb].
  intros br rest Hp. destruct (Hrb cur br rest Hp) as (br' & Hr & Hp').
  rewrite Hr. cbn [wrap]. eauto.
Qed.

(** A record held by pointer: [enc] is handed the pointer, [dec] looks at
    the first byte. *)
Lemma record_pointer_reads_back (f g : Field) (enc : Encoder) (dec : Decoder)
    (s : GoType) (p : option Value) (vb : list Z) :
  regular s = true ->
  Typ g = s -> Pointer g = true ->
  static_type f = reflect.PtrTo s ->
  same_struct (Typ f) bigIntType = false ->
  same_struct (Typ f) cidType = false ->
  match p with Some y => good s y = true | None => True end ->
  emitCborMarshalStructField M f = OK enc ->
  emitCborUnmarshalStructField U g = OK dec ->
  enc (VPtr p) = OK vb ->
  reads_back dec (VPtr None) vb (VPtr p).
Proof.
  intros Hreg Hty Hpg Hst Hfb Hfc Hgood Henc Hdec Hvb.
  destruct (regular_inv _ Hreg) as (Hb & Hc & Hd & _ & pk & nm & Et).
  unfold emitCborMarshalStructField in Henc. rewrite Hfb, Hfc in Henc. injection Henc as <-.
  unfold emitCborUnmarshalStructField in Hdec. rewrite Hty, Hb, Hc, Hd, Hpg in Hdec.
  injection Hdec as <-.
  rewrite Hst in Hvb. cbn [call_MarshalCBOR] in Hvb.
  intros br rest Hp. destruct p as [y |].
  - destruct (proj2 HMU _ _ _ Hreg Hgood Hvb) as [(b & tl & -> & Hb246) Hrb].
    destruct (peek_not_null br b (tl ++ rest) Hp Hb246) as (br1 & br2 & Hr1 & Hr2 & Hp2).
    rewrite Hr1. cbn [bind hd CborNull].
    assert ((b =? 246) = false) as -> by (apply Z.eqb_neq; exact Hb246). cbn [negb].
    rewrite Hr2. cbn [bind].
    destruct (Hrb (zero_value s) br2 rest Hp2) as (br' & Hr & Hp').
    rewrite Hr. cbn [wrap bind]. eauto.
  - rewrite (proj1 HMU _ _ Hreg Hvb) in Hp.
    rewrite (ReadByte_pending br 246 rest Hp). cbn [bind]. eauto.
Qed.

End RecordFields.

(** ** Slices and arrays *)

(** The loop that fills a slice, element by element. *)
Lemma slice_loop (edec : Decoder) (z : Value) (xs : list Value) (chunks : list (list Z)) :
  Forall2 (fun x c => reads_back edec z c x) xs chunks ->
  forall (done : list Value) (br : peeker) (rest : list Z),
    pending br = concat chunks ++ rest ->
    exists br',
      for_range (length done) (length xs)
        (fun i '(vs, br) =>
           do '(v, br) <- edec (default z (vs !! i)) br;
           OK (<[i := v]> vs, br))
        (done ++ replicate (length xs) z, br)
      = OK (done ++ xs, br') /\ pending br' = rest.
Proof.
  induction 1 as [| x c xs chunks Hx Hall IH]; intros done br rest Hp.
  - exists br. cbn [length for_range replicate]. split; [reflexivity | exact Hp].
  - cbn [length for_range replicate concat] in *. rewrite <- app_assoc in Hp.
    rewrite list_lookup_middle by reflexivity. cbn [from_option id].
    destruct (Hx br _ Hp) as (br1 & Hr1 & Hp1). rewrite Hr1. cbn [bind].
    replace (<[length done := x]> (done ++ z :: replicate (length xs) z))
      with ((done ++ [x]) ++ replicate (length xs) z).
    2:{ rewrite <- (Nat.add_0_r (length done)) at 1. rewrite insert_app_r.
        rewrite <- app_assoc. reflexivity. }
    destruct (IH (done ++ [x]) br1 rest Hp1) as (br' & Hr & Hp').
    rewrite length_app in Hr. cbn [length] in Hr. rewrite Nat.add_1_r in Hr.
    rewrite Hr. rewrite <- app_assoc. eauto.
Qed.

Lemma slice_encoder_inv (name : string) (eenc : Encoder) (vs : list Value) (vb : list Z) :
  (if Z.of_nat (length vs) >? MaxLength
   then Err ("Slice value in field " ++ name ++ " was too long")
   else
     do h <- WriteMajorTypeHeaderBuf MajArray (uint64 (Z.of_nat (length vs)));
     do body <- write_all eenc vs;
     OK (h ++ body)) = OK vb ->
  Z.of_nat (length vs) <= MaxLength /\
  exists chunks,
    vb = CborEncodeMajorType MajArray (Z.of_nat (length vs)) ++ concat chunks /\
    Forall2 (fun x c => eenc x = OK c) vs chunks.
Proof.
  intros Hvb. destruct (Z.of_nat (length vs) >? MaxLength) eqn:E; [discriminate Hvb |].
  rewrite Z.gtb_ltb in E. apply Z.ltb_ge in E. split; [exact E |].
  unfold WriteMajorTypeHeaderBuf in Hvb. cbn [bind] in Hvb.
  inv_bind_as Hvb body Hbody. apply OK_inj in Hvb. subst vb.
  destruct (write_all_inv _ _ _ Hbody) as (chunks & -> & Hall).
  exists chunks. rewrite uint64_small by (unfold MaxLength in E; lia). eauto.
Qed.

Lemma slice_decoder_reads_back (name : string) (IsArray : bool) (Len : Z)
    (zty z cur : Value) (edec : Decoder) (vs : list Value) (chunks : list (list Z)) :
  Forall2 (fun x c => reads_back edec z c x) vs chunks ->
  Z.of_nat (length vs) <= MaxLength ->
  (IsArray = true -> Z.of_nat (length vs) = Len /\ zty = VSlice (replicate (length vs) z)) ->
  (IsArray = false -> cur = VSlice []) ->
  reads_back
    (fun cur br =>
       do '(maj, extra, br) <- CborReadHeaderBuf br;
       if extra >? MaxLength then Err (name ++ ": array too large")
       else if negb (maj =? MajArray) then Err "expected cbor array"
       else
         do x <- (if IsArray then
                    if negb (extra =? Len) then Err "expected array to have Len elements"
                    else OK zty
                  else OK (if extra >? 0 then VSlice (replicate (Z.to_nat extra) z) else cur));
         match x with
         | VSlice vs =>
             do '(vs, br) <- for_range 0 (Z.to_nat extra) (fun i '(vs, br) =>
                 do '(v, br) <- edec (default z (vs !! i)) br;
                 OK (<[i := v]> vs, br)) (vs, br);
             OK (VSlice vs, br)
         | _ => ill_typed
         end)
    cur (CborEncodeMajorType MajArray (Z.of_nat (length vs)) ++ concat chunks) (VSlice vs).
Proof.
  intros Hall Hlen Harr Hsl br rest Hp. rewrite <- app_assoc in Hp.
  destruct (read_header_pending br MajArray (Z.of_nat (length vs)) _
              ltac:(unfold MajArray; lia) ltac:(unfold MaxLength in Hlen; lia) Hp)
    as (br1 & Hr1 & Hp1).
  rewrite Hr1. cbn [bind].
  assert ((Z.of_nat (length vs) >? MaxLength) = false) as ->
    by (rewrite Z.gtb_ltb; apply Z.ltb_ge; lia).
  change (negb (MajArray =? MajArray)) with false. cbn iota.
  rewrite Nat2Z.id.
  assert (Hx : (if IsArray then
                  if negb (Z.of_nat (length vs) =? Len)
                  then Err "expected array to have Len elements"
                  else OK zty
                else OK (if Z.of_nat (length vs) >? 0
                         then VSlice (replicate (length vs) z) else cur))
               = OK (VSlice (replicate (length vs) z))).
  { destruct IsArray.
    - destruct (Harr eq_refl) as [<- ->]. rewrite Z.eqb_refl. reflexivity.
    - rewrite (Hsl eq_refl). destruct vs; reflexivity. }
  rewrite Hx. cbn [bind].
  destruct (slice_loop edec z vs chunks Hall [] br1 rest Hp1) as (br' & Hr & Hp').
  cbn [length app] in Hr. rewrite Hr. cbn [bind]. eauto.
Qed.

Lemma bytes_reads_back (name name' : string) (IsArray : bool) (Len : Z)
    (zty cur : Value) (bs : list Z) (vb : list Z) :
  (if Z.of_nat (length bs) >? ByteArrayMaxLen
   then Err ("Byte array in field " ++ name ++ " was too long")
   else
     do h <- WriteMajorTypeHeaderBuf MajByteString (uint64 (Z.of_nat (length bs)));
     OK (h ++ bs)) = OK vb ->
  (IsArray = true -> Z.of_nat (length bs) = Len /\ zty = VBytes (replicate (length bs) 0)) ->
  (IsArray = false -> cur = VBytes []) ->
  reads_back
    (fun cur br =>
       do '(maj, extra, br) <- CborReadHeaderBuf br;
       if extra >? ByteArrayMaxLen then Err (name' ++ ": byte array too large")
       else if negb (maj =? MajByteString) then Err "expected byte array"
       else
         do x <- (if IsArray then
                    if negb (extra =? Len) then Err "expected array to have Len elements"
                    else OK zty
                  else OK (if extra >? 0 then VBytes (replicate (Z.to_nat extra) 0) else cur));
         match x with
         | VBytes bs =>
             do '(buf, br) <- read_full (length bs) br;
             OK (VBytes buf, br)
         | _ => ill_typed
         end)
    cur vb (VBytes bs).
Proof.
  intros Hvb Harr Hsl br rest Hp.
  destruct (Z.of_nat (length bs) >? ByteArrayMaxLen) eqn:E; [discriminate Hvb |].
  unfold WriteMajorTypeHeaderBuf in Hvb. cbn [bind] in Hvb. apply OK_inj in Hvb. subst vb.
  pose proof E as E'. rewrite Z.gtb_ltb in E'. apply Z.ltb_ge in E'.
  change ByteArrayMaxLen with 2097152 in E'.
  rewrite uint64_small in Hp by lia. rewrite <- app_assoc in Hp.
  destruct (read_header_pending br MajByteString (Z.of_nat (length bs)) _
              ltac:(unfold MajByteString; lia) ltac:(lia) Hp) as (br1 & Hr1 & Hp1).
  rewrite Hr1. cbn [bind]. rewrite E.
  change (negb (MajByteString =? MajByteString)) with false. cbn iota.
  rewrite Nat2Z.id.
  assert (Hx : (if IsArray then
                  if negb (Z.of_nat (length bs) =? Len)
                  then Err "expected array to have Len elements"
                  else OK zty
                else OK (if Z.of_nat (length bs) >? 0
                         then VBytes (replicate (length bs) 0) else cur))
               = OK (VBytes (replicate (length bs) 0))).
  { destruct IsArray.
    - destruct (Harr eq_refl) as [<- ->]. rewrite Z.eqb_refl. reflexivity.
    - rewrite (Hsl eq_refl). destruct bs; reflexivity. }
  rewrite Hx. cbn [bind]. rewrite length_replicate.
  destruct (read_full_pending br1 bs rest Hp1) as (br' & Hr & Hp').
  rewrite Hr. cbn [bind]. eauto.
Qed.

Lemma Forall2_reads_back (P : Value -> bool) (eenc : Encoder) (edec : Decoder) (z : Value)
    (vs : list Value) (chunks : list (list Z)) :
  (forall x c, P x = true -> eenc x = OK c -> reads_back edec z c x) ->
  forallb P vs = true ->
  Forall2 (fun x c => eenc x = OK c) vs chunks ->
  Forall2 (fun x c => reads_back edec z c x) vs chunks.
Proof.
  intros Hone Hall H2. induction H2 as [| x c vs chunks Hx H2 IH]; [constructor |].
  cbn [forallb] in Hall. apply andb_prop in Hall as [Hpx Hall].
  constructor; [apply Hone; assumption | apply IH; exact Hall].
Qed.

Lemma length_fits_array {A : Type} (n : nat) (e : GoType) (l : list A) :
  length_fits (reflect.ArrayOf n e) l = true -> length l = n.
Proof. cbn [length_fits]. apply Nat.eqb_eq. Qed.

Section SliceFields.
Context `{External}.
Variable M : GoType -> option Value -> result (list Z).
Variable U : GoType -> Value -> peeker -> result (Value * peeker).
Variable good : GoType -> Value -> bool.
Hypothesis HMU : methods_roundtrip M U good.

Lemma slice_reads_back (ty : GoType) :
  forall (name name' pkg : string) (enc : Encoder) (dec : Decoder) (v : Value) (vb : list Z),
    well_formed good ty v = true ->
    marshalSlice M name pkg false ty = OK enc ->
    unmarshalSlice U name' pkg ty = OK dec ->
    enc v = OK vb ->
    reads_back dec (zero_value ty) vb v.
Proof.
  assert (Hslice : forall e0 a,
    (a = reflect.SliceOf e0 \/ exists n, a = reflect.ArrayOf n e0) ->
    (forall (name name' pkg : string) (enc : Encoder) (dec : Decoder) (v : Value) (vb : list Z),
       well_formed good e0 v = true ->
       marshalSlice M name pkg false e0 = OK enc ->
       unmarshalSlice U name' pkg e0 = OK dec ->
       enc v = OK vb ->
       reads_back dec (zero_value e0) vb v) ->
    forall (name name' pkg : string) (enc : Encoder) (dec : Decoder) (v : Value) (vb : list Z),
      well_formed good a v = true ->
      marshalSlice M name pkg false a = OK enc ->
      unmarshalSlice U name' pkg a = OK dec ->
      enc v = OK vb ->
      reads_back dec (zero_value a) vb v).
  { intros e0 a Ha IH name name' pkg enc dec v vb Hwf Henc Hdec Hvb.
    assert (Hfits : forall (A : Type) (l : list A), length_fits a l = true ->
              match a with reflect.ArrayOf n _ => length l = n | _ => True end).
    { intros A l Hl. destruct Ha as [-> | [n ->]]; [exact I | apply Nat.eqb_eq; exact Hl]. }
    assert (Hframe : forall (eenc : Encoder) (edec : Decoder) (P : Value -> bool)
              (vs : list Value) (name0 : string),
        e0 <> reflect.TUint8 ->
        length_fits a vs = true ->
        forallb P vs = true ->
        (forall x c, P x = true -> eenc x = OK c -> reads_back edec (zero_value e0) c x) ->
        (if Z.of_nat (length vs) >? MaxLength
         then Err ("Slice value in field " ++ name0 ++ " was too long")
         else
           do h <- WriteMajorTypeHeaderBuf MajArray (uint64 (Z.of_nat (length vs)));
           do body <- write_all eenc vs;
           OK (h ++ body)) = OK vb ->
        reads_back
          (fun cur br =>
             do '(maj, extra, br) <- CborReadHeaderBuf br;
             if extra >? MaxLength then Err (name' ++ ": array too large")
             else if negb (maj =? MajArray) then Err "expected cbor array"
             else
               do x <- (if match a with reflect.ArrayOf _ _ => true | _ => false end then
                          if negb (extra =? match a with reflect.ArrayOf n _ => Z.of_nat n | _ => 0 end)
                          then Err "expected array to have Len elements"
                          else OK (zero_value a)
                        else OK (if extra >? 0
                                 then VSlice (replicate (Z.to_nat extra) (zero_value e0))
                                 else cur));
               match x with
               | VSlice vs =>
                   do '(vs, br) <- for_range 0 (Z.to_nat extra) (fun i '(vs, br) =>
                       do '(v, br) <- edec (default (zero_value e0) (vs !! i)) br;
                       OK (<[i := v]> vs, br)) (vs, br);
                   OK (VSlice vs, br)
               | _ => ill_typed
               end)
          (zero_value a) vb (VSlice vs)).
    { intros eenc edec P vs name0 Hne Hfit Hall Hone Hvb'.
      apply slice_encoder_inv in Hvb' as (Hlen & chunks & -> & Hchunks).
      apply (slice_decoder_reads_back name'
               (match a with reflect.ArrayOf _ _ => true | _ => false end)
               (match a with reflect.ArrayOf n _ => Z.of_nat n | _ => 0 end)
               (zero_value a) (zero_value e0) (zero_value a) edec vs chunks).
      - eapply Forall2_reads_back; eassumption.
      - exact Hlen.
      - destruct Ha as [-> | [n ->]]; intros Harr; [discriminate Harr |].
        apply length_fits_array in Hfit. subst n. split; [reflexivity |].
        destruct e0; try reflexivity. congruence.
      - destruct Ha as [-> | [n ->]]; intros Hsl; [| discriminate Hsl].
        destruct e0; try reflexivity. congruence. }
    destruct e0 as [| | | | | | n1 a1 | a1 | k1 a1 | a1 | p1 nm1].
    - (* string *) destruct Ha as [-> | [n ->]]; discriminate Hwf.
    - (* uint64 *)
      destruct Ha as [-> | [n ->]]; cbn [marshalSlice] in Henc; cbn [unmarshalSlice] in Hdec;
        inv_bind_as Henc eenc Heenc; inv_bind_as Hdec edec Hedec;
        apply OK_inj in Henc, Hdec, Heenc, Hedec; subst enc dec;
        cbn [well_formed] in Hwf; (destruct v as [| | | | | vs | | | | | |]; try discriminate Hwf);
        apply andb_prop in Hwf as [Hfit Hall];
        (eapply (Hframe eenc edec); [discriminate | exact Hfit | exact Hall | | exact Hvb]);
        subst eenc edec;
        intros [s0 | x | n0 | b0 | bs0 | vs0 | m0 | p0 | fs0 | cd0 | bn0 | raw0] c Hx Hc; try discriminate Hx;
        apply in_uint64_spec in Hx; unfold CborWriteHeader in Hc;
        rewrite uint64_small in Hc by exact Hx; apply OK_inj in Hc; subst c;
        intros br rest Hp;
        destruct (read_header_pending br MajUnsignedInt x rest
                    ltac:(unfold MajUnsignedInt; lia) Hx Hp) as (br' & Hr & Hp');
        rewrite Hr; cbn [wrap bind]; eauto.
    - (* int64 *)
      destruct Ha as [-> | [n ->]]; cbn [marshalSlice] in Henc; cbn [unmarshalSlice] in Hdec;
        inv_bind_as Henc eenc Heenc; inv_bind_as Hdec edec Hedec;
        apply OK_inj in Henc, Hdec; subst enc dec;
        cbn [well_formed] in Hwf; (destruct v as [| | | | | vs | | | | | |]; try discriminate Hwf);
        apply andb_prop in Hwf as [Hfit Hall];
        (eapply (Hframe eenc edec); [discriminate | exact Hfit | exact Hall | | exact Hvb]);
        intros [s0 | n0 | x | b0 | bs0 | vs0 | m0 | p0 | fs0 | cd0 | bn0 | raw0] c Hx Hc; try discriminate Hx;
        apply in_int64_spec in Hx;
        eapply int64_reads_back; eassumption.
    - (* uint8: a byte string *)
      destruct Ha as [-> | [n ->]]; cbn [marshalSlice] in Henc; cbn [unmarshalSlice] in Hdec;
        apply OK_inj in Henc, Hdec; subst enc dec;
        cbn [well_formed] in Hwf; (destruct v as [| | | | bs | | | | | | |]; try discriminate Hwf);
        cbn beta iota in Hvb.
      + apply (bytes_reads_back name name' false 0 (VBytes []) (VBytes []) bs vb Hvb);
          [discriminate | reflexivity].
      + apply length_fits_array in Hwf. subst n.
        apply (bytes_reads_back name name' true (Z.of_nat (length bs))
                 (VBytes (replicate (length bs) 0)) _ bs vb Hvb);
          [intros _; split; reflexivity | discriminate].
    - destruct Ha as [-> | [n ->]]; discriminate Hwf.
    - destruct Ha as [-> | [n ->]]; discriminate Hwf.
    - destruct Ha as [-> | [n ->]]; discriminate Hwf.
    - (* a slice of slices *)
      destruct Ha as [-> | [n ->]]; cbn [marshalSlice] in Henc; cbn [unmarshalSlice] in Hdec;
        inv_bind_as Henc eenc Heenc; inv_bind_as Hdec edec Hedec;
        apply OK_inj in Henc, Hdec; subst enc dec;
        cbn [well_formed] in Hwf; fold (well_formed good) in Hwf;
        (destruct v as [| | | | | vs | | | | | |]; try discriminate Hwf);
        apply andb_prop in Hwf as [Hfit Hall];
        (eapply (Hframe eenc edec); [discriminate | exact Hfit | exact Hall | | exact Hvb]);
        intros x c Hx Hc; eapply (IH "v" (name' ++ "[i]")%string pkg eenc edec); eassumption.
    - destruct Ha as [-> | [n ->]]; discriminate Hwf.
    - (* pointers to records *)
      destruct a1 as [| | | | | | n2 a2 | a2 | k2 a2 | a2 | p2 nm2];
        try (destruct Ha as [-> | [n ->]]; discriminate Hwf).
      assert (Hreg : regular (reflect.StructOf p2 nm2) = true).
      { destruct Ha as [-> | [n ->]]; cbn [well_formed] in Hwf;
          apply andb_prop in Hwf as [Hreg _]; exact Hreg. }
      destruct (regular_inv _ Hreg) as (_ & Hc & _ & Hq & _).
      destruct Ha as [-> | [n ->]]; cbn [marshalSlice] in Henc; cbn [unmarshalSlice] in Hdec;
        rewrite Hc in Henc; rewrite Hq in Hdec;
        inv_bind_as Henc eenc Heenc; inv_bind_as Hdec edec Hedec;
        apply OK_inj in Henc, Hdec, Heenc, Hedec; subst enc dec;
        cbn [well_formed] in Hwf; apply andb_prop in Hwf as [_ Hwf];
        (destruct v as [| | | | | vs | | | | | |]; try discriminate Hwf);
        apply andb_prop in Hwf as [Hfit Hall];
        (eapply (Hframe eenc edec); [discriminate | exact Hfit | exact Hall | | exact Hvb]);
        subst eenc edec;
        intros [s0 | n0 | n0 | b0 | bs0 | vs0 | m0 | [y |] | fs0 | cd0 | bn0 | raw0] c Hx Hc';
        try discriminate Hx;
        cbn [call_MarshalCBOR] in Hc';
        destruct (proj2 HMU _ _ _ Hreg Hx Hc') as [_ Hrb];
        intros br rest Hp;
        destruct (Hrb (zero_value (reflect.StructOf p2 nm2)) br rest Hp) as (br' & Hr & Hp');
        rewrite Hr; cbn [bind]; eauto.
    - (* records *)
      assert (Hreg : regular (reflect.StructOf p1 nm1) = true).
      { destruct Ha as [-> | [n ->]]; cbn [well_formed] in Hwf;
          apply andb_prop in Hwf as [Hreg _]; exact Hreg. }
      destruct (regular_inv _ Hreg) as (_ & Hc & _ & Hq & _).
      destruct Ha as [-> | [n ->]]; cbn [marshalSlice] in Henc; cbn [unmarshalSlice] in Hdec;
        rewrite Hc in Henc; rewrite Hq in Hdec;
        inv_bind_as Henc eenc Heenc; inv_bind_as Hdec edec Hedec;
        apply OK_inj in Henc, Hdec, Heenc, Hedec; subst enc dec;
        cbn [well_formed] in Hwf; apply andb_prop in Hwf as [_ Hwf];
        (destruct v as [| | | | | vs | | | | | |]; try discriminate Hwf);
        apply andb_prop in Hwf as [Hfit Hall];
        (eapply (Hframe eenc edec); [discriminate | exact Hfit | exact Hall | | exact Hvb]);
        subst eenc edec;
        intros x c Hx Hc';
        cbn [call_MarshalCBOR] in Hc';
        destruct (proj2 HMU _ _ _ Hreg Hx Hc') as [_ Hrb];
        intros br rest Hp;
        destruct (Hrb (zero_value (reflect.StructOf p1 nm1)) br rest Hp) as (br' & Hr & Hp');
        rewrite Hr; cbn [bind]; eauto. }
  induction ty as [| | | | | | n e0 IH | e0 IH | k IHk e IHe | e IH | p nm];
    intros name name' pkg enc dec v vb Hwf Henc Hdec Hvb;
    try (cbn in Henc; discriminate Henc).
  - eapply (Hslice e0 _ (or_intror (ex_intro _ n eq_refl)) IH); eassumption.
  - eapply (Hslice e0 _ (or_introl eq_refl) IH); eassumption.
Qed.
End SliceFields.

(** ** Maps *)

Lemma ltb_str_le (a b : string) : String.ltb a b = true -> str_le a b.
Proof. unfold String.ltb, str_le, String.leb. destruct (String.compare a b); easy. Qed.

Lemma ltb_not_ge (a b : string) : String.ltb a b = true -> str_le b a -> False.
Proof.
  unfold String.ltb, str_le, String.leb. rewrite (String.compare_antisym a b).
  destruct (String.compare b a); cbn; easy.
Qed.

Lemma ascending_sorted (l : list string) :
  ascending l = true -> StronglySorted str_le l /\ List.NoDup l.
Proof.
  induction l as [| a l IH]; intros Ha; [split; constructor |].
  cbn [ascending] in Ha. destruct l as [| b l].
  - split; [repeat constructor | constructor; [intros [] | constructor]].
  - apply andb_prop in Ha as [Hab Hl]. destruct (IH Hl) as [Hs Hn].
    assert (Hall : List.Forall (str_le b) (b :: l)).
    { constructor; [apply str_le_refl |]. inversion Hs; assumption. }
    split.
    + constructor; [exact Hs |].
      eapply List.Forall_impl; [| exact Hall].
      intros x Hx. eapply str_le_trans; [apply ltb_str_le; exact Hab | exact Hx].
    + constructor; [| exact Hn].
      intros Hin. rewrite List.Forall_forall in Hall.
      exact (ltb_not_ge a b Hab (Hall a Hin)).
Qed.

Lemma ascending_sort (l : list string) : ascending l = true -> sort_Strings l = l.
Proof.
  intros Ha. apply sorted_unique.
  - apply sort_Strings_sorted.
  - apply ascending_sorted. exact Ha.
  - apply sort_Strings_perm.
Qed.

Lemma assoc_set_fresh (k : string) (v : Value) (m : list (string * Value)) :
  ~ In k (List.map fst m) -> assoc_set k v m = m ++ [(k, v)].
Proof.
  induction m as [| [k' v'] m IH]; intros Hk; [reflexivity |].
  cbn [assoc_set]. destruct (String.eqb_spec k k') as [-> | Hne].
  - exfalso. apply Hk. left. reflexivity.
  - cbn [app]. f_equal. apply IH. intros Hin. apply Hk. right. exact Hin.
Qed.

Lemma assoc_first (m : list (string * Value)) :
  List.NoDup (List.map fst m) ->
  List.Forall (fun kv => assoc (fst kv) m = Some (snd kv)) m.
Proof.
  induction m as [| [k v] m IH]; intros Hnd; constructor.
  - cbn [assoc fst snd]. rewrite String.eqb_refl. reflexivity.
  - cbn [List.map fst] in Hnd. inversion Hnd as [| ? ? Hk Hnd']; subst.
    specialize (IH Hnd'). rewrite List.Forall_forall in IH |- *.
    intros [k' v'] Hin. cbn [assoc fst snd].
    destruct (String.eqb_spec k' k) as [-> | Hne].
    + exfalso. apply Hk. apply (List.in_map fst) in Hin. exact Hin.
    + exact (IH _ Hin).
Qed.

(** The entries as the encoder of a map writes them, one chunk each. *)
Lemma map_body_inv (kenc venc : Encoder) (z : Value) (m l : list (string * Value))
    (body : list Z) :
  List.Forall (fun kv => assoc (fst kv) m = Some (snd kv)) l ->
  write_all (fun k =>
      let v := default z (assoc k m) in
      do kb <- kenc (VString k);
      do vb <- venc v;
      OK (kb ++ vb)) (List.map fst l) = OK body ->
  exists chunks,
    body = concat chunks /\
    Forall2 (fun kv c =>
      exists kb vb, kenc (VString (fst kv)) = OK kb /\ venc (snd kv) = OK vb /\ c = kb ++ vb)
      l chunks.
Proof.
  intros Hl Hbody. apply write_all_inv in Hbody as (chunks & -> & Hall).
  exists chunks. split; [reflexivity |].
  revert chunks Hall. induction Hl as [| [k v] l Hkv Hl IH]; intros chunks Hall.
  - inversion Hall; subst. constructor.
  - cbn [List.map] in Hall. apply Forall2_cons_inv_l in Hall as (c & cs & Hc & Hcs & ->).
    constructor; [| apply IH; exact Hcs].
    cbn [fst snd] in *. rewrite Hkv in Hc. cbn [from_option id] in Hc. cbn zeta in Hc.
    inv_bind_as Hc kb Hkb. inv_bind_as Hc vb Hvb. apply OK_inj in Hc. subst c. eauto.
Qed.

(** The loop that fills a map, entry by entry. *)
Lemma map_field_loop (kdec vdec : Decoder) (z : Value) (l : list (string * Value))
    (chunks : list (list Z)) :
  Forall2 (fun kv c =>
    exists kb vb,
      reads_back kdec (VString EmptyString) kb (VString (fst kv)) /\
      reads_back vdec z vb (snd kv) /\ c = kb ++ vb) l chunks ->
  forall (done : list (string * Value)) (from : nat) (br : peeker) (rest : list Z),
    List.NoDup (List.map fst (done ++ l)) ->
    pending br = concat chunks ++ rest ->
    exists br',
      for_range from (length l)
        (fun _ '(m, br) =>
           do '(k, br) <- kdec (VString EmptyString) br;
           do '(v, br) <- vdec z br;
           match k with
           | VString k => OK (assoc_set k v m, br)
           | _ => ill_typed
           end) (done, br)
      = OK (done ++ l, br') /\ pending br' = rest.
Proof.
  induction 1 as [| [k v] c l chunks (kb & vb & Hk & Hv & ->) Hall IH];
    intros done from br rest Hnd Hp.
  - exists br. cbn [length for_range]. rewrite app_nil_r. split; [reflexivity | exact Hp].
  - cbn [length for_range concat fst snd] in *. rewrite <- !app_assoc in Hp.
    destruct (Hk br _ Hp) as (br1 & Hr1 & Hp1). rewrite Hr1. cbn [bind].
    destruct (Hv br1 _ Hp1) as (br2 & Hr2 & Hp2). rewrite Hr2. cbn [bind].
    rewrite assoc_set_fresh.
    2:{ rewrite List.map_app in Hnd. cbn [List.map fst] in Hnd.
        apply List.NoDup_remove_2 in Hnd. intros Hin. apply Hnd.
        apply List.in_or_app. left. exact Hin. }
    destruct (IH (done ++ [(k, v)]) (S from) br2 rest) as (br' & Hr & Hp').
    + rewrite <- app_assoc. exact Hnd.
    + exact Hp2.
    + rewrite Hr. rewrite <- app_assoc. eauto.
Qed.

Lemma map_entries_read_back (kenc venc : Encoder) (kdec vdec : Decoder) (z : Value)
    (l : list (string * Value)) (chunks : list (list Z)) :
  (forall k kb, kenc (VString k) = OK kb ->
     reads_back kdec (VString EmptyString) kb (VString k)) ->
  (forall kv c, In kv l -> venc (snd kv) = OK c -> reads_back vdec z c (snd kv)) ->
  Forall2 (fun kv c =>
    exists kb vb, kenc (VString (fst kv)) = OK kb /\ venc (snd kv) = OK vb /\ c = kb ++ vb)
    l chunks ->
  Forall2 (fun kv c =>
    exists kb vb,
      reads_back kdec (VString EmptyString) kb (VString (fst kv)) /\
      reads_back vdec z vb (snd kv) /\ c = kb ++ vb) l chunks.
Proof.
  intros Hkey Hval Hall.
  induction Hall as [| kv c l' chunks' (kb & vb & Hkb & Hvb & ->) Hall IH]; constructor.
  - exists kb, vb. split; [apply Hkey; exact Hkb |].
    split; [apply Hval; [left; reflexivity | exact Hvb] | reflexivity].
  - apply IH. intros kv' c' Hin. apply Hval. right. exact Hin.
Qed.

Section MapFields.
Context `{External}.
Variable M : GoType -> option Value -> result (list Z).
Variable U : GoType -> Value -> peeker -> result (Value * peeker).
Variable good : GoType -> Value -> bool.
Hypothesis HMU : methods_roundtrip M U good.

Lemma map_reads_back (f g : Field) (enc : Encoder) (dec : Decoder) (v : Value)
    (vb : list Z) (cur : Value) :
  Typ g = Typ f -> Pkg g = Pkg f ->
  well_formed good (Typ f) v = true ->
  emitCborMarshalMapField M f = OK enc ->
  emitCborUnmarshalMapField U g = OK dec ->
  enc v = OK vb ->
  reads_back dec cur vb v.
Proof.
  intros Hty Hpkg Hwf Henc Hdec Hvb.
  unfold emitCborMarshalMapField in Henc. unfold emitCborUnmarshalMapField in Hdec.
  rewrite Hty, Hpkg in Hdec.
  destruct (Typ f) as [| | | | | | n e0 | e0 | k e | e | p nm]; try discriminate Henc.
  destruct k; try discriminate Hwf. cbn [reflect.kind] in Henc, Hdec.
  inv_bind_as Henc kenc Hkenc. inv_bind_as Henc venc Hvenc.
  inv_bind_as Hdec kdec Hkdec. inv_bind_as Hdec vdec Hvdec.
  apply OK_inj in Henc, Hdec. subst enc dec.
  assert (Hentry : forall m,
    v = VMap m ->
    ascending (List.map fst m) = true ->
    (forall kv c, In kv m -> venc (snd kv) = OK c -> reads_back vdec (zero_value e) c (snd kv)) ->
    reads_back
      (fun _ br =>
         do '(maj, extra, br) <- CborReadHeaderBuf br;
         if negb (maj =? MajMap) then Err "expected a map (major type 5)"
         else if extra >? 4096 then Err (Name g ++ ": map too large")
         else
           do '(m, br) <- for_range 0 (Z.to_nat extra) (fun _ '(m, br) =>
               do '(k, br) <- kdec (VString EmptyString) br;
               do '(v, br) <- vdec (zero_value e) br;
               match k with
               | VString k => OK (assoc_set k v m, br)
               | _ => ill_typed
               end) ([], br);
           OK (VMap m, br)) cur vb v).
  { intros m -> Hasc Hval. cbn beta iota in Hvb.
    destruct (Z.of_nat (length m) >? 4096) eqn:E; [discriminate Hvb |].
    pose proof E as E'. rewrite Z.gtb_ltb in E'. apply Z.ltb_ge in E'.
    unfold WriteMajorTypeHeaderBuf in Hvb. cbn [bind] in Hvb.
    inv_bind_as Hvb body Hbody. apply OK_inj in Hvb. subst vb.
    rewrite (ascending_sort _ Hasc) in Hbody.
    destruct (ascending_sorted _ Hasc) as [_ Hnd].
    destruct (map_body_inv kenc venc (zero_value e) m m body (assoc_first m Hnd) Hbody)
      as (chunks & -> & Hchunks).
    assert (Hrb : Forall2 (fun kv c =>
              exists kb vb,
                reads_back kdec (VString EmptyString) kb (VString (fst kv)) /\
                reads_back vdec (zero_value e) vb (snd kv) /\ c = kb ++ vb) m chunks).
    { apply (map_entries_read_back kenc venc kdec vdec (zero_value e) m chunks).
      - intros k0 kb Hkb. eapply string_reads_back; eassumption.
      - exact Hval.
      - exact Hchunks. }
    intros br rest Hp. rewrite uint64_small in Hp by lia. rewrite <- app_assoc in Hp.
    destruct (read_header_pending br MajMap (Z.of_nat (length m)) _
                ltac:(unfold MajMap; lia) ltac:(lia) Hp) as (br1 & Hr1 & Hp1).
    rewrite Hr1. cbn [bind]. change (negb (MajMap =? MajMap)) with false. cbn iota.
    rewrite E. rewrite Nat2Z.id.
    destruct (map_field_loop kdec vdec (zero_value e) m chunks Hrb [] O br1 rest Hnd Hp1)
      as (br' & Hr & Hp').
    rewrite Hr. cbn [bind app]. eauto. }
  destruct e as [| | | | | | n1 a1 | a1 | k1 a1 | a1 | p1 nm1]; try discriminate Hwf.
  - (* pointers to records *)
    destruct a1 as [| | | | | | n2 a2 | a2 | k2 a2 | a2 | p2 nm2]; try discriminate Hwf.
    cbn [well_formed] in Hwf. apply andb_prop in Hwf as [Hreg Hwf].
    destruct v as [| | | | | | m | | | | |]; try discriminate Hwf.
    apply andb_prop in Hwf as [Hasc Hall].
    apply (Hentry m eq_refl Hasc).
    intros [k x] c Hin Hc. cbn [snd] in *.
    rewrite forallb_forall in Hall. specialize (Hall _ Hin). cbn [snd] in Hall.
    destruct x as [| | | | | | | p | | | |]; try discriminate Hall.
    eapply (record_pointer_reads_back M U good HMU _ _ venc vdec (reflect.StructOf p2 nm2) p c Hreg);
      [| | | | | | exact Hvenc | exact Hvdec | exact Hc]; try reflexivity.
    destruct p; [exact Hall | exact I].
  - (* records *)
    cbn [well_formed] in Hwf. apply andb_prop in Hwf as [Hreg Hwf].
    destruct v as [| | | | | | m | | | | |]; try discriminate Hwf.
    apply andb_prop in Hwf as [Hasc Hall].
    apply (Hentry m eq_refl Hasc).
    intros [k x] c Hin Hc. cbn [snd] in *.
    rewrite forallb_forall in Hall. specialize (Hall _ Hin). cbn [snd] in Hall.
    eapply (record_reads_back M U good HMU
              {| Name := "v"; MapKey := EmptyString; Pointer := false;
                 Typ := reflect.StructOf p1 nm1; Pkg := Pkg f |}
              {| Name := "v"; MapKey := EmptyString; Pointer := false;
                 Typ := reflect.StructOf p1 nm1; Pkg := Pkg f |}
              venc vdec x c _ Hreg);
      [| | | | exact Hvenc | exact Hvdec | exact Hc]; try reflexivity. exact Hall.
Qed.

End MapFields.

Section AllFields.
Context `{External}.
Variable M : GoType -> option Value -> result (list Z).
Variable U : GoType -> Value -> peeker -> result (Value * peeker).
Variable good : GoType -> Value -> bool.
Hypothesis HMU : methods_roundtrip M U good.

(** Every field of a record: what its fragment of the encoder writes, its
    fragment of the decoder reads back into a field that holds the zero
    value. *)
Lemma field_reads_back (gti : GenTypeInfo) (f : Field) (enc : Encoder) (dec : Decoder)
    (v : Value) (vb : list Z) :
  well_formed good (static_type f) v = true ->
  marshalField M gti f = OK enc ->
  unmarshalField U gti f = OK dec ->
  enc v = OK vb ->
  reads_back dec (zero_value (static_type f)) vb v.
Proof.
  unfold marshalField, unmarshalField, with_name, static_type. cbn zeta.
  cbn [Typ Name Pointer Pkg].
  intros Hwf Henc Hdec Hvb.
  destruct (Typ f) as [| | | | | | n e0 | e0 | k e | e | p nm] eqn:Ety;
    cbn [reflect.kind] in Henc, Hdec; try discriminate Henc.
  - (* string *)
    destruct (Pointer f); [discriminate Henc |].
    destruct v as [s | | | | | | | | | | |]; try discriminate Hwf.
    eapply string_reads_back; eassumption.
  - (* uint64 *)
    destruct (Pointer f) eqn:Eptr.
    + destruct v as [| | | | | | | p | | | |]; try discriminate Hwf.
      eapply optional_uint64_reads_back; [| exact Henc | exact Hdec | | exact Hvb];
        [reflexivity |].
      cbn [well_formed] in Hwf.
      destruct p as [[| n | | | | | | | | | |] |]; try discriminate Hwf;
        [apply in_uint64_spec; exact Hwf | exact I].
    + destruct v as [| n | | | | | | | | | |]; try discriminate Hwf.
      eapply uint64_reads_back; [| exact Henc | exact Hdec | | exact Hvb];
        [reflexivity |].
      apply in_uint64_spec. exact Hwf.
  - (* int64 *)
    destruct (Pointer f); [discriminate Henc |].
    destruct v as [| | n | | | | | | | | |]; try discriminate Hwf.
    eapply int64_reads_back; try eassumption. apply in_int64_spec. exact Hwf.
  - (* uint8 *)
    destruct (Pointer f); [discriminate Henc |].
    destruct v as [| n | | | | | | | | | |]; try discriminate Hwf.
    eapply uint8_reads_back; try eassumption. apply in_uint8_spec. exact Hwf.
  - (* bool *)
    destruct (Pointer f); [discriminate Hwf |].
    destruct v as [| | | b | | | | | | | |]; try discriminate Hwf.
    eapply bool_reads_back; eassumption.
  - (* array *)
    unfold emitCborMarshalSliceField, emitCborUnmarshalSliceField in *.
    cbn [Typ Name Pointer Pkg] in *.
    destruct (Pointer f); [cbn in Henc; discriminate Henc |].
    eapply (slice_reads_back M U good HMU); eassumption.
  - (* slice *)
    unfold emitCborMarshalSliceField, emitCborUnmarshalSliceField in *.
    cbn [Typ Name Pointer Pkg] in *.
    destruct (Pointer f); [cbn in Henc; discriminate Henc |].
    eapply (slice_reads_back M U good HMU); eassumption.
  - (* map *)
    destruct (Pointer f); [discriminate Hwf |].
    eapply (map_reads_back M U good HMU); [| | | exact Henc | exact Hdec | exact Hvb];
      [reflexivity | reflexivity | exact Hwf].
  - (* record *)
    destruct (Pointer f) eqn:Eptr.
    + cbn [well_formed] in Hwf.
      destruct (same_struct (reflect.StructOf p nm) bigIntType) eqn:Ebig.
      * destruct v as [| | | | | | | [[| | | | | | | | | | n |] |] | | | |];
          try discriminate Hwf.
        apply andb_prop in Hwf as [H1 H2].
        apply Z.leb_le in H1. apply Z.ltb_lt in H2.
        eapply (bigint_reads_back M U); [| | exact Henc | exact Hdec | | exact Hvb];
          [exact Ebig | exact Ebig | lia].
      * apply andb_prop in Hwf as [Hreg Hwf].
        destruct v as [| | | | | | | q | | | |]; try discriminate Hwf.
        destruct (regular_inv _ Hreg) as (_ & Hc & _).
        eapply (record_pointer_reads_back M U good HMU _ _ enc dec (reflect.StructOf p nm) q vb Hreg);
          [| | | | | | exact Henc | exact Hdec | exact Hvb]; try reflexivity;
          try assumption.
        destruct q; [exact Hwf | exact I].
    + cbn [well_formed] in Hwf. apply andb_prop in Hwf as [Hreg Hwf].
      eapply (record_reads_back M U good HMU _ _ enc dec v vb);
        [| | | | | exact Henc | exact Hdec | exact Hvb];
        [exact Hreg | reflexivity | reflexivity | reflexivity | exact Hwf].
Qed.

End AllFields.

(** ** Records *)

Lemma distinct_NoDup (l : list string) : distinct l = true -> List.NoDup l.
Proof.
  induction l as [| a l IH]; intros Hd; [constructor |].
  cbn [distinct] in Hd. apply andb_prop in Hd as [Ha Hl].
  constructor; [| apply IH; exact Hl].
  intros Hin. apply negb_true_iff in Ha.
  assert (existsb (String.eqb a) l = true); [| congruence].
  apply existsb_exists. exists a. split; [exact Hin | apply String.eqb_refl].
Qed.

Lemma same_names_eq (l1 l2 : list string) : same_names l1 l2 = true -> l1 = l2.
Proof.
  revert l2. induction l1 as [| a l1 IH]; intros [| b l2] Hs; try discriminate Hs;
    [reflexivity |].
  cbn [same_names] in Hs. apply andb_prop in Hs as [Hab Hs].
  apply String.eqb_eq in Hab. subst b. f_equal. apply IH. exact Hs.
Qed.

(** A record that lists its fields as the schema does is the list of the
    values of its fields. *)
Lemma record_listed (fields : list Field) (fs : list (string * Value)) :
  List.map fst fs = List.map Name fields ->
  List.NoDup (List.map Name fields) ->
  List.map (fun f => (Name f, field_value fs f)) fields = fs.
Proof.
  revert fs. induction fields as [| f fields IH]; intros [| [n v] fs] Hn Hnd;
    try discriminate Hn; [reflexivity |].
  cbn [List.map fst] in Hn, Hnd |- *. injection Hn as -> Hn.
  inversion Hnd as [| ? ? Hf Hnd']; subst.
  f_equal.
  - unfold field_value. cbn [assoc]. rewrite String.eqb_refl. reflexivity.
  - transitivity (List.map (fun g => (Name g, field_value fs g)) fields);
      [| apply IH; assumption].
    apply List.map_ext_in.
    intros g Hg. f_equal. unfold field_value. cbn [assoc].
    destruct (String.eqb_spec (Name g) (Name f)) as [E | _]; [| reflexivity].
    exfalso. apply Hf. rewrite <- E. apply List.in_map. exact Hg.
Qed.

Lemma field_value_fresh (done : list (string * Value)) (f : Field) :
  ~ In (Name f) (List.map fst done) -> field_value done f = zero_value (static_type f).
Proof. intros Hf. unfold field_value. rewrite assoc_not_in by exact Hf. reflexivity. Qed.

Lemma find_case_found `{External} (emit : Field -> result Decoder)
    (fields : list Field) (decs : list (Field * Decoder)) (f : Field) :
  emit_fields emit fields = OK decs ->
  List.NoDup (List.map MapKey fields) ->
  In f fields ->
  exists dec, find_case (MapKey f) decs = Some (f, dec) /\ emit f = OK dec.
Proof.
  revert decs. induction fields as [| g fields IH]; intros decs Hdecs Hnd Hin; [destruct Hin |].
  cbn [emit_fields] in Hdecs. inv_bind_as Hdecs d Hd. inv_bind_as Hdecs rest Hrest.
  apply OK_inj in Hdecs. subst decs. cbn [find_case].
  cbn [List.map] in Hnd. inversion Hnd as [| ? ? Hg Hnd']; subst.
  destruct Hin as [-> | Hin].
  - rewrite String.eqb_refl. eauto.
  - destruct (String.eqb_spec (MapKey f) (MapKey g)) as [E | _].
    + exfalso. apply Hg. rewrite <- E. apply List.in_map. exact Hin.
    + apply IH; [reflexivity | exact Hnd' | exact Hin].
Qed.

Section TupleFields.
Context `{External}.
Variable M : GoType -> option Value -> result (list Z).
Variable U : GoType -> Value -> peeker -> result (Value * peeker).
Variable good : GoType -> Value -> bool.
Hypothesis HMU : methods_roundtrip M U good.

Variable gti : GenTypeInfo.
Variable fs : list (string * Value).

(** The fields of a tuple, one after the other. *)
Lemma tuple_fields_read_back (fields : list Field) :
  forall (encs : list (Field * Encoder)) (decs : list (Field * Decoder))
         (done : list (string * Value)) (body : list Z) (br : peeker) (rest : list Z),
    emit_fields (marshalField M gti) fields = OK encs ->
    emit_fields (unmarshalField U gti) fields = OK decs ->
    List.Forall (fun f => well_formed good (static_type f) (field_value fs f) = true) fields ->
    write_all (fun '(f, enc) => enc (field_value fs f)) encs = OK body ->
    List.NoDup (List.map fst done ++ List.map Name fields) ->
    pending br = body ++ rest ->
    exists br',
      decode_fields decs done br
      = OK (done ++ List.map (fun f => (Name f, field_value fs f)) fields, br') /\
      pending br' = rest.
Proof.
  induction fields as [| f fields IH];
    intros encs decs done body br rest Hencs Hdecs Hwf Hbody Hnd Hp.
  - cbn [emit_fields] in Hencs, Hdecs. apply OK_inj in Hencs, Hdecs. subst encs decs.
    cbn [write_all] in Hbody. apply OK_inj in Hbody. subst body.
    exists br. cbn [decode_fields List.map]. rewrite app_nil_r. eauto.
  - cbn [emit_fields] in Hencs, Hdecs.
    inv_bind_as Hencs enc Henc. inv_bind_as Hencs encs' Hencs'.
    inv_bind_as Hdecs dec Hdec. inv_bind_as Hdecs decs' Hdecs'.
    apply OK_inj in Hencs, Hdecs. subst encs decs.
    cbn [write_all] in Hbody. inv_bind_as Hbody vb Hvb. inv_bind_as Hbody body' Hbody'.
    apply OK_inj in Hbody. subst body.
    inversion Hwf as [| ? ? Hf Hwf']; subst.
    cbn [List.map] in Hnd.
    assert (Hfresh : ~ In (Name f) (List.map fst done)).
    { apply List.NoDup_remove_2 in Hnd. intros Hin. apply Hnd.
      apply List.in_or_app. left. exact Hin. }
    rewrite <- app_assoc in Hp.
    destruct (field_reads_back M U good HMU gti f enc dec _ vb Hf Henc Hdec Hvb br _ Hp)
      as (br1 & Hr1 & Hp1).
    cbn [decode_fields]. unfold decode_into.
    rewrite (field_value_fresh done f Hfresh), Hr1. cbn [bind].
    rewrite assoc_set_fresh by exact Hfresh.
    destruct (IH encs' decs' (done ++ [(Name f, field_value fs f)]) body' br1 rest
                eq_refl eq_refl Hwf' Hbody') as (br' & Hr & Hp').
    + rewrite List.map_app, <- app_assoc. exact Hnd.
    + exact Hp1.
    + rewrite Hr. cbn [List.map]. rewrite <- app_assoc. eauto.
Qed.

End TupleFields.

Section NamedMapPairs.
Context `{External}.
Variable M : GoType -> option Value -> result (list Z).
Variable U : GoType -> Value -> peeker -> result (Value * peeker).
Variable good : GoType -> Value -> bool.
Hypothesis HMU : methods_roundtrip M U good.

Variable gti : GenTypeInfo.
Variable fs : list (string * Value).

Lemma map_pairs_written (fields : list Field) :
  forall (encs : list (Field * (Encoder * Encoder))) (body : list Z),
    emit_fields (fun f =>
      do kenc <- emitCborMarshalStringField
        {| Name := quoted (MapKey f); MapKey := EmptyString; Pointer := false;
           Typ := reflect.TString; Pkg := EmptyString |};
      do venc <- marshalField M gti f;
      OK (kenc, venc)) fields = OK encs ->
    write_all (fun '(f, (kenc, venc)) =>
      do kb <- kenc (VString (MapKey f));
      do vb <- venc (field_value fs f);
      OK (kb ++ vb)) encs = OK body ->
    exists chunks, body = concat chunks /\ Forall2 (pair_written M gti fs) fields chunks.
Proof.
  induction fields as [| f fields IH]; intros encs body Hencs Hbody.
  - cbn [emit_fields] in Hencs. apply OK_inj in Hencs. subst encs.
    cbn [write_all] in Hbody. apply OK_inj in Hbody. subst body.
    exists []. split; [reflexivity | constructor].
  - cbn [emit_fields] in Hencs. inv_bind_as Hencs kv Hkv. inv_bind_as Hencs encs' Hencs'.
    apply OK_inj in Hencs. subst encs.
    inv_bind_as Hkv kenc Hkenc. inv_bind_as Hkv venc Hvenc. apply OK_inj in Hkv. subst kv.
    cbn [write_all] in Hbody. inv_bind_as Hbody c Hc. inv_bind_as Hbody body' Hbody'.
    apply OK_inj in Hbody. subst body.
    inv_bind_as Hc kb Hkb. inv_bind_as Hc vb Hvb. apply OK_inj in Hc. subst c.
    destruct (IH encs' body' eq_refl Hbody') as (chunks & -> & Hall).
    exists ((kb ++ vb) :: chunks). split; [reflexivity |].
    constructor; [| exact Hall].
    destruct (string_reads_back _ kenc (fun _ br => do '(sval, br) <- ReadStringBuf br; OK (VString sval, br))
                (MapKey f) kb (VString EmptyString) Hkenc eq_refl Hkb) as (-> & Hlen & _).
    split; [exact Hlen |]. eauto.
Qed.

(** The loop of the decoder of a record in named-map form, over pairs
    whose keys are wire keys of the schema, in any order. *)
Lemma map_pairs_read_back (r : io_Reader) (kdec : Decoder) (decs : list (Field * Decoder)) :
  emitCborUnmarshalStringField name_field = OK kdec ->
  emit_fields (unmarshalField U gti) (Fields gti) = OK decs ->
  List.NoDup (List.map MapKey (Fields gti)) ->
  forall (order : list Field) (chunks : list (list Z)),
    Forall2 (pair_written M gti fs) order chunks ->
    List.Forall (fun f =>
      In f (Fields gti) /\
      well_formed good (static_type f) (field_value fs f) = true) order ->
    forall (done : list (string * Value)) (name0 : string) (from : nat)
           (br : peeker) (rest : list Z),
      List.NoDup (List.map fst done ++ List.map Name order) ->
      pending br = concat chunks ++ rest ->
      exists name' br',
        for_range from (length order) (fun _ => map_iteration r kdec decs) (name0, done, br)
        = OK (name', done ++ List.map (fun f => (Name f, field_value fs f)) order, br') /\
        pending br' = rest.
Proof.
  intros Hkdec Hdecs Hkeys order chunks Hall.
  unfold emitCborUnmarshalStringField in Hkdec. cbn [name_field Pointer] in Hkdec.
  apply OK_inj in Hkdec. subst kdec.
  induction Hall as [| f c order chunks (Hlen & venc & vb & Hvenc & Hvb & ->) Hall IH];
    intros Hwf done name0 from br rest Hnd Hp.
  - exists name0, br. cbn [length for_range List.map]. rewrite app_nil_r. eauto.
  - inversion Hwf as [| ? ? [Hin Hf] Hwf']; subst.
    cbn [length for_range concat List.map] in *.
    rewrite <- !app_assoc in Hp.
    destruct (ReadStringBuf_text_item br (MapKey f) _ Hlen Hp) as (br1 & Hr1 & Hp1).
    unfold map_iteration at 1. rewrite Hr1. cbn [bind].
    destruct (find_case_found (unmarshalField U gti) (Fields gti) decs f Hdecs Hkeys Hin)
      as (dec & Hfind & Hdec).
    rewrite Hfind.
    assert (Hfresh : ~ In (Name f) (List.map fst done)).
    { apply List.NoDup_remove_2 in Hnd. intros Hin'. apply Hnd.
      apply List.in_or_app. left. exact Hin'. }
    destruct (field_reads_back M U good HMU gti f venc dec _ vb Hf Hvenc Hdec Hvb br1 _ Hp1)
      as (br2 & Hr2 & Hp2).
    unfold decode_into. rewrite (field_value_fresh done f Hfresh), Hr2. cbn [bind].
    rewrite assoc_set_fresh by exact Hfresh.
    destruct (IH Hwf' (done ++ [(Name f, field_value fs f)]) (MapKey f) (S from) br2 rest)
      as (name' & br' & Hr & Hp').
    + rewrite List.map_app, <- app_assoc. exact Hnd.
    + exact Hp2.
    + rewrite Hr. rewrite <- app_assoc. eauto.
Qed.

End NamedMapPairs.

Lemma forallb_Forall {A : Type} (P : A -> bool) (l : list A) :
  forallb P l = true -> List.Forall (fun x => P x = true) l.
Proof. intros Hl. apply List.Forall_forall. apply forallb_forall. exact Hl. Qed.

Section RecordFrames.
Context `{External}.
Variable M : GoType -> option Value -> result (list Z).
Variable U : GoType -> Value -> peeker -> result (Value * peeker).
Variable good : GoType -> Value -> bool.
Hypothesis HMU : methods_roundtrip M U good.

Variable gti : GenTypeInfo.
Variable fs : list (string * Value).
Hypothesis Hlisted : List.map fst fs = List.map Name (Fields gti).
Hypothesis Hwf :
  List.Forall (fun f => well_formed good (static_type f) (field_value fs f) = true) (Fields gti).

Lemma tuple_record_read_back (m : option Value -> result (list Z)) (u : Unmarshaler)
    (out : list Z) (r : io_Reader) (cur : Value) (rest : list Z) :
  sound_schema Tuple gti = true ->
  emitCborMarshalStructTuple M gti = OK m ->
  emitCborUnmarshalStructTuple U gti = OK u ->
  m (Some (VStruct fs)) = OK out ->
  pending (GetPeeker r) = out ++ rest ->
  exists br', u r cur = OK (VStruct fs, br') /\ pending br' = rest.
Proof.
  intros Hsound Hm Hu Hout Hp.
  unfold sound_schema in Hsound. apply andb_prop in Hsound as [Hnames Hcount].
  apply distinct_NoDup in Hnames. apply Z.ltb_lt in Hcount.
  unfold emitCborMarshalStructTuple in Hm. inv_bind_as Hm encs Hencs.
  apply OK_inj in Hm. subst m.
  unfold emitCborUnmarshalStructTuple in Hu. inv_bind_as Hu decs Hdecs.
  apply OK_inj in Hu. subst u.
  cbn beta iota in Hout. inv_bind_as Hout body Hbody. apply OK_inj in Hout. subst out.
  unfold TupleHeader in Hp. rewrite uint64_small in Hp by lia. rewrite <- app_assoc in Hp.
  destruct (read_header_pending _ MajArray (Z.of_nat (length (Fields gti))) _
              ltac:(unfold MajArray; lia) ltac:(lia) Hp) as (br1 & Hr1 & Hp1).
  cbn beta zeta. rewrite Hr1. cbn [bind].
  change (negb (MajArray =? MajArray)) with false. cbn iota.
  rewrite Z.eqb_refl. cbn [negb].
  destruct (tuple_fields_read_back M U good HMU gti fs (Fields gti) encs decs [] body br1 rest
              Hencs Hdecs Hwf Hbody Hnames Hp1) as (br' & Hr & Hp').
  rewrite Hr. cbn [bind app]. rewrite (record_listed _ _ Hlisted Hnames). eauto.
Qed.

Lemma map_record_read_back (m : option Value -> result (list Z)) (u : Unmarshaler)
    (out : list Z) (r : io_Reader) (cur : Value) (rest : list Z) :
  sound_schema NamedMap gti = true ->
  emitCborMarshalStructMap M gti = OK m ->
  emitCborUnmarshalStructMap U gti = OK u ->
  m (Some (VStruct fs)) = OK out ->
  pending (GetPeeker r) = out ++ rest ->
  exists br', u r cur = OK (VStruct fs, br') /\ pending br' = rest.
Proof.
  intros Hsound Hm Hu Hout Hp.
  unfold sound_schema in Hsound. apply andb_prop in Hsound as [Hnames Hsound].
  apply andb_prop in Hsound as [Hkeys Hcount].
  apply distinct_NoDup in Hnames, Hkeys. apply Z.leb_le in Hcount.
  unfold emitCborMarshalStructMap in Hm. inv_bind_as Hm encs Hencs.
  apply OK_inj in Hm. subst m.
  unfold emitCborUnmarshalStructMap in Hu. inv_bind_as Hu kdec Hkdec. inv_bind_as Hu decs Hdecs.
  apply OK_inj in Hu. subst u.
  cbn beta iota in Hout. inv_bind_as Hout body Hbody. apply OK_inj in Hout. subst out.
  destruct (map_pairs_written M gti fs (Fields gti) encs body Hencs Hbody)
    as (chunks & -> & Hall).
  unfold MapHeader in Hp. rewrite uint64_small in Hp by (unfold MaxLength in Hcount; lia).
  rewrite <- app_assoc in Hp.
  destruct (read_header_pending _ MajMap (Z.of_nat (length (Fields gti))) _
              ltac:(unfold MajMap; lia)
              ltac:(unfold MaxLength in Hcount; lia) Hp) as (br1 & Hr1 & Hp1).
  cbn beta zeta. rewrite Hr1. cbn [bind].
  change (negb (MajMap =? MajMap)) with false. cbn iota.
  assert ((Z.of_nat (length (Fields gti)) >? MaxLength) = false) as ->
    by (rewrite Z.gtb_ltb; apply Z.ltb_ge; lia).
  rewrite Nat2Z.id.
  destruct (map_pairs_read_back M U good HMU gti fs r kdec decs Hkdec Hdecs Hkeys
              (Fields gti) chunks Hall) with (done := @nil (string * Value))
              (name0 := EmptyString) (from := O) (br := br1) (rest := rest)
    as (name' & br' & Hr & Hp').
  - apply List.Forall_forall. intros f Hf. split; [exact Hf |].
    rewrite List.Forall_forall in Hwf. apply Hwf. exact Hf.
  - exact Hnames.
  - exact Hp1.
  - rewrite Hr. cbn [bind app]. rewrite (record_listed _ _ Hlisted Hnames). eauto.
Qed.

End RecordFrames.

Lemma tuple_not_null `{External} (M : GoType -> option Value -> result (list Z))
    (gti : GenTypeInfo) (m : option Value -> result (list Z)) (v : Value) (out : list Z) :
  emitCborMarshalStructTuple M gti = OK m ->
  m (Some v) = OK out ->
  m None = OK CborNull /\ exists b tl, out = b :: tl /\ b <> 246.
Proof.
  intros Hm Hout. unfold emitCborMarshalStructTuple in Hm. inv_bind_as Hm encs Hencs.
  apply OK_inj in Hm. subst m. split; [reflexivity |].
  cbn beta iota in Hout. destruct v; try discriminate Hout.
  inv_bind_as Hout body Hbody. apply OK_inj in Hout. subst out.
  destruct (header_not_null MajArray (uint64 (Z.of_nat (length (Fields gti)))))
    as (b0 & r0 & Hhdr & Hb0); [unfold MajArray; lia | apply uint64_nonneg |].
  unfold TupleHeader. rewrite Hhdr. eexists _, _. split; [reflexivity |].
  apply Z.eqb_neq. exact Hb0.
Qed.

Lemma map_not_null `{External} (M : GoType -> option Value -> result (list Z))
    (gti : GenTypeInfo) (m : option Value -> result (list Z)) (v : Value) (out : list Z) :
  emitCborMarshalStructMap M gti = OK m ->
  m (Some v) = OK out ->
  m None = OK CborNull /\ exists b tl, out = b :: tl /\ b <> 246.
Proof.
  intros Hm Hout. unfold emitCborMarshalStructMap in Hm. inv_bind_as Hm encs Hencs.
  apply OK_inj in Hm. subst m. split; [reflexivity |].
  cbn beta iota in Hout. destruct v; try discriminate Hout.
  inv_bind_as Hout body Hbody. apply OK_inj in Hout. subst out.
  destruct (header_not_null MajMap (uint64 (Z.of_nat (length (Fields gti)))))
    as (b0 & r0 & Hhdr & Hb0); [unfold MajMap; lia | apply uint64_nonneg |].
  unfold MapHeader. rewrite Hhdr. eexists _, _. split; [reflexivity |].
  apply Z.eqb_neq. exact Hb0.
Qed.

(** ** Linked methods *)

Lemma linked_roundtrip `{External} (env : TypeEnv) (fuel : nat) :
  methods_roundtrip (MarshalCBOR env fuel) (UnmarshalCBOR env fuel) (good_record env fuel).
Proof.
  induction fuel as [| fuel IH]; split.
  - intros t bs _ Hm. discriminate Hm.
  - intros t v bs _ Hg. discriminate Hg.
  - intros t bs Hreg Hm. destruct (regular_inv _ Hreg) as (_ & _ & Hd & _).
    cbn [MarshalCBOR] in Hm. rewrite Hd in Hm.
    destruct (env (qualified_name t)) as [[[|] gti] |]; try discriminate Hm;
      inv_bind_as Hm m Em.
    + unfold emitCborMarshalStructTuple in Em. inv_bind_as Em encs Hencs.
      apply OK_inj in Em. subst m. apply OK_inj in Hm. congruence.
    + unfold emitCborMarshalStructMap in Em. inv_bind_as Em encs Hencs.
      apply OK_inj in Em. subst m. apply OK_inj in Hm. congruence.
  - intros t v bs Hreg Hg Hm. destruct (regular_inv _ Hreg) as (_ & _ & Hd & _).
    cbn [good_record] in Hg. cbn [MarshalCBOR] in Hm. rewrite Hd in Hm.
    destruct (env (qualified_name t)) as [[repr gti] |] eqn:Eenv; [| discriminate Hg].
    destruct v as [| | | | | | | | fs | | |]; try discriminate Hg.
    apply andb_prop in Hg as [Hg Hfields]. apply andb_prop in Hg as [Hg Hnames].
    apply andb_prop in Hg as [_ Hsound].
    apply same_names_eq in Hnames. apply forallb_Forall in Hfields.
    destruct repr; inv_bind_as Hm m Em.
    + destruct (tuple_not_null _ gti m _ bs Em Hm) as [_ Hnn]. split; [exact Hnn |].
      intros cur br rest Hp.
      destruct (tuple_decoder_emitted (MarshalCBOR env fuel) (UnmarshalCBOR env fuel) gti m Em)
        as [u Hu].
      cbn [UnmarshalCBOR]. rewrite Hd, Eenv. cbn [emitCborUnmarshalStruct]. rewrite Hu.
      cbn [bind].
      exact (tuple_record_read_back _ _ _ IH gti fs Hnames Hfields m u bs (peekable br) cur rest
               Hsound Em Hu Hm Hp).
    + destruct (map_not_null _ gti m _ bs Em Hm) as [_ Hnn]. split; [exact Hnn |].
      intros cur br rest Hp.
      destruct (map_decoder_emitted (MarshalCBOR env fuel) (UnmarshalCBOR env fuel) gti m Em)
        as [u Hu].
      cbn [UnmarshalCBOR]. rewrite Hd, Eenv. cbn [emitCborUnmarshalStruct]. rewrite Hu.
      cbn [bind].
      exact (map_record_read_back _ _ _ IH gti fs Hnames Hfields m u bs (peekable br) cur rest
               Hsound Em Hu Hm Hp).
Qed.

Lemma Forall2_Permutation_r {A B : Type} (P : A -> B -> Prop) (l1 : list A) (l2 l2' : list B) :
  Forall2 P l1 l2 -> Permutation l2 l2' ->
  exists l1', Permutation l1 l1' /\ Forall2 P l1' l2'.
Proof.
  intros Hall Hp. apply Forall2_flip in Hall.
  destruct (Permutation_Forall2 Hp Hall) as (l1' & Hp1 & Hall').
  exists l1'. split; [exact Hp1 | apply Forall2_flip; exact Hall'].
Qed.

Section AnyOrder.
Context `{External}.
Variable M : GoType -> option Value -> result (list Z).
Variable U : GoType -> Value -> peeker -> result (Value * peeker).
Variable good : GoType -> Value -> bool.
Hypothesis HMU : methods_roundtrip M U good.

Variable gti : GenTypeInfo.
Variable fs : list (string * Value).
Hypothesis Hlisted : List.map fst fs = List.map Name (Fields gti).
Hypothesis Hwf :
  List.Forall (fun f => well_formed good (static_type f) (field_value fs f) = true) (Fields gti).

Lemma map_record_any_order (u : Unmarshaler) (order : list Field) (chunks : list (list Z))
    (r : io_Reader) (cur : Value) (rest : list Z) :
  sound_schema NamedMap gti = true ->
  emitCborUnmarshalStructMap U gti = OK u ->
  Permutation (Fields gti) order ->
  Forall2 (pair_written M gti fs) order chunks ->
  pending (GetPeeker r) = MapHeader gti ++ concat chunks ++ rest ->
  exists fs' br',
    u r cur = OK (VStruct fs', br') /\ pending br' = rest /\
    forall x, assoc x fs' = assoc x fs.
Proof.
  intros Hsound Hu Hperm Hall Hp.
  unfold sound_schema in Hsound. apply andb_prop in Hsound as [Hnames Hsound].
  apply andb_prop in Hsound as [Hkeys Hcount].
  apply distinct_NoDup in Hnames, Hkeys. apply Z.leb_le in Hcount.
  unfold emitCborUnmarshalStructMap in Hu. inv_bind_as Hu kdec Hkdec. inv_bind_as Hu decs Hdecs.
  apply OK_inj in Hu. subst u.
  unfold MapHeader in Hp. rewrite uint64_small in Hp by (unfold MaxLength in Hcount; lia).
  destruct (read_header_pending _ MajMap (Z.of_nat (length (Fields gti))) _
              ltac:(unfold MajMap; lia)
              ltac:(unfold MaxLength in Hcount; lia) Hp) as (br1 & Hr1 & Hp1).
  cbn beta zeta. rewrite Hr1. cbn [bind].
  change (negb (MajMap =? MajMap)) with false. cbn iota.
  assert ((Z.of_nat (length (Fields gti)) >? MaxLength) = false) as ->
    by (rewrite Z.gtb_ltb; apply Z.ltb_ge; lia).
  rewrite Nat2Z.id. rewrite (Permutation_length Hperm).
  destruct (map_pairs_read_back M U good HMU gti fs r kdec decs Hkdec Hdecs Hkeys
              order chunks Hall) with (done := @nil (string * Value))
              (name0 := EmptyString) (from := O) (br := br1) (rest := rest)
    as (name' & br' & Hr & Hp').
  - apply List.Forall_forall. intros f Hf.
    assert (Hin : In f (Fields gti)) by (eapply Permutation_in; [symmetry; exact Hperm | exact Hf]).
    split; [exact Hin |]. rewrite List.Forall_forall in Hwf. apply Hwf. exact Hin.
  - cbn [List.map app]. eapply Permutation_NoDup; [| exact Hnames].
    apply Permutation_map. exact Hperm.
  - exact Hp1.
  - rewrite Hr. cbn [bind app]. eexists _, _. split; [reflexivity |]. split; [exact Hp' |].
    intros x.
    transitivity (assoc x (List.map (fun f => (Name f, field_value fs f)) (Fields gti)));
      [| rewrite (record_listed _ _ Hlisted Hnames); reflexivity].
    symmetry. apply assoc_Permutation.
    + apply NoDup_ListNoDup. rewrite List.map_map. cbn [fst]. exact Hnames.
    + apply Permutation_map. exact Hperm.
Qed.

End AnyOrder.

Lemma good_record_regular (env : TypeEnv) (depth : nat) (t : GoType) (v : Value) :
  good_record env depth t v = true -> regular t = true.
Proof.
  destruct depth as [| depth]; [discriminate |]. cbn [good_record].
  destruct (env (qualified_name t)) as [[repr gti] |]; [| discriminate].
  destruct v; try discriminate. intros Hg.
  repeat (apply andb_prop in Hg as [Hg ?]). exact Hg.
Qed.

(** X1: what the generated [MarshalCBOR] of a record type writes for a
    well-formed value, the generated [UnmarshalCBOR] of that type reads
    back: it returns the same value, whatever the destination held, and
    consumes the bytes written and no more.  This holds for both
    representations and through records nested in fields, slices and
    maps. *)
Theorem generated_methods_round_trip `{External} (env : TypeEnv) (depth : nat) (t : GoType)
    (v : Value) (bs : list Z) (cur : Value) (br : peeker) (rest : list Z) :
  good_record env depth t v = true ->
  MarshalCBOR env depth t (Some v) = OK bs ->
  pending br = bs ++ rest ->
  exists br', UnmarshalCBOR env depth t cur br = OK (v, br') /\ pending br' = rest.
Proof.
  intros Hg Hm Hp.
  destruct (proj2 (linked_roundtrip env depth) t v bs (good_record_regular _ _ _ _ Hg) Hg Hm)
    as [_ Hrb].
  exact (Hrb cur br rest Hp).
Qed.

Lemma generated_methods_round_trip_witness :
  exists br',
    UnmarshalCBOR (H := no_External) testing_env 3 (reflect.StructOf testing "SimpleTypeTwo")
      (VStruct [("Dog", VString "old")]) (GetPeeker (ordinary (two_bytes ++ [255])))
    = OK (two_listed, br') /\ pending br' = [255].
Proof.
  apply (@generated_methods_round_trip no_External testing_env 3
           (reflect.StructOf testing "SimpleTypeTwo") two_listed two_bytes).
  - vm_compute. reflexivity.
  - vm_compute. reflexivity.
  - reflexivity.
Defined.

(** X2: a record in named-map form is read back from its key-value pairs in
    any order: the encoder writes the map header and one pair per field;
    whatever the order in which these pairs follow the header, the decoder
    returns a record with the same value in every field. *)
Theorem named_map_pairs_in_any_order `{External} (env : TypeEnv) (depth : nat)
    (gti : GenTypeInfo) (fs : list (string * Value)) (out : list Z) :
  sound_schema NamedMap gti = true ->
  same_names (List.map fst fs) (List.map Name (Fields gti)) = true ->
  forallb (fun f => well_formed (good_record env depth) (static_type f) (field_value fs f))
    (Fields gti) = true ->
  Marshal env depth NamedMap gti (VStruct fs) = OK out ->
  exists chunks,
    out = MapHeader gti ++ concat chunks /\
    Forall2 (pair_written (MarshalCBOR env depth) gti fs) (Fields gti) chunks /\
    forall chunks' cur rest,
      Permutation chunks chunks' ->
      exists fs' br',
        Unmarshal env depth NamedMap gti cur (MapHeader gti ++ concat chunks' ++ rest)
        = OK (VStruct fs', br') /\
        pending br' = rest /\
        forall x, assoc x fs' = assoc x fs.
Proof.
  intros Hsound Hnames Hfields Hout.
  apply same_names_eq in Hnames. apply forallb_Forall in Hfields.
  unfold Marshal in Hout. inv_bind_as Hout m Em.
  pose proof Em as Em'. unfold emitCborMarshalStructMap in Em'. inv_bind_as Em' encs Hencs.
  apply OK_inj in Em'. subst m. cbn beta iota in Hout.
  inv_bind_as Hout body Hbody. apply OK_inj in Hout. subst out.
  destruct (map_pairs_written _ gti fs (Fields gti) encs body Hencs Hbody)
    as (chunks & -> & Hall).
  exists chunks. split; [reflexivity |]. split; [exact Hall |].
  intros chunks' cur rest Hperm.
  destruct (Forall2_Permutation_r _ _ _ _ Hall Hperm) as (order & Hpo & Hall').
  destruct (map_decoder_emitted (MarshalCBOR env depth) (UnmarshalCBOR env depth) gti _ Em)
    as [u Hu].
  unfold Unmarshal. cbn [emitCborUnmarshalStruct]. rewrite Hu. cbn [bind].
  exact (map_record_any_order _ _ _ (linked_roundtrip env depth) gti fs Hnames Hfields
           u order chunks' (ordinary _) cur rest Hsound Hu Hpo Hall' eq_refl).
Qed.

Lemma named_map_pairs_in_any_order_witness :
  exists fs' br',
    Unmarshal (H := no_External) testing_env 1 NamedMap RenamedFields (VStruct [])
      ([162] ++ [100; 98; 101; 101; 112; 97; 120] ++ [99; 102; 111; 111; 32] ++ [])
    = OK (VStruct fs', br') /\
    pending br' = [] /\
    forall x, assoc x fs' = assoc x [("Foo", VInt (-1)); ("Bar", VString "x")].
Proof.
  destruct (@named_map_pairs_in_any_order no_External testing_env 1 RenamedFields
              [("Foo", VInt (-1)); ("Bar", VString "x")]
              [162; 99; 102; 111; 111; 32; 100; 98; 101; 101; 112; 97; 120])
    as (chunks & Hout & Hall & Hany).
  - reflexivity.
  - reflexivity.
  - reflexivity.
  - reflexivity.
  - apply Forall2_cons_inv_l in Hall as (c1 & cs & (_ & v1 & b1 & Hv1 & Hb1 & ->) & Hall & ->).
    apply Forall2_cons_inv_l in Hall as (c2 & cs' & (_ & v2 & b2 & Hv2 & Hb2 & ->) & Hall & ->).
    apply Forall2_nil_inv_l in Hall. subst cs'.
    apply OK_inj in Hv1, Hv2. subst v1 v2. apply OK_inj in Hb1, Hb2. subst b1 b2.
    destruct (Hany [[100; 98; 101; 101; 112; 97; 120]; [99; 102; 111; 111; 32]]
                (VStruct []) []) as (fs' & br' & Hr & Hp & Hfs).
    + apply perm_swap.
    + exists fs', br'. split; [exact Hr |]. split; [exact Hp | exact Hfs].
Defined.

(** X6: a string field: the encoder writes a string of at most 8192 bytes as a
    text item and refuses a longer one; the decoder reads the text item
    back and leaves what follows it. *)
Theorem string_field_round_trip (f : Field) (s : string) (cur : Value)
    (br : peeker) (rest : list Z) :
  Pointer f = false ->
  len_string s <= MaxLength ->
  pending br = text_item s ++ rest ->
  exists enc dec,
    emitCborMarshalStringField f = OK enc /\
    emitCborUnmarshalStringField f = OK dec /\
    (forall s',
       enc (VString s') =
         if len_string s' >? MaxLength
         then Err ("Value in field " ++ Name f ++ " was too long")
         else OK (text_item s')) /\
    exists br', dec cur br = OK (VString s, br') /\ pending br' = rest.
Proof.
  intros Hptr Hlen Hp.
  unfold emitCborMarshalStringField, emitCborUnmarshalStringField. rewrite Hptr.
  eexists _, _. split; [reflexivity |]. split; [reflexivity |]. split.
  - intros s'. destruct (len_string s' >? MaxLength) eqn:E; [reflexivity |].
    rewrite Z.gtb_ltb in E. apply Z.ltb_ge in E.
    unfold WriteMajorTypeHeaderBuf. cbn [bind].
    rewrite uint64_small by (unfold len_string, MaxLength in *; lia). reflexivity.
  - destruct (ReadStringBuf_text_item br s rest Hlen Hp) as (br' & Hr & Hp').
    rewrite Hr. cbn [bind]. eauto.
Qed.

Lemma string_field_round_trip_witness :
  exists enc dec,
    emitCborMarshalStringField Foo = OK enc /\
    emitCborUnmarshalStringField Foo = OK dec /\
    (forall s',
       enc (VString s') =
         if len_string s' >? MaxLength
         then Err ("Value in field " ++ Name Foo ++ " was too long")
         else OK (text_item s')) /\
    exists br',
      dec (VString EmptyString) (GetPeeker (ordinary [99; 99; 97; 116; 7]))
      = OK (VString "cat", br') /\ pending br' = [7].
Proof.
  apply (string_field_round_trip Foo "cat" (VString EmptyString)
           (GetPeeker (ordinary [99; 99; 97; 116; 7])) [7]).
  - reflexivity.
  - unfold len_string, MaxLength. simpl. lia.
  - reflexivity.
Defined.

(** X7: a uint8 field: a value below 256 is written as an unsigned integer and
    read back; whatever the input, the decoder never leaves a value outside
    the range of a byte in the field. *)
Theorem uint8_field_round_trip (f : Field) (n : Z) (cur : Value)
    (br : peeker) (rest : list Z) :
  Pointer f = false ->
  0 <= n < 2 ^ 8 ->
  pending br = CborEncodeMajorType MajUnsignedInt n ++ rest ->
  exists enc dec,
    emitCborMarshalUint8Field f = OK enc /\
    emitCborUnmarshalUint8Field f = OK dec /\
    enc (VUint n) = OK (CborEncodeMajorType MajUnsignedInt n) /\
    (exists br', dec cur br = OK (VUint n, br') /\ pending br' = rest) /\
    (forall cur0 br0 v br1,
       dec cur0 br0 = OK (v, br1) -> exists k, v = VUint k /\ 0 <= k < 2 ^ 8).
Proof.
  intros Hptr Hn Hp.
  destruct (emitCborMarshalUint8Field f) as [enc |] eqn:Henc;
    [| unfold emitCborMarshalUint8Field in Henc; rewrite Hptr in Henc; discriminate Henc].
  destruct (emitCborUnmarshalUint8Field f) as [dec |] eqn:Hdec;
    [| discriminate Hdec].
  assert (Hvb : enc (VUint n) = OK (CborEncodeMajorType MajUnsignedInt n)).
  { unfold emitCborMarshalUint8Field in Henc. rewrite Hptr in Henc.
    apply OK_inj in Henc. subst enc. unfold WriteMajorTypeHeaderBuf.
    rewrite uint64_small by lia. reflexivity. }
  exists enc, dec. split; [reflexivity |]. split; [reflexivity |]. split; [exact Hvb |].
  split.
  - destruct (uint8_reads_back f enc dec n _ cur Henc Hdec Hn Hvb) as [_ Hrb].
    exact (Hrb br rest Hp).
  - unfold emitCborUnmarshalUint8Field in Hdec. apply OK_inj in Hdec. subst dec.
    intros cur0 br0 v br1 Hr. cbn beta in Hr.
    destruct (CborReadHeaderBuf br0) as [[[maj extra] br2] |]; [| discriminate Hr].
    cbn [bind] in Hr. destruct (negb (maj =? MajUnsignedInt)); [discriminate Hr |].
    destruct (extra >? 255); [discriminate Hr |].
    apply OK_inj in Hr. injection Hr as <- <-.
    eexists. split; [reflexivity |]. apply Z.mod_pos_bound. lia.
Qed.

Lemma uint8_field_round_trip_witness :
  exists enc dec,
    emitCborMarshalUint8Field B8 = OK enc /\
    emitCborUnmarshalUint8Field B8 = OK dec /\
    enc (VUint 200) = OK [24; 200] /\
    (exists br', dec (VUint 0) (GetPeeker (ordinary [24; 200; 1])) = OK (VUint 200, br') /\
                 pending br' = [1]) /\
    (forall cur0 br0 v br1,
       dec cur0 br0 = OK (v, br1) -> exists k, v = VUint k /\ 0 <= k < 2 ^ 8).
Proof.
  apply (uint8_field_round_trip B8 200 (VUint 0)
           (GetPeeker (ordinary [24; 200; 1])) [1]).
  - reflexivity.
  - lia.
  - reflexivity.
Defined.

(** X8: a bool field: false and true are written as the bytes 0xF4 and 0xF5
    and read back; whatever the input, the decoder leaves nothing but a
    boolean in the field. *)
Theorem bool_field_round_trip (f : Field) (b : bool) (cur : Value)
    (br : peeker) (rest : list Z) :
  pending br = (if b then 245 else 244) :: rest ->
  exists enc dec,
    emitCborMarshalBoolField f = OK enc /\
    emitCborUnmarshalBoolField f = OK dec /\
    enc (VBool b) = OK [if b then 245 else 244] /\
    (exists br', dec cur br = OK (VBool b, br') /\ pending br' = rest) /\
    (forall cur0 br0 v br1, dec cur0 br0 = OK (v, br1) -> exists b', v = VBool b').
Proof.
  intros Hp.
  destruct (emitCborMarshalBoolField f) as [enc |] eqn:Henc; [| discriminate Henc].
  destruct (emitCborUnmarshalBoolField f) as [dec |] eqn:Hdec; [| discriminate Hdec].
  assert (Hvb : enc (VBool b) = OK [if b then 245 else 244]).
  { unfold emitCborMarshalBoolField in Henc. apply OK_inj in Henc. subst enc.
    destruct b; reflexivity. }
  exists enc, dec. split; [reflexivity |]. split; [reflexivity |]. split; [exact Hvb |].
  split.
  - destruct (bool_reads_back f enc dec b _ cur Henc Hdec Hvb) as [_ Hrb].
    exact (Hrb br rest Hp).
  - unfold emitCborUnmarshalBoolField in Hdec. apply OK_inj in Hdec. subst dec.
    intros cur0 br0 v br1 Hr. cbn beta in Hr.
    destruct (CborReadHeaderBuf br0) as [[[maj extra] br2] |]; [| discriminate Hr].
    cbn [bind] in Hr. destruct (negb (maj =? MajOther)); [discriminate Hr |].
    destruct (extra =? 20); [apply OK_inj in Hr; injection Hr as <- <-; eauto |].
    destruct (extra =? 21); [apply OK_inj in Hr; injection Hr as <- <-; eauto |].
    discriminate Hr.
Qed.

Lemma bool_field_round_trip_witness :
  exists enc dec,
    emitCborMarshalBoolField Thing = OK enc /\
    emitCborUnmarshalBoolField Thing = OK dec /\
    enc (VBool true) = OK [245] /\
    (exists br', dec (VBool false) (GetPeeker (ordinary [245; 0])) = OK (VBool true, br') /\
                 pending br' = [0]) /\
    (forall cur0 br0 v br1, dec cur0 br0 = OK (v, br1) -> exists b', v = VBool b').
Proof.
  apply (bool_field_round_trip Thing true (VBool false)
           (GetPeeker (ordinary [245; 0])) [0]).
  reflexivity.
Defined.

(** X9: a field of bytes, [[]byte] or [[n]byte]: the encoder writes at most
    2097152 bytes as a byte string and refuses more; the decoder reads a
    byte string back into a slice, and into an array when the length is
    the length of the array, and refuses it for an array of another
    length. *)
Theorem byte_field_round_trip `{External}
    (M : GoType -> option Value -> result (list Z))
    (U : GoType -> Value -> peeker -> result (Value * peeker))
    (f : Field) (bs : list Z) (br : peeker) (rest : list Z) :
  Pointer f = false ->
  (Typ f = reflect.SliceOf reflect.TUint8 \/ exists n, Typ f = reflect.ArrayOf n reflect.TUint8) ->
  Z.of_nat (length bs) <= ByteArrayMaxLen ->
  pending br = bytes_item bs ++ rest ->
  exists enc dec,
    emitCborMarshalSliceField M f = OK enc /\
    emitCborUnmarshalSliceField U f = OK dec /\
    (forall bs',
       enc (VBytes bs') =
         if Z.of_nat (length bs') >? ByteArrayMaxLen
         then Err ("Byte array in field " ++ Name f ++ " was too long")
         else OK (bytes_item bs')) /\
    match Typ f with
    | reflect.ArrayOf n _ =>
        if Nat.eqb (length bs) n
        then exists br', dec (zero_value (Typ f)) br = OK (VBytes bs, br') /\ pending br' = rest
        else dec (zero_value (Typ f)) br = Err "expected array to have Len elements"
    | _ => exists br', dec (zero_value (Typ f)) br = OK (VBytes bs, br') /\ pending br' = rest
    end.
Proof.
  intros Hptr Hty Hlen Hp.
  assert (Henc_all : forall name bs',
    (if Z.of_nat (length bs') >? ByteArrayMaxLen
     then Err ("Byte array in field " ++ name ++ " was too long")
     else
       do h <- WriteMajorTypeHeaderBuf MajByteString (uint64 (Z.of_nat (length bs')));
       OK (h ++ bs'))
    = if Z.of_nat (length bs') >? ByteArrayMaxLen
      then Err ("Byte array in field " ++ name ++ " was too long")
      else OK (bytes_item bs')).
  { intros name bs'. destruct (Z.of_nat (length bs') >? ByteArrayMaxLen) eqn:E; [reflexivity |].
    rewrite Z.gtb_ltb in E. apply Z.ltb_ge in E. change ByteArrayMaxLen with 2097152 in E.
    unfold WriteMajorTypeHeaderBuf, bytes_item. cbn [bind].
    rewrite uint64_small by lia. reflexivity. }
  assert (Hvb : forall name,
    (if Z.of_nat (length bs) >? ByteArrayMaxLen
     then Err ("Byte array in field " ++ name ++ " was too long")
     else
       do h <- WriteMajorTypeHeaderBuf MajByteString (uint64 (Z.of_nat (length bs)));
       OK (h ++ bs)) = OK (bytes_item bs)).
  { intros name. rewrite Henc_all.
    assert ((Z.of_nat (length bs) >? ByteArrayMaxLen) = false) as ->
      by (rewrite Z.gtb_ltb; apply Z.ltb_ge; lia). reflexivity. }
  unfold emitCborMarshalSliceField, emitCborUnmarshalSliceField. rewrite Hptr.
  destruct Hty as [-> | [n ->]]; cbn [marshalSlice unmarshalSlice];
    (eexists _, _; split; [reflexivity |]; split; [reflexivity |];
     split; [intros bs'; apply Henc_all |]).
  - apply (bytes_reads_back (Name f) (Name f) false 0 (VBytes []) (VBytes []) bs _
             (Hvb (Name f))); [discriminate | reflexivity | exact Hp].
  - destruct (Nat.eqb_spec (length bs) n) as [<- | Hne].
    + apply (bytes_reads_back (Name f) (Name f) true (Z.of_nat (length bs))
               (VBytes (replicate (length bs) 0))
               (zero_value (reflect.ArrayOf (length bs) reflect.TUint8)) bs _ (Hvb (Name f)));
        [intros _; split; reflexivity | discriminate | exact Hp].
    + unfold bytes_item in Hp. rewrite <- app_assoc in Hp.
      change ByteArrayMaxLen with 2097152 in Hlen.
      destruct (read_header_pending br MajByteString (Z.of_nat (length bs)) _
                  ltac:(unfold MajByteString; lia) ltac:(lia) Hp) as (br1 & Hr1 & Hp1).
      rewrite Hr1. cbn [bind].
      assert ((Z.of_nat (length bs) >? ByteArrayMaxLen) = false) as ->
        by (rewrite Z.gtb_ltb; apply Z.ltb_ge; change ByteArrayMaxLen with 2097152; lia).
      change (negb (MajByteString =? MajByteString)) with false. cbn iota.
      assert ((Z.of_nat (length bs) =? Z.of_nat n) = false) as ->
        by (apply Z.eqb_neq; lia).
      reflexivity.
Qed.

Lemma byte_field_round_trip_witness :
  (exists enc dec,
     emitCborMarshalSliceField (H := no_External) no_methods_M Binary = OK enc /\
     emitCborUnmarshalSliceField (H := no_External) no_methods_U Binary = OK dec /\
     enc (VBytes [1; 2]) = OK [66; 1; 2] /\
     exists br', dec (VBytes []) (GetPeeker (ordinary [66; 1; 2; 9])) = OK (VBytes [1; 2], br') /\
                 pending br' = [9]) /\
  (exists dec,
     emitCborUnmarshalSliceField (H := no_External) no_methods_U Bytes3 = OK dec /\
     dec (VBytes [0; 0; 0]) (GetPeeker (ordinary [66; 1; 2; 9]))
     = Err "expected array to have Len elements").
Proof.
  split.
  - destruct (@byte_field_round_trip no_External no_methods_M no_methods_U Binary [1; 2]
                (GetPeeker (ordinary [66; 1; 2; 9])) [9])
      as (enc & dec & He & Hd & Henc & Hdec).
    + reflexivity.
    + left. reflexivity.
    + change ByteArrayMaxLen with 2097152. simpl. lia.
    + reflexivity.
    + exists enc, dec. split; [exact He |]. split; [exact Hd |].
      split; [exact (Henc [1; 2]) | exact Hdec].
  - destruct (@byte_field_round_trip no_External no_methods_M no_methods_U Bytes3 [1; 2]
                (GetPeeker (ordinary [66; 1; 2; 9])) [9])
      as (enc & dec & He & Hd & Henc & Hdec).
    + reflexivity.
    + right. exists 3%nat. reflexivity.
    + change ByteArrayMaxLen with 2097152. simpl. lia.
    + reflexivity.
    + exists dec. split; [exact Hd | exact Hdec].
Defined.

(** X10: a slice or array field of well-formed elements (unsigned and signed
    integers, byte strings, slices, records and pointers to records): what
    the encoder writes, the decoder reads back into the empty field,
    element by element. *)
Theorem slice_field_round_trip `{External} (env : TypeEnv) (depth : nat) (f : Field)
    (v : Value) (enc : Encoder) (dec : Decoder) (vb : list Z) (br : peeker) (rest : list Z) :
  well_formed (good_record env depth) (Typ f) v = true ->
  emitCborMarshalSliceField (MarshalCBOR env depth) f = OK enc ->
  emitCborUnmarshalSliceField (UnmarshalCBOR env depth) f = OK dec ->
  enc v = OK vb ->
  pending br = vb ++ rest ->
  exists br', dec (zero_value (Typ f)) br = OK (v, br') /\ pending br' = rest.
Proof.
  intros Hwf Henc Hdec Hvb Hp.
  unfold emitCborMarshalSliceField in Henc. unfold emitCborUnmarshalSliceField in Hdec.
  destruct (Pointer f); [destruct (Typ f); discriminate Henc |].
  exact (slice_reads_back _ _ _ (linked_roundtrip env depth) (Typ f) _ _ _ enc dec v vb
           Hwf Henc Hdec Hvb br rest Hp).
Qed.

Lemma slice_field_round_trip_witness :
  let enc := generated no_Encoder
               (emitCborMarshalSliceField (H := no_External) (MarshalCBOR (H := no_External) testing_env 1) TestField) in
  let dec := generated no_Decoder
               (emitCborUnmarshalSliceField (H := no_External) (UnmarshalCBOR (H := no_External) testing_env 1) TestField) in
  enc (VSlice [VBytes [1; 2]; VBytes []]) = OK [130; 66; 1; 2; 64] /\
  exists br',
    dec (VSlice []) (GetPeeker (ordinary [130; 66; 1; 2; 64; 7]))
    = OK (VSlice [VBytes [1; 2]; VBytes []], br') /\ pending br' = [7].
Proof.
  intros enc dec. split; [reflexivity |].
  apply (@slice_field_round_trip no_External testing_env 1 TestField
           (VSlice [VBytes [1; 2]; VBytes []]) enc dec [130; 66; 1; 2; 64]
           (GetPeeker (ordinary [130; 66; 1; 2; 64; 7])) [7]); reflexivity.
Defined.

(** X11: a map field with records, or pointers to records, as values: what the
    encoder writes for a map with at most 4096 entries, the decoder reads
    back, entry by entry, in ascending order of the keys. *)
Theorem map_field_round_trip `{External} (env : TypeEnv) (depth : nat) (f : Field)
    (v : Value) (enc : Encoder) (dec : Decoder) (vb : list Z) (cur : Value)
    (br : peeker) (rest : list Z) :
  well_formed (good_record env depth) (Typ f) v = true ->
  emitCborMarshalMapField (MarshalCBOR env depth) f = OK enc ->
  emitCborUnmarshalMapField (UnmarshalCBOR env depth) f = OK dec ->
  enc v = OK vb ->
  pending br = vb ++ rest ->
  exists br', dec cur br = OK (v, br') /\ pending br' = rest.
Proof.
  intros Hwf Henc Hdec Hvb Hp.
  exact (map_reads_back _ _ _ (linked_roundtrip env depth) f f enc dec v vb cur
           eq_refl eq_refl Hwf Henc Hdec Hvb br rest Hp).
Qed.

Lemma map_field_round_trip_witness :
  let enc := generated no_Encoder
               (emitCborMarshalMapField (H := no_External) (MarshalCBOR (H := no_External) testing_env 1) OldMap) in
  let dec := generated no_Decoder
               (emitCborUnmarshalMapField (H := no_External) (UnmarshalCBOR (H := no_External) testing_env 1) OldMap) in
  enc (VMap [("a", one_zero); ("b", one_zero)])
  = OK [162; 97; 97; 133; 96; 0; 64; 0; 96; 97; 98; 133; 96; 0; 64; 0; 96] /\
  exists br',
    dec (VMap [("z", one_zero)])
      (GetPeeker (ordinary [162; 97; 97; 133; 96; 0; 64; 0; 96; 97; 98; 133; 96; 0; 64; 0; 96]))
    = OK (VMap [("a", one_zero); ("b", one_zero)], br') /\ pending br' = [].
Proof.
  intros enc dec. split; [reflexivity |].
  apply (@map_field_round_trip no_External testing_env 1 OldMap
           (VMap [("a", one_zero); ("b", one_zero)]) enc dec
           [162; 97; 97; 133; 96; 0; 64; 0; 96; 97; 98; 133; 96; 0; 64; 0; 96]
           (VMap [("z", one_zero)])
           (GetPeeker (ordinary [162; 97; 97; 133; 96; 0; 64; 0; 96; 97; 98; 133; 96; 0; 64; 0; 96]))
           []); reflexivity.
Defined.

Lemma big_Bytes_long (n : Z) :
  2 ^ 2048 <= n -> 256 < Z.of_nat (length (big_Bytes n)).
Proof.
  intros Hn. unfold big_Bytes. rewrite Z.abs_eq by lia.
  destruct (n =? 0) eqn:E; [apply Z.eqb_eq in E; lia |].
  rewrite be_bytes_length.
  assert (Hlog : 2048 <= Z.log2 n) by (apply Z.log2_le_pow2; lia).
  assert (256 <= Z.log2 n / 8) by (apply Z.div_le_lower_bound; lia).
  rewrite Z2Nat.id by lia. lia.
Qed.

(** X12: a big-integer field: the encoder writes the absolute value, so a
    negative number is written as its opposite and a nil pointer as zero;
    the decoder reads a number of at most 256 bytes back and refuses a
    longer one, which the encoder writes all the same. *)
Theorem bigint_field_round_trip `{External}
    (M : GoType -> option Value -> result (list Z))
    (U : GoType -> Value -> peeker -> result (Value * peeker))
    (f : Field) (n : Z) (cur : Value) (br : peeker) (rest : list Z) :
  same_struct (Typ f) bigIntType = true ->
  0 <= n ->
  Z.of_nat (length (big_Bytes n)) < 2 ^ 64 ->
  pending br = bignum_item n ++ rest ->
  exists enc dec,
    emitCborMarshalStructField M f = OK enc /\
    emitCborUnmarshalStructField U f = OK dec /\
    enc (VPtr (Some (VBigInt n))) = OK (bignum_item n) /\
    enc (VPtr (Some (VBigInt (- n)))) = OK (bignum_item n) /\
    enc (VPtr None) = OK (bignum_item 0) /\
    if n <? 2 ^ 2048
    then exists br', dec cur br = OK (VPtr (Some (VBigInt n)), br') /\ pending br' = rest
    else dec cur br = Err (Name f ++ ": cbor bignum was too large").
Proof.
  intros Hty Hn Hlen Hp.
  destruct (emitCborMarshalStructField M f) as [enc |] eqn:Henc;
    [| unfold emitCborMarshalStructField in Henc; rewrite Hty in Henc; discriminate Henc].
  destruct (emitCborUnmarshalStructField U f) as [dec |] eqn:Hdec;
    [| unfold emitCborUnmarshalStructField in Hdec; rewrite Hty in Hdec; discriminate Hdec].
  assert (Hvb : forall k, Z.of_nat (length (big_Bytes k)) < 2 ^ 64 ->
            enc (VPtr (Some (VBigInt k))) = OK (bignum_item k)).
  { intros k Hk. unfold emitCborMarshalStructField in Henc. rewrite Hty in Henc.
    apply OK_inj in Henc. subst enc. unfold CborWriteHeader. cbn [bind].
    unfold bignum_item, bytes_item. rewrite uint64_small by lia. reflexivity. }
  exists enc, dec. split; [reflexivity |]. split; [reflexivity |].
  split; [apply Hvb; exact Hlen |].
  split; [| split].
  - assert (Hopp : big_Bytes (- n) = big_Bytes n)
      by (unfold big_Bytes; rewrite Z.abs_opp; reflexivity).
    unfold emitCborMarshalStructField in Henc. rewrite Hty in Henc.
    apply OK_inj in Henc. subst enc. unfold CborWriteHeader. cbn [bind].
    rewrite Hopp. unfold bignum_item, bytes_item. rewrite uint64_small by lia. reflexivity.
  - unfold emitCborMarshalStructField in Henc. rewrite Hty in Henc.
    apply OK_inj in Henc. subst enc. reflexivity.
  - destruct (n <? 2 ^ 2048) eqn:E.
    + apply Z.ltb_lt in E.
      exact (bigint_reads_back M U f f enc dec n _ cur Hty Hty Henc Hdec (conj Hn E)
               (Hvb n Hlen) br rest Hp).
    + apply Z.ltb_ge in E. pose proof (big_Bytes_long n E) as Hlong.
      unfold emitCborUnmarshalStructField in Hdec. rewrite Hty in Hdec.
      apply OK_inj in Hdec. subst dec.
      unfold bignum_item, bytes_item in Hp. rewrite <- !app_assoc in Hp.
      destruct (read_header_pending br MajTag 2 _ ltac:(unfold MajTag; lia) ltac:(lia) Hp)
        as (br1 & Hr1 & Hp1).
      rewrite Hr1. cbn [bind]. change (negb (MajTag =? MajTag) || negb (2 =? 2)) with false.
      cbn iota.
      destruct (read_header_pending br1 MajByteString (Z.of_nat (length (big_Bytes n)))
                  (big_Bytes n ++ rest) ltac:(unfold MajByteString; lia)
                  ltac:(lia) Hp1) as (br2 & Hr2 & Hp2).
      rewrite Hr2. cbn [bind]. change (negb (MajByteString =? MajByteString)) with false.
      cbn iota.
      assert ((Z.of_nat (length (big_Bytes n)) >? 256) = true) as ->
        by (rewrite Z.gtb_ltb; apply Z.ltb_lt; lia).
      reflexivity.
Qed.

Lemma bigint_field_round_trip_witness :
  exists enc dec,
    emitCborMarshalStructField (H := no_External) no_methods_M BigIntField = OK enc /\
    emitCborUnmarshalStructField (H := no_External) no_methods_U BigIntField = OK dec /\
    enc (VPtr (Some (VBigInt 258))) = OK [194; 66; 1; 2] /\
    enc (VPtr (Some (VBigInt (- 258)))) = OK [194; 66; 1; 2] /\
    enc (VPtr None) = OK [194; 64] /\
    exists br',
      dec (VPtr None) (GetPeeker (ordinary [194; 66; 1; 2]))
      = OK (VPtr (Some (VBigInt 258)), br') /\ pending br' = [].
Proof.
  apply (@bigint_field_round_trip no_External no_methods_M no_methods_U BigIntField 258
           (VPtr None) (GetPeeker (ordinary [194; 66; 1; 2])) []).
  - reflexivity.
  - lia.
  - simpl. lia.
  - reflexivity.
Defined.

Lemma read_header_null (br : peeker) (rest : list Z) :
  pending br = 246 :: rest ->
  exists br', CborReadHeaderBuf br = OK (MajOther, 22, br').
Proof.
  intros Hp.
  destruct (read_header_pending br MajOther 22 rest ltac:(unfold MajOther; lia) ltac:(lia) Hp)
    as (br' & Hr & _).
  eauto.
Qed.

(** The generated decoder of a record refuses the null byte. *)
Lemma unmarshal_null_fails `{External} (env : TypeEnv) (depth : nat) (t : GoType)
    (cur : Value) (br : peeker) (rest : list Z) :
  regular t = true ->
  pending br = 246 :: rest ->
  exists msg, UnmarshalCBOR env depth t cur br = Err msg.
Proof.
  intros Hreg Hp. destruct (regular_inv _ Hreg) as (_ & _ & Hd & _).
  destruct depth as [| depth]; [eexists; reflexivity |].
  cbn [UnmarshalCBOR]. rewrite Hd.
  destruct (env (qualified_name t)) as [[repr gti] |]; [| eexists; reflexivity].
  destruct (read_header_null br rest Hp) as [br' Hr].
  destruct repr; cbn [emitCborUnmarshalStruct].
  - unfold emitCborUnmarshalStructTuple.
    destruct (emit_fields _ (Fields gti)); cbn [bind]; [| eexists; reflexivity].
    cbn [GetPeeker]. rewrite Hr. cbn [bind]. eexists. reflexivity.
  - unfold emitCborUnmarshalStructMap, emitCborUnmarshalStringField. cbn [Pointer bind].
    destruct (emit_fields _ (Fields gti)); cbn [bind]; [| eexists; reflexivity].
    cbn [GetPeeker]. rewrite Hr. cbn [bind]. eexists. reflexivity.
Qed.

(** X13: a slice of pointers to records whose first element is nil: the encoder
    writes the nil element as the null byte, and the decoder, which reads a
    record for every element, refuses what the encoder wrote. *)
Theorem nil_element_is_not_read_back `{External} (env : TypeEnv) (depth : nat) (f : Field)
    (s : GoType) (post : list Value) (enc : Encoder) (dec : Decoder) (vb : list Z)
    (cur : Value) (br : peeker) (rest : list Z) :
  Typ f = reflect.SliceOf (reflect.PtrTo s) ->
  regular s = true ->
  emitCborMarshalSliceField (MarshalCBOR env depth) f = OK enc ->
  emitCborUnmarshalSliceField (UnmarshalCBOR env depth) f = OK dec ->
  enc (VSlice (VPtr None :: post)) = OK vb ->
  pending br = vb ++ rest ->
  (exists tail,
     vb = CborEncodeMajorType MajArray (Z.of_nat (S (length post))) ++ 246 :: tail) /\
  exists msg, dec cur br = Err msg.
Proof.
  intros Hty Hreg Henc Hdec Hvb Hp.
  destruct (regular_inv _ Hreg) as (_ & Hc & _ & Hq & p & nm & ->).
  unfold emitCborMarshalSliceField in Henc. unfold emitCborUnmarshalSliceField in Hdec.
  rewrite Hty in Henc, Hdec.
  destruct (Pointer f); [discriminate Henc |].
  cbn [marshalSlice] in Henc. cbn [unmarshalSlice] in Hdec.
  rewrite Hc in Henc. rewrite Hq in Hdec.
  cbn [bind] in Henc, Hdec. apply OK_inj in Henc, Hdec. subst enc dec.
  cbn beta iota in Hvb.
  apply slice_encoder_inv in Hvb as (Hlen & chunks & -> & Hchunks).
  apply Forall2_cons_inv_l in Hchunks as (c & cs & Hc1 & _ & ->).
  cbn [call_MarshalCBOR] in Hc1.
  rewrite (proj1 (linked_roundtrip env depth) _ _ Hreg Hc1) in *.
  cbn [concat CborNull app length] in *.
  split; [eexists; reflexivity |].
  rewrite <- app_assoc in Hp.
  destruct (read_header_pending br MajArray (Z.of_nat (S (length post))) _
              ltac:(unfold MajArray; lia) ltac:(unfold MaxLength in Hlen; lia) Hp)
    as (br1 & Hr1 & Hp1).
  rewrite Hr1. cbn [bind].
  assert ((Z.of_nat (S (length post)) >? MaxLength) = false) as ->
    by (rewrite Z.gtb_ltb; apply Z.ltb_ge; lia).
  change (negb (MajArray =? MajArray)) with false. cbn iota.
  assert ((Z.of_nat (S (length post)) >? 0) = true) as ->
    by (rewrite Z.gtb_ltb; apply Z.ltb_lt; lia).
  rewrite Nat2Z.id. cbn [replicate for_range lookup list_lookup from_option id].
  destruct (unmarshal_null_fails env depth (reflect.StructOf p nm)
              (zero_value (reflect.StructOf p nm)) br1 _ Hreg Hp1) as [msg Hmsg].
  rewrite Hmsg. cbn [bind]. eexists. reflexivity.
Qed.

Lemma nil_element_is_not_read_back_witness :
  let enc := generated no_Encoder
               (emitCborMarshalSliceField (H := no_External)
                  (MarshalCBOR (H := no_External) testing_env 1) Ones) in
  let dec := generated no_Decoder
               (emitCborUnmarshalSliceField (H := no_External)
                  (UnmarshalCBOR (H := no_External) testing_env 1) Ones) in
  enc (VSlice [VPtr None]) = OK [129; 246] /\
  exists msg, dec (VSlice []) (GetPeeker (ordinary [129; 246])) = Err msg.
Proof.
  intros enc dec. split; [reflexivity |].
  refine (proj2 (@nil_element_is_not_read_back no_External testing_env 1 Ones
                   (reflect.StructOf testing "SimpleTypeOne") [] enc dec [129; 246]
                   (VSlice []) (GetPeeker (ordinary [129; 246])) [] _ _ _ _ _ _));
    reflexivity.
Defined.

Lemma nameIsExported_lower (name : string) :
  nameIsExported name = negb (lower_initial name).
Proof.
  destruct name as [| c name]; [reflexivity |].
  cbn [nameIsExported lower_initial].
  destruct c as [[] [] [] [] [] [] [] []]; reflexivity.
Qed.

(** X4: [ParseTypeInfo] does not go by what Go exports.  Of the fields whose
    name begins with an ASCII character, for which [name[0:1]] is that
    character, it drops exactly those that begin with a lower-case letter a
    to z, and keeps the others in the order of their declaration.  So a
    field whose name begins with an underscore, which Go does not export, is
    kept, and the frame of the record counts it. *)
Theorem parse_type_info_drops_lower_case_names (pkg name : string)
    (fields : list StructField) :
  List.Forall (fun sf => ascii_initial (SFName sf) = true) fields ->
  let kept := List.filter (fun sf => negb (lower_initial (SFName sf))) fields in
  let gti := ParseTypeInfo pkg name fields in
  Fields gti = List.map (parseField pkg) kept /\
  List.map Name (Fields gti) = List.map SFName kept /\
  (forall sf tl, In sf fields -> SFName sf = String.String "_" tl ->
     In (SFName sf) (List.map Name (Fields gti))) /\
  TupleHeader gti = CborEncodeMajorType MajArray (uint64 (Z.of_nat (length kept))) /\
  MapHeader gti = CborEncodeMajorType MajMap (uint64 (Z.of_nat (length kept))).
Proof.
  intros _ kept gti.
  assert (Hf : Fields gti = List.map (parseField pkg) kept).
  { subst gti kept. unfold ParseTypeInfo. cbn [Fields]. f_equal.
    apply List.filter_ext. intros sf. apply nameIsExported_lower. }
  assert (Hn : List.map Name (Fields gti) = List.map SFName kept).
  { rewrite Hf, List.map_map. apply List.map_ext. intros sf. unfold parseField.
    destruct (SFType sf); reflexivity. }
  split; [exact Hf |]. split; [exact Hn |]. split; [| split].
  - intros sf tl Hin Hname. rewrite Hn. apply List.in_map. subst kept.
    apply List.filter_In. split; [exact Hin |]. rewrite Hname. reflexivity.
  - unfold TupleHeader. rewrite Hf, length_map. reflexivity.
  - unfold MapHeader. rewrite Hf, length_map. reflexivity.
Qed.

Lemma parse_type_info_drops_lower_case_names_witness :
  List.map Name (Fields (ParseTypeInfo testing "Padded" Padded)) = ["_pad"; "A"] /\
  TupleHeader (ParseTypeInfo testing "Padded" Padded) = [130] /\
  Marshal (H := no_External) testing_env 0 Tuple (ParseTypeInfo testing "Padded" Padded)
    (VStruct [("_pad", VUint 7); ("A", VUint 1)]) = OK [130; 7; 1].
Proof.
  destruct (parse_type_info_drops_lower_case_names testing "Padded" Padded)
    as (_ & Hn & _ & Ht & _).
  - repeat constructor.
  - split; [exact Hn |]. split; [exact Ht | reflexivity].
Defined.

Lemma emit_fields_fails {A : Type} (emit : Field -> result A) (fields : list Field) (f : Field) :
  In f fields -> is_ok (emit f) = false -> is_ok (emit_fields emit fields) = false.
Proof.
  intros Hin Hf. induction fields as [| g fields IH]; [destruct Hin |].
  cbn [emit_fields]. destruct Hin as [-> | Hin].
  - destruct (emit f); [discriminate Hf | reflexivity].
  - destruct (emit g); [| reflexivity]. cbn [bind].
    specialize (IH Hin). destruct (emit_fields emit fields); [discriminate IH | reflexivity].
Qed.

(** X5: [ParseTypeInfo] looks through one pointer only: for a struct type with
    an exported field that is a pointer to a pointer, or of a kind the
    generator has no case for, no code is generated in either
    representation. *)
Theorem unsupported_field_is_refused `{External}
    (M : GoType -> option Value -> result (list Z))
    (U : GoType -> Value -> peeker -> result (Value * peeker))
    (pkg name : string) (fields : list StructField) (sf : StructField) (t : GoType) :
  In sf fields ->
  nameIsExported (SFName sf) = true ->
  SFType sf = reflect.PtrTo (reflect.PtrTo t) \/ SFType sf = reflect.TFloat64 ->
  is_ok (GenTupleEncodersForType M U (ParseTypeInfo pkg name fields)) = false /\
  is_ok (GenMapEncodersForType M U (ParseTypeInfo pkg name fields)) = false.
Proof.
  intros Hin Hexp Hty.
  assert (Hf : is_ok (marshalField M (ParseTypeInfo pkg name fields) (parseField pkg sf)) = false).
  { unfold marshalField, with_name, parseField. cbn zeta.
    destruct Hty as [-> | ->]; reflexivity. }
  assert (Hfields : In (parseField pkg sf) (Fields (ParseTypeInfo pkg name fields))).
  { unfold ParseTypeInfo. cbn [Fields]. apply List.in_map. apply List.filter_In. auto. }
  assert (Hemit : is_ok (emit_fields (marshalField M (ParseTypeInfo pkg name fields))
                           (Fields (ParseTypeInfo pkg name fields))) = false)
    by (eapply emit_fields_fails; eassumption).
  split.
  - unfold GenTupleEncodersForType, emitCborMarshalStructTuple.
    destruct (emit_fields _ _); [discriminate Hemit | reflexivity].
  - unfold GenMapEncodersForType, emitCborMarshalStructMap.
    rewrite <- emit_fields_map_keys in Hemit.
    destruct (emit_fields _ _); [discriminate Hemit | reflexivity].
Qed.

Lemma unsupported_field_is_refused_witness :
  is_ok (GenTupleEncodersForType (H := no_External) no_methods_M no_methods_U
           (ParseTypeInfo testing "PointerToPointer" PointerToPointer)) = false /\
  is_ok (GenMapEncodersForType (H := no_External) no_methods_M no_methods_U
           (ParseTypeInfo testing "PointerToPointer" PointerToPointer)) = false.
Proof.
  apply (@unsupported_field_is_refused no_External no_methods_M no_methods_U testing
           "PointerToPointer" PointerToPointer
           (mkStructField "P" (reflect.PtrTo (reflect.PtrTo reflect.TUint64)) EmptyString)
           reflect.TUint64).
  - left. reflexivity.
  - reflexivity.
  - left. reflexivity.
Defined.

Lemma unmarshalSlice_header `{External}
    (U : GoType -> Value -> peeker -> result (Value * peeker))
    (name pkg : string) (ty : GoType) (dec : Decoder) (cur : Value) (br br' : peeker)
    (maj extra : Z) :
  unmarshalSlice U name pkg ty = OK dec ->
  CborReadHeaderBuf br = OK (maj, extra, br') ->
  (extra >? slice_ceiling ty) || negb (maj =? slice_major ty) = true ->
  dec cur br =
    Err (if extra >? slice_ceiling ty
         then name ++ (if of_bytes ty then ": byte array too large" else ": array too large")
         else if of_bytes ty then "expected byte array" else "expected cbor array").
Proof.
  intros Hdec Hr Hbad.
  assert (Hgen : forall (rest : Z -> Z -> peeker -> Value -> result (Value * peeker)) big wrong,
    dec = (fun cur br =>
             do '(maj, extra, br) <- CborReadHeaderBuf br;
             if extra >? slice_ceiling ty then Err big
             else if negb (maj =? slice_major ty) then Err wrong
             else rest maj extra br cur) ->
    dec cur br = Err (if extra >? slice_ceiling ty then big else wrong)).
  { intros rest big wrong ->. rewrite Hr. cbn [bind].
    destruct (extra >? slice_ceiling ty); [reflexivity |].
    cbn [orb] in Hbad. rewrite Hbad. reflexivity. }
  destruct ty as [| | | | | | n e0 | e0 | k e | e | p nm]; try discriminate Hdec;
    cbn [unmarshalSlice] in Hdec;
    (destruct e0 as [| | | | | | n1 a1 | a1 | k1 a1 | a1 | p1 nm1];
     [| | | | | | | | | destruct a1 as [| | | | | | n2 a2 | a2 | k2 a2 | a2 | p2 nm2] |]);
    try (inv_bind_as Hdec edec Hedec); try discriminate Hedec;
    apply OK_inj in Hdec; symmetry in Hdec;
    unfold slice_ceiling, slice_major, of_bytes in *; cbn [slice_elem] in *; cbn iota in *;
    eapply (Hgen (fun maj extra br cur => _)); exact Hdec.
Qed.

(** X14: the decoder of a slice or array field looks at the header before it
    makes room for the elements: a length above the ceiling, 2097152 for
    bytes and 8192 for other elements, is refused whatever the major type,
    and so is a major type other than the one of the field. *)
Theorem slice_decoder_checks_the_header `{External}
    (U : GoType -> Value -> peeker -> result (Value * peeker))
    (f : Field) (dec : Decoder) (cur : Value) (br br' : peeker) (maj extra : Z) :
  emitCborUnmarshalSliceField U f = OK dec ->
  CborReadHeaderBuf br = OK (maj, extra, br') ->
  (extra >? slice_ceiling (Typ f)) || negb (maj =? slice_major (Typ f)) = true ->
  dec cur br =
    Err (if extra >? slice_ceiling (Typ f)
         then Name f ++ (if of_bytes (Typ f) then ": byte array too large"
                         else ": array too large")
         else if of_bytes (Typ f) then "expected byte array" else "expected cbor array").
Proof.
  intros Hdec Hr Hbad.
  exact (unmarshalSlice_header U (Name f) (Pkg f) (Typ f) dec cur br br' maj extra
           Hdec Hr Hbad).
Qed.

Lemma slice_decoder_checks_the_header_witness :
  generated no_Decoder (emitCborUnmarshalSliceField (H := no_External) no_methods_U Binary)
    (VBytes []) (GetPeeker (ordinary [154; 0; 32; 0; 1]))
  = Err "t.Binary: byte array too large" /\
  generated no_Decoder (emitCborUnmarshalSliceField (H := no_External) no_methods_U Uint64s)
    (VSlice []) (GetPeeker (ordinary [66; 1; 2]))
  = Err "expected cbor array".
Proof.
  split.
  - apply (@slice_decoder_checks_the_header no_External no_methods_U Binary _ (VBytes [])
             (GetPeeker (ordinary [154; 0; 32; 0; 1])) (at_rest [] (Some 1))
             MajArray 2097153); reflexivity.
  - apply (@slice_decoder_checks_the_header no_External no_methods_U Uint64s _ (VSlice [])
             (GetPeeker (ordinary [66; 1; 2])) (at_rest [1; 2] (Some 66))
             MajByteString 2); reflexivity.
Defined.

(** X15: no decoder of a field takes a value of another major type than its
    own: a field that is not a record and not optional refuses every header
    whose major type is not one it accepts. *)
Theorem decoders_refuse_other_major_types `{External}
    (U : GoType -> Value -> peeker -> result (Value * peeker))
    (gti : GenTypeInfo) (f : Field) (dec : Decoder) (cur : Value) (br br' : peeker)
    (maj extra : Z) :
  unmarshalField U gti f = OK dec ->
  Pointer f = false ->
  reflect.kind (Typ f) <> reflect.Struct ->
  CborReadHeaderBuf br = OK (maj, extra, br') ->
  ~ In maj (accepted_majors f) ->
  exists msg, dec cur br = Err msg.
Proof.
  intros Hdec Hptr Hkind Hr Hmaj.
  unfold unmarshalField, with_name in Hdec. cbn zeta in Hdec.
  cbn [Typ Name Pointer Pkg] in Hdec. unfold accepted_majors in Hmaj.
  assert (Hne : forall m, ~ In maj [m] -> (maj =? m) = false).
  { intros m Hm. apply Z.eqb_neq. intros ->. apply Hm. left. reflexivity. }
  destruct (Typ f) as [| | | | | | n e0 | e0 | k e | e | p nm] eqn:Ety;
    cbn [reflect.kind] in Hdec, Hmaj; try discriminate Hdec.
  - unfold emitCborUnmarshalStringField in Hdec. cbn [Pointer] in Hdec. rewrite Hptr in Hdec.
    apply OK_inj in Hdec. subst dec. unfold ReadStringBuf. rewrite Hr. cbn [bind].
    rewrite (Hne _ Hmaj). cbn [negb bind]. eexists. reflexivity.
  - unfold emitCborUnmarshalUint64Field in Hdec. cbn [Pointer] in Hdec. rewrite Hptr in Hdec.
    apply OK_inj in Hdec. subst dec. rewrite Hr. cbn [bind].
    rewrite (Hne _ Hmaj). eexists. reflexivity.
  - unfold emitCborUnmarshalInt64Field in Hdec. apply OK_inj in Hdec. subst dec.
    rewrite Hr. cbn [bind].
    assert ((maj =? MajUnsignedInt) = false) as ->
      by (apply Z.eqb_neq; intros ->; apply Hmaj; left; reflexivity).
    assert ((maj =? MajNegativeInt) = false) as ->
      by (apply Z.eqb_neq; intros ->; apply Hmaj; right; left; reflexivity).
    eexists. reflexivity.
  - unfold emitCborUnmarshalUint8Field in Hdec. apply OK_inj in Hdec. subst dec.
    rewrite Hr. cbn [bind]. rewrite (Hne _ Hmaj). eexists. reflexivity.
  - unfold emitCborUnmarshalBoolField in Hdec. apply OK_inj in Hdec. subst dec.
    rewrite Hr. cbn [bind]. rewrite (Hne _ Hmaj). eexists. reflexivity.
  - unfold emitCborUnmarshalSliceField in Hdec. cbn [Typ Name Pkg] in Hdec.
    eexists. eapply (unmarshalSlice_header U _ _ _ dec cur br br' maj extra Hdec Hr).
    rewrite (Hne _ Hmaj). apply orb_true_r.
  - unfold emitCborUnmarshalSliceField in Hdec. cbn [Typ Name Pkg] in Hdec.
    eexists. eapply (unmarshalSlice_header U _ _ _ dec cur br br' maj extra Hdec Hr).
    rewrite (Hne _ Hmaj). apply orb_true_r.
  - unfold emitCborUnmarshalMapField in Hdec. cbn [Typ Name Pkg] in Hdec.
    inv_bind_as Hdec kdec Hkdec. inv_bind_as Hdec vdec Hvdec.
    apply OK_inj in Hdec. subst dec. rewrite Hr. cbn [bind].
    rewrite (Hne _ Hmaj). eexists. reflexivity.
  - exfalso. apply Hkind. reflexivity.
Qed.

Lemma decoders_refuse_other_major_types_witness :
  exists msg,
    generated no_Decoder (unmarshalField (H := no_External) no_methods_U SimpleTypeOne
                            (with_name Binary "Binary"))
      (VBytes []) (GetPeeker (ordinary [99; 99; 97; 116])) = Err msg.
Proof.
  apply (@decoders_refuse_other_major_types no_External no_methods_U SimpleTypeOne
           (with_name Binary "Binary") _ (VBytes [])
           (GetPeeker (ordinary [99; 99; 97; 116])) (at_rest [99; 97; 116] (Some 99))
           MajTextString 3).
  - reflexivity.
  - reflexivity.
  - discriminate.
  - reflexivity.
  - intros [E | []]. discriminate E.
Defined.

(** X16: the decoder of a record in named-map form takes a key that comes
    twice: the pair that comes last decides.  Shown for a uint64 field [f]
    of any record, whose key [MapKey f] is followed first by [a], then by
    [b]. *)
Theorem named_map_duplicate_key_last_wins `{External}
    (U : GoType -> Value -> peeker -> result (Value * peeker))
    (gti : GenTypeInfo) (u : Unmarshaler) (f : Field) (a b : Z) (cur : Value)
    (rest : list Z) :
  emitCborUnmarshalStructMap U gti = OK u ->
  In f (Fields gti) ->
  List.NoDup (List.map MapKey (Fields gti)) ->
  Typ f = reflect.TUint64 -> Pointer f = false ->
  len_string (MapKey f) <= MaxLength ->
  0 <= a < 2 ^ 64 -> 0 <= b < 2 ^ 64 ->
  exists br',
    u (ordinary (CborEncodeMajorType MajMap 2
                 ++ text_item (MapKey f) ++ CborEncodeMajorType MajUnsignedInt a
                 ++ text_item (MapKey f) ++ CborEncodeMajorType MajUnsignedInt b
                 ++ rest)) cur
    = OK (VStruct [(Name f, VUint b)], br') /\
    pending br' = rest.
Proof.
  intros Hu Hin Hkeys Hty Hptr Hlen Ha Hb.
  unfold emitCborUnmarshalStructMap in Hu.
  inv_bind_as Hu kdec Hkdec. inv_bind_as Hu decs Hdecs. apply OK_inj in Hu. subst u.
  unfold emitCborUnmarshalStringField in Hkdec. cbn [Pointer] in Hkdec.
  apply OK_inj in Hkdec. subst kdec.
  destruct (find_case_found (unmarshalField U gti) (Fields gti) decs f Hdecs Hkeys Hin)
    as (dec & Hfind & Hdec).
  unfold unmarshalField, with_name in Hdec. cbn zeta in Hdec.
  cbn [Typ Name Pointer Pkg] in Hdec. rewrite Hty in Hdec. cbn [reflect.kind] in Hdec.
  unfold emitCborUnmarshalUint64Field in Hdec. cbn [Pointer] in Hdec. rewrite Hptr in Hdec.
  apply OK_inj in Hdec. subst dec.
  cbn beta zeta.
  destruct (read_header_pending
              (GetPeeker (ordinary (CborEncodeMajorType MajMap 2
                 ++ text_item (MapKey f) ++ CborEncodeMajorType MajUnsignedInt a
                 ++ text_item (MapKey f) ++ CborEncodeMajorType MajUnsignedInt b
                 ++ rest))) MajMap 2 _ ltac:(unfold MajMap; lia) ltac:(lia) eq_refl)
    as (br1 & Hr1 & Hp1).
  rewrite Hr1. cbn [bind]. change (negb (MajMap =? MajMap)) with false. cbn iota.
  change (2 >? MaxLength) with false. cbn iota.
  change (Z.to_nat 2) with 2%nat. cbn [for_range].
  unfold map_iteration at 1.
  destruct (ReadStringBuf_text_item br1 (MapKey f) _ Hlen Hp1) as (br2 & Hr2 & Hp2).
  rewrite Hr2. cbn [bind]. rewrite Hfind. unfold decode_into at 1.
  destruct (read_header_pending br2 MajUnsignedInt a _ ltac:(unfold MajUnsignedInt; lia) Ha Hp2)
    as (br3 & Hr3 & Hp3).
  rewrite Hr3. cbn [bind]. change (negb (MajUnsignedInt =? MajUnsignedInt)) with false.
  cbn iota. cbn [bind assoc_set].
  unfold map_iteration at 1.
  destruct (ReadStringBuf_text_item br3 (MapKey f) _ Hlen Hp3) as (br4 & Hr4 & Hp4).
  rewrite Hr4. cbn [bind]. rewrite Hfind. unfold decode_into at 1.
  destruct (read_header_pending br4 MajUnsignedInt b _ ltac:(unfold MajUnsignedInt; lia) Hb Hp4)
    as (br5 & Hr5 & Hp5).
  rewrite Hr5. cbn [bind]. change (negb (MajUnsignedInt =? MajUnsignedInt)) with false.
  cbn iota. cbn [bind assoc_set]. rewrite String.eqb_refl. eauto.
Qed.

Lemma named_map_duplicate_key_last_wins_witness :
  exists br',
    generated (fun _ _ => Err "no code was generated")
      (emitCborUnmarshalStructMap (H := no_External) no_methods_U S0)
      (ordinary [162; 97; 65; 1; 97; 65; 2]) (VStruct [])
    = OK (VStruct [("A", VUint 2)], br') /\
    pending br' = [].
Proof.
  apply (@named_map_duplicate_key_last_wins no_External no_methods_U S0 _
           S0_A 1 2 (VStruct []) []).
  - reflexivity.
  - left. reflexivity.
  - repeat constructor. intros [].
  - reflexivity.
  - reflexivity.
  - unfold len_string, MaxLength. simpl. lia.
  - lia.
  - lia.
Defined.

(** ** Complete items and the link scanner *)

Lemma items_app (a b : nat) (x y : list Z) :
  cbor_items a x -> cbor_items b y -> cbor_items (a + b) (x ++ y).
Proof.
  intros Hx Hy. induction Hx as [| t v n bs Ht Hv Hx IH | t p n bs Ht Hp Hx IH
                                | v n bs Hv Hx IH | k n bs Hk Hx IH | k n bs Hk Hx IH].
  - exact Hy.
  - rewrite <- app_assoc. cbn [Nat.add]. apply items_plain; assumption.
  - rewrite <- !app_assoc. cbn [Nat.add]. apply items_string; assumption.
  - rewrite <- app_assoc. cbn [Nat.add] in *. apply items_tag; assumption.
  - rewrite <- app_assoc. cbn [Nat.add]. apply items_array; [exact Hk |].
    rewrite Nat.add_assoc. exact IH.
  - rewrite <- app_assoc. cbn [Nat.add]. apply items_map; [exact Hk |].
    rewrite Nat.add_assoc. exact IH.
Qed.

Lemma items_concat (k : nat) (chunks : list (list Z)) :
  List.Forall (cbor_items k) chunks -> cbor_items (length chunks * k) (concat chunks).
Proof.
  induction 1 as [| c chunks Hc Hall IH]; [constructor |].
  cbn [length concat Nat.mul]. apply items_app; assumption.
Qed.

Lemma header_length (t v : Z) : (1 <= length (CborEncodeMajorType t v))%nat.
Proof.
  unfold CborEncodeMajorType.
  repeat match goal with |- context [if ?c then _ else _] => destruct c end;
    cbn [length]; lia.
Qed.

(** Readers that hand out the bytes to come, in order. *)
Section Readers.

Context {R : Type} `{Reader R}.
Variable pend : R -> list Z.
Hypothesis Hread : forall (r : R) (bs rest : list Z),
  pend r = bs ++ rest ->
  exists r', ReadFull (length bs) r = Some (bs, r') /\ pend r' = rest.

Lemma read_full_lawful (r : R) (bs rest : list Z) :
  pend r = bs ++ rest ->
  exists r', read_full (length bs) r = OK (bs, r') /\ pend r' = rest.
Proof.
  intros Hp. destruct (Hread r bs rest Hp) as (r' & Hr & Hp').
  exists r'. unfold read_full. rewrite Hr. eauto.
Qed.

Lemma read_be_lawful (n : nat) (v : Z) (r : R) (rest : list Z) :
  pend r = be_bytes n v ++ rest ->
  exists r', read_full n r = OK (be_bytes n v, r') /\ pend r' = rest.
Proof.
  intros Hp. destruct (read_full_lawful r _ rest Hp) as (r' & Hr & Hp').
  rewrite be_bytes_length in Hr. eauto.
Qed.

Lemma read_header_lawful (r : R) (t v : Z) (rest : list Z) :
  0 <= t < 8 -> 0 <= v < 2 ^ 64 ->
  pend r = CborEncodeMajorType t v ++ rest ->
  exists r', CborReadHeaderBuf r = OK (t, v, r') /\ pend r' = rest.
Proof.
  intros Ht Hv Hp. unfold CborEncodeMajorType in Hp. unfold CborReadHeaderBuf.
  destruct (v <? 24) eqn:E1.
  - destruct (read_full_lawful r [_] rest Hp) as (r1 & Hr1 & Hp1).
    cbn [length] in Hr1. rewrite Hr1. cbn [bind].
    apply Z.ltb_lt in E1.
    rewrite be_value_single, first_byte_major, first_byte_low by lia.
    apply Z.ltb_lt in E1. rewrite E1. eauto.
  - destruct (v <? 2 ^ 8) eqn:E2; [| destruct (v <? 2 ^ 16) eqn:E3; [| destruct (v <? 2 ^ 32) eqn:E4]];
      cbn [app] in Hp;
      match type of Hp with
      | pend r = ?b :: ?l =>
          destruct (read_full_lawful r [b] l Hp) as (r1 & Hr1 & Hp1)
      end;
      cbn [length] in Hr1; rewrite Hr1; cbn [bind];
      rewrite be_value_single, first_byte_major, first_byte_low by lia;
      cbn [Z.ltb Z.eqb Z.compare Pos.compare Pos.compare_cont Pos.eqb];
      destruct (read_be_lawful _ _ _ _ Hp1) as (r2 & Hr2 & Hp2);
      rewrite Hr2; cbn [bind];
      rewrite ?Z.ltb_lt, ?Z.ltb_ge in *;
      (rewrite be_value_bytes by (simpl; lia)).
    + destruct (v <? 24) eqn:E; [apply Z.ltb_lt in E; lia | eauto].
    + destruct (v <? 2 ^ 8) eqn:E; [apply Z.ltb_lt in E; lia | eauto].
    + destruct (v <? 2 ^ 16) eqn:E; [apply Z.ltb_lt in E; lia | eauto].
    + destruct (v <? 2 ^ 32) eqn:E; [apply Z.ltb_lt in E; lia | eauto].
Qed.

(** The scanner skips complete items, and stops after them. *)
Lemma scan_items_skips (n : nat) (bs : list Z) :
  cbor_items n bs ->
  forall (fuel : nat) (r : R) (rest : list Z),
    (length bs <= fuel)%nat ->
    pend r = bs ++ rest ->
    exists r', scan_items fuel (Z.of_nat n) r = (None, r') /\ pend r' = rest.
Proof.
  induction 1 as [| t v n bs Ht Hv Hx IH | t p n bs Ht Hpl Hx IH
                  | v n bs Hv Hx IH | k n bs Hk Hx IH | k n bs Hk Hx IH];
    intros fuel r rest Hfuel Hp.
  - exists r. destruct fuel; cbn [scan_items]; eauto.
  - rewrite <- app_assoc in Hp.
    destruct (read_header_lawful r t v _
                ltac:(unfold MajUnsignedInt, MajNegativeInt, MajOther in Ht; lia) Hv Hp)
      as (r1 & Hr1 & Hp1).
    rewrite length_app in Hfuel. pose proof (header_length t v).
    destruct fuel as [| fuel]; [lia |].
    cbn [scan_items].
    assert ((Z.of_nat (S n) <=? 0) = false) as -> by (apply Z.leb_gt; lia).
    rewrite Hr1.
    assert (((t =? MajByteString) || (t =? MajTextString)) = false) as ->
      by (destruct Ht as [-> | [-> | ->]]; reflexivity).
    assert ((t =? MajTag) = false) as -> by (destruct Ht as [-> | [-> | ->]]; reflexivity).
    assert ((t =? MajArray) = false) as -> by (destruct Ht as [-> | [-> | ->]]; reflexivity).
    assert ((t =? MajMap) = false) as -> by (destruct Ht as [-> | [-> | ->]]; reflexivity).
    replace (Z.of_nat (S n) - 1) with (Z.of_nat n) by lia.
    apply IH; [lia | exact Hp1].
  - rewrite <- !app_assoc in Hp.
    destruct (read_header_lawful r t (Z.of_nat (length p)) _
                ltac:(unfold MajByteString, MajTextString in Ht; lia) ltac:(lia) Hp)
      as (r1 & Hr1 & Hp1).
    rewrite !length_app in Hfuel. pose proof (header_length t (Z.of_nat (length p))).
    destruct fuel as [| fuel]; [lia |].
    cbn [scan_items].
    assert ((Z.of_nat (S n) <=? 0) = false) as -> by (apply Z.leb_gt; lia).
    rewrite Hr1.
    assert (((t =? MajByteString) || (t =? MajTextString)) = true) as ->
      by (destruct Ht as [-> | ->]; reflexivity).
    rewrite Nat2Z.id.
    destruct (read_full_lawful r1 p _ Hp1) as (r2 & Hr2 & Hp2).
    rewrite Hr2.
    replace (Z.of_nat (S n) - 1) with (Z.of_nat n) by lia.
    apply IH; [lia | exact Hp2].
  - rewrite <- app_assoc in Hp.
    destruct (read_header_lawful r MajTag v _ ltac:(unfold MajTag; lia) Hv Hp)
      as (r1 & Hr1 & Hp1).
    rewrite length_app in Hfuel. pose proof (header_length MajTag v).
    destruct fuel as [| fuel]; [lia |].
    cbn [scan_items].
    assert ((Z.of_nat (S n) <=? 0) = false) as -> by (apply Z.leb_gt; lia).
    rewrite Hr1.
    change ((MajTag =? MajByteString) || (MajTag =? MajTextString)) with false.
    change (MajTag =? MajTag) with true. cbn iota.
    apply IH; [lia | exact Hp1].
  - rewrite <- app_assoc in Hp.
    destruct (read_header_lawful r MajArray (Z.of_nat k) _ ltac:(unfold MajArray; lia)
                ltac:(lia) Hp) as (r1 & Hr1 & Hp1).
    rewrite length_app in Hfuel. pose proof (header_length MajArray (Z.of_nat k)).
    destruct fuel as [| fuel]; [lia |].
    cbn [scan_items].
    assert ((Z.of_nat (S n) <=? 0) = false) as -> by (apply Z.leb_gt; lia).
    rewrite Hr1.
    change ((MajArray =? MajByteString) || (MajArray =? MajTextString)) with false.
    change (MajArray =? MajTag) with false. change (MajArray =? MajArray) with true.
    cbn iota.
    replace (Z.of_nat (S n) - 1 + Z.of_nat k) with (Z.of_nat (k + n)) by lia.
    apply IH; [lia | exact Hp1].
  - rewrite <- app_assoc in Hp.
    destruct (read_header_lawful r MajMap (Z.of_nat k) _ ltac:(unfold MajMap; lia)
                ltac:(lia) Hp) as (r1 & Hr1 & Hp1).
    rewrite length_app in Hfuel. pose proof (header_length MajMap (Z.of_nat k)).
    destruct fuel as [| fuel]; [lia |].
    cbn [scan_items].
    assert ((Z.of_nat (S n) <=? 0) = false) as -> by (apply Z.leb_gt; lia).
    rewrite Hr1.
    change ((MajMap =? MajByteString) || (MajMap =? MajTextString)) with false.
    change (MajMap =? MajTag) with false. change (MajMap =? MajArray) with false.
    change (MajMap =? MajMap) with true. cbn iota.
    replace (Z.of_nat (S n) - 1 + Z.of_nat k * 2) with (Z.of_nat (2 * k + n)) by lia.
    apply IH; [lia | exact Hp1].
Qed.

End Readers.

Lemma bytes_reader_lawful (r : list Z) (bs rest : list Z) :
  r = bs ++ rest ->
  exists r', ReadFull (length bs) r = Some (bs, r') /\ r' = rest.
Proof.
  intros ->. exists rest. cbn [ReadFull bytes_Reader]. unfold read_bytes.
  assert ((length (bs ++ rest) <? length bs)%nat = false) as ->
    by (apply Nat.ltb_ge; rewrite length_app; lia).
  rewrite take_app_length, drop_app_length. eauto.
Qed.

Lemma peeker_reader_lawful (br : peeker) (bs rest : list Z) :
  pending br = bs ++ rest ->
  exists br', ReadFull (length bs) br = Some (bs, br') /\ pending br' = rest.
Proof.
  intros Hp. destruct (read_full_pending br bs rest Hp) as (br' & Hr & Hp').
  exists br'. unfold read_full in Hr. destruct (ReadFull (length bs) br); [| discriminate Hr].
  apply OK_inj in Hr. subst. eauto.
Qed.

(** The skip site of the named-map decoder, on one complete item. *)
Lemma skip_site_skips (r : io_Reader) (br : peeker) (vb rest : list Z) :
  cbor_items 1 vb ->
  unread br = None ->
  pending br = vb ++ rest ->
  exists e br', ScanForLinks_r r br = (e, br') /\ pending br' = rest.
Proof.
  intros Hvb Hun Hp. unfold ScanForLinks_r, ScanForLinks. destruct r as [r0 | br0].
  - assert (Hr : reader br = vb ++ rest).
    { unfold pending in Hp. rewrite Hun in Hp. exact Hp. }
    destruct (scan_items_skips (fun l : list Z => l) bytes_reader_lawful 1 vb Hvb
                (Len (reader br)) (reader br) rest) as (r' & Hs & Hr').
    + cbn [Len bytes_Reader]. rewrite Hr, length_app. lia.
    + exact Hr.
    + change (Z.of_nat 1) with 1 in Hs. rewrite Hs. eexists _, _. split; [reflexivity |].
      unfold pending. cbn [unread reader]. rewrite Hun. exact Hr'.
  - destruct (scan_items_skips pending peeker_reader_lawful 1 vb Hvb
                (Len br) br rest) as (br' & Hs & Hp').
    + cbn [Len peeker_Reader]. rewrite Hp, length_app. lia.
    + exact Hp.
    + change (Z.of_nat 1) with 1 in Hs. rewrite Hs. eauto.
Qed.

(** ** Every encoder writes one complete item *)

Lemma plain_item (t v : Z) :
  t = MajUnsignedInt \/ t = MajNegativeInt \/ t = MajOther ->
  0 <= v < 2 ^ 64 ->
  cbor_items 1 (CborEncodeMajorType t v).
Proof.
  intros Ht Hv. rewrite <- (app_nil_r (CborEncodeMajorType t v)).
  apply items_plain; [exact Ht | exact Hv | constructor].
Qed.

Lemma null_item : cbor_items 1 CborNull.
Proof.
  change CborNull with (CborEncodeMajorType MajOther 22).
  apply plain_item; [auto | lia].
Qed.

Lemma uint64_range (x : Z) : 0 <= uint64 x < 2 ^ 64.
Proof. unfold uint64. apply Z.mod_pos_bound. lia. Qed.

Lemma string_item (t : Z) (payload : list Z) :
  t = MajByteString \/ t = MajTextString ->
  Z.of_nat (length payload) < 2 ^ 64 ->
  cbor_items 1 (CborEncodeMajorType t (Z.of_nat (length payload)) ++ payload).
Proof.
  intros Ht Hl. rewrite <- (app_nil_r payload) at 2.
  apply items_string; [exact Ht | exact Hl | constructor].
Qed.

Lemma text_item_item (s : string) :
  len_string s <= MaxLength -> cbor_items 1 (text_item s).
Proof.
  intros Hl. unfold text_item, len_string in *. rewrite <- bytes_of_string_length.
  apply string_item; [auto |]. rewrite bytes_of_string_length. unfold MaxLength in Hl. lia.
Qed.

Lemma array_item (chunks : list (list Z)) :
  Z.of_nat (length chunks) < 2 ^ 64 ->
  List.Forall (cbor_items 1) chunks ->
  cbor_items 1 (CborEncodeMajorType MajArray (Z.of_nat (length chunks)) ++ concat chunks).
Proof.
  intros Hl Hall. apply items_array; [exact Hl |].
  rewrite Nat.add_0_r. rewrite <- (Nat.mul_1_r (length chunks)).
  apply items_concat. exact Hall.
Qed.

Lemma map_item (chunks : list (list Z)) :
  Z.of_nat (length chunks) < 2 ^ 64 ->
  List.Forall (cbor_items 2) chunks ->
  cbor_items 1 (CborEncodeMajorType MajMap (Z.of_nat (length chunks)) ++ concat chunks).
Proof.
  intros Hl Hall. apply items_map; [exact Hl |].
  rewrite Nat.add_0_r, Nat.mul_comm. apply items_concat. exact Hall.
Qed.

Lemma pair_item (kb vb : list Z) :
  cbor_items 1 kb -> cbor_items 1 vb -> cbor_items 2 (kb ++ vb).
Proof. intros Hk Hv. exact (items_app 1 1 kb vb Hk Hv). Qed.

Lemma string_field_items (f : Field) (enc : Encoder) (v : Value) (vb : list Z) :
  emitCborMarshalStringField f = OK enc ->
  enc v = OK vb ->
  cbor_items 1 vb.
Proof.
  unfold emitCborMarshalStringField. destruct (Pointer f); [discriminate |].
  intros Henc Hvb. apply OK_inj in Henc. subst enc.
  destruct v as [s | | | | | | | | | | |]; try discriminate Hvb.
  destruct (len_string s >? MaxLength) eqn:E; [discriminate Hvb |].
  rewrite Z.gtb_ltb in E. apply Z.ltb_ge in E.
  unfold WriteMajorTypeHeaderBuf in Hvb. cbn [bind] in Hvb. apply OK_inj in Hvb. subst vb.
  rewrite uint64_small by (unfold len_string, MaxLength in *; lia).
  apply text_item_item. exact E.
Qed.

Lemma int64_field_items (f : Field) (enc : Encoder) (v : Value) (vb : list Z) :
  emitCborMarshalInt64Field f = OK enc ->
  enc v = OK vb ->
  cbor_items 1 vb.
Proof.
  unfold emitCborMarshalInt64Field. destruct (Pointer f); [discriminate |].
  intros Henc Hvb. apply OK_inj in Henc. subst enc.
  destruct v as [| | n | | | | | | | | |]; try discriminate Hvb.
  unfold WriteMajorTypeHeaderBuf in Hvb.
  destruct (n >=? 0); apply OK_inj in Hvb; subst vb;
    (apply plain_item; [auto | apply uint64_range]).
Qed.

Lemma uint_header_item (v : Value) (vb : list Z) :
  match v with
  | VUint n => CborWriteHeader MajUnsignedInt (uint64 n)
  | _ => ill_typed
  end = OK vb ->
  cbor_items 1 vb.
Proof.
  destruct v; try discriminate. unfold CborWriteHeader. intros Hvb.
  apply OK_inj in Hvb. subst vb. apply plain_item; [auto | apply uint64_range].
Qed.

Lemma bytes_items (name : string) (v : Value) (vb : list Z) :
  match v with
  | VBytes bs =>
      if Z.of_nat (length bs) >? ByteArrayMaxLen
      then Err ("Byte array in field " ++ name ++ " was too long")
      else
        do h <- WriteMajorTypeHeaderBuf MajByteString (uint64 (Z.of_nat (length bs)));
        OK (h ++ bs)
  | _ => ill_typed
  end = OK vb ->
  cbor_items 1 vb.
Proof.
  destruct v as [| | | | bs | | | | | | |]; try discriminate.
  intros Hvb. destruct (Z.of_nat (length bs) >? ByteArrayMaxLen) eqn:E; [discriminate Hvb |].
  rewrite Z.gtb_ltb in E. apply Z.ltb_ge in E. change ByteArrayMaxLen with 2097152 in E.
  unfold WriteMajorTypeHeaderBuf in Hvb. cbn [bind] in Hvb. apply OK_inj in Hvb. subst vb.
  rewrite uint64_small by lia. apply string_item; [auto | lia].
Qed.

Lemma Forall2_items (P : Value -> bool) (eenc : Encoder) (vs : list Value)
    (chunks : list (list Z)) :
  (forall x c, P x = true -> eenc x = OK c -> cbor_items 1 c) ->
  forallb P vs = true ->
  Forall2 (fun x c => eenc x = OK c) vs chunks ->
  List.Forall (cbor_items 1) chunks.
Proof.
  intros Hone Hall H2. induction H2 as [| x c vs chunks Hx H2 IH]; [constructor |].
  cbn [forallb] in Hall. apply andb_prop in Hall as [Hpx Hall].
  constructor; [eapply Hone; eassumption | apply IH; exact Hall].
Qed.

Lemma slice_frame_items (P : Value -> bool) (name : string) (eenc : Encoder)
    (vs : list Value) (vb : list Z) :
  (forall x c, P x = true -> eenc x = OK c -> cbor_items 1 c) ->
  forallb P vs = true ->
  (if Z.of_nat (length vs) >? MaxLength
   then Err ("Slice value in field " ++ name ++ " was too long")
   else
     do h <- WriteMajorTypeHeaderBuf MajArray (uint64 (Z.of_nat (length vs)));
     do body <- write_all eenc vs;
     OK (h ++ body)) = OK vb ->
  cbor_items 1 vb.
Proof.
  intros Hone Hall Hvb.
  apply slice_encoder_inv in Hvb as (Hlen & chunks & -> & Hchunks).
  rewrite (Forall2_length _ _ _ Hchunks).
  apply array_item.
  - rewrite <- (Forall2_length _ _ _ Hchunks). unfold MaxLength in Hlen. lia.
  - eapply Forall2_items; eassumption.
Qed.

Lemma map_entries_items (kenc venc : Encoder) (l : list (string * Value))
    (chunks : list (list Z)) :
  (forall k kb, kenc (VString k) = OK kb -> cbor_items 1 kb) ->
  (forall kv c, In kv l -> venc (snd kv) = OK c -> cbor_items 1 c) ->
  Forall2 (fun kv c =>
    exists kb vb, kenc (VString (fst kv)) = OK kb /\ venc (snd kv) = OK vb /\ c = kb ++ vb)
    l chunks ->
  List.Forall (cbor_items 2) chunks.
Proof.
  intros Hkey Hval Hall.
  induction Hall as [| kv c l' chunks' (kb & vb & Hkb & Hvb & ->) Hall IH]; constructor.
  - apply pair_item; [eapply Hkey; exact Hkb |].
    apply (Hval kv vb); [left; reflexivity | exact Hvb].
  - apply IH. intros kv' c' Hin. apply Hval. right. exact Hin.
Qed.

Section FieldItems.
Context `{External}.
Variable M : GoType -> option Value -> result (list Z).
Variable good : GoType -> Value -> bool.
Hypothesis HMI : methods_items M good.

Lemma slice_items (ty : GoType) :
  forall (name pkg : string) (enc : Encoder) (v : Value) (vb : list Z),
    well_formed good ty v = true ->
    marshalSlice M name pkg false ty = OK enc ->
    enc v = OK vb ->
    cbor_items 1 vb.
Proof.
  assert (Hslice : forall e0 a,
    (a = reflect.SliceOf e0 \/ exists n, a = reflect.ArrayOf n e0) ->
    (forall (name pkg : string) (enc : Encoder) (v : Value) (vb : list Z),
       well_formed good e0 v = true ->
       marshalSlice M name pkg false e0 = OK enc ->
       enc v = OK vb ->
       cbor_items 1 vb) ->
    forall (name pkg : string) (enc : Encoder) (v : Value) (vb : list Z),
      well_formed good a v = true ->
      marshalSlice M name pkg false a = OK enc ->
      enc v = OK vb ->
      cbor_items 1 vb).
  { intros e0 a Ha IH name pkg enc v vb Hwf Henc Hvb.
    destruct e0 as [| | | | | | n1 a1 | a1 | k1 a1 | a1 | p1 nm1].
    - destruct Ha as [-> | [n ->]]; discriminate Hwf.
    - (* uint64 *)
      destruct Ha as [-> | [n ->]]; cbn [marshalSlice] in Henc;
        inv_bind_as Henc eenc Heenc; apply OK_inj in Henc, Heenc; subst enc;
        cbn [well_formed] in Hwf; (destruct v as [| | | | | vs | | | | | |]; try discriminate Hwf);
        apply andb_prop in Hwf as [Hfit Hall];
        (eapply slice_frame_items; [| exact Hall | exact Hvb]);
        subst eenc; intros x c _ Hc; exact (uint_header_item x c Hc).
    - (* int64 *)
      destruct Ha as [-> | [n ->]]; cbn [marshalSlice] in Henc;
        inv_bind_as Henc eenc Heenc; apply OK_inj in Henc; subst enc;
        cbn [well_formed] in Hwf; (destruct v as [| | | | | vs | | | | | |]; try discriminate Hwf);
        apply andb_prop in Hwf as [Hfit Hall];
        (eapply slice_frame_items; [| exact Hall | exact Hvb]);
        intros x c _ Hc; eapply int64_field_items; eassumption.
    - (* uint8 *)
      destruct Ha as [-> | [n ->]]; cbn [marshalSlice] in Henc;
        apply OK_inj in Henc; subst enc; exact (bytes_items name v vb Hvb).
    - destruct Ha as [-> | [n ->]]; discriminate Hwf.
    - destruct Ha as [-> | [n ->]]; discriminate Hwf.
    - destruct Ha as [-> | [n ->]]; discriminate Hwf.
    - (* a slice of slices *)
      destruct Ha as [-> | [n ->]]; cbn [marshalSlice] in Henc;
        inv_bind_as Henc eenc Heenc; apply OK_inj in Henc; subst enc;
        cbn [well_formed] in Hwf; fold (well_formed good) in Hwf;
        (destruct v as [| | | | | vs | | | | | |]; try discriminate Hwf);
        apply andb_prop in Hwf as [Hfit Hall];
        (eapply slice_frame_items; [| exact Hall | exact Hvb]);
        intros x c Hx Hc; eapply (IH "v" pkg eenc); eassumption.
    - destruct Ha as [-> | [n ->]]; discriminate Hwf.
    - (* pointers to records *)
      destruct a1 as [| | | | | | n2 a2 | a2 | k2 a2 | a2 | p2 nm2];
        try (destruct Ha as [-> | [n ->]]; discriminate Hwf).
      assert (Hreg : regular (reflect.StructOf p2 nm2) = true).
      { destruct Ha as [-> | [n ->]]; cbn [well_formed] in Hwf;
          apply andb_prop in Hwf as [Hreg _]; exact Hreg. }
      destruct (regular_inv _ Hreg) as (_ & Hc & _ & Hq & _).
      destruct Ha as [-> | [n ->]]; cbn [marshalSlice] in Henc;
        rewrite Hc in Henc;
        inv_bind_as Henc eenc Heenc; apply OK_inj in Henc, Heenc; subst enc;
        cbn [well_formed] in Hwf; apply andb_prop in Hwf as [_ Hwf];
        (destruct v as [| | | | | vs | | | | | |]; try discriminate Hwf);
        apply andb_prop in Hwf as [Hfit Hall];
        (eapply slice_frame_items; [| exact Hall | exact Hvb]);
        subst eenc;
        intros [s0 | n0 | n0 | b0 | bs0 | vs0 | m0 | [y |] | fs0 | cd0 | bn0 | raw0] c Hx Hc';
        try discriminate Hx;
        cbn [call_MarshalCBOR] in Hc';
        exact (proj2 HMI _ _ _ Hreg Hx Hc').
    - (* records *)
      assert (Hreg : regular (reflect.StructOf p1 nm1) = true).
      { destruct Ha as [-> | [n ->]]; cbn [well_formed] in Hwf;
          apply andb_prop in Hwf as [Hreg _]; exact Hreg. }
      destruct (regular_inv _ Hreg) as (_ & Hc & _ & Hq & _).
      destruct Ha as [-> | [n ->]]; cbn [marshalSlice] in Henc;
        rewrite Hc in Henc;
        inv_bind_as Henc eenc Heenc; apply OK_inj in Henc, Heenc; subst enc;
        cbn [well_formed] in Hwf; apply andb_prop in Hwf as [_ Hwf];
        (destruct v as [| | | | | vs | | | | | |]; try discriminate Hwf);
        apply andb_prop in Hwf as [Hfit Hall];
        (eapply slice_frame_items; [| exact Hall | exact Hvb]);
        subst eenc;
        intros x c Hx Hc';
        cbn [call_MarshalCBOR] in Hc';
        exact (proj2 HMI _ _ _ Hreg Hx Hc'). }
  induction ty as [| | | | | | n e0 IH | e0 IH | k IHk e IHe | e IH | p nm];
    intros name pkg enc v vb Hwf Henc Hvb;
    try (cbn in Henc; discriminate Henc).
  - eapply (Hslice e0 _ (or_intror (ex_intro _ n eq_refl)) IH); eassumption.
  - eapply (Hslice e0 _ (or_introl eq_refl) IH); eassumption.
Qed.

Lemma map_items (f : Field) (enc : Encoder) (v : Value) (vb : list Z) :
  well_formed good (Typ f) v = true ->
  emitCborMarshalMapField M f = OK enc ->
  enc v = OK vb ->
  cbor_items 1 vb.
Proof.
  intros Hwf Henc Hvb.
  unfold emitCborMarshalMapField in Henc.
  destruct (Typ f) as [| | | | | | n e0 | e0 | k e | e | p nm]; try discriminate Henc.
  destruct k; try discriminate Hwf. cbn [reflect.kind] in Henc.
  inv_bind_as Henc kenc Hkenc. inv_bind_as Henc venc Hvenc.
  apply OK_inj in Henc. subst enc.
  assert (Hentry : forall m,
    v = VMap m ->
    ascending (List.map fst m) = true ->
    (forall kv c, In kv m -> venc (snd kv) = OK c -> cbor_items 1 c) ->
    cbor_items 1 vb).
  { intros m -> Hasc Hval. cbn beta iota in Hvb.
    destruct (Z.of_nat (length m) >? 4096) eqn:E; [discriminate Hvb |].
    pose proof E as E'. rewrite Z.gtb_ltb in E'. apply Z.ltb_ge in E'.
    unfold WriteMajorTypeHeaderBuf in Hvb. cbn [bind] in Hvb.
    inv_bind_as Hvb body Hbody. apply OK_inj in Hvb. subst vb.
    rewrite (ascending_sort _ Hasc) in Hbody.
    destruct (ascending_sorted _ Hasc) as [_ Hnd].
    destruct (map_body_inv kenc venc (zero_value e) m m body (assoc_first m Hnd) Hbody)
      as (chunks & -> & Hchunks).
    rewrite uint64_small by lia.
    rewrite (Forall2_length _ _ _ Hchunks).
    apply map_item; [rewrite <- (Forall2_length _ _ _ Hchunks); lia |].
    apply (map_entries_items kenc venc m chunks); [| exact Hval | exact Hchunks].
    intros k0 kb Hkb. eapply string_field_items; eassumption. }
  destruct e as [| | | | | | n1 a1 | a1 | k1 a1 | a1 | p1 nm1]; try discriminate Hwf.
  - (* pointers to records *)
    destruct a1 as [| | | | | | n2 a2 | a2 | k2 a2 | a2 | p2 nm2]; try discriminate Hwf.
    cbn [well_formed] in Hwf. apply andb_prop in Hwf as [Hreg Hwf].
    destruct v as [| | | | | | m | | | | |]; try discriminate Hwf.
    apply andb_prop in Hwf as [Hasc Hall].
    apply (Hentry m eq_refl Hasc).
    intros [k x] c Hin Hc. cbn [snd] in *.
    rewrite forallb_forall in Hall. specialize (Hall _ Hin). cbn [snd] in Hall.
    destruct x as [| | | | | | | q | | | |]; try discriminate Hall.
    unfold emitCborMarshalStructField in Hvenc. cbn [Typ same_struct] in Hvenc.
    apply OK_inj in Hvenc. subst venc.
    unfold static_type in Hc. cbn [Pointer Typ call_MarshalCBOR] in Hc.
    destruct q as [y |].
    + exact (proj2 HMI _ _ _ Hreg Hall Hc).
    + rewrite (proj1 HMI _ _ Hreg Hc). exact null_item.
  - (* records *)
    cbn [well_formed] in Hwf. apply andb_prop in Hwf as [Hreg Hwf].
    destruct v as [| | | | | | m | | | | |]; try discriminate Hwf.
    apply andb_prop in Hwf as [Hasc Hall].
    apply (Hentry m eq_refl Hasc).
    intros [k x] c Hin Hc. cbn [snd] in *.
    rewrite forallb_forall in Hall. specialize (Hall _ Hin). cbn [snd] in Hall.
    destruct (regular_inv _ Hreg) as (Hb & Hcid & _).
    unfold emitCborMarshalStructField in Hvenc. cbn [Typ] in Hvenc.
    rewrite Hb, Hcid in Hvenc.
    apply OK_inj in Hvenc. subst venc.
    unfold static_type in Hc. cbn [Pointer Typ call_MarshalCBOR] in Hc.
    exact (proj2 HMI _ _ _ Hreg Hall Hc).
Qed.

(** Every field of a record: its fragment of the encoder writes one
    complete item. *)
Lemma field_items (gti : GenTypeInfo) (f : Field) (enc : Encoder) (v : Value) (vb : list Z) :
  well_formed good (static_type f) v = true ->
  marshalField M gti f = OK enc ->
  enc v = OK vb ->
  cbor_items 1 vb.
Proof.
  unfold marshalField, with_name, static_type. cbn zeta.
  cbn [Typ Name Pointer Pkg].
  intros Hwf Henc Hvb.
  destruct (Typ f) as [| | | | | | n e0 | e0 | k e | e | p nm] eqn:Ety;
    cbn [reflect.kind] in Henc; try discriminate Henc.
  - eapply string_field_items; eassumption.
  - (* uint64 *)
    unfold emitCborMarshalUint64Field in Henc. apply OK_inj in Henc. subst enc.
    cbn [Pointer] in Hvb. unfold WriteMajorTypeHeaderBuf in Hvb.
    destruct (Pointer f).
    + destruct v as [| | | | | | | [[| n | | | | | | | | | |] |] | | | |]; try discriminate Hvb;
        apply OK_inj in Hvb; subst vb;
        [apply plain_item; [auto | apply uint64_range] | exact null_item].
    + destruct v as [| n | | | | | | | | | |]; try discriminate Hvb.
      apply OK_inj in Hvb. subst vb. apply plain_item; [auto | apply uint64_range].
  - eapply int64_field_items; eassumption.
  - (* uint8 *)
    unfold emitCborMarshalUint8Field in Henc. cbn [Pointer] in Henc.
    destruct (Pointer f); [discriminate Henc |]. apply OK_inj in Henc. subst enc.
    destruct v as [| n | | | | | | | | | |]; try discriminate Hvb.
    unfold WriteMajorTypeHeaderBuf in Hvb.
    apply OK_inj in Hvb. subst vb. apply plain_item; [auto | apply uint64_range].
  - (* bool *)
    unfold emitCborMarshalBoolField in Henc. apply OK_inj in Henc. subst enc.
    destruct v as [| | | b | | | | | | | |]; try discriminate Hvb.
    unfold WriteBool in Hvb. apply OK_inj in Hvb. subst vb.
    apply plain_item; [auto | destruct b; lia].
  - (* array *)
    unfold emitCborMarshalSliceField in *. cbn [Typ Name Pointer Pkg] in *.
    destruct (Pointer f); [cbn in Henc; discriminate Henc |].
    eapply slice_items; eassumption.
  - (* slice *)
    unfold emitCborMarshalSliceField in *. cbn [Typ Name Pointer Pkg] in *.
    destruct (Pointer f); [cbn in Henc; discriminate Henc |].
    eapply slice_items; eassumption.
  - (* map *)
    destruct (Pointer f); [discriminate Hwf |].
    eapply map_items; [| exact Henc | exact Hvb]. exact Hwf.
  - (* record *)
    unfold emitCborMarshalStructField in Henc. cbn [Typ Pointer Name] in Henc.
    destruct (Pointer f) eqn:Eptr.
    + cbn [well_formed] in Hwf.
      destruct (same_struct (reflect.StructOf p nm) bigIntType) eqn:Ebig.
      * destruct v as [| | | | | | | [[| | | | | | | | | | n |] |] | | | |];
          try discriminate Hwf.
        apply andb_prop in Hwf as [H1 H2].
        apply Z.leb_le in H1. apply Z.ltb_lt in H2.
        apply OK_inj in Henc. subst enc. cbn beta in Hvb.
        unfold CborWriteHeader in Hvb. cbn [bind] in Hvb. apply OK_inj in Hvb. subst vb.
        pose proof (big_Bytes_length n (conj H1 H2)) as Hlen.
        rewrite uint64_small by lia.
        apply items_tag; [lia |]. apply string_item; [auto | lia].
      * apply andb_prop in Hwf as [Hreg Hwf].
        destruct v as [| | | | | | | q | | | |]; try discriminate Hwf.
        destruct (regular_inv _ Hreg) as (_ & Hc & _).
        rewrite Hc in Henc. apply OK_inj in Henc. subst enc.
        unfold static_type in Hvb. cbn [Pointer Typ] in Hvb. try rewrite Eptr in Hvb.
        cbn [call_MarshalCBOR] in Hvb.
        destruct q as [y |].
        -- exact (proj2 HMI _ _ _ Hreg Hwf Hvb).
        -- rewrite (proj1 HMI _ _ Hreg Hvb). exact null_item.
    + cbn [well_formed] in Hwf. apply andb_prop in Hwf as [Hreg Hwf].
      destruct (regular_inv _ Hreg) as (Hb & Hc & _).
      rewrite Hb, Hc in Henc. apply OK_inj in Henc. subst enc.
      unfold static_type in Hvb. cbn [Pointer Typ] in Hvb. try rewrite Eptr in Hvb.
      cbn [call_MarshalCBOR] in Hvb.
      exact (proj2 HMI _ _ _ Hreg Hwf Hvb).
Qed.

End FieldItems.

(** ** A decoder in front of a record with more fields *)

Lemma known_key_spec (gti : GenTypeInfo) (f : Field) :
  known_key gti f = true <-> In (MapKey f) (List.map MapKey (Fields gti)).
Proof.
  unfold known_key. rewrite existsb_exists. split.
  - intros (k & Hin & Hk). apply String.eqb_eq in Hk. subst k. exact Hin.
  - intros Hin. exists (MapKey f). split; [exact Hin | apply String.eqb_refl].
Qed.

(** After a key, nothing is handed back. *)
Lemma ReadStringBuf_at_rest (br : peeker) (s : string) (rest : list Z) :
  len_string s <= MaxLength ->
  pending br = text_item s ++ rest ->
  exists lb, ReadStringBuf br = OK (s, at_rest rest lb).
Proof.
  intros Hlen Hp. unfold text_item in Hp. rewrite <- app_assoc in Hp.
  destruct (read_header_peeker br MajTextString (len_string s) _ ltac:(unfold MajTextString; lia)
              ltac:(unfold len_string, MaxLength in *; lia) Hp) as (lb & Hr).
  unfold ReadStringBuf. rewrite Hr. cbn [bind].
  change (MajTextString =? MajTextString) with true. cbn [negb].
  assert ((len_string s >? MaxLength) = false) as -> by (rewrite Z.gtb_ltb; apply Z.ltb_ge; lia).
  unfold len_string. rewrite Nat2Z.id, <- bytes_of_string_length.
  destruct (bytes_of_string s) as [| b bs] eqn:Ebs.
  - cbn [length]. rewrite peeker_read_full_0. cbn [bind].
    rewrite <- (string_bytes_roundtrip s), Ebs. eauto.
  - rewrite (peeker_read_full _ (b :: bs) rest) by (first [reflexivity | discriminate]).
    cbn [bind]. rewrite <- Ebs, string_bytes_roundtrip. eauto.
Qed.

Section SchemaFree.
Context `{External}.
Variable M : GoType -> option Value -> result (list Z).
Variable U : GoType -> Value -> peeker -> result (Value * peeker).

(** The fragments of a field do not depend on the record it is a field of. *)
Lemma marshalField_any_record (g1 g2 : GenTypeInfo) (f : Field) (enc : Encoder) :
  marshalField M g1 f = OK enc -> marshalField M g2 f = OK enc.
Proof.
  unfold marshalField. cbn zeta.
  destruct (reflect.kind (Typ (with_name f ("t." ++ Name f)))); try exact (fun E => E);
    intros E; discriminate E.
Qed.

Lemma unmarshalField_any_record (g1 g2 : GenTypeInfo) (f : Field) (dec : Decoder) :
  unmarshalField U g1 f = OK dec -> unmarshalField U g2 f = OK dec.
Proof.
  unfold unmarshalField. cbn zeta.
  destruct (reflect.kind (Typ (with_name f ("t." ++ Name f)))); try exact (fun E => E);
    intros E; discriminate E.
Qed.

Lemma emit_fields_each {A : Type} (emit : Field -> result A) (fields : list Field) :
  (forall f, In f fields -> exists a, emit f = OK a) ->
  exists l, emit_fields emit fields = OK l.
Proof.
  induction fields as [| f fields IH]; intros Hall.
  - eexists. reflexivity.
  - destruct (Hall f (or_introl eq_refl)) as [a Ha].
    destruct IH as [l Hl]; [intros g Hg; apply Hall; right; exact Hg |].
    cbn [emit_fields]. rewrite Ha, Hl. cbn [bind]. eauto.
Qed.

End SchemaFree.

Lemma assoc_listed (fs : list (string * Value)) (l : list Field) (g : Field) :
  List.NoDup (List.map Name l) ->
  In g l ->
  assoc (Name g) (List.map (fun f => (Name f, field_value fs f)) l) = Some (field_value fs g).
Proof.
  induction l as [| f l IH]; intros Hnd Hin; [destruct Hin |].
  cbn [List.map] in Hnd |- *. inversion Hnd as [| ? ? Hf Hnd']; subst.
  cbn [assoc]. destruct Hin as [-> | Hin].
  - rewrite String.eqb_refl. reflexivity.
  - destruct (String.eqb_spec (Name g) (Name f)) as [E | _]; [| apply IH; assumption].
    exfalso. apply Hf. rewrite <- E. apply List.in_map. exact Hin.
Qed.

Section RecordItems.
Context `{External}.
Variable M : GoType -> option Value -> result (list Z).
Variable good : GoType -> Value -> bool.
Hypothesis HMI : methods_items M good.

Variable gti : GenTypeInfo.
Variable fs : list (string * Value).

Lemma tuple_fields_items (fields : list Field) :
  forall (encs : list (Field * Encoder)) (body : list Z),
    emit_fields (marshalField M gti) fields = OK encs ->
    List.Forall (fun f => well_formed good (static_type f) (field_value fs f) = true) fields ->
    write_all (fun '(f, enc) => enc (field_value fs f)) encs = OK body ->
    cbor_items (length fields) body.
Proof.
  induction fields as [| f fields IH]; intros encs body Hencs Hwf Hbody.
  - cbn [emit_fields] in Hencs. apply OK_inj in Hencs. subst encs.
    cbn [write_all] in Hbody. apply OK_inj in Hbody. subst body. constructor.
  - cbn [emit_fields] in Hencs.
    inv_bind_as Hencs enc Henc. inv_bind_as Hencs encs' Hencs'.
    apply OK_inj in Hencs. subst encs.
    cbn [write_all] in Hbody. inv_bind_as Hbody vb Hvb. inv_bind_as Hbody body' Hbody'.
    apply OK_inj in Hbody. subst body.
    inversion Hwf as [| ? ? Hf Hwf']; subst.
    apply (items_app 1 (length fields)).
    + exact (field_items M good HMI gti f enc _ vb Hf Henc Hvb).
    + exact (IH encs' body' eq_refl Hwf' Hbody').
Qed.

Lemma pair_written_items (f : Field) (c : list Z) :
  well_formed good (static_type f) (field_value fs f) = true ->
  pair_written M gti fs f c ->
  exists vb, c = text_item (MapKey f) ++ vb /\ len_string (MapKey f) <= MaxLength /\
             cbor_items 1 vb.
Proof.
  intros Hwf (Hlen & venc & vb & Hvenc & Hvb & ->).
  exists vb. split; [reflexivity |]. split; [exact Hlen |].
  exact (field_items M good HMI gti f venc _ vb Hwf Hvenc Hvb).
Qed.

Lemma pairs_written_items (fields : list Field) (chunks : list (list Z)) :
  List.Forall (fun f => well_formed good (static_type f) (field_value fs f) = true) fields ->
  Forall2 (pair_written M gti fs) fields chunks ->
  List.Forall (cbor_items 2) chunks.
Proof.
  intros Hwf Hall. induction Hall as [| f c fields chunks Hc Hall IH]; [constructor |].
  inversion Hwf as [| ? ? Hf Hwf']; subst.
  constructor; [| apply IH; exact Hwf'].
  destruct (pair_written_items f c Hf Hc) as (vb & -> & Hlen & Hvb).
  apply pair_item; [apply text_item_item; exact Hlen | exact Hvb].
Qed.

End RecordItems.

(** The methods of the generated records write one item each. *)
Lemma linked_items `{External} (env : TypeEnv) (fuel : nat) :
  methods_items (MarshalCBOR env fuel) (good_record env fuel).
Proof.
  induction fuel as [| fuel IH]; split.
  - intros t bs _ Hm. discriminate Hm.
  - intros t v bs _ Hg. discriminate Hg.
  - exact (proj1 (linked_roundtrip env (S fuel))).
  - intros t v bs Hreg Hg Hm. destruct (regular_inv _ Hreg) as (_ & _ & Hd & _).
    cbn [good_record] in Hg. cbn [MarshalCBOR] in Hm. rewrite Hd in Hm.
    destruct (env (qualified_name t)) as [[repr gti] |] eqn:Eenv; [| discriminate Hg].
    destruct v as [| | | | | | | | fs | | |]; try discriminate Hg.
    apply andb_prop in Hg as [Hg Hfields]. apply andb_prop in Hg as [Hg Hnames].
    apply andb_prop in Hg as [_ Hsound].
    apply forallb_Forall in Hfields.
    unfold sound_schema in Hsound. apply andb_prop in Hsound as [_ Hsound].
    destruct repr; inv_bind_as Hm m Em.
    + apply Z.ltb_lt in Hsound.
      unfold emitCborMarshalStructTuple in Em. inv_bind_as Em encs Hencs.
      apply OK_inj in Em. subst m. cbn beta iota in Hm.
      inv_bind_as Hm body Hbody. apply OK_inj in Hm. subst bs.
      unfold TupleHeader. rewrite uint64_small by lia.
      apply items_array; [exact Hsound |]. rewrite Nat.add_0_r.
      exact (tuple_fields_items _ _ IH gti fs (Fields gti) encs body Hencs Hfields Hbody).
    + apply andb_prop in Hsound as [_ Hcount]. apply Z.leb_le in Hcount.
      unfold MaxLength in Hcount.
      unfold emitCborMarshalStructMap in Em. inv_bind_as Em encs Hencs.
      apply OK_inj in Em. subst m. cbn beta iota in Hm.
      inv_bind_as Hm body Hbody. apply OK_inj in Hm. subst bs.
      destruct (map_pairs_written _ gti fs (Fields gti) encs body Hencs Hbody)
        as (chunks & -> & Hall).
      unfold MapHeader. rewrite uint64_small by lia.
      rewrite (Forall2_length _ _ _ Hall).
      apply map_item; [rewrite <- (Forall2_length _ _ _ Hall); lia |].
      exact (pairs_written_items _ _ IH gti fs (Fields gti) chunks Hfields Hall).
Qed.

Section OlderDecoder.
Context `{External}.
Variable M : GoType -> option Value -> result (list Z).
Variable U : GoType -> Value -> peeker -> result (Value * peeker).
Variable good : GoType -> Value -> bool.
Hypothesis HMU : methods_roundtrip M U good.
Hypothesis HMI : methods_items M good.

(** [gti] is the schema of the decoder, [gtn] the schema of the encoder. *)
Variable gti gtn : GenTypeInfo.
Variable fs : list (string * Value).

(** The loop of the decoder of [gti] over the pairs that the encoder of
    [gtn] writes: a pair whose key is a case of the decoder fills its field,
    any other pair is skipped. *)
Lemma map_pairs_read_or_skipped (r : io_Reader) (kdec : Decoder)
    (decs : list (Field * Decoder)) :
  emitCborUnmarshalStringField name_field = OK kdec ->
  emit_fields (unmarshalField U gti) (Fields gti) = OK decs ->
  List.NoDup (List.map MapKey (Fields gti)) ->
  forall (order : list Field) (chunks : list (list Z)),
    Forall2 (pair_written M gtn fs) order chunks ->
    List.Forall (fun f =>
      well_formed good (static_type f) (field_value fs f) = true /\
      (known_key gti f = true -> In f (Fields gti))) order ->
    forall (done : list (string * Value)) (name0 : string) (from : nat)
           (br : peeker) (rest : list Z),
      List.NoDup (List.map fst done ++ List.map Name order) ->
      pending br = concat chunks ++ rest ->
      exists name' br',
        for_range from (length order) (fun _ => map_iteration r kdec decs) (name0, done, br)
        = OK (name',
              done ++ List.map (fun f => (Name f, field_value fs f))
                        (List.filter (known_key gti) order), br') /\
        pending br' = rest.
Proof.
  intros Hkdec Hdecs Hkeys order chunks Hall.
  unfold emitCborUnmarshalStringField in Hkdec. cbn [name_field Pointer] in Hkdec.
  apply OK_inj in Hkdec. subst kdec.
  induction Hall as [| f c order chunks Hc Hall IH];
    intros Hwf done name0 from br rest Hnd Hp.
  - exists name0, br. cbn [length for_range List.map List.filter]. rewrite app_nil_r. eauto.
  - inversion Hwf as [| ? ? [Hf Hknown] Hwf']; subst.
    destruct Hc as (Hlen & venc & vb & Hvenc & Hvb & ->).
    pose proof (field_items M good HMI gtn f venc _ vb Hf Hvenc Hvb) as Hvbi.
    cbn [length for_range concat List.map List.filter] in *.
    rewrite <- !app_assoc in Hp.
    destruct (ReadStringBuf_at_rest br (MapKey f) _ Hlen Hp) as (lb & Hr1).
    unfold map_iteration at 1. rewrite Hr1. cbn [bind].
    assert (Hfresh : ~ In (Name f) (List.map fst done)).
    { apply List.NoDup_remove_2 in Hnd. intros Hin'. apply Hnd.
      apply List.in_or_app. left. exact Hin'. }
    destruct (known_key gti f) eqn:Ek.
    + specialize (Hknown eq_refl).
      destruct (find_case_found (unmarshalField U gti) (Fields gti) decs f Hdecs Hkeys Hknown)
        as (dec & Hfind & Hdec).
      rewrite Hfind.
      destruct (field_reads_back M U good HMU gti f venc dec _ vb Hf
                  (marshalField_any_record M gtn gti f venc Hvenc) Hdec Hvb
                  (at_rest (vb ++ concat chunks ++ rest) lb) _ eq_refl)
        as (br2 & Hr2 & Hp2).
      unfold decode_into. rewrite (field_value_fresh done f Hfresh), Hr2. cbn [bind].
      rewrite assoc_set_fresh by exact Hfresh.
      destruct (IH Hwf' (done ++ [(Name f, field_value fs f)]) (MapKey f) (S from) br2 rest)
        as (name' & br' & Hr & Hp').
      * rewrite List.map_app, <- app_assoc. exact Hnd.
      * exact Hp2.
      * rewrite Hr. cbn [List.map]. rewrite <- app_assoc. eauto.
    + rewrite find_case_None.
      2:{ rewrite (emit_fields_keys _ _ _ Hdecs). intros Hin.
          apply known_key_spec in Hin. congruence. }
      destruct (skip_site_skips r (at_rest (vb ++ concat chunks ++ rest) lb) vb
                  (concat chunks ++ rest) Hvbi eq_refl eq_refl) as (e & br2 & Hs & Hp2).
      rewrite Hs. cbn beta iota zeta. cbn [bind].
      destruct (IH Hwf' done (MapKey f) (S from) br2 rest) as (name' & br' & Hr & Hp').
      * apply List.NoDup_remove_1 in Hnd. exact Hnd.
      * exact Hp2.
      * rewrite Hr. eauto.
Qed.

Lemma pair_written_emitted (fields : list Field) (chunks : list (list Z)) (f : Field) :
  Forall2 (pair_written M gtn fs) fields chunks ->
  In f fields ->
  exists venc, marshalField M gtn f = OK venc.
Proof.
  induction 1 as [| g c fields chunks (_ & venc & _ & Hvenc & _) Hall IH]; intros Hin;
    [destruct Hin |].
  destruct Hin as [<- | Hin]; [eauto | exact (IH Hin)].
Qed.

Hypothesis Hlisted : List.map fst fs = List.map Name (Fields gtn).
Hypothesis Hwf :
  List.Forall (fun f => well_formed good (static_type f) (field_value fs f) = true) (Fields gtn).

(** The decoder of [gti] on what the encoder of [gtn] writes, when [gtn]
    has the fields of [gti] and more. *)
Lemma older_decoder_reads (m : option Value -> result (list Z))
    (out : list Z) (r : io_Reader) (cur : Value) (rest : list Z) :
  sound_schema NamedMap gtn = true ->
  sound_schema NamedMap gti = true ->
  incl (Fields gti) (Fields gtn) ->
  emitCborMarshalStructMap M gtn = OK m ->
  m (Some (VStruct fs)) = OK out ->
  pending (GetPeeker r) = out ++ rest ->
  exists u fs' br',
    emitCborUnmarshalStructMap U gti = OK u /\
    u r cur = OK (VStruct fs', br') /\ pending br' = rest /\
    (forall f, In f (Fields gti) -> assoc (Name f) fs' = assoc (Name f) fs) /\
    (forall x, ~ In x (List.map Name (Fields gti)) -> assoc x fs' = None).
Proof.
  intros Hsn Hso Hincl Hm Hout Hp.
  unfold sound_schema in Hsn. apply andb_prop in Hsn as [Hnames Hsn].
  apply andb_prop in Hsn as [Hkeys Hcount].
  apply distinct_NoDup in Hnames, Hkeys. apply Z.leb_le in Hcount.
  unfold sound_schema in Hso. apply andb_prop in Hso as [Hnames' Hso].
  apply andb_prop in Hso as [Hkeys' _].
  apply distinct_NoDup in Hnames', Hkeys'.
  unfold emitCborMarshalStructMap in Hm. inv_bind_as Hm encs Hencs.
  apply OK_inj in Hm. subst m.
  cbn beta iota in Hout. inv_bind_as Hout body Hbody. apply OK_inj in Hout. subst out.
  destruct (map_pairs_written M gtn fs (Fields gtn) encs body Hencs Hbody)
    as (chunks & -> & Hall).
  assert (Hdecs : exists decs, emit_fields (unmarshalField U gti) (Fields gti) = OK decs).
  { apply emit_fields_each. intros f Hf. apply Hincl in Hf.
    destruct (pair_written_emitted _ _ f Hall Hf) as [venc Hvenc].
    destruct (unmarshalField_total M U gtn f venc Hvenc) as [dec Hdec].
    exists dec. exact (unmarshalField_any_record U gtn gti f dec Hdec). }
  destruct Hdecs as [decs Hdecs].
  unfold emitCborUnmarshalStructMap, emitCborUnmarshalStringField. cbn [Pointer bind].
  rewrite Hdecs. cbn [bind].
  unfold MapHeader in Hp. rewrite uint64_small in Hp by (unfold MaxLength in Hcount; lia).
  rewrite <- app_assoc in Hp.
  destruct (read_header_pending _ MajMap (Z.of_nat (length (Fields gtn))) _
              ltac:(unfold MajMap; lia)
              ltac:(unfold MaxLength in Hcount; lia) Hp) as (br1 & Hr1 & Hp1).
  match goal with |- exists u fs' br', OK ?f = OK u /\ _ => exists f end.
  cbn beta zeta. rewrite Hr1. cbn [bind].
  change (negb (MajMap =? MajMap)) with false. cbn iota.
  assert ((Z.of_nat (length (Fields gtn)) >? MaxLength) = false) as ->
    by (rewrite Z.gtb_ltb; apply Z.ltb_ge; lia).
  rewrite Nat2Z.id.
  assert (Hsame : forall f, In f (Fields gtn) -> known_key gti f = true -> In f (Fields gti)).
  { intros f Hf Hk. apply known_key_spec in Hk. apply List.in_map_iff in Hk as (g & Hg & Hin).
    assert (g = f); [| subst g; exact Hin].
    pose proof (Hincl g Hin) as Hgn. clear - Hkeys Hg Hgn Hf.
    induction (Fields gtn) as [| a l IH]; [destruct Hf |].
    cbn [List.map] in Hkeys. inversion Hkeys as [| ? ? Ha Hkeys']; subst.
    destruct Hf as [-> | Hf], Hgn as [-> | Hgn]; try reflexivity.
    - exfalso. apply Ha. rewrite <- Hg. apply List.in_map. exact Hgn.
    - exfalso. apply Ha. rewrite Hg. apply List.in_map. exact Hf.
    - exact (IH Hkeys' Hf Hgn). }
  destruct (map_pairs_read_or_skipped r _ decs eq_refl Hdecs Hkeys'
              (Fields gtn) chunks Hall) with (done := @nil (string * Value))
              (name0 := EmptyString) (from := O) (br := br1) (rest := rest)
    as (name' & br' & Hr & Hp').
  - apply List.Forall_forall. intros f Hf. split; [| exact (Hsame f Hf)].
    rewrite List.Forall_forall in Hwf. apply Hwf. exact Hf.
  - exact Hnames.
  - exact Hp1.
  - unfold emitCborUnmarshalStringField in Hr. cbn [name_field Pointer] in Hr.
    rewrite Hr. cbn [bind app]. eexists _, _. split; [reflexivity |].
    split; [reflexivity |]. split; [exact Hp' |].
    assert (Hkeptnd : List.NoDup (List.map Name (List.filter (known_key gti) (Fields gtn)))).
    { clear - Hnames. induction (Fields gtn) as [| a l IH]; [constructor |].
      cbn [List.map List.filter] in *. inversion Hnames as [| ? ? Ha Hnd]; subst.
      destruct (known_key gti a); [| exact (IH Hnd)].
      cbn [List.map]. constructor; [| exact (IH Hnd)].
      intros Hin. apply Ha. apply List.in_map_iff in Hin as (g & Hg & Hin).
      apply List.filter_In in Hin as [Hin _]. rewrite <- Hg. apply List.in_map. exact Hin. }
    split.
    + intros f Hf. pose proof (Hincl f Hf) as Hfn.
      rewrite (assoc_listed fs _ f Hkeptnd).
      2:{ apply List.filter_In. split; [exact Hfn |]. apply known_key_spec.
          apply List.in_map. exact Hf. }
      rewrite <- (record_listed _ _ Hlisted Hnames) at 2.
      symmetry. apply assoc_listed; assumption.
    + intros x Hx. apply assoc_not_in. intros Hin. apply Hx.
      rewrite List.map_map in Hin. cbn [fst] in Hin.
      apply List.in_map_iff in Hin as (g & Hg & Hin).
      apply List.filter_In in Hin as [Hin Hk].
      rewrite <- Hg. apply List.in_map. exact (Hsame g Hin Hk).
Qed.

End OlderDecoder.

(** X17: a record in named-map form can grow: the decoder generated from a
    schema reads what the encoder generated from a schema with more fields
    writes.  It consumes the whole record, fills the fields it has with the
    values written and keeps nothing of the others. *)
Theorem older_decoder_reads_a_grown_record `{External} (env : TypeEnv) (depth : nat)
    (gti gtn : GenTypeInfo) (fs : list (string * Value)) (out : list Z)
    (cur : Value) (rest : list Z) :
  sound_schema NamedMap gti = true ->
  sound_schema NamedMap gtn = true ->
  incl (Fields gti) (Fields gtn) ->
  same_names (List.map fst fs) (List.map Name (Fields gtn)) = true ->
  forallb (fun f => well_formed (good_record env depth) (static_type f) (field_value fs f))
    (Fields gtn) = true ->
  Marshal env depth NamedMap gtn (VStruct fs) = OK out ->
  exists fs' br',
    Unmarshal env depth NamedMap gti cur (out ++ rest) = OK (VStruct fs', br') /\
    pending br' = rest /\
    (forall f, In f (Fields gti) -> assoc (Name f) fs' = assoc (Name f) fs) /\
    (forall x, ~ In x (List.map Name (Fields gti)) -> assoc x fs' = None).
Proof.
  intros Hso Hsn Hincl Hnames Hfields Hout.
  apply same_names_eq in Hnames. apply forallb_Forall in Hfields.
  unfold Marshal in Hout. inv_bind_as Hout m Em.
  destruct (older_decoder_reads _ _ _ (linked_roundtrip env depth) (linked_items env depth)
              gti gtn fs Hnames Hfields m out (ordinary (out ++ rest)) cur rest
              Hsn Hso Hincl Em Hout eq_refl)
    as (u & fs' & br' & Hu & Hr & Hp & Hold & Hnew).
  exists fs', br'. unfold Unmarshal. cbn [emitCborUnmarshalStruct]. rewrite Hu. cbn [bind].
  split; [exact Hr |]. split; [exact Hp |]. split; [exact Hold | exact Hnew].
Qed.

Lemma older_decoder_reads_a_grown_record_witness :
  exists fs' br',
    Unmarshal (H := no_External) testing_env 2 NamedMap S0 (VStruct [("A", VUint 9)])
      ([163; 97; 65; 1; 102; 79; 116; 104; 101; 114; 115; 130; 2; 25; 1; 44;
        99; 79; 110; 101; 133; 96; 0; 64; 0; 96] ++ [255])
    = OK (VStruct fs', br') /\
    pending br' = [255] /\
    assoc "A" fs' = Some (VUint 1) /\
    assoc "Others" fs' = None /\ assoc "One" fs' = None.
Proof.
  destruct (@older_decoder_reads_a_grown_record no_External testing_env 2 S0 S0_grown grown
              [163; 97; 65; 1; 102; 79; 116; 104; 101; 114; 115; 130; 2; 25; 1; 44;
               99; 79; 110; 101; 133; 96; 0; 64; 0; 96]
              (VStruct [("A", VUint 9)]) [255])
    as (fs' & br' & Hr & Hp & Hold & Hnew).
  - reflexivity.
  - reflexivity.
  - intros f [<- | []]. left. reflexivity.
  - reflexivity.
  - vm_compute. reflexivity.
  - vm_compute. reflexivity.
  - exists fs', br'. split; [exact Hr |]. split; [exact Hp |].
    split; [exact (Hold S0_A (or_introl eq_refl)) |].
    split; apply Hnew; cbn; intros [E | []]; discriminate E.
Defined.

(** X18: what the generated [MarshalCBOR] of a record type writes for a
    well-formed value is one complete data item: the link scanner of the
    runtime library, started in front of it, reports no error and stops
    right after it, on the caller's reader and on the peekable one. *)
Theorem encoded_record_is_one_item `{External} (env : TypeEnv) (depth : nat) (t : GoType)
    (v : Value) (bs rest : list Z) :
  good_record env depth t v = true ->
  MarshalCBOR env depth t (Some v) = OK bs ->
  ScanForLinks (bs ++ rest) = (None, rest) /\
  forall br, pending br = bs ++ rest ->
    exists br', ScanForLinks br = (None, br') /\ pending br' = rest.
Proof.
  intros Hg Hm.
  pose proof (proj2 (linked_items env depth) t v bs (good_record_regular _ _ _ _ Hg) Hg Hm)
    as Hitem.
  split.
  - destruct (scan_items_skips (fun l : list Z => l) bytes_reader_lawful 1 bs Hitem
                (Len (bs ++ rest)) (bs ++ rest) rest) as (r' & Hs & Hr').
    + cbn [Len bytes_Reader]. rewrite length_app. lia.
    + reflexivity.
    + unfold ScanForLinks. change (Z.of_nat 1) with 1 in Hs. rewrite Hs, Hr'. reflexivity.
  - intros br Hp.
    destruct (scan_items_skips pending peeker_reader_lawful 1 bs Hitem
                (Len br) br rest) as (br' & Hs & Hp').
    + cbn [Len peeker_Reader]. rewrite Hp, length_app. lia.
    + exact Hp.
    + unfold ScanForLinks. change (Z.of_nat 1) with 1 in Hs. rewrite Hs. eauto.
Qed.

Lemma encoded_record_is_one_item_witness :
  ScanForLinks (two_bytes ++ [1; 2; 3]) = (None, [1; 2; 3]).
Proof.
  apply (@encoded_record_is_one_item no_External testing_env 3
           (reflect.StructOf testing "SimpleTypeTwo") two_listed two_bytes [1; 2; 3]).
  - vm_compute. reflexivity.
  - vm_compute. reflexivity.
Defined.

(** X19: the encoding of a record is unambiguous and delimits itself: if
    the bytes written for one well-formed value, followed by anything, are
    the bytes written for another well-formed value of the same type,
    followed by anything, then the two values are the same, and so are what
    was written and what follows.  In particular two values with the same
    encoding are equal, and no encoding is the beginning of another. *)
Theorem encoding_is_unambiguous `{External} (env : TypeEnv) (depth : nat) (t : GoType)
    (v1 v2 : Value) (bs1 bs2 rest1 rest2 : list Z) :
  good_record env depth t v1 = true ->
  good_record env depth t v2 = true ->
  MarshalCBOR env depth t (Some v1) = OK bs1 ->
  MarshalCBOR env depth t (Some v2) = OK bs2 ->
  bs1 ++ rest1 = bs2 ++ rest2 ->
  v1 = v2 /\ bs1 = bs2 /\ rest1 = rest2.
Proof.
  intros Hg1 Hg2 Hm1 Hm2 Happ.
  destruct (proj2 (linked_roundtrip env depth) t v1 bs1 (good_record_regular _ _ _ _ Hg1) Hg1 Hm1)
    as [_ Hrb1].
  destruct (proj2 (linked_roundtrip env depth) t v2 bs2 (good_record_regular _ _ _ _ Hg2) Hg2 Hm2)
    as [_ Hrb2].
  destruct (Hrb1 (zero_value t) (GetPeeker (ordinary (bs1 ++ rest1))) rest1 eq_refl)
    as (br1 & Hr1 & Hp1).
  destruct (Hrb2 (zero_value t) (GetPeeker (ordinary (bs1 ++ rest1))) rest2 Happ)
    as (br2 & Hr2 & Hp2).
  rewrite Hr1 in Hr2. apply OK_inj in Hr2.
  assert (Hv : v1 = v2) by congruence.
  assert (Hrest : rest1 = rest2) by congruence.
  split; [exact Hv |]. split; [| exact Hrest].
  rewrite <- Hrest in Happ. apply app_inv_tail in Happ. exact Happ.
Qed.

Lemma encoding_is_unambiguous_witness :
  two_listed = two_listed /\ two_bytes = two_bytes /\ [7] = [7].
Proof.
  apply (@encoding_is_unambiguous no_External testing_env 3
           (reflect.StructOf testing "SimpleTypeTwo") two_listed two_listed two_bytes two_bytes
           [7] [7]).
  - vm_compute. reflexivity.
  - vm_compute. reflexivity.
  - vm_compute. reflexivity.
  - vm_compute. reflexivity.
  - reflexivity.
Defined.

(** ** Unknown keys anywhere in a record in named-map form *)

Section UnknownKeys.
Context `{External}.
Variable M : GoType -> option Value -> result (list Z).
Variable U : GoType -> Value -> peeker -> result (Value * peeker).
Variable good : GoType -> Value -> bool.
Hypothesis HMU : methods_roundtrip M U good.

Variable gti : GenTypeInfo.
Variable fs : list (string * Value).

(** The loop of the decoder over pairs of fields of the schema and pairs
    with other keys, in any order: the first fill their fields, the others
    are skipped, and the loop goes on to the last pair. *)
Lemma incoming_pairs_read (r : io_Reader) (kdec : Decoder) (decs : list (Field * Decoder)) :
  emitCborUnmarshalStringField name_field = OK kdec ->
  emit_fields (unmarshalField U gti) (Fields gti) = OK decs ->
  List.NoDup (List.map MapKey (Fields gti)) ->
  forall (pairs : list (option Field)) (chunks : list (list Z)),
    Forall2 (incoming_pair M good gti fs) pairs chunks ->
    forall (done : list (string * Value)) (name0 : string) (from : nat)
           (br : peeker) (rest : list Z),
      List.NoDup (List.map fst done ++ List.map Name (fields_read pairs)) ->
      pending br = concat chunks ++ rest ->
      exists name' br',
        for_range from (length pairs) (fun _ => map_iteration r kdec decs) (name0, done, br)
        = OK (name',
              done ++ List.map (fun f => (Name f, field_value fs f)) (fields_read pairs), br') /\
        pending br' = rest.
Proof.
  intros Hkdec Hdecs Hkeys pairs chunks Hall.
  unfold emitCborUnmarshalStringField in Hkdec. cbn [name_field Pointer] in Hkdec.
  apply OK_inj in Hkdec. subst kdec.
  induction Hall as [| o c pairs chunks Hc Hall IH]; intros done name0 from br rest Hnd Hp.
  - exists name0, br. cbn [length for_range List.map fields_read flat_map].
    rewrite app_nil_r. eauto.
  - cbn [length for_range concat] in *. rewrite <- app_assoc in Hp.
    destruct Hc as [f c Hin Hf (Hlen & venc & vb & Hvenc & Hvb & ->) | k vb Hk Hlen Hvb].
    + cbn [fields_read flat_map app List.map] in Hnd |- *. fold (fields_read pairs) in Hnd |- *.
      rewrite <- app_assoc in Hp.
      destruct (ReadStringBuf_at_rest br (MapKey f) _ Hlen Hp) as (lb & Hr1).
      unfold map_iteration at 1. rewrite Hr1. cbn [bind].
      destruct (find_case_found (unmarshalField U gti) (Fields gti) decs f Hdecs Hkeys Hin)
        as (dec & Hfind & Hdec).
      rewrite Hfind.
      assert (Hfresh : ~ In (Name f) (List.map fst done)).
      { apply List.NoDup_remove_2 in Hnd. intros Hin'. apply Hnd.
        apply List.in_or_app. left. exact Hin'. }
      destruct (field_reads_back M U good HMU gti f venc dec _ vb Hf Hvenc Hdec Hvb
                  (at_rest (vb ++ concat chunks ++ rest) lb) _ eq_refl)
        as (br2 & Hr2 & Hp2).
      unfold decode_into. rewrite (field_value_fresh done f Hfresh), Hr2. cbn [bind].
      rewrite assoc_set_fresh by exact Hfresh.
      destruct (IH (done ++ [(Name f, field_value fs f)]) (MapKey f) (S from) br2 rest)
        as (name' & br' & Hr & Hp').
      * rewrite List.map_app, <- app_assoc. exact Hnd.
      * exact Hp2.
      * rewrite Hr. rewrite <- app_assoc. eauto.
    + cbn [fields_read flat_map app] in Hnd |- *. fold (fields_read pairs) in Hnd |- *.
      rewrite <- app_assoc in Hp.
      destruct (ReadStringBuf_at_rest br k _ Hlen Hp) as (lb & Hr1).
      unfold map_iteration at 1. rewrite Hr1. cbn [bind].
      rewrite find_case_None by (rewrite (emit_fields_keys _ _ _ Hdecs); exact Hk).
      destruct (skip_site_skips r (at_rest (vb ++ concat chunks ++ rest) lb) vb
                  (concat chunks ++ rest) Hvb eq_refl eq_refl) as (e & br2 & Hs & Hp2).
      rewrite Hs. cbn beta iota zeta. cbn [bind].
      destruct (IH done k (S from) br2 rest Hnd Hp2) as (name' & br' & Hr & Hp').
      rewrite Hr. eauto.
Qed.

End UnknownKeys.

(** C7: in named-map form a key that matches no field of the schema is not
    an error.  The iteration that reads it calls the link scanner on the
    value, leaves the record as it is and goes on.  So an input made of
    pairs of fields of the schema and of pairs with other keys, each
    followed by one complete item, in any number and any order, is decoded
    to the end: the result lists the fields that came with their values,
    every other field of the schema is at its zero value, and the bytes
    after the last pair are left.  Under [S0], the map with the pairs A=1
    and B=2 decodes to the record with A=1. *)
Theorem named_map_unknown_key_skipped `{External} (env : TypeEnv) (depth : nat)
    (gti : GenTypeInfo) (u : Unmarshaler) (fs : list (string * Value))
    (pairs : list (option Field)) (chunks : list (list Z))
    (r : io_Reader) (cur : Value) (rest : list Z) :
  sound_schema NamedMap gti = true ->
  emitCborUnmarshalStructMap (UnmarshalCBOR env depth) gti = OK u ->
  Forall2 (incoming_pair (MarshalCBOR env depth) (good_record env depth) gti fs) pairs chunks ->
  distinct (List.map Name (fields_read pairs)) = true ->
  Z.of_nat (length chunks) <= MaxLength ->
  pending (GetPeeker r)
  = CborEncodeMajorType MajMap (Z.of_nat (length chunks)) ++ concat chunks ++ rest ->
  (exists br',
     u r cur
     = OK (VStruct (List.map (fun f => (Name f, field_value fs f)) (fields_read pairs)), br') /\
     pending br' = rest /\
     forall g, ~ In (Name g) (List.map Name (fields_read pairs)) ->
       field_value (List.map (fun f => (Name f, field_value fs f)) (fields_read pairs)) g
       = zero_value (static_type g)) /\
  (forall (r0 : io_Reader) (kdec : Decoder) (decs : list (Field * Decoder))
          (name0 name : string) (fs0 : list (string * Value)) (br br1 : peeker),
     emit_fields (unmarshalField (UnmarshalCBOR env depth) gti) (Fields gti) = OK decs ->
     emitCborUnmarshalStringField name_field = OK kdec ->
     ReadStringBuf br = OK (name, br1) ->
     ~ In name (List.map MapKey (Fields gti)) ->
     map_iteration r0 kdec decs (name0, fs0, br)
     = OK (name, fs0, snd (ScanForLinks_r r0 br1))) /\
  exists dec,
    emitCborUnmarshalStructMap (UnmarshalCBOR env depth) S0 = OK dec /\
    dec (ordinary [162; 97; 65; 1; 97; 66; 2]) cur
    = OK (VStruct [("A", VUint 1)], at_rest [] (Some 66)).
Proof.
  intros Hsound Hu Hall Hdist Hcount Hp. split; [| split].
  - unfold sound_schema in Hsound. apply andb_prop in Hsound as [_ Hsound].
    apply andb_prop in Hsound as [Hkeys _]. apply distinct_NoDup in Hkeys, Hdist.
    unfold emitCborUnmarshalStructMap in Hu. inv_bind_as Hu kdec Hkdec.
    inv_bind_as Hu decs Hdecs. apply OK_inj in Hu. subst u.
    destruct (read_header_pending _ MajMap (Z.of_nat (length chunks)) _
                ltac:(unfold MajMap; lia) ltac:(unfold MaxLength in Hcount; lia) Hp)
      as (br1 & Hr1 & Hp1).
    cbn beta zeta. rewrite Hr1. cbn [bind].
    change (negb (MajMap =? MajMap)) with false. cbn iota.
    assert ((Z.of_nat (length chunks) >? MaxLength) = false) as ->
      by (rewrite Z.gtb_ltb; apply Z.ltb_ge; lia).
    rewrite Nat2Z.id, <- (Forall2_length _ _ _ Hall).
    destruct (incoming_pairs_read _ _ _ (linked_roundtrip env depth) gti fs r kdec decs
                Hkdec Hdecs Hkeys pairs chunks Hall [] EmptyString O br1 rest Hdist Hp1)
      as (name' & br' & Hr & Hp').
    rewrite Hr. cbn [bind app]. exists br'. split; [reflexivity |]. split; [exact Hp' |].
    intros g Hg. apply field_value_fresh. rewrite List.map_map. cbn [fst]. exact Hg.
  - intros r0 kdec decs name0 name fs0 br br1 Hdecs Hkdec Hread Hnot.
    unfold emitCborUnmarshalStringField in Hkdec. cbn [name_field Pointer] in Hkdec.
    apply OK_inj in Hkdec. subst kdec. unfold map_iteration. rewrite Hread. cbn [bind].
    rewrite find_case_None
      by (rewrite (emit_fields_keys _ _ _ Hdecs); exact Hnot).
    destruct (ScanForLinks_r r0 br1) as [e br2]. reflexivity.
  - eexists. split; reflexivity.
Qed.

Lemma named_map_unknown_key_skipped_witness :
  exists br',
    generated (fun _ _ => Err "no code was generated")
      (emitCborUnmarshalStructMap (H := no_External)
         (UnmarshalCBOR (H := no_External) testing_env 1) S0)
      (ordinary [163; 97; 66; 2; 97; 65; 1; 97; 67; 130; 1; 2; 255])
      (VStruct [("A", VUint 9)])
    = OK (VStruct [("A", VUint 1)], br') /\
    pending br' = [255].
Proof.
  destruct (@named_map_unknown_key_skipped no_External testing_env 1 S0
              (generated (fun _ _ => Err "no code was generated")
                 (emitCborUnmarshalStructMap (H := no_External)
                    (UnmarshalCBOR (H := no_External) testing_env 1) S0))
              [("A", VUint 1)]
              [None; Some S0_A; None]
              [text_item "B" ++ [2]; [97; 65; 1]; text_item "C" ++ [130; 1; 2]]
              (ordinary [163; 97; 66; 2; 97; 65; 1; 97; 67; 130; 1; 2; 255])
              (VStruct [("A", VUint 9)]) [255])
    as [(br' & Hr & Hp & _) _].
  - reflexivity.
  - reflexivity.
  - constructor; [| constructor; [| constructor; [| constructor]]].
    + apply pair_unknown.
      * cbn. intros [E | []]. discriminate E.
      * vm_compute. discriminate.
      * apply (items_plain MajUnsignedInt 2 0 []); [auto | lia | constructor].
    + apply pair_known.
      * left. reflexivity.
      * reflexivity.
      * split; [vm_compute; discriminate |].
        eexists _, _. split; [reflexivity |]. split; reflexivity.
    + apply pair_unknown.
      * cbn. intros [E | []]. discriminate E.
      * vm_compute. discriminate.
      * apply (items_array 2 0 [1; 2]); [lia |].
        apply (items_plain MajUnsignedInt 1 1 [2]); [auto | lia |].
        apply (items_plain MajUnsignedInt 2 0 []); [auto | lia | constructor].
  - reflexivity.
  - vm_compute. discriminate.
  - reflexivity.
  - exists br'. split; [exact Hr | exact Hp].
Defined.
